(** * Memory SSA construction (lib/MSSA/MemSSA.cpp)

    A shallow embedding of the memory-SSA builder of SVF: creation of
    mu/chi nodes, phi insertion over the dominance frontier and the
    renaming walk over the dominator tree, together with the properties
    the design document states about them.

    Pointers to IR objects (memory regions, basic blocks, functions, PAG
    edges, call sites) are modelled by their identity, a number.  Member
    maps of [MemSSA] are finite maps, and [m[k]] inserts the default value
    where C++ does.  [std::vector]s are lists whose back is the end of
    the list.  Region sets and frontier sets are finite sets, visited in
    the order of [elements].  The sets of node pointers ([MUSet],
    [CHISet], [PHISet]) hold distinct objects and are lists in the order
    of creation; a node is updated in place by storing the renamed list
    back under its key.

    The worklist loop of [insertPHI] and the recursion of [SSARenameBB]
    take fuel; that enough fuel exists is proved ([insertPHI_spec],
    [buildMemSSA_total]). *)

From Stdlib Require Import NArith String.
From stdpp Require Import gmap list sets strings relations.

Local Open Scope N_scope.

(** ** Outcomes of a run

    [Fatal] is a failed [assert]; [Undefined] is an operation without
    defined behaviour ([back] or [pop_back] of an empty vector);
    [OutOfFuel] is an artefact of the embedding of loops and recursion
    and never an outcome of the program. *)

Inductive Result (A : Type) : Type :=
  | Ok (a : A)
  | Fatal (msg : string)
  | Undefined (what : string)
  | OutOfFuel.
Arguments Ok {A} a.
Arguments Fatal {A} msg%_string.
Arguments Undefined {A} what%_string.
Arguments OutOfFuel {A}.

#[global] Instance Result_ret : MRet Result := fun A a => Ok a.
#[global] Instance Result_bind : MBind Result := fun A B f r =>
  match r with
  | Ok a => f a
  | Fatal m => Fatal m
  | Undefined w => Undefined w
  | OutOfFuel => OutOfFuel
  end.

Definition isOk {A} (r : Result A) : Prop := exists a, r = Ok a.
Definition isFatal {A} (r : Result A) : Prop := exists m, r = Fatal m.

(** ** Data model *)

Abbreviation MemRegion := N (only parsing).
Abbreviation BasicBlock := N (only parsing).
Abbreviation FunctionId := N (only parsing).
Abbreviation LoadPE := N (only parsing).
Abbreviation StorePE := N (only parsing).
Abbreviation CallBlockNode := N (only parsing).
(** Modelled from the spec: the declaration of [MRVERSION] is in a header
    that is not part of the sources at hand; versions are "non-negative
    integers starting at 0". *)
Abbreviation MRVERSION := N (only parsing).
Abbreviation MRSet := (gset N) (only parsing).
Abbreviation MRVector := (list N) (only parsing).
Abbreviation BBList := (list N) (only parsing).

(** Where a chi node is attached ([STORECHI], [CALLCHI], [ENTRYCHI]). *)
Inductive CHISite :=
  | StoreCHISite (bb : BasicBlock) (store : StorePE)
  | CallCHISite (cs : CallBlockNode)
  | EntryCHISite (fn : FunctionId).

(** Where a mu node is attached ([LOADMU], [CALLMU], [RETMU]). *)
Inductive MUSite :=
  | LoadMUSite (bb : BasicBlock) (load : LoadPE)
  | CallMUSite (cs : CallBlockNode)
  | RetMUSite (fn : FunctionId).

(** The [MSSADEF*] stored in a version: the node is named by its site and
    region. *)
Inductive MSSADEF :=
  | DefCHI (site : CHISite) (mr : MemRegion)
  | DefPHI (bb : BasicBlock) (mr : MemRegion).

Record MRVer := mkMRVer {
  ver_mr : MemRegion;
  ver_version : MRVERSION;
  ver_def : MSSADEF
}.

Record MU := mkMU {
  mu_site : MUSite;
  mu_mr : MemRegion;
  mu_ver : option MRVer
}.

Record CHI := mkCHI {
  chi_site : CHISite;
  chi_mr : MemRegion;
  chi_opVer : option MRVer;
  chi_resVer : option MRVer
}.

Record PHI := mkPHI {
  phi_bb : BasicBlock;
  phi_mr : MemRegion;
  phi_resVer : option MRVer;
  phi_opVers : gmap nat MRVer
}.

#[global] Instance CHISite_eq_dec : EqDecision CHISite.
Proof. solve_decision. Defined.
#[global] Instance MUSite_eq_dec : EqDecision MUSite.
Proof. solve_decision. Defined.
#[global] Instance MSSADEF_eq_dec : EqDecision MSSADEF.
Proof. solve_decision. Defined.
#[global] Instance MRVer_eq_dec : EqDecision MRVer.
Proof. solve_decision. Defined.

(** ** The program under analysis

    What the builder reads from the IR and from the region generator
    [mrGen]; all of it is computed upstream. *)

Inductive PAGEdge :=
  | LoadEdge (load : LoadPE)
  | StoreEdge (store : StorePE)
  | OtherEdge.

Record Instruction := mkInst {
  inst_hasPAGEdgeList : bool;            (* mrGen->hasPAGEdgeList(inst) *)
  inst_pagEdges : list PAGEdge;          (* mrGen->getPAGEdgesFromInst(inst) *)
  inst_callSite : option CallBlockNode;  (* isNonInstricCallSite, getCallBlockNode *)
  inst_isReturn : bool                   (* isReturn(inst) *)
}.

Record BasicBlockData := mkBB {
  bb_parent : FunctionId;
  bb_insts : list Instruction;
  bb_succs : list BasicBlock;   (* succ_begin .. succ_end *)
  bb_preds : list BasicBlock    (* pred_begin .. pred_end *)
}.

Record SVFFunction := mkFun {
  fun_id : FunctionId;
  fun_isExtCall : bool;          (* isExtCall(&fun) *)
  fun_doesNotRet : bool;         (* functionDoesNotRet(fun.getLLVMFun()) *)
  fun_entryBlock : BasicBlock;
  fun_reachableBBs : BBList      (* getFunReachableBBs *)
}.

(** The region generator: the regions of loads, stores and call sites. *)
Record MRGenerator := mkMRGen {
  getLoadMRSet : LoadPE -> MRSet;
  getStoreMRSet : StorePE -> MRSet;
  hasRefMRSet : CallBlockNode -> bool;
  getCallSiteRefMRSet : CallBlockNode -> MRSet;
  hasModMRSet : CallBlockNode -> bool;
  getCallSiteModMRSet : CallBlockNode -> MRSet
}.

(** The IR: the contents of a basic block and the block of a call site. *)
Record Program := mkProgram {
  mrGen : MRGenerator;
  getBB : BasicBlock -> BasicBlockData;
  callSiteBB : CallBlockNode -> BasicBlock
}.

(** [DominanceFrontier]: block to frontier set; [DominatorTree]: block to
    the blocks of the children of its tree node, absent when the block
    has no node. *)
Abbreviation DominanceFrontier := (gmap N (gset N)) (only parsing).
Abbreviation DominatorTree := (gmap N (list N)) (only parsing).

(** ** The builder's state *)

(** History of the operations on the version stacks (ghost state, used to
    count pushes and pops). *)
Inductive StackOp :=
  | StPush (mr : MemRegion) (v : MRVer)
  | StPop (mr : MemRegion)
  | StClear (mr : MemRegion).

Record MemSSA := mkMemSSA {
  df : option (gmap N (gset N));
  dt : option (gmap N (list N));
  usedRegs : gset N;
  reg2BBMap : gmap N (list N);
  varKills : gset N;
  mr2CounterMap : gmap N N;
  mr2VerStackMap : gmap N (list MRVer);
  load2MuSetMap : gmap N (list MU);
  store2ChiSetMap : gmap N (list CHI);
  callsiteToMuSetMap : gmap N (list MU);
  callsiteToChiSetMap : gmap N (list CHI);
  funToEntryChiSetMap : gmap N (list CHI);
  funToReturnMuSetMap : gmap N (list MU);
  bb2PhiSetMap : gmap N (list PHI);
  wrnMsgs : list string;
  stackLog : list StackOp
}.

(** A freshly constructed [MemSSA]: [df(NULL), dt(NULL)], empty maps. *)
Definition initMemSSA : MemSSA :=
  mkMemSSA None None ∅ ∅ ∅ ∅ ∅ ∅ ∅ ∅ ∅ ∅ ∅ ∅ [] [].

Definition upd_usedRegs (f : gset N -> gset N) (s : MemSSA) : MemSSA :=
  mkMemSSA (df s) (dt s) (f (usedRegs s)) (reg2BBMap s) (varKills s)
    (mr2CounterMap s) (mr2VerStackMap s) (load2MuSetMap s) (store2ChiSetMap s)
    (callsiteToMuSetMap s) (callsiteToChiSetMap s) (funToEntryChiSetMap s)
    (funToReturnMuSetMap s) (bb2PhiSetMap s) (wrnMsgs s) (stackLog s).
Definition upd_reg2BBMap (f : gmap N (list N) -> gmap N (list N)) (s : MemSSA) : MemSSA :=
  mkMemSSA (df s) (dt s) (usedRegs s) (f (reg2BBMap s)) (varKills s)
    (mr2CounterMap s) (mr2VerStackMap s) (load2MuSetMap s) (store2ChiSetMap s)
    (callsiteToMuSetMap s) (callsiteToChiSetMap s) (funToEntryChiSetMap s)
    (funToReturnMuSetMap s) (bb2PhiSetMap s) (wrnMsgs s) (stackLog s).
Definition upd_varKills (f : gset N -> gset N) (s : MemSSA) : MemSSA :=
  mkMemSSA (df s) (dt s) (usedRegs s) (reg2BBMap s) (f (varKills s))
    (mr2CounterMap s) (mr2VerStackMap s) (load2MuSetMap s) (store2ChiSetMap s)
    (callsiteToMuSetMap s) (callsiteToChiSetMap s) (funToEntryChiSetMap s)
    (funToReturnMuSetMap s) (bb2PhiSetMap s) (wrnMsgs s) (stackLog s).
Definition upd_mr2CounterMap (f : gmap N N -> gmap N N) (s : MemSSA) : MemSSA :=
  mkMemSSA (df s) (dt s) (usedRegs s) (reg2BBMap s) (varKills s)
    (f (mr2CounterMap s)) (mr2VerStackMap s) (load2MuSetMap s) (store2ChiSetMap s)
    (callsiteToMuSetMap s) (callsiteToChiSetMap s) (funToEntryChiSetMap s)
    (funToReturnMuSetMap s) (bb2PhiSetMap s) (wrnMsgs s) (stackLog s).
Definition upd_mr2VerStackMap (f : gmap N (list MRVer) -> gmap N (list MRVer))
    (s : MemSSA) : MemSSA :=
  mkMemSSA (df s) (dt s) (usedRegs s) (reg2BBMap s) (varKills s)
    (mr2CounterMap s) (f (mr2VerStackMap s)) (load2MuSetMap s) (store2ChiSetMap s)
    (callsiteToMuSetMap s) (callsiteToChiSetMap s) (funToEntryChiSetMap s)
    (funToReturnMuSetMap s) (bb2PhiSetMap s) (wrnMsgs s) (stackLog s).
Definition upd_load2MuSetMap (f : gmap N (list MU) -> gmap N (list MU)) (s : MemSSA) : MemSSA :=
  mkMemSSA (df s) (dt s) (usedRegs s) (reg2BBMap s) (varKills s)
    (mr2CounterMap s) (mr2VerStackMap s) (f (load2MuSetMap s)) (store2ChiSetMap s)
    (callsiteToMuSetMap s) (callsiteToChiSetMap s) (funToEntryChiSetMap s)
    (funToReturnMuSetMap s) (bb2PhiSetMap s) (wrnMsgs s) (stackLog s).
Definition upd_store2ChiSetMap (f : gmap N (list CHI) -> gmap N (list CHI)) (s : MemSSA) : MemSSA :=
  mkMemSSA (df s) (dt s) (usedRegs s) (reg2BBMap s) (varKills s)
    (mr2CounterMap s) (mr2VerStackMap s) (load2MuSetMap s) (f (store2ChiSetMap s))
    (callsiteToMuSetMap s) (callsiteToChiSetMap s) (funToEntryChiSetMap s)
    (funToReturnMuSetMap s) (bb2PhiSetMap s) (wrnMsgs s) (stackLog s).
Definition upd_callsiteToMuSetMap (f : gmap N (list MU) -> gmap N (list MU)) (s : MemSSA) : MemSSA :=
  mkMemSSA (df s) (dt s) (usedRegs s) (reg2BBMap s) (varKills s)
    (mr2CounterMap s) (mr2VerStackMap s) (load2MuSetMap s) (store2ChiSetMap s)
    (f (callsiteToMuSetMap s)) (callsiteToChiSetMap s) (funToEntryChiSetMap s)
    (funToReturnMuSetMap s) (bb2PhiSetMap s) (wrnMsgs s) (stackLog s).
Definition upd_callsiteToChiSetMap (f : gmap N (list CHI) -> gmap N (list CHI)) (s : MemSSA) : MemSSA :=
  mkMemSSA (df s) (dt s) (usedRegs s) (reg2BBMap s) (varKills s)
    (mr2CounterMap s) (mr2VerStackMap s) (load2MuSetMap s) (store2ChiSetMap s)
    (callsiteToMuSetMap s) (f (callsiteToChiSetMap s)) (funToEntryChiSetMap s)
    (funToReturnMuSetMap s) (bb2PhiSetMap s) (wrnMsgs s) (stackLog s).
Definition upd_funToEntryChiSetMap (f : gmap N (list CHI) -> gmap N (list CHI)) (s : MemSSA) : MemSSA :=
  mkMemSSA (df s) (dt s) (usedRegs s) (reg2BBMap s) (varKills s)
    (mr2CounterMap s) (mr2VerStackMap s) (load2MuSetMap s) (store2ChiSetMap s)
    (callsiteToMuSetMap s) (callsiteToChiSetMap s) (f (funToEntryChiSetMap s))
    (funToReturnMuSetMap s) (bb2PhiSetMap s) (wrnMsgs s) (stackLog s).
Definition upd_funToReturnMuSetMap (f : gmap N (list MU) -> gmap N (list MU)) (s : MemSSA) : MemSSA :=
  mkMemSSA (df s) (dt s) (usedRegs s) (reg2BBMap s) (varKills s)
    (mr2CounterMap s) (mr2VerStackMap s) (load2MuSetMap s) (store2ChiSetMap s)
    (callsiteToMuSetMap s) (callsiteToChiSetMap s) (funToEntryChiSetMap s)
    (f (funToReturnMuSetMap s)) (bb2PhiSetMap s) (wrnMsgs s) (stackLog s).
Definition upd_bb2PhiSetMap (f : gmap N (list PHI) -> gmap N (list PHI)) (s : MemSSA) : MemSSA :=
  mkMemSSA (df s) (dt s) (usedRegs s) (reg2BBMap s) (varKills s)
    (mr2CounterMap s) (mr2VerStackMap s) (load2MuSetMap s) (store2ChiSetMap s)
    (callsiteToMuSetMap s) (callsiteToChiSetMap s) (funToEntryChiSetMap s)
    (funToReturnMuSetMap s) (f (bb2PhiSetMap s)) (wrnMsgs s) (stackLog s).
Definition upd_wrnMsgs (f : list string -> list string) (s : MemSSA) : MemSSA :=
  mkMemSSA (df s) (dt s) (usedRegs s) (reg2BBMap s) (varKills s)
    (mr2CounterMap s) (mr2VerStackMap s) (load2MuSetMap s) (store2ChiSetMap s)
    (callsiteToMuSetMap s) (callsiteToChiSetMap s) (funToEntryChiSetMap s)
    (funToReturnMuSetMap s) (bb2PhiSetMap s) (f (wrnMsgs s)) (stackLog s).
Definition upd_stackLog (f : list StackOp -> list StackOp) (s : MemSSA) : MemSSA :=
  mkMemSSA (df s) (dt s) (usedRegs s) (reg2BBMap s) (varKills s)
    (mr2CounterMap s) (mr2VerStackMap s) (load2MuSetMap s) (store2ChiSetMap s)
    (callsiteToMuSetMap s) (callsiteToChiSetMap s) (funToEntryChiSetMap s)
    (funToReturnMuSetMap s) (bb2PhiSetMap s) (wrnMsgs s) (f (stackLog s)).

(** [m[k]] of a [std::map]: the value at [k], default-constructed when
    absent. *)
Definition at_key {V} (dflt : V) (m : gmap N V) (k : N) : V := default dflt (m !! k).

(** ** [MemSSA::setCurrentDFDT] *)
Definition setCurrentDFDT (f : option (gmap N (gset N))) (t : option (gmap N (list N)))
    (s : MemSSA) : MemSSA :=
  mkMemSSA f t ∅ ∅ (varKills s)
    (mr2CounterMap s) (mr2VerStackMap s) (load2MuSetMap s) (store2ChiSetMap s)
    (callsiteToMuSetMap s) (callsiteToChiSetMap s) (funToEntryChiSetMap s)
    (funToReturnMuSetMap s) (bb2PhiSetMap s) (wrnMsgs s) (stackLog s).

(** ** [MemSSA::newSSAName] *)
Definition newSSAName (mr : MemRegion) (def : MSSADEF) (s : MemSSA) : Result (MRVer * MemSSA) :=
  match mr2CounterMap s !! mr with
  | None => Fatal "did not find initial version in map? "
  | Some version =>
    match mr2VerStackMap s !! mr with
    | None => Fatal "did not find initial stack in map? "
    | Some stack =>
      let s := upd_mr2CounterMap (<[mr := version + 1]>) s in
      let mrVer := mkMRVer mr version def in
      let s := upd_mr2VerStackMap (<[mr := stack ++ [mrVer]]>) s in
      let s := upd_stackLog (fun l => l ++ [StPush mr mrVer]) s in
      Ok (mrVer, s)
    end
  end.

(** ** Vectors

    [pop_back l] splits a non-empty vector into its front and its back
    element. *)
Definition pop_back {A} (l : list A) : option (list A * A) :=
  match rev l with
  | [] => None
  | x :: r => Some (rev r, x)
  end.

(** [v.back()] *)
Definition back {A} (l : list A) : option A := snd <$> pop_back l.

(** ** Loops

    A [for] loop over a container whose body may fail. *)
Fixpoint forEachM {A S : Type} (body : A -> S -> Result S) (l : list A) (s : S) : Result S :=
  match l with
  | [] => Ok s
  | a :: l' => s' ← body a s; forEachM body l' s'
  end.

(** A [for] loop whose body cannot fail. *)
Definition forEach {A S : Type} (body : A -> S -> S) (l : list A) (s : S) : S :=
  foldl (fun s a => body a s) s l.

Section Builder.

Variable P : Program.

(** ** Helpers declared in MemSSA.h *)

(** Modelled from the spec: [getDT] and [getDF] are defined in MemSSA.h,
    which is not part of the sources at hand; "missing dominance data" is
    a precondition violation that is "fatal, aborts construction for that
    function". *)
Definition getDT (s : MemSSA) : Result (gmap N (list N)) :=
  match dt s with
  | Some t => Ok t
  | None => Fatal "dt is NULL"
  end.

(** Modelled from the spec: [getDF] of MemSSA.h, as [getDT]. *)
Definition getDF (s : MemSSA) : Result (gmap N (gset N)) :=
  match df s with
  | Some f => Ok f
  | None => Fatal "df is NULL"
  end.

(** Modelled from the spec: [collectRegUses] and [collectRegDefs] are
    defined in MemSSA.h; the comment at the head of [createMUCHI] gives
    their effect: for [mu(r)] and [r = chi(r)], "if r not in varKills,
    global = global + r"; for a chi also "varKills = varKills + r" and
    "block(r) = block(r) + bb"; "a block appears at most once per region
    regardless of how many defs it contains". *)
Definition collectRegUses (mr : MemRegion) (s : MemSSA) : MemSSA :=
  if decide (mr ∈ varKills s) then s else upd_usedRegs (fun u => u ∪ {[mr]}) s.

(** Modelled from the spec: [collectRegDefs] of MemSSA.h, "varKills =
    varKills + r, block(r) = block(r) + bb", a block "at most once per
    region". *)
Definition collectRegDefs (bb : BasicBlock) (mr : MemRegion) (s : MemSSA) : MemSSA :=
  let s := upd_varKills (fun k => k ∪ {[mr]}) s in
  upd_reg2BBMap (fun m =>
    let bbs := at_key [] m mr in
    <[mr := if decide (bb ∈ bbs) then bbs else bbs ++ [bb]]> m) s.

(** Modelled from the spec: the [Add...] methods are defined in MemSSA.h;
    they create "a load-use node per (load, region)", "a store-def node
    per (store, region)", "a call-use/call-def node per (call site,
    region)" and "a phi node" at a block for a region, and record the
    region as used and, for a def, its block as locally defining. *)
Definition AddLoadMU (bb : BasicBlock) (load : LoadPE) (mr : MemRegion) (s : MemSSA) : MemSSA :=
  let mu := mkMU (LoadMUSite bb load) mr None in
  let s := upd_load2MuSetMap (fun m => <[load := at_key [] m load ++ [mu]]> m) s in
  collectRegUses mr s.

(** Modelled from the spec: [AddStoreCHI] of MemSSA.h, "a store-def node
    per (store, region)"; its block defines the region locally. *)
Definition AddStoreCHI (bb : BasicBlock) (store : StorePE) (mr : MemRegion) (s : MemSSA) : MemSSA :=
  let chi := mkCHI (StoreCHISite bb store) mr None None in
  let s := upd_store2ChiSetMap (fun m => <[store := at_key [] m store ++ [chi]]> m) s in
  let s := collectRegUses mr s in
  collectRegDefs bb mr s.

(** Modelled from the spec: [AddCallSiteMU] of MemSSA.h, "a call-use
    node per (call site, region)". *)
Definition AddCallSiteMU (cs : CallBlockNode) (mr : MemRegion) (s : MemSSA) : MemSSA :=
  let mu := mkMU (CallMUSite cs) mr None in
  let s := upd_callsiteToMuSetMap (fun m => <[cs := at_key [] m cs ++ [mu]]> m) s in
  collectRegUses mr s.

(** Modelled from the spec: [AddCallSiteCHI] of MemSSA.h, "a call-def
    node per (call site, region)"; the block of the call site defines the
    region locally. *)
Definition AddCallSiteCHI (cs : CallBlockNode) (mr : MemRegion) (s : MemSSA) : MemSSA :=
  let chi := mkCHI (CallCHISite cs) mr None None in
  let s := upd_callsiteToChiSetMap (fun m => <[cs := at_key [] m cs ++ [chi]]> m) s in
  let s := collectRegUses mr s in
  collectRegDefs (callSiteBB P cs) mr s.

(** Modelled from the spec: [AddMSSAPHI] of MemSSA.h, "insert a phi node"
    at a block for a region, its operand slots "left unfilled". *)
Definition AddMSSAPHI (bb : BasicBlock) (mr : MemRegion) (s : MemSSA) : MemSSA :=
  let phi := mkPHI bb mr None ∅ in
  upd_bb2PhiSetMap (fun m => <[bb := at_key [] m bb ++ [phi]]> m) s.

(** Modelled from the spec: the overloads of MemSSA.h that take a region
    set, a node "for every region" of the set. *)
Definition AddLoadMUs (bb : BasicBlock) (load : LoadPE) (mrs : MRSet) (s : MemSSA) : MemSSA :=
  forEach (AddLoadMU bb load) (elements mrs) s.
(** Modelled from the spec: as [AddLoadMUs]. *)
Definition AddStoreCHIs (bb : BasicBlock) (store : StorePE) (mrs : MRSet) (s : MemSSA) : MemSSA :=
  forEach (AddStoreCHI bb store) (elements mrs) s.
(** Modelled from the spec: as [AddLoadMUs]. *)
Definition AddCallSiteMUs (cs : CallBlockNode) (mrs : MRSet) (s : MemSSA) : MemSSA :=
  forEach (AddCallSiteMU cs) (elements mrs) s.
(** Modelled from the spec: as [AddLoadMUs]. *)
Definition AddCallSiteCHIs (cs : CallBlockNode) (mrs : MRSet) (s : MemSSA) : MemSSA :=
  forEach (AddCallSiteCHI cs) (elements mrs) s.

(** ** [MemSSA::createMUCHI] *)

(** The body of the loop over the PAG edges of an instruction. *)
Definition createMUCHI_edge (bb : BasicBlock) (e : PAGEdge) (s : MemSSA) : MemSSA :=
  match e with
  | LoadEdge load => AddLoadMUs bb load (getLoadMRSet (mrGen P) load) s
  | StoreEdge store => AddStoreCHIs bb store (getStoreMRSet (mrGen P) store) s
  | OtherEdge => s
  end.

(** The body of the loop over the instructions of a block. *)
Definition createMUCHI_inst (bb : BasicBlock) (inst : Instruction) (s : MemSSA) : MemSSA :=
  let s := if inst_hasPAGEdgeList inst
           then forEach (createMUCHI_edge bb) (inst_pagEdges inst) s
           else s in
  match inst_callSite inst with
  | Some cs =>
    let s := if hasRefMRSet (mrGen P) cs
             then AddCallSiteMUs cs (getCallSiteRefMRSet (mrGen P) cs) s else s in
    if hasModMRSet (mrGen P) cs
    then AddCallSiteCHIs cs (getCallSiteModMRSet (mrGen P) cs) s else s
  | None => s
  end.

(** The body of the loop over the reachable blocks. *)
Definition createMUCHI_bb (bb : BasicBlock) (s : MemSSA) : MemSSA :=
  let s := upd_varKills (fun _ => ∅) s in
  forEach (createMUCHI_inst bb) (bb_insts (getBB P bb)) s.

(** The body of the loop over [usedRegs]: the entry chi and the return
    mu of a region. *)
Definition createMUCHI_entry (fn : SVFFunction) (mr : MemRegion) (s : MemSSA) : Result MemSSA :=
  let s := upd_mr2CounterMap (<[mr := 0]>) s in
  let s := upd_mr2VerStackMap (<[mr := []]>) s in
  let s := upd_stackLog (fun l => l ++ [StClear mr]) s in
  let site := EntryCHISite (fun_id fn) in
  let chi := mkCHI site mr None None in
  '(opv, s) ← newSSAName mr (DefCHI site mr) s;
  let chi := mkCHI (chi_site chi) (chi_mr chi) (Some opv) (chi_resVer chi) in
  '(resv, s) ← newSSAName mr (DefCHI site mr) s;
  let chi := mkCHI (chi_site chi) (chi_mr chi) (chi_opVer chi) (Some resv) in
  let s := upd_funToEntryChiSetMap
             (fun m => <[fun_id fn := at_key [] m (fun_id fn) ++ [chi]]> m) s in
  if negb (fun_doesNotRet fn)
  then
    let mu := mkMU (RetMUSite (fun_id fn)) mr None in
    Ok (upd_funToReturnMuSetMap
          (fun m => <[fun_id fn := at_key [] m (fun_id fn) ++ [mu]]> m) s)
  else Ok s.

Definition createMUCHI (fn : SVFFunction) (s : MemSSA) : Result MemSSA :=
  _ ← getDT s;
  let s := forEach createMUCHI_bb (fun_reachableBBs fn) s in
  forEachM (createMUCHI_entry fn) (elements (usedRegs s)) s.

(** ** [MemSSA::insertPHI] *)

(** Modelled from the spec: [writeWrnMsg] is defined outside the sources
    at hand; the message is "reported as a warning, not fatal". *)
Definition writeWrnMsg (msg : string) (s : MemSSA) : MemSSA :=
  upd_wrnMsgs (fun l => l ++ [msg]) s.

(** The body of the loop over the dominance frontier [domSet] of a
    worklist block; the loop state is the worklist [bbs], the local
    [bb2MRSetMap] and the builder. *)
Definition insertPHI_frontier (mr : MemRegion) (pbb : BasicBlock)
    (st : list N * gmap N (gset N) * MemSSA) : list N * gmap N (gset N) * MemSSA :=
  let '(bbs, bb2MRSetMap, s) := st in
  let mrs := at_key ∅ bb2MRSetMap pbb in
  if decide (mr ∈ mrs)
  then (bbs, <[pbb := mrs]> bb2MRSetMap, s)
  else (bbs ++ [pbb], <[pbb := mrs ∪ {[mr]}]> bb2MRSetMap, AddMSSAPHI pbb mr s).

(** The [while (!bbs.empty())] loop of a region. *)
Fixpoint insertPHI_while (fuel : nat) (dfm : gmap N (gset N)) (mr : MemRegion)
    (bbs : list N) (bb2MRSetMap : gmap N (gset N)) (s : MemSSA)
    : Result (gmap N (gset N) * MemSSA) :=
  match fuel with
  | O => OutOfFuel
  | S fuel =>
    match pop_back bbs with
    | None => Ok (bb2MRSetMap, s)
    | Some (bbs, bb) =>
      match dfm !! bb with
      | None =>
        let s := writeWrnMsg "bb not in the dominance frontier map??" s in
        insertPHI_while fuel dfm mr bbs bb2MRSetMap s
      | Some domSet =>
        let '(bbs, bb2MRSetMap, s) :=
          forEach (insertPHI_frontier mr) (elements domSet) (bbs, bb2MRSetMap, s) in
        insertPHI_while fuel dfm mr bbs bb2MRSetMap s
      end
    end
  end.

(** The body of the loop over [usedRegs]. *)
Definition insertPHI_region (fuel : nat) (dfm : gmap N (gset N)) (mr : MemRegion)
    (st : gmap N (gset N) * MemSSA) : Result (gmap N (gset N) * MemSSA) :=
  let '(bb2MRSetMap, s) := st in
  let bbs := at_key [] (reg2BBMap s) mr in
  let s := upd_reg2BBMap (<[mr := bbs]>) s in
  insertPHI_while fuel dfm mr bbs bb2MRSetMap s.

Definition insertPHI (fuel : nat) (fn : SVFFunction) (s : MemSSA) : Result MemSSA :=
  dfm ← getDF s;
  '(_, s) ← forEachM (insertPHI_region fuel dfm) (elements (usedRegs s)) (∅, s);
  Ok s.

(** ** Renaming helpers declared in MemSSA.h *)

(** Modelled from the spec: "the current top-of-stack" version of a
    region, [mr2VerStackMap[mr].back()]. *)
Definition topVer (mr : MemRegion) (s : MemSSA) : Result MRVer :=
  match back (at_key [] (mr2VerStackMap s) mr) with
  | Some v => Ok v
  | None => Undefined "back of an empty version stack"
  end.

(** Modelled from the spec: [RenameMuSet], [RenameChiSet], [RenamePhiRes]
    and [RenamePhiOps] are defined in MemSSA.h.  "Every use node has its
    region's top-of-stack version assigned as its operand; every def node
    first records its region's current top-of-stack as its
    consumed/incoming version, then mints and pushes a fresh version as
    its produced/outgoing version"; "for every phi node present at this
    block, mints a fresh version for its result and pushes it onto that
    region's stack"; "fills this block's operand slot (indexed by this
    block's position among the successor's predecessors) in each of the
    successor's phi nodes, using the current top-of-stack per region".
    The regions of the versions pushed are recorded in [memRegs], so
    that leaving the block "pops exactly as many stack entries per region
    as were pushed by this block's phi results and def nodes".  The
    functions return the renamed nodes; the caller stores them back. *)
Fixpoint RenameMuSet (muSet : list MU) (s : MemSSA) : Result (list MU) :=
  match muSet with
  | [] => Ok []
  | mu :: rest =>
    v ← topVer (mu_mr mu) s;
    rest' ← RenameMuSet rest s;
    Ok (mkMU (mu_site mu) (mu_mr mu) (Some v) :: rest')
  end.

(** Modelled from the spec: [RenameChiSet] of MemSSA.h, "every def node
    first records its region's current top-of-stack as its
    consumed/incoming version, then mints and pushes a fresh version as
    its produced/outgoing version". *)
Fixpoint RenameChiSet (chiSet : list CHI) (memRegs : list N) (s : MemSSA)
    : Result (list CHI * list N * MemSSA) :=
  match chiSet with
  | [] => Ok ([], memRegs, s)
  | chi :: rest =>
    opv ← topVer (chi_mr chi) s;
    '(resv, s) ← newSSAName (chi_mr chi) (DefCHI (chi_site chi) (chi_mr chi)) s;
    let memRegs := memRegs ++ [chi_mr chi] in
    '(rest', memRegs, s) ← RenameChiSet rest memRegs s;
    Ok (mkCHI (chi_site chi) (chi_mr chi) (Some opv) (Some resv) :: rest', memRegs, s)
  end.

(** Modelled from the spec: [RenamePhiRes] of MemSSA.h, "for every phi
    node present at this block, mints a fresh version for its result and
    pushes it onto that region's stack". *)
Fixpoint RenamePhiRes (phiSet : list PHI) (memRegs : list N) (s : MemSSA)
    : Result (list PHI * list N * MemSSA) :=
  match phiSet with
  | [] => Ok ([], memRegs, s)
  | phi :: rest =>
    '(resv, s) ← newSSAName (phi_mr phi) (DefPHI (phi_bb phi) (phi_mr phi)) s;
    let memRegs := memRegs ++ [phi_mr phi] in
    '(rest', memRegs, s) ← RenamePhiRes rest memRegs s;
    Ok (mkPHI (phi_bb phi) (phi_mr phi) (Some resv) (phi_opVers phi) :: rest', memRegs, s)
  end.

(** Modelled from the spec: [RenamePhiOps] of MemSSA.h, "fills this
    block's operand slot ... in each of the successor's phi nodes, using
    the current top-of-stack per region". *)
Fixpoint RenamePhiOps (phiSet : list PHI) (pos : nat) (s : MemSSA) : Result (list PHI) :=
  match phiSet with
  | [] => Ok []
  | phi :: rest =>
    v ← topVer (phi_mr phi) s;
    rest' ← RenamePhiOps rest pos s;
    Ok (mkPHI (phi_bb phi) (phi_mr phi) (phi_resVer phi) (<[pos := v]> (phi_opVers phi)) :: rest')
  end.

(** Modelled from the spec: [getBBPredecessorPos] is defined outside the
    sources at hand; it is "this block's position among the successor's
    predecessors".  A block that is not among them has no position, which
    is taken as a failed assertion. *)
Fixpoint list_pos (bb : BasicBlock) (l : list N) : option nat :=
  match l with
  | [] => None
  | x :: l' => if decide (x = bb) then Some O else S <$> list_pos bb l'
  end.

(** Modelled from the spec: [getBBPredecessorPos], the position found by
    [list_pos]. *)
Definition getBBPredecessorPos (bb succ : BasicBlock) : Result nat :=
  match list_pos bb (bb_preds (getBB P succ)) with
  | Some pos => Ok pos
  | None => Fatal "Didn't find predecessor bb!"
  end.

(** Modelled from the spec: [hasPHISet] of MemSSA.h, whether phi nodes
    are "present at this block". *)
Definition hasPHISet (bb : BasicBlock) (s : MemSSA) : bool :=
  bool_decide (is_Some (bb2PhiSetMap s !! bb)).

(** ** [MemSSA::SSARenameBB] *)

(** The body of the loop over the PAG edges of an instruction. *)
Definition SSARenameBB_edge (e : PAGEdge) (st : list N * MemSSA) : Result (list N * MemSSA) :=
  let '(memRegs, s) := st in
  match e with
  | LoadEdge load =>
    mus ← RenameMuSet (at_key [] (load2MuSetMap s) load) s;
    Ok (memRegs, upd_load2MuSetMap (<[load := mus]>) s)
  | StoreEdge store =>
    '(chis, memRegs, s) ← RenameChiSet (at_key [] (store2ChiSetMap s) store) memRegs s;
    Ok (memRegs, upd_store2ChiSetMap (<[store := chis]>) s)
  | OtherEdge => Ok (memRegs, s)
  end.

(** The body of the loop over the instructions of the block. *)
Definition SSARenameBB_inst (bb : BasicBlock) (inst : Instruction) (st : list N * MemSSA)
    : Result (list N * MemSSA) :=
  st ← (if inst_hasPAGEdgeList inst
        then forEachM SSARenameBB_edge (inst_pagEdges inst) st
        else Ok st);
  let '(memRegs, s) := st in
  match inst_callSite inst with
  | Some cs =>
    s ← (if hasRefMRSet (mrGen P) cs
         then mus ← RenameMuSet (at_key [] (callsiteToMuSetMap s) cs) s;
              Ok (upd_callsiteToMuSetMap (<[cs := mus]>) s)
         else Ok s);
    if hasModMRSet (mrGen P) cs
    then '(chis, memRegs, s) ← RenameChiSet (at_key [] (callsiteToChiSetMap s) cs) memRegs s;
         Ok (memRegs, upd_callsiteToChiSetMap (<[cs := chis]>) s)
    else Ok (memRegs, s)
  | None =>
    if inst_isReturn inst
    then
      let fn := bb_parent (getBB P bb) in
      mus ← RenameMuSet (at_key [] (funToReturnMuSetMap s) fn) s;
      Ok (memRegs, upd_funToReturnMuSetMap (<[fn := mus]>) s)
    else Ok (memRegs, s)
  end.

(** The body of the loop over the successors: fill phi operands. *)
Definition SSARenameBB_succ (bb : BasicBlock) (succ : BasicBlock) (s : MemSSA) : Result MemSSA :=
  pos ← getBBPredecessorPos bb succ;
  if hasPHISet succ s
  then phis ← RenamePhiOps (at_key [] (bb2PhiSetMap s) succ) pos s;
       Ok (upd_bb2PhiSetMap (<[succ := phis]>) s)
  else Ok s.

(** One turn of the final [while (!memRegs.empty())] loop. *)
Definition SSARenameBB_pop (mr : MemRegion) (s : MemSSA) : Result MemSSA :=
  match pop_back (at_key [] (mr2VerStackMap s) mr) with
  | Some (stack, _) =>
    let s := upd_mr2VerStackMap (<[mr := stack]>) s in
    Ok (upd_stackLog (fun l => l ++ [StPop mr]) s)
  | None => Undefined "pop_back of an empty version stack"
  end.

(** The part of [SSARenameBB] before the walk down the dominator tree:
    phi results, mus and chis of the block, phi operands of the
    successors. *)
Definition SSARenameBB_phiRes (bb : BasicBlock) (s : MemSSA) : Result (list N * MemSSA) :=
  if hasPHISet bb s
  then '(phis, memRegs, s) ← RenamePhiRes (at_key [] (bb2PhiSetMap s) bb) [] s;
       Ok (memRegs, upd_bb2PhiSetMap (<[bb := phis]>) s)
  else Ok ([], s).

Fixpoint SSARenameBB (fuel : nat) (bb : BasicBlock) (s : MemSSA) : Result MemSSA :=
  match fuel with
  | O => OutOfFuel
  | S fuel =>
    st ← SSARenameBB_phiRes bb s;
    '(memRegs, s) ← forEachM (SSARenameBB_inst bb) (bb_insts (getBB P bb)) st;
    s ← forEachM (SSARenameBB_succ bb) (bb_succs (getBB P bb)) s;
    t ← getDT s;
    s ← match t !! bb with
        | Some children => forEachM (SSARenameBB fuel) children s
        | None => Ok s
        end;
    forEachM SSARenameBB_pop (rev memRegs) s
  end.

(** ** [MemSSA::SSARename] *)
Definition SSARename (fuel : nat) (fn : SVFFunction) (s : MemSSA) : Result MemSSA :=
  SSARenameBB fuel (fun_entryBlock fn) s.

(** ** [MemSSA::buildMemSSA] *)
Definition buildMemSSA (fuel : nat) (fn : SVFFunction)
    (f : option (gmap N (gset N))) (t : option (gmap N (list N))) (s : MemSSA)
    : Result MemSSA :=
  if fun_isExtCall fn
  then Fatal "we do not build memory ssa for external functions"
  else
    let s := setCurrentDFDT f t s in
    s ← createMUCHI fn s;
    s ← insertPHI fuel fn s;
    SSARename fuel fn s.

End Builder.

(** ** Statistics

    [getLoadMuNum], [getStoreChiNum], [getFunEntryChiNum],
    [getFunRetMuNum], [getCallSiteMuNum], [getCallSiteChiNum] and
    [getBBPhiNum] each walk one member map and add the sizes of its node
    sets to a [u32_t]. *)

(** A value stored to a [u32_t]. *)
Definition u32 (n : N) : N := n mod 2 ^ 32.

(** The loop [for (; it != eit; it++) num += it->second.size();] with
    [u32_t num = 0]. *)
Definition sumSetSizes {A} (m : gmap N (list A)) : N :=
  map_fold (fun _ set num => u32 (num + N.of_nat (length set))) 0 m.

Definition getLoadMuNum (s : MemSSA) : N := sumSetSizes (load2MuSetMap s).
Definition getStoreChiNum (s : MemSSA) : N := sumSetSizes (store2ChiSetMap s).
Definition getFunEntryChiNum (s : MemSSA) : N := sumSetSizes (funToEntryChiSetMap s).
Definition getFunRetMuNum (s : MemSSA) : N := sumSetSizes (funToReturnMuSetMap s).
Definition getCallSiteMuNum (s : MemSSA) : N := sumSetSizes (callsiteToMuSetMap s).
Definition getCallSiteChiNum (s : MemSSA) : N := sumSetSizes (callsiteToChiSetMap s).
Definition getBBPhiNum (s : MemSSA) : N := sumSetSizes (bb2PhiSetMap s).

(** ** [isMemAccessFunction] *)

Definition memfunction : list string := ["memcpy"; "memmove"; "strcpy"]%string.

(** [funcName.find(pat) != std::string::npos]: [std::string::find] gives the position
    of the first occurrence of [pat], [npos] when there is none. *)
Definition string_find (funcName pat : string) : option nat := String.index 0 pat funcName.

(** The loop over [memfunction], from the entry [i] on. *)
Fixpoint isMemAccessFunction_from (names : list string) (funcName : string) : bool :=
  match names with
  | [] => false
  | pat :: names =>
    match string_find funcName pat with
    | Some _ => true
    | None => isMemAccessFunction_from names funcName
    end
  end.

Definition isMemAccessFunction (funcName : string) : bool :=
  isMemAccessFunction_from memfunction funcName.

(** * Vocabulary of the specification *)

(** ** Entry chi and return mu *)

Definition entryChiOf (fn : SVFFunction) (mr : N) : CHI :=
  let d := DefCHI (EntryCHISite (fun_id fn)) mr in
  mkCHI (EntryCHISite (fun_id fn)) mr (Some (mkMRVer mr 0 d)) (Some (mkMRVer mr 1 d)).
Definition retMuOf (fn : SVFFunction) (mr : N) : MU := mkMU (RetMUSite (fun_id fn)) mr None.
Definition entryVers (fn : SVFFunction) (mr : N) : list MRVer :=
  let d := DefCHI (EntryCHISite (fun_id fn)) mr in [mkMRVer mr 0 d; mkMRVer mr 1 d].

(** What the first loop of [createMUCHI] leaves alone. *)
Definition muchi_frame (s s' : MemSSA) : Prop :=
  mr2CounterMap s' = mr2CounterMap s /\ mr2VerStackMap s' = mr2VerStackMap s /\
  stackLog s' = stackLog s /\ funToEntryChiSetMap s' = funToEntryChiSetMap s /\
  funToReturnMuSetMap s' = funToReturnMuSetMap s /\
  bb2PhiSetMap s' = bb2PhiSetMap s /\ df s' = df s /\ dt s' = dt s /\
  wrnMsgs s' = wrnMsgs s.

(** Every region with a locally defining block is a used region. *)
Definition defs_have_uses (s : MemSSA) : Prop :=
  forall mr, at_key [] (reg2BBMap s) mr <> [] -> mr ∈ usedRegs s.

(** The same inside a block, where the regions killed so far count too. *)
Definition defs_used (s : MemSSA) : Prop :=
  forall mr, mr ∈ varKills s \/ at_key [] (reg2BBMap s) mr <> [] -> mr ∈ usedRegs s.

(** The frontier of a block as [insertPHI] sees it: a block that is absent
    from the map contributes nothing. *)
Definition frontierOf (dfm : gmap N (gset N)) (b : N) : gset N := at_key ∅ dfm b.

(** The iterated dominance frontier of a list of defining blocks. *)
Inductive IDF (dfm : gmap N (gset N)) (defs : list N) : N -> Prop :=
  | IDF_def d b : d ∈ defs -> b ∈ frontierOf dfm d -> IDF dfm defs b
  | IDF_step d b : IDF dfm defs d -> b ∈ frontierOf dfm d -> IDF dfm defs b.

(** All blocks that occur in some frontier set. *)
Definition frontierBlocks (dfm : gmap N (gset N)) : gset N :=
  ⋃ (snd <$> map_to_list dfm).

(** Number of phi nodes of region [mr] at block [b]. *)
Definition phiCountAt (b mr : N) (s : MemSSA) : nat :=
  length (filter (fun p => phi_mr p = mr) (at_key [] (bb2PhiSetMap s) b)).

(** Whether the local [bb2MRSetMap] records a phi of [mr] at [b]. *)
Definition recorded (mr : N) (m : gmap N (gset N)) (b : N) : Prop := mr ∈ at_key ∅ m b.
#[global] Instance recorded_dec mr m b : Decision (recorded mr m b).
Proof. unfold recorded. apply _. Defined.
Definition recordedCount (mr : N) (m : gmap N (gset N)) (b : N) : nat :=
  if decide (recorded mr m b) then 1%nat else 0%nat.
Definition unrecorded (mr : N) (m : gmap N (gset N)) (U : gset N) : gset N :=
  filter (fun b => ~ recorded mr m b) U.

(** What [insertPHI] leaves alone. *)
Definition phi_frame (s s' : MemSSA) : Prop :=
  mr2CounterMap s' = mr2CounterMap s /\ mr2VerStackMap s' = mr2VerStackMap s /\
  stackLog s' = stackLog s /\ funToEntryChiSetMap s' = funToEntryChiSetMap s /\
  funToReturnMuSetMap s' = funToReturnMuSetMap s /\
  load2MuSetMap s' = load2MuSetMap s /\ store2ChiSetMap s' = store2ChiSetMap s /\
  callsiteToMuSetMap s' = callsiteToMuSetMap s /\
  callsiteToChiSetMap s' = callsiteToChiSetMap s /\
  usedRegs s' = usedRegs s /\ varKills s' = varKills s /\
  (forall mr, at_key [] (reg2BBMap s') mr = at_key [] (reg2BBMap s) mr) /\
  df s' = df s /\ dt s' = dt s.

(** The invariant that links the state after some turns of the loops of
    a region to the state before. *)
Record phi_inv (mr : N) (U : gset N) (st st' : list N * gmap N (gset N) * MemSSA) : Prop := {
  pi_measure :
    (length st'.1.1 + size (unrecorded mr st'.1.2 U) =
     length st.1.1 + size (unrecorded mr st.1.2 U))%nat;
  pi_recorded : forall b, recorded mr st.1.2 b -> recorded mr st'.1.2 b;
  pi_count : forall b,
    (phiCountAt b mr st'.2 + recordedCount mr st.1.2 b =
     phiCountAt b mr st.2 + recordedCount mr st'.1.2 b)%nat;
  pi_other : forall mr' b, mr' <> mr ->
    phiCountAt b mr' st'.2 = phiCountAt b mr' st.2 /\
    (recorded mr' st'.1.2 b <-> recorded mr' st.1.2 b);
  pi_frame : phi_frame st.2 st'.2
}.

(** What the worklist loop of a region achieves. *)
Record while_post (dfm : gmap N (gset N)) (mr : N) (bbs : list N)
    (m : gmap N (gset N)) (s : MemSSA) (m' : gmap N (gset N)) (s' : MemSSA) : Prop := {
  wp_recorded : forall b, recorded mr m b -> recorded mr m' b;
  wp_count : forall b,
    (phiCountAt b mr s' + recordedCount mr m b =
     phiCountAt b mr s + recordedCount mr m' b)%nat;
  wp_other : forall mr' b, mr' <> mr ->
    phiCountAt b mr' s' = phiCountAt b mr' s /\
    (recorded mr' m' b <-> recorded mr' m b);
  wp_frame : phi_frame s s';
  wp_sound : forall b, recorded mr m' b -> recorded mr m b \/ IDF dfm bbs b;
  wp_closed : forall x b,
    x ∈ bbs \/ (recorded mr m' x /\ ~ recorded mr m x) ->
    b ∈ frontierOf dfm x -> recorded mr m' b
}.

(** The longest list of defining blocks of a region. *)
Definition maxDefs (s : MemSSA) : nat :=
  max_list (length <$> (snd <$> map_to_list (reg2BBMap s))).

(** Fuel that suffices for [insertPHI]. *)
Definition insertPHI_fuel (s : MemSSA) : nat :=
  S (maxDefs s + size (frontierBlocks (default ∅ (df s)))).

(** The loop over the used regions, after the regions [done]. *)
Record regions_inv (dfm : gmap N (gset N)) (s0 : MemSSA) (done : list N)
    (st : gmap N (gset N) * MemSSA) : Prop := {
  ri_recorded : forall mr b,
    recorded mr st.1 b <-> mr ∈ done /\ IDF dfm (at_key [] (reg2BBMap s0) mr) b;
  ri_count : forall mr b,
    phiCountAt b mr st.2 = (phiCountAt b mr s0 + recordedCount mr st.1 b)%nat;
  ri_frame : phi_frame s0 st.2
}.

(** ** Vocabulary for the version stacks *)

(** Pops on the stack map alone, in the order of [mrs]. *)
Fixpoint popAll (mrs : list N) (stacks : gmap N (list MRVer)) : option (gmap N (list MRVer)) :=
  match mrs with
  | [] => Some stacks
  | mr :: rest =>
    match pop_back (at_key [] stacks mr) with
    | Some (stack, _) => popAll rest (<[mr := stack]> stacks)
    | None => None
    end
  end.

Definition pushCount (mr : N) (log : list StackOp) : nat :=
  sum_list_with (fun op => match op with
                           | StPush r _ => if decide (r = mr) then 1 else 0
                           | _ => 0
                           end)%nat log.

Definition popCount (mr : N) (log : list StackOp) : nat :=
  sum_list_with (fun op => match op with
                           | StPop r => if decide (r = mr) then 1 else 0
                           | _ => 0
                           end)%nat log.

Definition occ (mr : N) (mrs : list N) : nat :=
  sum_list_with (fun r => if decide (r = mr) then 1 else 0)%nat mrs.

(** What renaming leaves alone. *)
Definition ren_frame (s s' : MemSSA) : Prop :=
  usedRegs s' = usedRegs s /\ reg2BBMap s' = reg2BBMap s /\ varKills s' = varKills s /\
  df s' = df s /\ dt s' = dt s /\ funToEntryChiSetMap s' = funToEntryChiSetMap s /\
  wrnMsgs s' = wrnMsgs s /\ dom (mr2CounterMap s') = dom (mr2CounterMap s).

(** The stacks of [s'] are those of [s], and the operations in between
    pushed as often as they popped, for every region. *)
Definition balanced (s s' : MemSSA) : Prop :=
  mr2VerStackMap s' = mr2VerStackMap s /\
  (exists new, stackLog s' = stackLog s ++ new /\
     forall mr, pushCount mr new = popCount mr new) /\
  ren_frame s s'.

(** Inside a block: popping the regions of [memRegs], last first, leads
    back to the stacks at block entry. *)
Record ren_inv (s0 : MemSSA) (st : list N * MemSSA) : Prop := {
  rn_unwind : popAll (rev st.1) (mr2VerStackMap st.2) = Some (mr2VerStackMap s0);
  rn_log : exists new, stackLog st.2 = stackLog s0 ++ new /\
     forall mr, pushCount mr new = (popCount mr new + occ mr st.1)%nat;
  rn_frame : ren_frame s0 st.2
}.

(** ** Renaming as a sequence of primitive steps *)

(** States that differ in the mu, chi and phi nodes only. *)
Definition same_core (s s' : MemSSA) : Prop :=
  df s' = df s /\ dt s' = dt s /\ usedRegs s' = usedRegs s /\ reg2BBMap s' = reg2BBMap s /\
  varKills s' = varKills s /\ mr2CounterMap s' = mr2CounterMap s /\
  mr2VerStackMap s' = mr2VerStackMap s /\ funToEntryChiSetMap s' = funToEntryChiSetMap s /\
  wrnMsgs s' = wrnMsgs s /\ stackLog s' = stackLog s.

Inductive rstep : MemSSA -> MemSSA -> Prop :=
  | rstep_mint mr def s v s' : newSSAName mr def s = Ok (v, s') -> rstep s s'
  | rstep_pop mr s s' : SSARenameBB_pop mr s = Ok s' -> rstep s s'
  | rstep_nodes s s' : same_core s s' -> rstep s s'.

(** ** Versions minted for a region *)

Definition mintStep (mr : N) (acc : list N) (op : StackOp) : list N :=
  match op with
  | StClear r => if decide (r = mr) then [] else acc
  | StPush r v => if decide (r = mr) then acc ++ [ver_version v] else acc
  | StPop _ => acc
  end.

(** The version numbers pushed for [mr] since its stack was last cleared,
    oldest first. *)
Definition minted (mr : N) (log : list StackOp) : list N := foldl (mintStep mr) [] log.

(** The versions [0, 1, ..., c - 1]. *)
Definition versionsBelow (c : N) : list N := N.of_nat <$> seq 0 (N.to_nat c).

(** The versions minted are those below the counter. *)
Definition versions_fresh (mr : N) (s : MemSSA) : Prop :=
  forall c, mr2CounterMap s !! mr = Some c -> minted mr (stackLog s) = versionsBelow c.

(** ** Phi results and phi operands *)

(** [phi'] is [phi] with a result version that was minted and pushed by
    one of the operations [new]; its operands are those of [phi]. *)
Definition phiResRenamed (new : list StackOp) (phi phi' : PHI) : Prop :=
  phi_bb phi' = phi_bb phi /\ phi_mr phi' = phi_mr phi /\
  phi_opVers phi' = phi_opVers phi /\
  exists v, phi_resVer phi' = Some v /\ ver_mr v = phi_mr phi /\
            ver_def v = DefPHI (phi_bb phi) (phi_mr phi) /\
            StPush (phi_mr phi) v ∈ new.

(** [phi'] is [phi] with the operand at [pos] set to the version on top
    of the stack of its region in [s]. *)
Definition phiOpRenamed (pos : nat) (s : MemSSA) (phi phi' : PHI) : Prop :=
  phi_bb phi' = phi_bb phi /\ phi_mr phi' = phi_mr phi /\
  phi_resVer phi' = phi_resVer phi /\
  exists v, topVer (phi_mr phi) s = Ok v /\ phi_opVers phi' = <[pos := v]> (phi_opVers phi).

(** The operands that the block [bb] owes to the phis of [succ], read
    off the stacks of [s2]. *)
Definition succOpsFilled (P : Program) (bb : N) (s2 s : MemSSA) (succ : N) : Prop :=
  exists pos, list_pos bb (bb_preds (getBB P succ)) = Some pos /\
    forall phi, phi ∈ at_key [] (bb2PhiSetMap s) succ ->
      exists v, topVer (phi_mr phi) s2 = Ok v /\ phi_opVers phi !! pos = Some v.

(** ** States in which renaming cannot fail *)

(** The regions of all nodes of a node map lie in [D]. *)
Definition regionsIn {A} (mrOf : A -> N) (D : gset N) (m : gmap N (list A)) : Prop :=
  forall k a, a ∈ at_key [] m k -> mrOf a ∈ D.

(** The regions of all mus, chis and phis that renaming visits lie in
    [D]. *)
Definition nodes_in (D : gset N) (s : MemSSA) : Prop :=
  regionsIn mu_mr D (load2MuSetMap s) /\ regionsIn chi_mr D (store2ChiSetMap s) /\
  regionsIn mu_mr D (callsiteToMuSetMap s) /\ regionsIn chi_mr D (callsiteToChiSetMap s) /\
  regionsIn mu_mr D (funToReturnMuSetMap s) /\ regionsIn phi_mr D (bb2PhiSetMap s).

(** States with the same mus, chis and phis in the maps that renaming
    visits. *)
Definition same_nodes (s s' : MemSSA) : Prop :=
  load2MuSetMap s' = load2MuSetMap s /\ store2ChiSetMap s' = store2ChiSetMap s /\
  callsiteToMuSetMap s' = callsiteToMuSetMap s /\
  callsiteToChiSetMap s' = callsiteToChiSetMap s /\
  funToReturnMuSetMap s' = funToReturnMuSetMap s /\ bb2PhiSetMap s' = bb2PhiSetMap s.

(** The first loop of [createMUCHI]: the regions of the nodes are used
    regions or regions of [D0]. *)
Definition muchi_inv (D0 : gset N) (s : MemSSA) : Prop :=
  defs_used s /\ nodes_in (D0 ∪ usedRegs s) s.

(** Every region with a counter has a version stack that is not empty. *)
Definition stacks_ready (s : MemSSA) : Prop :=
  forall mr, mr ∈ dom (mr2CounterMap s) ->
    exists stack, mr2VerStackMap s !! mr = Some stack /\ stack <> [].

Definition ready (s : MemSSA) : Prop :=
  stacks_ready s /\ nodes_in (dom (mr2CounterMap s)) s.

(** Inside a block that was entered in state [s0]. *)
Definition blk_inv (s0 : MemSSA) (st : list N * MemSSA) : Prop :=
  ren_inv s0 st /\ nodes_in (dom (mr2CounterMap s0)) st.2.

(** Every block is among the predecessors of its successors. *)
Definition cfg_ok (P : Program) : Prop :=
  forall b succ, succ ∈ bb_succs (getBB P b) -> b ∈ bb_preds (getBB P succ).

(** The dominator tree is a tree: the children of a node lie deeper. *)
Definition tree_ranked (tree : gmap N (list N)) (rank : N -> nat) : Prop :=
  forall b children c, tree !! b = Some children -> c ∈ children -> (rank c < rank b)%nat.

(** ** Example programs *)
Module Examples.

(** Function 1 is a diamond: block 0 branches to 1 and 2, which join in
    3.  Block 1 stores to region 7 (store 10), block 3 loads from it
    (load 20) and returns.  Function 2 is the single block 10, which
    stores to region 8 (store 30) and returns.  Function 3 is external. *)
Definition gen : MRGenerator :=
  mkMRGen (fun _ => {[7]}) (fun st => if decide (st = 30) then {[8]} else {[7]})
          (fun _ => false) (fun _ => ∅) (fun _ => false) (fun _ => ∅).

Definition blocks (b : N) : BasicBlockData :=
  match b with
  | 0 => mkBB 1 [mkInst false [] None false] [1; 2] []
  | 1 => mkBB 1 [mkInst true [StoreEdge 10] None false] [3] [0]
  | 2 => mkBB 1 [mkInst false [] None false] [3] [0]
  | 3 => mkBB 1 [mkInst true [LoadEdge 20] None false; mkInst false [] None true] [] [1; 2]
  | _ => mkBB 2 [mkInst true [StoreEdge 30] None false; mkInst false [] None true] [] []
  end.

Definition prog : Program := mkProgram gen blocks (fun _ => 0).

Definition diamond : SVFFunction := mkFun 1 false false 0 [0; 1; 2; 3].
Definition diamondDF : gmap N (gset N) := {[0 := ∅; 1 := {[3]}; 2 := {[3]}; 3 := ∅]}.
Definition diamondDT : gmap N (list N) := {[0 := [1; 2; 3]; 1 := []; 2 := []; 3 := []]}.

Definition single : SVFFunction := mkFun 2 false false 10 [10].
Definition singleDF : gmap N (gset N) := {[10 := ∅]}.
Definition singleDT : gmap N (list N) := {[10 := []]}.

Definition external : SVFFunction := mkFun 3 true false 20 [].

Definition orInit (r : Result MemSSA) : MemSSA :=
  match r with Ok s => s | _ => initMemSSA end.

(** The states of the build of [diamond] in a fresh session. *)
Definition diamond0 : MemSSA := setCurrentDFDT (Some diamondDF) (Some diamondDT) initMemSSA.
Definition diamond1 : MemSSA := orInit (createMUCHI prog diamond diamond0).
Definition diamond2 : MemSSA := orInit (insertPHI 10 diamond diamond1).
Definition diamond3 : MemSSA := orInit (SSARename prog 10 diamond diamond2).

(** The build of [single] after that of [diamond]. *)
Definition single0 : MemSSA := setCurrentDFDT (Some singleDF) (Some singleDT) diamond3.
Definition single1 : MemSSA := orInit (createMUCHI prog single single0).

(** The build of [single] with a dominator tree that has no node for
    its block, up to the renaming of the instructions of the block. *)
Definition noNode0 : MemSSA := setCurrentDFDT (Some singleDF) (Some ∅) initMemSSA.
Definition noNode1 : MemSSA := orInit (createMUCHI prog single noNode0).
Definition noNode2 : MemSSA := orInit (insertPHI 10 single noNode1).
Definition noNode3 : list N * MemSSA :=
  match forEachM (SSARenameBB_inst prog 10) (bb_insts (blocks 10)) ([], noNode2) with
  | Ok st => st
  | _ => ([], initMemSSA)
  end.

End Examples.

(** ** What the first loop of [createMUCHI] records *)

(** The regions of a PAG edge, of a call site and of an instruction. *)
Definition edgeRegs (P : Program) (e : PAGEdge) : gset N :=
  match e with
  | LoadEdge load => getLoadMRSet (mrGen P) load
  | StoreEdge store => getStoreMRSet (mrGen P) store
  | OtherEdge => ∅
  end.

Definition callRegs (P : Program) (cs : N) : gset N :=
  (if hasRefMRSet (mrGen P) cs then getCallSiteRefMRSet (mrGen P) cs else ∅) ∪
  (if hasModMRSet (mrGen P) cs then getCallSiteModMRSet (mrGen P) cs else ∅).

Definition instRegs (P : Program) (inst : Instruction) : gset N :=
  (if inst_hasPAGEdgeList inst then ⋃ (edgeRegs P <$> inst_pagEdges inst) else ∅) ∪
  (match inst_callSite inst with Some cs => callRegs P cs | None => ∅ end).

(** The regions of the instructions of the reachable blocks. *)
Definition funRegs (P : Program) (fn : SVFFunction) : gset N :=
  ⋃ ((fun bb => ⋃ (instRegs P <$> bb_insts (getBB P bb))) <$> fun_reachableBBs fn).

(** What a state records: used regions, defining blocks, and the nodes
    of loads, stores and call sites. *)
Inductive Fact :=
  | FUsed (mr : N)
  | FDef (mr : N) (bb : N)
  | FLoadMu (load : N) (mu : MU)
  | FStoreChi (store : N) (chi : CHI)
  | FCallMu (cs : N) (mu : MU)
  | FCallChi (cs : N) (chi : CHI).

Definition holds (s : MemSSA) (f : Fact) : Prop :=
  match f with
  | FUsed mr => mr ∈ usedRegs s
  | FDef mr bb => bb ∈ at_key [] (reg2BBMap s) mr
  | FLoadMu load mu => mu ∈ at_key [] (load2MuSetMap s) load
  | FStoreChi store chi => chi ∈ at_key [] (store2ChiSetMap s) store
  | FCallMu cs mu => mu ∈ at_key [] (callsiteToMuSetMap s) cs
  | FCallChi cs chi => chi ∈ at_key [] (callsiteToChiSetMap s) cs
  end.

(** The facts that each step of the loop adds. *)
Definition AddLoadMU_adds (bb load mr : N) (f : Fact) : Prop :=
  f = FUsed mr \/ f = FLoadMu load (mkMU (LoadMUSite bb load) mr None).
Definition AddStoreCHI_adds (bb store mr : N) (f : Fact) : Prop :=
  f = FUsed mr \/ f = FDef mr bb \/
  f = FStoreChi store (mkCHI (StoreCHISite bb store) mr None None).
Definition AddCallSiteMU_adds (cs mr : N) (f : Fact) : Prop :=
  f = FUsed mr \/ f = FCallMu cs (mkMU (CallMUSite cs) mr None).
Definition AddCallSiteCHI_adds (P : Program) (cs mr : N) (f : Fact) : Prop :=
  f = FUsed mr \/ f = FDef mr (callSiteBB P cs) \/
  f = FCallChi cs (mkCHI (CallCHISite cs) mr None None).

Definition edge_adds (P : Program) (bb : N) (e : PAGEdge) (f : Fact) : Prop :=
  match e with
  | LoadEdge load => exists mr, mr ∈ getLoadMRSet (mrGen P) load /\ AddLoadMU_adds bb load mr f
  | StoreEdge store =>
    exists mr, mr ∈ getStoreMRSet (mrGen P) store /\ AddStoreCHI_adds bb store mr f
  | OtherEdge => False
  end.

Definition call_adds (P : Program) (cs : N) (f : Fact) : Prop :=
  (hasRefMRSet (mrGen P) cs = true /\
     exists mr, mr ∈ getCallSiteRefMRSet (mrGen P) cs /\ AddCallSiteMU_adds cs mr f) \/
  (hasModMRSet (mrGen P) cs = true /\
     exists mr, mr ∈ getCallSiteModMRSet (mrGen P) cs /\ AddCallSiteCHI_adds P cs mr f).

Definition inst_adds (P : Program) (bb : N) (inst : Instruction) (f : Fact) : Prop :=
  (inst_hasPAGEdgeList inst = true /\
     exists e, e ∈ inst_pagEdges inst /\ edge_adds P bb e f) \/
  (exists cs, inst_callSite inst = Some cs /\ call_adds P cs f).

Definition fun_adds (P : Program) (fn : SVFFunction) (f : Fact) : Prop :=
  exists bb inst, bb ∈ fun_reachableBBs fn /\ inst ∈ bb_insts (getBB P bb) /\
    inst_adds P bb inst f.

(** Inside a block every killed region is a used region. *)
Definition kills_used (s : MemSSA) : Prop := varKills s ⊆ usedRegs s.

(** ** The nodes that [createMUCHI] appends *)

(** One node without versions per region of the region set of a load
    edge, a store edge or a call site, in the order of [elements]. *)
Definition loadMus (P : Program) (bb load : N) : list MU :=
  (fun mr => mkMU (LoadMUSite bb load) mr None) <$> elements (getLoadMRSet (mrGen P) load).
Definition storeChis (P : Program) (bb store : N) : list CHI :=
  (fun mr => mkCHI (StoreCHISite bb store) mr None None) <$>
    elements (getStoreMRSet (mrGen P) store).
Definition callMus (P : Program) (cs : N) : list MU :=
  if hasRefMRSet (mrGen P) cs
  then (fun mr => mkMU (CallMUSite cs) mr None) <$> elements (getCallSiteRefMRSet (mrGen P) cs)
  else [].
Definition callChis (P : Program) (cs : N) : list CHI :=
  if hasModMRSet (mrGen P) cs
  then (fun mr => mkCHI (CallCHISite cs) mr None None) <$>
         elements (getCallSiteModMRSet (mrGen P) cs)
  else [].

(** The nodes of the occurrences of a load edge, a store edge or a call
    site in an instruction. *)
Definition instLoadMus (P : Program) (load bb : N) (inst : Instruction) : list MU :=
  if inst_hasPAGEdgeList inst
  then inst_pagEdges inst ≫= fun e =>
         match e with
         | LoadEdge l => if decide (l = load) then loadMus P bb load else []
         | _ => []
         end
  else [].
Definition instStoreChis (P : Program) (store bb : N) (inst : Instruction) : list CHI :=
  if inst_hasPAGEdgeList inst
  then inst_pagEdges inst ≫= fun e =>
         match e with
         | StoreEdge st => if decide (st = store) then storeChis P bb store else []
         | _ => []
         end
  else [].
Definition instCallMus (P : Program) (cs : N) (inst : Instruction) : list MU :=
  match inst_callSite inst with
  | Some cs' => if decide (cs' = cs) then callMus P cs else []
  | None => []
  end.
Definition instCallChis (P : Program) (cs : N) (inst : Instruction) : list CHI :=
  match inst_callSite inst with
  | Some cs' => if decide (cs' = cs) then callChis P cs else []
  | None => []
  end.

(** The same over the instructions of the reachable blocks, in the order
    of the walk of [createMUCHI]. *)
Definition funNodes {B} (P : Program) (fn : SVFFunction)
    (instNodes : N -> Instruction -> list B) : list B :=
  fun_reachableBBs fn ≫= fun bb => bb_insts (getBB P bb) ≫= instNodes bb.
Definition funLoadMus (P : Program) (fn : SVFFunction) (load : N) : list MU :=
  funNodes P fn (instLoadMus P load).
Definition funStoreChis (P : Program) (fn : SVFFunction) (store : N) : list CHI :=
  funNodes P fn (instStoreChis P store).
Definition funCallMus (P : Program) (fn : SVFFunction) (cs : N) : list MU :=
  funNodes P fn (fun _ => instCallMus P cs).
Definition funCallChis (P : Program) (fn : SVFFunction) (cs : N) : list CHI :=
  funNodes P fn (fun _ => instCallChis P cs).

(** ** What [insertPHI] adds *)

(** The warning of [insertPHI]. *)
Definition frontierWarning : string := "bb not in the dominance frontier map??".

(** The phi lists of [s'] are those of [s] with blank phis of regions of
    [D] appended. *)
Definition phis_appended (D : gset N) (s s' : MemSSA) : Prop :=
  forall b, exists new,
    at_key [] (bb2PhiSetMap s') b = at_key [] (bb2PhiSetMap s) b ++ new /\
    forall phi, phi ∈ new -> phi = mkPHI b (phi_mr phi) None ∅ /\ phi_mr phi ∈ D.

(** ** What renaming keeps *)

(** A node without its versions. *)
Definition mu_node (mu : MU) : MUSite * N := (mu_site mu, mu_mr mu).
Definition chi_node (chi : CHI) : CHISite * N := (chi_site chi, chi_mr chi).
Definition phi_node (phi : PHI) : N * N := (phi_bb phi, phi_mr phi).

(** The states hold the same nodes under every key, up to the versions
    of the mus, chis and phis that renaming visits; the entry chis are
    the same. *)
Definition same_shape (s s' : MemSSA) : Prop :=
  (forall k, mu_node <$> at_key [] (load2MuSetMap s') k =
             mu_node <$> at_key [] (load2MuSetMap s) k) /\
  (forall k, chi_node <$> at_key [] (store2ChiSetMap s') k =
             chi_node <$> at_key [] (store2ChiSetMap s) k) /\
  (forall k, mu_node <$> at_key [] (callsiteToMuSetMap s') k =
             mu_node <$> at_key [] (callsiteToMuSetMap s) k) /\
  (forall k, chi_node <$> at_key [] (callsiteToChiSetMap s') k =
             chi_node <$> at_key [] (callsiteToChiSetMap s) k) /\
  (forall k, mu_node <$> at_key [] (funToReturnMuSetMap s') k =
             mu_node <$> at_key [] (funToReturnMuSetMap s) k) /\
  (forall k, phi_node <$> at_key [] (bb2PhiSetMap s') k =
             phi_node <$> at_key [] (bb2PhiSetMap s) k) /\
  funToEntryChiSetMap s' = funToEntryChiSetMap s.

(** The number of nodes of a map, without wrap-around. *)
Definition nodeTotal {A} (m : gmap N (list A)) : nat :=
  map_fold (fun _ set n => (n + length set)%nat) 0%nat m.


(** ** Nodes with versions *)

(** A mu has its version, a chi both versions, a phi its result
    version. *)
Definition mu_done (mu : MU) : Prop := is_Some (mu_ver mu).
Definition chi_done (chi : CHI) : Prop :=
  is_Some (chi_opVer chi) /\ is_Some (chi_resVer chi).
Definition phi_done (phi : PHI) : Prop := is_Some (phi_resVer phi).

(** Under every key the map [m'] has as many nodes as [m], and a node
    has its versions when the node at its place in [m] has them. *)
Definition keeps {A} (done : A -> Prop) (m m' : gmap N (list A)) : Prop :=
  forall k, Forall2 (fun a a' => done a -> done a') (at_key [] m k) (at_key [] m' k).

Definition versions_kept (s s' : MemSSA) : Prop :=
  keeps mu_done (load2MuSetMap s) (load2MuSetMap s') /\
  keeps chi_done (store2ChiSetMap s) (store2ChiSetMap s') /\
  keeps mu_done (callsiteToMuSetMap s) (callsiteToMuSetMap s') /\
  keeps chi_done (callsiteToChiSetMap s) (callsiteToChiSetMap s') /\
  keeps mu_done (funToReturnMuSetMap s) (funToReturnMuSetMap s') /\
  keeps phi_done (bb2PhiSetMap s) (bb2PhiSetMap s').

(** The blocks that the walk from a block over the dominator tree
    visits. *)
Inductive visits (tree : gmap N (list N)) : N -> N -> Prop :=
  | visits_here b : visits tree b b
  | visits_child b children c d :
      tree !! b = Some children -> c ∈ children -> visits tree c d -> visits tree b d.

(** The mus and chis of an instruction of a block, and the return mus
    at a return, have their versions. *)
Definition inst_done (P : Program) (bb : N) (inst : Instruction) (s : MemSSA) : Prop :=
  (inst_hasPAGEdgeList inst = true ->
     (forall load, LoadEdge load ∈ inst_pagEdges inst ->
        Forall mu_done (at_key [] (load2MuSetMap s) load)) /\
     (forall store, StoreEdge store ∈ inst_pagEdges inst ->
        Forall chi_done (at_key [] (store2ChiSetMap s) store))) /\
  (forall cs, inst_callSite inst = Some cs ->
     (hasRefMRSet (mrGen P) cs = true ->
        Forall mu_done (at_key [] (callsiteToMuSetMap s) cs)) /\
     (hasModMRSet (mrGen P) cs = true ->
        Forall chi_done (at_key [] (callsiteToChiSetMap s) cs))) /\
  (inst_callSite inst = None -> inst_isReturn inst = true ->
     Forall mu_done (at_key [] (funToReturnMuSetMap s) (bb_parent (getBB P bb)))).

(** The phis of a block and the nodes of its instructions have their
    versions. *)
Definition block_done (P : Program) (bb : N) (s : MemSSA) : Prop :=
  Forall phi_done (at_key [] (bb2PhiSetMap s) bb) /\
  forall inst, inst ∈ bb_insts (getBB P bb) -> inst_done P bb inst s.

(** ** Nodes of other code *)

(** The block [b] is not a block of function [g] and has no instruction
    with the load edge [load], the store edge [store] or the call site
    [cs]. *)
Definition block_avoids (P : Program) (load store cs g : N) (b : N) : Prop :=
  bb_parent (getBB P b) <> g /\
  forall inst, inst ∈ bb_insts (getBB P b) ->
    (inst_hasPAGEdgeList inst = true ->
       (LoadEdge load ∉ inst_pagEdges inst) /\
       (StoreEdge store ∉ inst_pagEdges inst)) /\
    inst_callSite inst <> Some cs.

(** The nodes of a load, a store, a call site and the return mus of a
    function are the same in [s] and [s']. *)
Definition nodes_untouched (load store cs g : N) (s s' : MemSSA) : Prop :=
  load2MuSetMap s' !! load = load2MuSetMap s !! load /\
  store2ChiSetMap s' !! store = store2ChiSetMap s !! store /\
  callsiteToMuSetMap s' !! cs = callsiteToMuSetMap s !! cs /\
  callsiteToChiSetMap s' !! cs = callsiteToChiSetMap s !! cs /\
  funToReturnMuSetMap s' !! g = funToReturnMuSetMap s !! g.

(** ** Phis that a walk leaves alone *)

(** The phi [phi'] under the key [k] has the region of [phi], its result
    version when [k] is [bb], and its operand in the slot of [bb] among
    the predecessors of [k]. *)
Definition phi_kept_for (P : Program) (bb k : N) (phi phi' : PHI) : Prop :=
  phi_mr phi' = phi_mr phi /\
  (k = bb -> phi_resVer phi' = phi_resVer phi) /\
  forall pos, list_pos bb (bb_preds (getBB P k)) = Some pos ->
    phi_opVers phi' !! pos = phi_opVers phi !! pos.

Definition phis_kept_for (P : Program) (bb : N) (s s' : MemSSA) : Prop :=
  forall k, Forall2 (phi_kept_for P bb k)
              (at_key [] (bb2PhiSetMap s) k) (at_key [] (bb2PhiSetMap s') k).

(** The phi [phi'] is [phi] with a result version of its region that is
    defined by the phi and was pushed by one of the operations [new]. *)
Definition phiResDone (new : list StackOp) (phi phi' : PHI) : Prop :=
  phi_mr phi' = phi_mr phi /\
  exists v, phi_resVer phi' = Some v /\ ver_mr v = phi_mr phi /\
            ver_def v = DefPHI (phi_bb phi) (phi_mr phi) /\
            StPush (phi_mr phi) v ∈ new.

(** ** Further example states *)
Module MoreExamples.

(** A version minted for region 7 after the first phase of the build of
    [diamond]. *)
Definition diamond1minted : MemSSA :=
  match newSSAName 7 (DefPHI 3 7) Examples.diamond1 with
  | Ok (_, s) => s
  | _ => initMemSSA
  end.

(** [insertPHI] run a second time on [diamond]. *)
Definition diamond2again : MemSSA :=
  Examples.orInit (insertPHI 10 Examples.diamond Examples.diamond2).

(** The dominator tree of [diamond] is ranked by the height of a node. *)
Definition diamondRank (b : N) : nat := if decide (b = 0) then 1%nat else 0%nat.

(** The build of [single] after that of [diamond]. *)
Definition single3 : MemSSA :=
  Examples.orInit
    (buildMemSSA Examples.prog 10 Examples.single (Some Examples.singleDF)
       (Some Examples.singleDT) Examples.diamond3).

(** The build of [diamond] a second time, up to [insertPHI]. *)
Definition rebuilt1 : MemSSA :=
  Examples.orInit
    (createMUCHI Examples.prog Examples.diamond
       (setCurrentDFDT (Some Examples.diamondDF) (Some Examples.diamondDT) Examples.diamond3)).
Definition rebuilt2 : MemSSA := Examples.orInit (insertPHI 10 Examples.diamond rebuilt1).

(** The build of [diamond] with a frontier map that has no entry for
    block 3, up to [createMUCHI]. *)
Definition diamondMiss1 : MemSSA :=
  Examples.orInit
    (createMUCHI Examples.prog Examples.diamond
       (setCurrentDFDT (Some (delete 3 Examples.diamondDF)) (Some Examples.diamondDT)
          initMemSSA)).

(** Function 4 is a loop: block 0 enters block 1, which stores to region
    7 (store 40) and branches to itself and to block 2, which loads from
    the region (load 41) and returns. *)
Definition loopBlocks (b : N) : BasicBlockData :=
  match b with
  | 0 => mkBB 4 [mkInst false [] None false] [1] []
  | 1 => mkBB 4 [mkInst true [StoreEdge 40] None false] [1; 2] [0; 1]
  | _ => mkBB 4 [mkInst true [LoadEdge 41] None false; mkInst false [] None true] [] [1]
  end.

Definition loopProg : Program := mkProgram Examples.gen loopBlocks (fun _ => 0).
Definition loop : SVFFunction := mkFun 4 false false 0 [0; 1; 2].
Definition loopDF : gmap N (gset N) := {[0 := ∅; 1 := {[1]}; 2 := ∅]}.
Definition loopDT : gmap N (list N) := {[0 := [1]; 1 := [2]; 2 := []]}.

(** The build of [loop] in a fresh session, up to [insertPHI]. *)
Definition loop2 : MemSSA :=
  match createMUCHI loopProg loop (setCurrentDFDT (Some loopDF) (Some loopDT) initMemSSA) with
  | Ok s => Examples.orInit (insertPHI 10 loop s)
  | _ => initMemSSA
  end.

(** The state in which the renaming of [loop] enters block 1: block 0
    is renamed, the operands it owes to its successor are filled. *)
Definition loopAt1 : MemSSA :=
  Examples.orInit
    (st ← SSARenameBB_phiRes 0 loop2;
     st ← forEachM (SSARenameBB_inst loopProg 0) (bb_insts (loopBlocks 0)) st;
     forEachM (SSARenameBB_succ loopProg 0) (bb_succs (loopBlocks 0)) st.2).

(** The state in which the renaming leaves block 1. *)
Definition loopAfter1 : MemSSA := Examples.orInit (SSARenameBB loopProg 9 1 loopAt1).

End MoreExamples.

(** * Properties *)

(** ** Vectors *)

Lemma pop_back_nil {A} : pop_back (@nil A) = None.
Proof. reflexivity. Qed.

Lemma pop_back_snoc {A} (l : list A) (x : A) : pop_back (l ++ [x]) = Some (l, x).
Proof. unfold pop_back. rewrite rev_app_distr. simpl. by rewrite rev_involutive. Qed.

Lemma pop_back_Some {A} (l l' : list A) (x : A) :
  pop_back l = Some (l', x) -> l = l' ++ [x].
Proof.
  unfold pop_back. destruct (rev l) as [|y r] eqn:E; [done|].
  intros [= <- <-]. rewrite <- (rev_involutive l), E. reflexivity.
Qed.

Lemma pop_back_None {A} (l : list A) : pop_back l = None -> l = [].
Proof.
  unfold pop_back. destruct (rev l) as [|y r] eqn:E; [|done].
  intros _. rewrite <- (rev_involutive l), E. reflexivity.
Qed.

Lemma back_snoc {A} (l : list A) (x : A) : back (l ++ [x]) = Some x.
Proof. unfold back. by rewrite pop_back_snoc. Qed.

Lemma back_Some_ne {A} (l : list A) : l <> [] -> is_Some (back l).
Proof.
  intros Hne. unfold back. destruct (pop_back l) as [[l' x]|] eqn:E; [by eexists|].
  by apply pop_back_None in E.
Qed.

(** ** Loops *)

Lemma bind_Ok {A B} (m : Result A) (k : A -> Result B) (b : B) :
  m ≫= k = Ok b -> exists a, m = Ok a /\ k a = Ok b.
Proof. destruct m; simpl; try discriminate. eauto. Qed.

Lemma forEachM_app {A S} (body : A -> S -> Result S) l1 l2 s :
  forEachM body (l1 ++ l2) s = forEachM body l1 s ≫= forEachM body l2.
Proof.
  revert s. induction l1 as [|a l1 IH]; intros s; simpl; [done|].
  destruct (body a s); simpl; auto.
Qed.

Lemma forEachM_inv {A S} (I : S -> Prop) (body : A -> S -> Result S) l :
  (forall a s s', a ∈ l -> I s -> body a s = Ok s' -> I s') ->
  forall s s', I s -> forEachM body l s = Ok s' -> I s'.
Proof.
  induction l as [|a l IH]; intros Hstep s s' HI; simpl.
  - by intros [= <-].
  - intros (s1 & H1 & H2)%bind_Ok.
    eapply IH; [|eapply Hstep; [|exact HI|exact H1]|exact H2].
    + intros; eapply Hstep; eauto. by right.
    + by left.
Qed.

Lemma forEachM_isOk {A S} (I : S -> Prop) (body : A -> S -> Result S) l :
  (forall a s, a ∈ l -> I s -> exists s', body a s = Ok s' /\ I s') ->
  forall s, I s -> exists s', forEachM body l s = Ok s' /\ I s'.
Proof.
  induction l as [|a l IH]; intros Hstep s HI; simpl.
  - eauto.
  - destruct (Hstep a s) as (s1 & -> & HI1); [by left|done|]. simpl.
    apply IH; [|done]. intros; apply Hstep; [by right|done].
Qed.

Lemma forEach_inv {A S} (I : S -> Prop) (body : A -> S -> S) l :
  (forall a s, a ∈ l -> I s -> I (body a s)) ->
  forall s, I s -> I (forEach body l s).
Proof.
  unfold forEach. induction l as [|a l IH]; intros Hstep s HI; simpl; [done|].
  apply IH; [intros; apply Hstep; [by right|done]|]. apply Hstep; [by left|done].
Qed.

(** ** [newSSAName] *)

Lemma newSSAName_Ok mr def s v s' :
  newSSAName mr def s = Ok (v, s') ->
  exists version stack,
    mr2CounterMap s !! mr = Some version /\
    mr2VerStackMap s !! mr = Some stack /\
    v = mkMRVer mr version def /\
    s' = upd_stackLog (fun l => l ++ [StPush mr v])
           (upd_mr2VerStackMap (<[mr := stack ++ [v]]>)
              (upd_mr2CounterMap (<[mr := version + 1]>) s)).
Proof.
  unfold newSSAName.
  destruct (mr2CounterMap s !! mr) as [c|]; [|done].
  destruct (mr2VerStackMap s !! mr) as [stk|]; [|done].
  intros [= <- <-]. eauto 10.
Qed.

Lemma newSSAName_initialised mr def s version stack :
  mr2CounterMap s !! mr = Some version ->
  mr2VerStackMap s !! mr = Some stack ->
  newSSAName mr def s =
    Ok (mkMRVer mr version def,
        upd_stackLog (fun l => l ++ [StPush mr (mkMRVer mr version def)])
          (upd_mr2VerStackMap (<[mr := stack ++ [mkMRVer mr version def]]>)
             (upd_mr2CounterMap (<[mr := version + 1]>) s))).
Proof. intros Hc Hs. unfold newSSAName. by rewrite Hc, Hs. Qed.

Lemma newSSAName_Fatal_iff mr def s :
  isFatal (newSSAName mr def s) <->
  mr ∉ dom (mr2CounterMap s) \/ mr ∉ dom (mr2VerStackMap s).
Proof.
  unfold newSSAName, isFatal. rewrite !not_elem_of_dom.
  destruct (mr2CounterMap s !! mr) as [c|]; [|naive_solver].
  destruct (mr2VerStackMap s !! mr) as [stk|]; naive_solver.
Qed.

Lemma createMUCHI_entry_Ok fn mr s :
  exists s', createMUCHI_entry fn mr s = Ok s' /\
    mr2CounterMap s' = <[mr := 2]> (mr2CounterMap s) /\
    mr2VerStackMap s' = <[mr := entryVers fn mr]> (mr2VerStackMap s) /\
    funToEntryChiSetMap s' =
      <[fun_id fn := at_key [] (funToEntryChiSetMap s) (fun_id fn) ++ [entryChiOf fn mr]]>
        (funToEntryChiSetMap s) /\
    funToReturnMuSetMap s' =
      (if fun_doesNotRet fn then funToReturnMuSetMap s
       else <[fun_id fn := at_key [] (funToReturnMuSetMap s) (fun_id fn) ++ [retMuOf fn mr]]>
              (funToReturnMuSetMap s)) /\
    stackLog s' = stackLog s ++ StClear mr :: (StPush mr <$> entryVers fn mr) /\
    usedRegs s' = usedRegs s /\ reg2BBMap s' = reg2BBMap s /\ varKills s' = varKills s /\
    df s' = df s /\ dt s' = dt s /\
    load2MuSetMap s' = load2MuSetMap s /\ store2ChiSetMap s' = store2ChiSetMap s /\
    callsiteToMuSetMap s' = callsiteToMuSetMap s /\
    callsiteToChiSetMap s' = callsiteToChiSetMap s /\
    bb2PhiSetMap s' = bb2PhiSetMap s /\ wrnMsgs s' = wrnMsgs s.
Proof.
  unfold createMUCHI_entry.
  erewrite newSSAName_initialised; [|simpl; apply lookup_insert_eq..].
  simpl. erewrite newSSAName_initialised; [|simpl; apply lookup_insert_eq..].
  simpl.
  destruct (fun_doesNotRet fn); simpl; eexists; (split; [reflexivity|]); simpl;
    rewrite !insert_insert_eq, <- ?app_assoc; repeat split.
Qed.

Lemma createMUCHI_entries_spec fn l s :
  exists s', forEachM (createMUCHI_entry fn) l s = Ok s' /\
    (forall mr, mr2CounterMap s' !! mr =
       if decide (mr ∈ l) then Some 2 else mr2CounterMap s !! mr) /\
    (forall mr, mr2VerStackMap s' !! mr =
       if decide (mr ∈ l) then Some (entryVers fn mr) else mr2VerStackMap s !! mr) /\
    at_key [] (funToEntryChiSetMap s') (fun_id fn) =
      at_key [] (funToEntryChiSetMap s) (fun_id fn) ++ (entryChiOf fn <$> l) /\
    at_key [] (funToReturnMuSetMap s') (fun_id fn) =
      at_key [] (funToReturnMuSetMap s) (fun_id fn) ++
      (if fun_doesNotRet fn then [] else retMuOf fn <$> l) /\
    (forall f, f <> fun_id fn ->
       funToEntryChiSetMap s' !! f = funToEntryChiSetMap s !! f /\
       funToReturnMuSetMap s' !! f = funToReturnMuSetMap s !! f) /\
    stackLog s' =
      stackLog s ++ (l ≫= fun mr => StClear mr :: (StPush mr <$> entryVers fn mr)) /\
    usedRegs s' = usedRegs s /\ reg2BBMap s' = reg2BBMap s /\ varKills s' = varKills s /\
    df s' = df s /\ dt s' = dt s /\
    load2MuSetMap s' = load2MuSetMap s /\ store2ChiSetMap s' = store2ChiSetMap s /\
    callsiteToMuSetMap s' = callsiteToMuSetMap s /\
    callsiteToChiSetMap s' = callsiteToChiSetMap s /\
    bb2PhiSetMap s' = bb2PhiSetMap s /\ wrnMsgs s' = wrnMsgs s.
Proof.
  revert s. induction l as [|mr0 l IH]; intros s.
  - exists s. simpl. rewrite !app_nil_r. destruct (fun_doesNotRet fn); rewrite ?app_nil_r;
      repeat split; try done.
  - destruct (createMUCHI_entry_Ok fn mr0 s)
      as (s1 & E1 & Hc & Hs & He & Hr & Hl & Hu & Hb & Hk & Hdf & Hdt & H1 & H2 & H3 & H4 & H5 & H6).
    destruct (IH s1)
      as (s' & E' & Hc' & Hs' & He' & Hr' & Ho' & Hl' & Hu' & Hb' & Hk' & Hdf' & Hdt'
          & H1' & H2' & H3' & H4' & H5' & H6').
    exists s'. simpl. rewrite E1. simpl. split; [exact E'|].
    split; [|split; [|split; [|split; [|split; [|split]]]]].
    + intros mr. rewrite Hc', Hc. destruct (decide (mr = mr0)) as [->|Hne].
      * rewrite lookup_insert_eq. rewrite (decide_True (P := mr0 ∈ mr0 :: l)) by (by left).
        by destruct (decide (mr0 ∈ l)).
      * rewrite lookup_insert_ne by done.
        destruct (decide (mr ∈ l)).
        -- rewrite decide_True; [done|by right].
        -- rewrite decide_False; [done|]. rewrite elem_of_cons. tauto.
    + intros mr. rewrite Hs', Hs. destruct (decide (mr = mr0)) as [->|Hne].
      * rewrite lookup_insert_eq. rewrite (decide_True (P := mr0 ∈ mr0 :: l)) by (by left).
        by destruct (decide (mr0 ∈ l)).
      * rewrite lookup_insert_ne by done.
        destruct (decide (mr ∈ l)).
        -- rewrite decide_True; [done|by right].
        -- rewrite decide_False; [done|]. rewrite elem_of_cons. tauto.
    + rewrite He', He. unfold at_key at 1. rewrite lookup_insert_eq. simpl.
      by rewrite <- app_assoc.
    + rewrite Hr', Hr. destruct (fun_doesNotRet fn); [done|].
      unfold at_key at 1. rewrite lookup_insert_eq. simpl. by rewrite <- app_assoc.
    + intros f Hf. destruct (Ho' f Hf) as [-> ->]. rewrite He, Hr.
      rewrite lookup_insert_ne by done.
      destruct (fun_doesNotRet fn); [done|]. by rewrite lookup_insert_ne.
    + rewrite Hl', Hl. by rewrite <- app_assoc.
    + repeat split; congruence.
Qed.

Lemma createMUCHI_unfold P fn s t :
  dt s = Some t ->
  createMUCHI P fn s =
    forEachM (createMUCHI_entry fn)
      (elements (usedRegs (forEach (createMUCHI_bb P) (fun_reachableBBs fn) s)))
      (forEach (createMUCHI_bb P) (fun_reachableBBs fn) s).
Proof. intros Hdt. unfold createMUCHI, getDT. rewrite Hdt. reflexivity. Qed.

Lemma createMUCHI_no_dt P fn s : dt s = None -> createMUCHI P fn s = Fatal "dt is NULL".
Proof. intros Hdt. unfold createMUCHI, getDT. rewrite Hdt. reflexivity. Qed.

Lemma createMUCHI_Ok_dt P fn s s' : createMUCHI P fn s = Ok s' -> exists t, dt s = Some t.
Proof.
  destruct (dt s) as [t|] eqn:E; [eauto|]. by rewrite createMUCHI_no_dt.
Qed.

Section MuChi.
Variable P : Program.

Lemma muchi_frame_refl s : muchi_frame s s.
Proof. by repeat split. Qed.

Lemma muchi_frame_trans s1 s2 s3 : muchi_frame s1 s2 -> muchi_frame s2 s3 -> muchi_frame s1 s3.
Proof. unfold muchi_frame. intuition congruence. Qed.

Ltac frame_step :=
  unfold muchi_frame, AddLoadMU, AddStoreCHI, AddCallSiteMU, AddCallSiteCHI,
    collectRegDefs, collectRegUses;
  simpl; repeat case_decide; simpl; repeat split.

Lemma AddLoadMU_frame bb load mr s : muchi_frame s (AddLoadMU bb load mr s).
Proof. frame_step. Qed.
Lemma AddStoreCHI_frame bb store mr s : muchi_frame s (AddStoreCHI bb store mr s).
Proof. frame_step. Qed.
Lemma AddCallSiteMU_frame cs mr s : muchi_frame s (AddCallSiteMU cs mr s).
Proof. frame_step. Qed.
Lemma AddCallSiteCHI_frame cs mr s : muchi_frame s (AddCallSiteCHI P cs mr s).
Proof. frame_step. Qed.

Lemma forEach_frame {A} (body : A -> MemSSA -> MemSSA) l s :
  (forall a s, muchi_frame s (body a s)) -> muchi_frame s (forEach body l s).
Proof.
  intros Hb. apply (forEach_inv (muchi_frame s)); [|apply muchi_frame_refl].
  intros a s1 _ H1. eapply muchi_frame_trans; [exact H1|apply Hb].
Qed.

Lemma createMUCHI_edge_frame bb e s : muchi_frame s (createMUCHI_edge P bb e s).
Proof.
  destruct e; simpl; [| |apply muchi_frame_refl];
    apply forEach_frame; intros; [apply AddLoadMU_frame|apply AddStoreCHI_frame].
Qed.

Lemma createMUCHI_inst_frame bb inst s : muchi_frame s (createMUCHI_inst P bb inst s).
Proof.
  unfold createMUCHI_inst.
  set (s1 := if inst_hasPAGEdgeList inst then _ else _).
  assert (muchi_frame s s1) as H1.
  { subst s1. destruct (inst_hasPAGEdgeList inst); [|apply muchi_frame_refl].
    apply forEach_frame. intros. apply createMUCHI_edge_frame. }
  clearbody s1. eapply muchi_frame_trans; [exact H1|].
  destruct (inst_callSite inst) as [cs|]; [|apply muchi_frame_refl].
  set (s2 := if hasRefMRSet (mrGen P) cs then _ else _).
  assert (muchi_frame s1 s2) as H2.
  { subst s2. destruct (hasRefMRSet (mrGen P) cs); [|apply muchi_frame_refl].
    apply forEach_frame. intros. apply AddCallSiteMU_frame. }
  clearbody s2. eapply muchi_frame_trans; [exact H2|].
  destruct (hasModMRSet (mrGen P) cs); [|apply muchi_frame_refl].
  apply forEach_frame. intros. apply AddCallSiteCHI_frame.
Qed.

Lemma createMUCHI_bb_frame bb s : muchi_frame s (createMUCHI_bb P bb s).
Proof.
  unfold createMUCHI_bb.
  eapply muchi_frame_trans; [|apply forEach_frame; intros; apply createMUCHI_inst_frame].
  by repeat split.
Qed.

Lemma createMUCHI_bbs_frame l s : muchi_frame s (forEach (createMUCHI_bb P) l s).
Proof. apply forEach_frame. intros. apply createMUCHI_bb_frame. Qed.

(** Used regions and locally defining blocks. *)

Lemma collectRegUses_defs_used mr s : defs_used s -> defs_used (collectRegUses mr s).
Proof.
  unfold defs_used, collectRegUses. intros H mr'. case_decide; simpl; [apply H|].
  intros Hx. apply elem_of_union. left. by apply H.
Qed.

Lemma collectRegUses_used mr s :
  defs_used s -> mr ∈ usedRegs (collectRegUses mr s).
Proof.
  unfold defs_used, collectRegUses. intros H. case_decide; simpl.
  - apply H. by left.
  - apply elem_of_union. right. by apply elem_of_singleton.
Qed.

Lemma collectRegDefs_defs_used bb mr s :
  defs_used s -> mr ∈ usedRegs s -> defs_used (collectRegDefs bb mr s).
Proof.
  unfold defs_used, collectRegDefs. simpl. intros H Hmr mr' Hx.
  destruct (decide (mr' = mr)) as [->|Hne]; [done|].
  apply H. destruct Hx as [Hx|Hx].
  - left. apply elem_of_union in Hx as [Hx|Hx]; [done|]. by apply elem_of_singleton in Hx.
  - right. unfold at_key in *. by rewrite lookup_insert_ne in Hx.
Qed.

Lemma AddLoadMU_defs_used bb load mr s : defs_used s -> defs_used (AddLoadMU bb load mr s).
Proof. intros H. unfold AddLoadMU. by apply collectRegUses_defs_used. Qed.

Lemma AddCallSiteMU_defs_used cs mr s : defs_used s -> defs_used (AddCallSiteMU cs mr s).
Proof. intros H. unfold AddCallSiteMU. by apply collectRegUses_defs_used. Qed.

Lemma AddStoreCHI_defs_used bb store mr s : defs_used s -> defs_used (AddStoreCHI bb store mr s).
Proof.
  intros H. unfold AddStoreCHI. apply collectRegDefs_defs_used.
  - by apply collectRegUses_defs_used.
  - by apply collectRegUses_used.
Qed.

Lemma AddCallSiteCHI_defs_used cs mr s : defs_used s -> defs_used (AddCallSiteCHI P cs mr s).
Proof.
  intros H. unfold AddCallSiteCHI. apply collectRegDefs_defs_used.
  - by apply collectRegUses_defs_used.
  - by apply collectRegUses_used.
Qed.

Lemma createMUCHI_edge_defs_used bb e s : defs_used s -> defs_used (createMUCHI_edge P bb e s).
Proof.
  intros H. destruct e; simpl; [| |done];
    unfold AddLoadMUs, AddStoreCHIs; apply forEach_inv; try done; intros.
  - by apply AddLoadMU_defs_used.
  - by apply AddStoreCHI_defs_used.
Qed.

Lemma createMUCHI_inst_defs_used bb inst s : defs_used s -> defs_used (createMUCHI_inst P bb inst s).
Proof.
  intros H. unfold createMUCHI_inst.
  set (s1 := if inst_hasPAGEdgeList inst then _ else _).
  assert (defs_used s1) as H1.
  { subst s1. destruct (inst_hasPAGEdgeList inst); [|done].
    apply forEach_inv; [|done]. intros. by apply createMUCHI_edge_defs_used. }
  clearbody s1.
  destruct (inst_callSite inst) as [cs|]; [|done].
  set (s2 := if hasRefMRSet (mrGen P) cs then _ else _).
  assert (defs_used s2) as H2.
  { subst s2. destruct (hasRefMRSet (mrGen P) cs); [|done].
    unfold AddCallSiteMUs. apply forEach_inv; [|done]. intros. by apply AddCallSiteMU_defs_used. }
  clearbody s2.
  destruct (hasModMRSet (mrGen P) cs); [|done].
  unfold AddCallSiteCHIs. apply forEach_inv; [|done]. intros. by apply AddCallSiteCHI_defs_used.
Qed.

Lemma defs_used_weaken s : defs_used s -> defs_have_uses s.
Proof. intros H mr Hx. apply H. by right. Qed.

Lemma createMUCHI_bb_defs_used bb s : defs_have_uses s -> defs_have_uses (createMUCHI_bb P bb s).
Proof.
  intros H. unfold createMUCHI_bb. apply defs_used_weaken. apply forEach_inv.
  - intros. by apply createMUCHI_inst_defs_used.
  - intros mr [Hx|Hx]; simpl in *; [by apply not_elem_of_empty in Hx|].
    by apply H.
Qed.

Lemma createMUCHI_bbs_defs_used l s :
  defs_have_uses s -> defs_have_uses (forEach (createMUCHI_bb P) l s).
Proof. intros H. apply forEach_inv; [|done]. intros. by apply createMUCHI_bb_defs_used. Qed.

Lemma setCurrentDFDT_defs_used f t s : defs_have_uses (setCurrentDFDT f t s).
Proof. intros mr Hx. simpl in Hx. unfold at_key in Hx. by rewrite lookup_empty in Hx. Qed.

End MuChi.

Lemma phi_frame_refl s : phi_frame s s.
Proof. by repeat split. Qed.

Lemma phi_frame_trans s1 s2 s3 : phi_frame s1 s2 -> phi_frame s2 s3 -> phi_frame s1 s3.
Proof.
  unfold phi_frame. intros (?&?&?&?&?&?&?&?&?&?&?&Hr&?&?) (?&?&?&?&?&?&?&?&?&?&?&Hr'&?&?).
  repeat split; try congruence; intros; by rewrite Hr', Hr.
Qed.

Lemma at_key_insert {V} (d : V) (m : gmap N V) k v k' :
  at_key d (<[k := v]> m) k' = if decide (k = k') then v else at_key d m k'.
Proof. unfold at_key. rewrite lookup_insert. by case_decide. Qed.

Lemma at_key_insert_id {V} (d : V) (m : gmap N V) k k' :
  at_key d (<[k := at_key d m k]> m) k' = at_key d m k'.
Proof. rewrite at_key_insert. case_decide; by subst. Qed.

Lemma frontierOf_blocks dfm d b : b ∈ frontierOf dfm d -> b ∈ frontierBlocks dfm.
Proof.
  unfold frontierOf, at_key, frontierBlocks. destruct (dfm !! d) as [ds|] eqn:E; simpl.
  - intros Hb. apply elem_of_union_list. exists ds. split; [|done].
    apply list_elem_of_fmap. exists (d, ds). split; [done|]. by apply elem_of_map_to_list.
  - intros Hb. by apply not_elem_of_empty in Hb.
Qed.

Lemma IDF_mono dfm defs defs' b :
  (forall d, d ∈ defs' -> d ∈ defs \/ IDF dfm defs d) -> IDF dfm defs' b -> IDF dfm defs b.
Proof.
  intros H. induction 1 as [d b Hd Hb|d b Hd IH Hb].
  - destruct (H d Hd) as [?|?]; [by eapply IDF_def|by eapply IDF_step].
  - by eapply IDF_step.
Qed.

Lemma IDF_blocks dfm defs b : IDF dfm defs b -> b ∈ frontierBlocks dfm.
Proof. destruct 1; by eapply frontierOf_blocks. Qed.

(** ** One frontier block *)

Lemma phiCountAt_AddMSSAPHI b mr pbb mr' s :
  phiCountAt b mr' (AddMSSAPHI pbb mr s) =
  (phiCountAt b mr' s + if decide (b = pbb /\ mr' = mr) then 1 else 0)%nat.
Proof.
  unfold phiCountAt, AddMSSAPHI. simpl. rewrite at_key_insert.
  destruct (decide (pbb = b)) as [->|Hne].
  - rewrite filter_app, length_app. f_equal.
    rewrite filter_cons, filter_nil. simpl.
    destruct (decide (mr = mr')) as [->|Hm].
    + by rewrite decide_True.
    + rewrite decide_False; [done|]. intros [_ ?]. by subst.
  - rewrite decide_False; [lia|]. intros [? _]. by subst.
Qed.

Lemma AddMSSAPHI_frame pbb mr s : phi_frame s (AddMSSAPHI pbb mr s).
Proof. by repeat split. Qed.

Section Frontier.
Variable mr : N.
Variable U : gset N.


Lemma unrecorded_insert_same m pbb :
  unrecorded mr (<[pbb := at_key ∅ m pbb]> m) U = unrecorded mr m U.
Proof.
  unfold unrecorded, recorded. apply set_eq. intros b.
  rewrite !elem_of_filter. by rewrite at_key_insert_id.
Qed.


Lemma unrecorded_insert_new m pbb :
  pbb ∈ U -> ~ recorded mr m pbb ->
  size (unrecorded mr m U) =
  S (size (unrecorded mr (<[pbb := at_key ∅ m pbb ∪ {[mr]}]> m) U)).
Proof.
  intros HU Hn.
  assert (unrecorded mr m U =
          {[pbb]} ∪ unrecorded mr (<[pbb := at_key ∅ m pbb ∪ {[mr]}]> m) U) as ->.
  { unfold unrecorded, recorded. apply set_eq. intros b.
    rewrite elem_of_union, !elem_of_filter, elem_of_singleton, at_key_insert.
    destruct (decide (pbb = b)) as [->|Hne].
    - split; [by left|]. intros _. done.
    - split; [by right|]. intros [->|?]; done. }
  rewrite size_union.
  - by rewrite size_singleton.
  - intros b Hb%elem_of_singleton Hb'. subst b.
    unfold unrecorded, recorded in Hb'. apply elem_of_filter in Hb' as [Hb' _].
    apply Hb'. rewrite at_key_insert, decide_True by done.
    apply elem_of_union. right. by apply elem_of_singleton.
Qed.

Lemma recorded_insert_same mr' m pbb b :
  recorded mr' (<[pbb := at_key ∅ m pbb]> m) b <-> recorded mr' m b.
Proof. unfold recorded. by rewrite at_key_insert_id. Qed.

Lemma recorded_insert_new mr' m pbb b :
  recorded mr' (<[pbb := at_key ∅ m pbb ∪ {[mr]}]> m) b <->
  recorded mr' m b \/ (b = pbb /\ mr' = mr).
Proof.
  unfold recorded. rewrite at_key_insert. case_decide as Hb.
  - subst. rewrite elem_of_union, elem_of_singleton. naive_solver.
  - naive_solver.
Qed.

Lemma recordedCount_ext m m' b :
  (recorded mr m b <-> recorded mr m' b) -> recordedCount mr m b = recordedCount mr m' b.
Proof. unfold recordedCount. intros H. repeat case_decide; tauto. Qed.

Lemma insertPHI_frontier_inv pbb st :
  pbb ∈ U -> phi_inv mr U st (insertPHI_frontier mr pbb st).
Proof.
  intros HU. destruct st as [[bbs m] s]. unfold insertPHI_frontier.
  destruct (decide (mr ∈ at_key ∅ m pbb)) as [Hin|Hnin]; constructor; simpl.
  - by rewrite unrecorded_insert_same.
  - intros b. by rewrite recorded_insert_same.
  - intros b. f_equal. apply recordedCount_ext. by rewrite recorded_insert_same.
  - intros mr' b _. by rewrite recorded_insert_same.
  - apply phi_frame_refl.
  - rewrite length_app. simpl. rewrite (unrecorded_insert_new m pbb HU Hnin). lia.
  - intros b. rewrite recorded_insert_new. by left.
  - intros b. rewrite phiCountAt_AddMSSAPHI. unfold recordedCount.
    pose proof (recorded_insert_new mr m pbb b) as Hr.
    destruct (decide (b = pbb)) as [->|Hne].
    + rewrite (decide_True (P := pbb = pbb /\ mr = mr)) by done.
      rewrite (decide_False (P := recorded mr m pbb)) by done.
      rewrite decide_True; [lia|]. apply Hr. by right.
    + rewrite (decide_False (P := b = pbb /\ mr = mr)) by (by intros [? _]).
      repeat case_decide; try lia; exfalso; naive_solver.
  - intros mr' b Hne. rewrite phiCountAt_AddMSSAPHI. split.
    + rewrite decide_False; [lia|]. by intros [_ ?].
    + rewrite recorded_insert_new. naive_solver.
  - apply AddMSSAPHI_frame.
Qed.

Lemma phi_inv_refl st : phi_inv mr U st st.
Proof. constructor; try done; try apply phi_frame_refl. Qed.

Lemma phi_inv_trans st1 st2 st3 :
  phi_inv mr U st1 st2 -> phi_inv mr U st2 st3 -> phi_inv mr U st1 st3.
Proof.
  intros [M1 R1 C1 O1 F1] [M2 R2 C2 O2 F2]. constructor.
  - lia.
  - auto.
  - intros b. specialize (C1 b). specialize (C2 b). lia.
  - intros mr' b Hne. destruct (O1 mr' b Hne) as [E1 I1].
    destruct (O2 mr' b Hne) as [E2 I2]. split; [congruence|tauto].
  - by eapply phi_frame_trans.
Qed.

(** ** The loop over a frontier set *)
Lemma insertPHI_frontiers_spec l st :
  (forall b, b ∈ l -> b ∈ U) ->
  let st' := forEach (insertPHI_frontier mr) l st in
  phi_inv mr U st st' /\
  (forall b, recorded mr st'.1.2 b <-> recorded mr st.1.2 b \/ b ∈ l) /\
  (forall b, b ∈ st'.1.1 -> b ∈ st.1.1 \/ b ∈ l) /\
  (forall b, b ∈ st.1.1 -> b ∈ st'.1.1) /\
  (forall b, recorded mr st'.1.2 b -> recorded mr st.1.2 b \/ b ∈ st'.1.1).
Proof.
  revert st. induction l as [|pbb l IH]; intros st HU; simpl.
  - split; [apply phi_inv_refl|]. split; [|split; [|split]]; try tauto.
    intros b. rewrite elem_of_nil. tauto.
  - unfold forEach in *. simpl.
    destruct (IH (insertPHI_frontier mr pbb st)) as (I2 & R2 & W2 & K2 & N2).
    { intros; apply HU; by right. }
    pose proof (insertPHI_frontier_inv pbb st (HU pbb ltac:(by left))) as I1.
    split; [by eapply phi_inv_trans|].
    destruct st as [[bbs m] s]. unfold insertPHI_frontier in *.
    destruct (decide (mr ∈ at_key ∅ m pbb)) as [Hin|Hnin]; simpl in *.
    + split; [|split; [|split]].
      * intros b. rewrite R2, recorded_insert_same, elem_of_cons.
        split; [tauto|]. intros [?|[->|?]]; auto.
      * intros b Hb. rewrite elem_of_cons. destruct (W2 b Hb); auto.
      * auto.
      * intros b Hb. destruct (N2 b Hb) as [Hx|Hx]; [|by right].
        left. by apply recorded_insert_same in Hx.
    + split; [|split; [|split]].
      * intros b. rewrite R2, recorded_insert_new, elem_of_cons. naive_solver.
      * intros b Hb. rewrite elem_of_cons. destruct (W2 b Hb) as [Hx|Hx]; auto.
        apply elem_of_app in Hx as [?|Hx]; auto. apply list_elem_of_singleton in Hx. auto.
      * intros b Hb. apply K2, elem_of_app. by left.
      * intros b Hb. destruct (N2 b Hb) as [Hx|Hx]; [|by right].
        apply recorded_insert_new in Hx as [?|[-> _]]; [by left|].
        right. apply K2, elem_of_app. right. by left.
Qed.

End Frontier.

(** ** The worklist loop of a region *)


Lemma writeWrnMsg_frame msg s : phi_frame s (writeWrnMsg msg s).
Proof. by repeat split. Qed.

Lemma insertPHI_while_spec dfm mr fuel : forall bbs m s,
  (length bbs + size (unrecorded mr m (frontierBlocks dfm)) < fuel)%nat ->
  exists m' s', insertPHI_while fuel dfm mr bbs m s = Ok (m', s') /\
    while_post dfm mr bbs m s m' s'.
Proof.
  induction fuel as [|fuel IH]; intros bbs m s Hfuel; [lia|].
  simpl. destruct (pop_back bbs) as [[bbs0 bb]|] eqn:Epop.
  2:{ apply pop_back_None in Epop. subst bbs. exists m, s. split; [done|].
      constructor; try done; try tauto; try apply phi_frame_refl.
      intros x b [Hx|[? ?]]; [by apply elem_of_nil in Hx|done]. }
  apply pop_back_Some in Epop. subst bbs. rewrite length_app in Hfuel. simpl in Hfuel.
  destruct (dfm !! bb) as [domSet|] eqn:Edf.
  - pose proof (insertPHI_frontiers_spec mr (frontierBlocks dfm) (elements domSet) (bbs0, m, s))
      as (I1 & R1 & W1 & K1 & N1).
    { intros b Hb%elem_of_elements. apply (frontierOf_blocks dfm bb).
      unfold frontierOf, at_key. by rewrite Edf. }
    destruct (forEach (insertPHI_frontier mr) (elements domSet) (bbs0, m, s))
      as [[bbs1 m1] s1] eqn:Est. simpl in *.
    destruct I1 as [M1 Rm1 C1 O1 F1]. simpl in *.
    destruct (IH bbs1 m1 s1) as (m' & s' & E' & [Rm2 C2 O2 F2 S2 Cl2]); [lia|].
    exists m', s'. split; [done|].
    assert (forall b, b ∈ frontierOf dfm bb -> recorded mr m1 b) as Hfront.
    { intros b Hb. apply R1. right. apply elem_of_elements.
      unfold frontierOf, at_key in Hb. by rewrite Edf in Hb. }
    assert (forall b, recorded mr m1 b -> recorded mr m b \/ IDF dfm (bbs0 ++ [bb]) b) as Hs1.
    { intros b [?|Hb]%R1; [by left|]. right. eapply IDF_def.
      - apply elem_of_app. right. by left.
      - unfold frontierOf, at_key. rewrite Edf. simpl. by apply elem_of_elements. }
    constructor.
    + auto.
    + intros b. specialize (C1 b). specialize (C2 b). lia.
    + intros mr' b Hne. destruct (O1 mr' b Hne) as [E1 I1].
      destruct (O2 mr' b Hne) as [E2 I2]. split; [congruence|tauto].
    + by eapply phi_frame_trans.
    + intros b Hb. destruct (S2 b Hb) as [Hm1|Hidf]; [by apply Hs1|].
      right. eapply IDF_mono; [|exact Hidf].
      intros d Hd. destruct (W1 d Hd) as [?|Hd'].
      * left. apply elem_of_app. by left.
      * right. eapply IDF_def.
        -- apply elem_of_app. right. by left.
        -- unfold frontierOf, at_key. rewrite Edf. simpl. by apply elem_of_elements.
    + intros x b [Hx|[Hx Hnx]] Hb.
      * apply elem_of_app in Hx as [Hx|Hx].
        -- eapply Cl2; [left; by apply K1|done].
        -- apply list_elem_of_singleton in Hx. subst x. by apply Rm2, Hfront.
      * destruct (decide (recorded mr m1 x)) as [Hx1|Hx1].
        -- destruct (N1 x Hx1) as [?|Hw]; [done|]. eapply Cl2; [left; exact Hw|done].
        -- eapply Cl2; [right; split; [exact Hx|exact Hx1]|done].
  - destruct (IH bbs0 m (writeWrnMsg "bb not in the dominance frontier map??" s))
      as (m' & s' & E' & [Rm2 C2 O2 F2 S2 Cl2]); [lia|].
    exists m', s'. split; [done|]. constructor.
    + done.
    + done.
    + done.
    + eapply phi_frame_trans; [apply writeWrnMsg_frame|done].
    + intros b Hb. destruct (S2 b Hb) as [?|Hidf]; [by left|]. right.
      eapply IDF_mono; [|exact Hidf]. intros d Hd. left. apply elem_of_app. by left.
    + intros x b [Hx|Hx] Hb.
      * apply elem_of_app in Hx as [Hx|Hx]; [eapply Cl2; [left; exact Hx|done]|].
        apply list_elem_of_singleton in Hx. subst x.
        unfold frontierOf, at_key in Hb. rewrite Edf in Hb. by apply not_elem_of_empty in Hb.
      * eapply Cl2; [right; exact Hx|done].
Qed.

Lemma maxDefs_le s mr : (length (at_key [] (reg2BBMap s) mr) <= maxDefs s)%nat.
Proof.
  unfold at_key, maxDefs. destruct (reg2BBMap s !! mr) as [l|] eqn:E; simpl; [|lia].
  apply max_list_elem_of_le. apply list_elem_of_fmap. exists l. split; [done|].
  apply list_elem_of_fmap. exists (mr, l). split; [done|]. by apply elem_of_map_to_list.
Qed.

Lemma unrecorded_size mr m U : (size (unrecorded mr m U) <= size U)%nat.
Proof.
  apply subseteq_size. unfold unrecorded. intros b Hb. by apply elem_of_filter in Hb as [_ ?].
Qed.

Lemma while_post_fresh dfm mr bbs m s m' s' :
  while_post dfm mr bbs m s m' s' ->
  (forall b, ~ recorded mr m b) ->
  forall b, recorded mr m' b <-> IDF dfm bbs b.
Proof.
  intros [Rm C O F S Cl] Hfresh b. split.
  - intros Hb. destruct (S b Hb) as [Hx|Hx]; [by apply Hfresh in Hx|done].
  - induction 1 as [d b Hd Hb|d b Hd IH Hb].
    + eapply Cl; [left; exact Hd|done].
    + eapply Cl; [right; split; [exact IH|apply Hfresh]|done].
Qed.

(** Fuel: more fuel does not change a result. *)
Lemma insertPHI_while_fuel_mono dfm mr fuel : forall fuel' bbs m s r,
  (fuel <= fuel')%nat ->
  insertPHI_while fuel dfm mr bbs m s = Ok r ->
  insertPHI_while fuel' dfm mr bbs m s = Ok r.
Proof.
  induction fuel as [|fuel IH]; intros fuel' bbs m s r Hle; [done|].
  destruct fuel' as [|fuel']; [lia|]. simpl.
  destruct (pop_back bbs) as [[bbs0 bb]|]; [|done].
  destruct (dfm !! bb) as [domSet|].
  - destruct (forEach _ _ _) as [[bbs1 m1] s1]. apply IH. lia.
  - apply IH. lia.
Qed.

Lemma forEachM_fuel_mono {A S} (body : nat -> A -> S -> Result S) fuel fuel' l :
  (forall a s r, body fuel a s = Ok r -> body fuel' a s = Ok r) ->
  forall s r, forEachM (body fuel) l s = Ok r -> forEachM (body fuel') l s = Ok r.
Proof.
  intros Hb. induction l as [|a l IH]; intros s r; simpl; [done|].
  intros (s1 & H1 & H2)%bind_Ok. rewrite (Hb _ _ _ H1). simpl. by apply IH.
Qed.

Lemma insertPHI_fuel_mono fuel fuel' fn s r :
  (fuel <= fuel')%nat -> insertPHI fuel fn s = Ok r -> insertPHI fuel' fn s = Ok r.
Proof.
  intros Hle. unfold insertPHI. destruct (getDF s) as [dfm| | |]; simpl; try done.
  intros ([m1 s1] & H1 & H2)%bind_Ok.
  erewrite (forEachM_fuel_mono (fun fuel => insertPHI_region fuel dfm)); [|clear H1|exact H1].
  - done.
  - intros mr [m s0] r0. unfold insertPHI_region. by apply insertPHI_while_fuel_mono.
Qed.

(** ** The loop over the used regions *)

Section Regions.
Variable dfm : gmap N (gset N).
Variable s0 : MemSSA.
Variable fuel : nat.
Hypothesis Hfuel : (maxDefs s0 + size (frontierBlocks dfm) < fuel)%nat.


Lemma insertPHI_region_inv done mr st :
  mr ∉ done -> regions_inv dfm s0 done st ->
  exists st', insertPHI_region fuel dfm mr st = Ok st' /\ regions_inv dfm s0 (done ++ [mr]) st'.
Proof.
  intros Hnew [R C F]. destruct st as [m s]. simpl in *. unfold insertPHI_region.
  set (bbs := at_key [] (reg2BBMap s) mr).
  set (s1 := upd_reg2BBMap _ s).
  assert (phi_frame s s1) as F1.
  { subst s1 bbs. repeat split; simpl. intros mr'. apply at_key_insert_id. }
  assert (bbs = at_key [] (reg2BBMap s0) mr) as Hbbs.
  { subst bbs. destruct F as (_&_&_&_&_&_&_&_&_&_&_&Hr&_). apply Hr. }
  destruct (insertPHI_while_spec dfm mr fuel bbs m s1) as (m' & s' & E & W).
  { pose proof (unrecorded_size mr m (frontierBlocks dfm)).
    pose proof (maxDefs_le s0 mr). rewrite Hbbs. lia. }
  exists (m', s'). split; [done|].
  assert (forall b, ~ recorded mr m b) as Hfresh.
  { intros b Hb. apply R in Hb as [? _]. done. }
  pose proof (while_post_fresh _ _ _ _ _ _ _ W Hfresh) as Hidf.
  destruct W as [Rm Cw O Fw S Cl]. constructor; simpl.
  - intros mr' b. destruct (decide (mr' = mr)) as [->|Hne].
    + rewrite Hidf, Hbbs, elem_of_app, list_elem_of_singleton. tauto.
    + destruct (O mr' b Hne) as [_ ->]. rewrite R, elem_of_app, list_elem_of_singleton. tauto.
  - intros mr' b. destruct (decide (mr' = mr)) as [->|Hne].
    + specialize (Cw b). specialize (C mr b).
      assert (recordedCount mr m b = 0%nat) as Hz.
      { unfold recordedCount. rewrite decide_False; [done|apply Hfresh]. }
      assert (phiCountAt b mr s1 = phiCountAt b mr s) as Hs1 by done.
      lia.
    + destruct (O mr' b Hne) as [-> Hr]. rewrite <- (recordedCount_ext mr' m m' b) by tauto.
      apply C.
  - eapply phi_frame_trans; [exact F|]. eapply phi_frame_trans; [exact F1|exact Fw].
Qed.

Lemma insertPHI_regions_inv l : forall done st,
  NoDup l -> (forall mr, mr ∈ l -> mr ∉ done) -> regions_inv dfm s0 done st ->
  exists st', forEachM (insertPHI_region fuel dfm) l st = Ok st' /\
    regions_inv dfm s0 (done ++ l) st'.
Proof.
  induction l as [|mr l IH]; intros done st Hnd Hnew Hinv; simpl.
  - exists st. by rewrite app_nil_r.
  - apply NoDup_cons in Hnd as [Hmr Hnd].
    destruct (insertPHI_region_inv done mr st) as (st1 & -> & Hinv1);
      [apply Hnew; by left|done|].
    simpl. destruct (IH (done ++ [mr]) st1) as (st' & E & Hinv'); [done| |done|].
    + intros mr' Hin Hd. apply elem_of_app in Hd as [Hd|Hd].
      * eapply Hnew; [right; exact Hin|done].
      * apply list_elem_of_singleton in Hd. by subst.
    + exists st'. split; [done|]. by rewrite <- app_assoc in Hinv'.
Qed.

End Regions.

Lemma phiCountAt_0 b mr : recordedCount mr ∅ b = 0%nat.
Proof.
  unfold recordedCount. rewrite decide_False; [done|]. unfold recorded, at_key.
  rewrite lookup_empty. simpl. apply not_elem_of_empty.
Qed.

(** The outcome of [insertPHI] with enough fuel. *)
Lemma insertPHI_spec fuel fn s dfm :
  df s = Some dfm ->
  (insertPHI_fuel s <= fuel)%nat ->
  exists s', insertPHI fuel fn s = Ok s' /\ phi_frame s s' /\
    forall mr b,
      (mr ∈ usedRegs s /\ IDF dfm (at_key [] (reg2BBMap s) mr) b /\
         phiCountAt b mr s' = S (phiCountAt b mr s)) \/
      (~ (mr ∈ usedRegs s /\ IDF dfm (at_key [] (reg2BBMap s) mr) b) /\
         phiCountAt b mr s' = phiCountAt b mr s).
Proof.
  intros Hdf Hfuel. unfold insertPHI_fuel in Hfuel. rewrite Hdf in Hfuel. simpl in Hfuel.
  unfold insertPHI, getDF. rewrite Hdf. simpl.
  destruct (insertPHI_regions_inv dfm s fuel ltac:(lia) (elements (usedRegs s)) [] (∅, s))
    as ([m' s'] & E & [R C F]).
  - apply NoDup_elements.
  - intros mr _ H. by apply elem_of_nil in H.
  - constructor; simpl.
    + intros mr b. unfold recorded, at_key. rewrite lookup_empty. simpl.
      rewrite elem_of_nil. split; [by intros ?%not_elem_of_empty|tauto].
    + intros mr b. rewrite phiCountAt_0. lia.
    + apply phi_frame_refl.
  - rewrite E. simpl in *. exists s'. split; [done|]. split; [done|].
    intros mr b. specialize (R mr b). specialize (C mr b).
    rewrite elem_of_elements in R. unfold recordedCount in C.
    destruct (decide (recorded mr m' b)) as [Hr|Hr].
    + left. apply R in Hr as [? ?]. split; [done|]. split; [done|]. lia.
    + right. split; [by rewrite <- R|]. lia.
Qed.

Lemma ren_frame_refl s : ren_frame s s.
Proof. by repeat split. Qed.

Lemma ren_frame_trans s1 s2 s3 : ren_frame s1 s2 -> ren_frame s2 s3 -> ren_frame s1 s3.
Proof. unfold ren_frame. intuition congruence. Qed.

Lemma pushCount_app mr l1 l2 : pushCount mr (l1 ++ l2) = (pushCount mr l1 + pushCount mr l2)%nat.
Proof. apply sum_list_with_app. Qed.
Lemma popCount_app mr l1 l2 : popCount mr (l1 ++ l2) = (popCount mr l1 + popCount mr l2)%nat.
Proof. apply sum_list_with_app. Qed.
Lemma occ_app mr l1 l2 : occ mr (l1 ++ l2) = (occ mr l1 + occ mr l2)%nat.
Proof. apply sum_list_with_app. Qed.

Lemma ren_inv_start s : ren_inv s ([], s).
Proof.
  constructor; simpl; [done| |apply ren_frame_refl].
  exists []. by rewrite app_nil_r.
Qed.

(** Changes to the nodes alone keep the invariant. *)
Lemma ren_inv_nodes s0 memRegs s s' :
  mr2VerStackMap s' = mr2VerStackMap s -> stackLog s' = stackLog s -> ren_frame s s' ->
  ren_inv s0 (memRegs, s) -> ren_inv s0 (memRegs, s').
Proof.
  intros Hs Hl Hf [U L F]. constructor; simpl in *.
  - by rewrite Hs.
  - by rewrite Hl.
  - by eapply ren_frame_trans.
Qed.

Lemma ren_inv_balanced s0 memRegs s s' :
  balanced s s' -> ren_inv s0 (memRegs, s) -> ren_inv s0 (memRegs, s').
Proof.
  intros (Hs & (new' & Hl & Hbal) & Hf) [U (new & L & Hc) F]. constructor; simpl in *.
  - by rewrite Hs.
  - exists (new ++ new'). split; [by rewrite Hl, L, app_assoc|].
    intros mr. rewrite pushCount_app, popCount_app, Hc, Hbal. lia.
  - by eapply ren_frame_trans.
Qed.

Lemma ren_inv_newSSAName s0 memRegs s mr def v s' :
  newSSAName mr def s = Ok (v, s') ->
  ren_inv s0 (memRegs, s) -> ren_inv s0 (memRegs ++ [mr], s').
Proof.
  intros (c & stk & Hc & Hs & -> & ->)%newSSAName_Ok [U (new & L & Hn) F].
  constructor; simpl in *.
  - rewrite rev_app_distr. simpl. rewrite at_key_insert, decide_True by done.
    rewrite pop_back_snoc, insert_insert_eq, insert_id; done.
  - exists (new ++ [StPush mr (mkMRVer mr c def)]). split; [by rewrite L, app_assoc|].
    intros mr'. rewrite pushCount_app, popCount_app, occ_app, Hn. simpl.
    case_decide; lia.
  - eapply ren_frame_trans; [exact F|]. repeat split; simpl.
    rewrite dom_insert_L. apply elem_of_dom_2 in Hc. set_solver.
Qed.

Lemma RenameChiSet_inv s0 chiSet : forall memRegs s chis' memRegs' s',
  RenameChiSet chiSet memRegs s = Ok (chis', memRegs', s') ->
  ren_inv s0 (memRegs, s) -> ren_inv s0 (memRegs', s').
Proof.
  induction chiSet as [|chi rest IH]; intros memRegs s chis' memRegs' s'; simpl.
  - by intros [= <- <- <-].
  - intros (opv & Hop & H)%bind_Ok. apply bind_Ok in H as ([resv s1] & Hnew & H).
    apply bind_Ok in H as ([[rest' memRegs1] s2] & Hrest & H). injection H as <- <- <-.
    intros Hinv. eapply IH; [exact Hrest|]. by eapply ren_inv_newSSAName.
Qed.

Lemma RenamePhiRes_inv s0 phiSet : forall memRegs s phis' memRegs' s',
  RenamePhiRes phiSet memRegs s = Ok (phis', memRegs', s') ->
  ren_inv s0 (memRegs, s) -> ren_inv s0 (memRegs', s').
Proof.
  induction phiSet as [|phi rest IH]; intros memRegs s phis' memRegs' s'; simpl.
  - by intros [= <- <- <-].
  - intros ([resv s1] & Hnew & H)%bind_Ok.
    apply bind_Ok in H as ([[rest' memRegs1] s2] & Hrest & H). injection H as <- <- <-.
    intros Hinv. eapply IH; [exact Hrest|]. by eapply ren_inv_newSSAName.
Qed.

Section Rename.
Variable P : Program.

Lemma SSARenameBB_phiRes_inv bb s st : SSARenameBB_phiRes bb s = Ok st -> ren_inv s st.
Proof.
  unfold SSARenameBB_phiRes. destruct (hasPHISet bb s).
  - intros ([[phis memRegs] s1] & H & [= <-])%bind_Ok.
    apply (ren_inv_nodes s memRegs s1); [done|done|by repeat split|].
    eapply RenamePhiRes_inv; [exact H|apply ren_inv_start].
  - intros [= <-]. apply ren_inv_start.
Qed.

Lemma SSARenameBB_edge_inv s0 e st st' :
  SSARenameBB_edge e st = Ok st' -> ren_inv s0 st -> ren_inv s0 st'.
Proof.
  destruct st as [memRegs s]. destruct e as [load|store|]; simpl.
  - intros (mus & H & [= <-])%bind_Ok. by apply ren_inv_nodes; [..|by repeat split].
  - intros ([[chis memRegs1] s1] & H & [= <-])%bind_Ok Hinv.
    apply (ren_inv_nodes s0 memRegs1 s1); [done|done|by repeat split|].
    by eapply RenameChiSet_inv.
  - by intros [= <-].
Qed.

Lemma SSARenameBB_inst_inv s0 bb inst st st' :
  SSARenameBB_inst P bb inst st = Ok st' -> ren_inv s0 st -> ren_inv s0 st'.
Proof.
  unfold SSARenameBB_inst. intros ([memRegs s] & H1 & H2)%bind_Ok Hinv.
  assert (ren_inv s0 (memRegs, s)) as Hinv1.
  { destruct (inst_hasPAGEdgeList inst); [|by injection H1 as <-].
    eapply (forEachM_inv (ren_inv s0)); [|exact Hinv|exact H1].
    intros e st1 st2 _ Hi He. by eapply SSARenameBB_edge_inv. }
  clear H1 Hinv. destruct (inst_callSite inst) as [cs|].
  - apply bind_Ok in H2 as (s1 & H2 & H3).
    assert (ren_inv s0 (memRegs, s1)) as Hinv2.
    { destruct (hasRefMRSet (mrGen P) cs); [|by injection H2 as <-].
      apply bind_Ok in H2 as (mus & H2 & [= <-]).
      by apply (ren_inv_nodes s0 memRegs s); [..|by repeat split|]. }
    destruct (hasModMRSet (mrGen P) cs); [|by injection H3 as <-].
    apply bind_Ok in H3 as ([[chis memRegs1] s2] & H3 & [= <-]).
    apply (ren_inv_nodes s0 memRegs1 s2); [done|done|by repeat split|].
    by eapply RenameChiSet_inv.
  - destruct (inst_isReturn inst); [|by injection H2 as <-].
    apply bind_Ok in H2 as (mus & H2 & [= <-]).
    by apply (ren_inv_nodes s0 memRegs s); [..|by repeat split|].
Qed.

Lemma SSARenameBB_succ_inv s0 memRegs bb succ s s' :
  SSARenameBB_succ P bb succ s = Ok s' -> ren_inv s0 (memRegs, s) -> ren_inv s0 (memRegs, s').
Proof.
  unfold SSARenameBB_succ. intros (pos & Hpos & H)%bind_Ok.
  destruct (hasPHISet succ s); [|by injection H as <-].
  apply bind_Ok in H as (phis & H & [= <-]).
  by apply ren_inv_nodes; [..|by repeat split].
Qed.

Lemma SSARenameBB_pop_eq mr s stk v :
  pop_back (at_key [] (mr2VerStackMap s) mr) = Some (stk, v) ->
  SSARenameBB_pop mr s =
    Ok (upd_stackLog (fun l => l ++ [StPop mr]) (upd_mr2VerStackMap (<[mr := stk]>) s)).
Proof. intros H. unfold SSARenameBB_pop. by rewrite H. Qed.

(** The final loop pops what [memRegs] lists. *)
Lemma SSARenameBB_pops_spec mrs : forall s stacks,
  popAll mrs (mr2VerStackMap s) = Some stacks ->
  exists s', forEachM SSARenameBB_pop mrs s = Ok s' /\
    mr2VerStackMap s' = stacks /\
    stackLog s' = stackLog s ++ (StPop <$> mrs) /\
    ren_frame s s'.
Proof.
  induction mrs as [|mr mrs IH]; intros s stacks; simpl.
  - intros [= <-]. exists s. rewrite app_nil_r. repeat split.
  - destruct (pop_back (at_key [] (mr2VerStackMap s) mr)) as [[stk v]|] eqn:Ep; [|done].
    intros Hpop. rewrite (SSARenameBB_pop_eq _ _ _ _ Ep). simpl.
    destruct (IH (upd_stackLog (fun l => l ++ [StPop mr])
                    (upd_mr2VerStackMap (<[mr := stk]>) s)) stacks Hpop)
      as (s' & E & Hs & Hl & Hf).
    exists s'. split; [exact E|]. split; [exact Hs|]. split.
    + rewrite Hl. simpl. by rewrite <- app_assoc.
    + eapply ren_frame_trans; [|exact Hf]. by repeat split.
Qed.

Lemma popCount_pops mr mrs : popCount mr (StPop <$> mrs) = occ mr mrs.
Proof.
  induction mrs as [|r mrs IH]; [done|].
  change (popCount mr (StPop <$> r :: mrs))
    with ((if decide (r = mr) then 1 else 0) + popCount mr (StPop <$> mrs))%nat.
  by rewrite IH.
Qed.
Lemma pushCount_pops mr mrs : pushCount mr (StPop <$> mrs) = 0%nat.
Proof.
  induction mrs as [|r mrs IH]; [done|].
  change (pushCount mr (StPop <$> r :: mrs)) with (0 + pushCount mr (StPop <$> mrs))%nat.
  by rewrite IH.
Qed.
Lemma occ_rev mr mrs : occ mr (rev mrs) = occ mr mrs.
Proof.
  induction mrs as [|r mrs IH]; simpl; [done|]. rewrite occ_app, IH. unfold occ. simpl. lia.
Qed.

(** Renaming a block and its dominator subtree is balanced. *)
Lemma SSARenameBB_balanced fuel : forall bb s s',
  SSARenameBB P fuel bb s = Ok s' -> balanced s s'.
Proof.
  induction fuel as [|fuel IH]; intros bb s s'; [done|]. simpl.
  intros (st1 & H1 & H)%bind_Ok.
  apply bind_Ok in H as ([memRegs s2] & H2 & H).
  apply bind_Ok in H as (s3 & H3 & H).
  apply bind_Ok in H as (t & Ht & H).
  apply bind_Ok in H as (s4 & H4 & H5).
  assert (ren_inv s (memRegs, s2)) as I2.
  { eapply (forEachM_inv (ren_inv s)); [|by eapply SSARenameBB_phiRes_inv|exact H2].
    intros inst sa sb _ Hi He. by eapply SSARenameBB_inst_inv. }
  assert (ren_inv s (memRegs, s3)) as I3.
  { eapply (forEachM_inv (fun x => ren_inv s (memRegs, x))); [|exact I2|exact H3].
    intros succ sa sb _ Hi He. by eapply SSARenameBB_succ_inv. }
  assert (ren_inv s (memRegs, s4)) as I4.
  { destruct (t !! bb) as [children|]; [|by injection H4 as <-].
    eapply (forEachM_inv (fun x => ren_inv s (memRegs, x))); [|exact I3|exact H4].
    intros c sa sb _ Hi He. eapply ren_inv_balanced; [|exact Hi]. by eapply IH. }
  destruct I4 as [U (new & L & Hn) F]. simpl in *.
  destruct (SSARenameBB_pops_spec _ _ _ U) as (s'' & E & Hs & Hl & Hf).
  rewrite E in H5. injection H5 as <-.
  split; [done|]. split.
  - exists (new ++ (StPop <$> rev memRegs)). split; [by rewrite Hl, L, app_assoc|].
    intros mr. rewrite pushCount_app, popCount_app, pushCount_pops, popCount_pops, occ_rev, Hn.
    lia.
  - by eapply ren_frame_trans.
Qed.

End Rename.

(** ** Renaming as a sequence of primitive steps *)


Lemma RenameChiSet_steps chiSet : forall memRegs s chis' memRegs' s',
  RenameChiSet chiSet memRegs s = Ok (chis', memRegs', s') -> rtc rstep s s'.
Proof.
  induction chiSet as [|chi rest IH]; intros memRegs s chis' memRegs' s'; simpl.
  - by intros [= <- <- <-].
  - intros (opv & Hop & H)%bind_Ok. apply bind_Ok in H as ([resv s1] & Hnew & H).
    apply bind_Ok in H as ([[rest' memRegs1] s2] & Hrest & H). injection H as <- <- <-.
    eapply rtc_l; [by eapply rstep_mint|]. by eapply IH.
Qed.

Lemma RenamePhiRes_steps phiSet : forall memRegs s phis' memRegs' s',
  RenamePhiRes phiSet memRegs s = Ok (phis', memRegs', s') -> rtc rstep s s'.
Proof.
  induction phiSet as [|phi rest IH]; intros memRegs s phis' memRegs' s'; simpl.
  - by intros [= <- <- <-].
  - intros ([resv s1] & Hnew & H)%bind_Ok.
    apply bind_Ok in H as ([[rest' memRegs1] s2] & Hrest & H). injection H as <- <- <-.
    eapply rtc_l; [by eapply rstep_mint|]. by eapply IH.
Qed.

Lemma forEachM_steps {A} (body : A -> MemSSA -> Result MemSSA) l :
  (forall a s s', body a s = Ok s' -> rtc rstep s s') ->
  forall s s', forEachM body l s = Ok s' -> rtc rstep s s'.
Proof.
  intros Hb s s' H.
  eapply (forEachM_inv (rtc rstep s) body l); [|reflexivity|exact H].
  intros a s1 s2 _ H1 H2. etrans; [exact H1|by eapply Hb].
Qed.

Lemma forEachM_steps2 {A} (body : A -> list N * MemSSA -> Result (list N * MemSSA)) l :
  (forall a st st', body a st = Ok st' -> rtc rstep st.2 st'.2) ->
  forall st st', forEachM body l st = Ok st' -> rtc rstep st.2 st'.2.
Proof.
  intros Hb st st' H.
  eapply (forEachM_inv (fun x => rtc rstep st.2 x.2) body l); [|reflexivity|exact H].
  intros a s1 s2 _ H1 H2. etrans; [exact H1|by eapply Hb].
Qed.

Ltac nodes_step := apply rtc_once, rstep_nodes; by repeat split.

Section Steps.
Variable P : Program.

Lemma SSARenameBB_phiRes_steps bb s st : SSARenameBB_phiRes bb s = Ok st -> rtc rstep s st.2.
Proof.
  unfold SSARenameBB_phiRes. destruct (hasPHISet bb s).
  - intros ([[phis memRegs] s1] & H & [= <-])%bind_Ok. simpl.
    etrans; [by eapply RenamePhiRes_steps|]. nodes_step.
  - by intros [= <-].
Qed.

Lemma SSARenameBB_edge_steps e st st' :
  SSARenameBB_edge e st = Ok st' -> rtc rstep st.2 st'.2.
Proof.
  destruct st as [memRegs s]. destruct e as [load|store|]; simpl.
  - intros (mus & H & [= <-])%bind_Ok. simpl. nodes_step.
  - intros ([[chis memRegs1] s1] & H & [= <-])%bind_Ok. simpl.
    etrans; [by eapply RenameChiSet_steps|]. nodes_step.
  - by intros [= <-].
Qed.

Lemma SSARenameBB_inst_steps bb inst st st' :
  SSARenameBB_inst P bb inst st = Ok st' -> rtc rstep st.2 st'.2.
Proof.
  unfold SSARenameBB_inst. intros ([memRegs s] & H1 & H2)%bind_Ok.
  assert (rtc rstep st.2 s) as R1.
  { destruct (inst_hasPAGEdgeList inst); [|by injection H1 as ->].
    apply (forEachM_steps2 _ _ SSARenameBB_edge_steps _ _ H1). }
  etrans; [exact R1|]. clear H1 R1. destruct (inst_callSite inst) as [cs|].
  - apply bind_Ok in H2 as (s1 & H2 & H3).
    assert (rtc rstep s s1) as R2.
    { destruct (hasRefMRSet (mrGen P) cs); [|by injection H2 as <-].
      apply bind_Ok in H2 as (mus & H2 & [= <-]). nodes_step. }
    etrans; [exact R2|].
    destruct (hasModMRSet (mrGen P) cs); [|by injection H3 as <-].
    apply bind_Ok in H3 as ([[chis memRegs1] s2] & H3 & [= <-]). simpl.
    etrans; [by eapply RenameChiSet_steps|]. nodes_step.
  - destruct (inst_isReturn inst); [|by injection H2 as <-].
    apply bind_Ok in H2 as (mus & H2 & [= <-]). simpl. nodes_step.
Qed.

Lemma SSARenameBB_succ_steps bb succ s s' :
  SSARenameBB_succ P bb succ s = Ok s' -> rtc rstep s s'.
Proof.
  unfold SSARenameBB_succ. intros (pos & Hpos & H)%bind_Ok.
  destruct (hasPHISet succ s); [|by injection H as <-].
  apply bind_Ok in H as (phis & H & [= <-]). nodes_step.
Qed.

Lemma SSARenameBB_steps fuel : forall bb s s',
  SSARenameBB P fuel bb s = Ok s' -> rtc rstep s s'.
Proof.
  induction fuel as [|fuel IH]; intros bb s s'; [done|]. simpl.
  intros (st1 & H1 & H)%bind_Ok.
  apply bind_Ok in H as ([memRegs s2] & H2 & H).
  apply bind_Ok in H as (s3 & H3 & H).
  apply bind_Ok in H as (t & Ht & H).
  apply bind_Ok in H as (s4 & H4 & H5).
  etrans; [by eapply SSARenameBB_phiRes_steps|].
  etrans; [apply (forEachM_steps2 _ _ (SSARenameBB_inst_steps bb) _ _ H2)|]. simpl.
  etrans; [apply (forEachM_steps _ _ (SSARenameBB_succ_steps bb) _ _ H3)|].
  etrans; [|apply (forEachM_steps SSARenameBB_pop (rev memRegs)); [|exact H5]].
  - destruct (t !! bb) as [children|]; [|by injection H4 as <-].
    apply (forEachM_steps _ _ (IH) _ _ H4).
  - intros mr sa sb Hp. apply rtc_once. by eapply rstep_pop.
Qed.

End Steps.

(** An invariant of the primitive steps is an invariant of renaming. *)
Lemma rsteps_inv (I : MemSSA -> Prop) :
  (forall s s', rstep s s' -> I s -> I s') ->
  forall s s', rtc rstep s s' -> I s -> I s'.
Proof. intros Hstep s s' H. induction H; eauto. Qed.

(** ** Versions minted for a region *)



Lemma versionsBelow_succ c : versionsBelow (c + 1) = versionsBelow c ++ [c].
Proof.
  unfold versionsBelow. replace (N.to_nat (c + 1)) with (S (N.to_nat c)) by lia.
  rewrite seq_S, fmap_app. simpl. by rewrite N2Nat.id.
Qed.

Lemma minted_snoc mr log op : minted mr (log ++ [op]) = mintStep mr (minted mr log) op.
Proof. unfold minted. by rewrite foldl_app. Qed.

Lemma minted_app mr log l : minted mr (log ++ l) = foldl (mintStep mr) (minted mr log) l.
Proof. unfold minted. by rewrite foldl_app. Qed.

Lemma versions_fresh_step mr s s' : rstep s s' -> versions_fresh mr s -> versions_fresh mr s'.
Proof.
  intros [mr' def s1 v s1' H|mr' s1 s1' H|s1 s1' H] Hf c.
  - apply newSSAName_Ok in H as (c0 & stk & Hc & Hs & -> & ->). simpl.
    rewrite minted_snoc. simpl. destruct (decide (mr' = mr)) as [->|Hne].
    + rewrite lookup_insert_eq. intros [= <-]. rewrite (Hf c0 Hc).
      by rewrite versionsBelow_succ.
    + rewrite lookup_insert_ne by done. apply Hf.
  - unfold SSARenameBB_pop in H.
    destruct (pop_back _) as [[stk v]|]; [|done]. injection H as <-. simpl.
    rewrite minted_snoc. simpl. apply Hf.
  - destruct H as (_&_&_&_&_&Hc&_&_&_&Hl). rewrite Hc, Hl. apply Hf.
Qed.

Lemma versions_fresh_entry fn mr s s' :
  createMUCHI_entry fn mr s = Ok s' -> versions_fresh mr s'.
Proof.
  destruct (createMUCHI_entry_Ok fn mr s) as (s1 & -> & Hc & _ & _ & _ & Hl & _).
  intros [= <-] c. rewrite Hc, Hl, lookup_insert_eq. intros [= <-].
  rewrite minted_app. simpl. rewrite !decide_True by done. reflexivity.
Qed.

Lemma versions_fresh_entry_other fn mr mr' s s' :
  createMUCHI_entry fn mr' s = Ok s' -> mr' <> mr -> versions_fresh mr s -> versions_fresh mr s'.
Proof.
  destruct (createMUCHI_entry_Ok fn mr' s) as (s1 & -> & Hc & _ & _ & _ & Hl & _).
  intros [= <-] Hne Hf c. rewrite Hc, Hl, lookup_insert_ne by done.
  rewrite minted_app. simpl. rewrite !decide_False by done. apply Hf.
Qed.

Example diamond_build :
  buildMemSSA Examples.prog 10 Examples.diamond (Some Examples.diamondDF)
    (Some Examples.diamondDT) initMemSSA = Ok Examples.diamond3.
Proof. vm_compute. reflexivity. Qed.

(** The diamond scenario of the design document: one phi for region 7 at
    the join block 3, whose operand 0 is the version of the store in
    block 1 and whose operand 1 is the result of the entry chi, and the
    load after the join reads the result of the phi. *)
Example diamond_phi :
  at_key [] (bb2PhiSetMap Examples.diamond3) 3 =
    [mkPHI 3 7 (Some (mkMRVer 7 3 (DefPHI 3 7)))
       {[0%nat := mkMRVer 7 2 (DefCHI (StoreCHISite 1 10) 7);
         1%nat := mkMRVer 7 1 (DefCHI (EntryCHISite 1) 7)]}] /\
  at_key [] (load2MuSetMap Examples.diamond3) 20 =
    [mkMU (LoadMUSite 3 20) 7 (Some (mkMRVer 7 3 (DefPHI 3 7)))] /\
  at_key [] (store2ChiSetMap Examples.diamond3) 10 =
    [mkCHI (StoreCHISite 1 10) 7 (Some (mkMRVer 7 1 (DefCHI (EntryCHISite 1) 7)))
       (Some (mkMRVer 7 2 (DefCHI (StoreCHISite 1 10) 7)))] /\
  at_key [] (funToReturnMuSetMap Examples.diamond3) 1 =
    [mkMU (RetMUSite 1) 7 (Some (mkMRVer 7 3 (DefPHI 3 7)))].
Proof. repeat split; vm_compute; reflexivity. Qed.

(** A region that is never touched gets no node at all. *)
Example diamond_untouched_region :
  phiCountAt 3 8 Examples.diamond3 = 0%nat /\
  8 ∉ usedRegs Examples.diamond3 /\
  filter (fun c => chi_mr c = 8) (at_key [] (funToEntryChiSetMap Examples.diamond3) 1) = [].
Proof. split; [vm_compute; reflexivity|]. split; [vm_compute; by intros [=]|vm_compute; reflexivity]. Qed.

Lemma insertPHI_Ok_df fuel fn s s' : insertPHI fuel fn s = Ok s' -> exists dfm, df s = Some dfm.
Proof.
  unfold insertPHI, getDF. destruct (df s) as [dfm|]; [eauto|done].
Qed.

(** Whatever fuel made [insertPHI] succeed, its outcome is the one
    described by [insertPHI_spec]. *)
Lemma insertPHI_Ok_spec fuel fn s s' dfm :
  insertPHI fuel fn s = Ok s' -> df s = Some dfm ->
  phi_frame s s' /\
  forall mr b,
    (mr ∈ usedRegs s /\ IDF dfm (at_key [] (reg2BBMap s) mr) b /\
       phiCountAt b mr s' = S (phiCountAt b mr s)) \/
    (~ (mr ∈ usedRegs s /\ IDF dfm (at_key [] (reg2BBMap s) mr) b) /\
       phiCountAt b mr s' = phiCountAt b mr s).
Proof.
  intros H Hdf.
  destruct (insertPHI_spec (Nat.max fuel (insertPHI_fuel s)) fn s dfm Hdf (Nat.le_max_r _ _))
    as (s'' & E & Hspec).
  rewrite (insertPHI_fuel_mono fuel _ fn s s' (Nat.le_max_l _ _) H) in E. by injection E as <-.
Qed.

Section Build.
Variable P : Program.

Lemma buildMemSSA_Ok fuel fn f t s0 s' :
  buildMemSSA P fuel fn f t s0 = Ok s' ->
  fun_isExtCall fn = false /\
  exists s1 s2,
    createMUCHI P fn (setCurrentDFDT f t s0) = Ok s1 /\
    insertPHI fuel fn s1 = Ok s2 /\
    SSARename P fuel fn s2 = Ok s'.
Proof.
  unfold buildMemSSA. destruct (fun_isExtCall fn); [done|].
  intros (s1 & H1 & H)%bind_Ok. apply bind_Ok in H as (s2 & H2 & H3). eauto 10.
Qed.

(** The outcome of [createMUCHI]. *)
Lemma createMUCHI_Ok fn s s' :
  createMUCHI P fn s = Ok s' ->
  let sm := forEach (createMUCHI_bb P) (fun_reachableBBs fn) s in
  let l := elements (usedRegs sm) in
  usedRegs s' = usedRegs sm /\ reg2BBMap s' = reg2BBMap sm /\
  df s' = df s /\ dt s' = dt s /\ bb2PhiSetMap s' = bb2PhiSetMap s /\
  (forall mr, mr2CounterMap s' !! mr =
     if decide (mr ∈ usedRegs s') then Some 2 else mr2CounterMap s !! mr) /\
  (forall mr, mr2VerStackMap s' !! mr =
     if decide (mr ∈ usedRegs s') then Some (entryVers fn mr) else mr2VerStackMap s !! mr) /\
  at_key [] (funToEntryChiSetMap s') (fun_id fn) =
    at_key [] (funToEntryChiSetMap s) (fun_id fn) ++ (entryChiOf fn <$> l) /\
  at_key [] (funToReturnMuSetMap s') (fun_id fn) =
    at_key [] (funToReturnMuSetMap s) (fun_id fn) ++
    (if fun_doesNotRet fn then [] else retMuOf fn <$> l) /\
  stackLog s' =
    stackLog s ++ (l ≫= fun mr => StClear mr :: (StPush mr <$> entryVers fn mr)).
Proof.
  intros H sm l. destruct (createMUCHI_Ok_dt _ _ _ _ H) as [t Ht].
  rewrite (createMUCHI_unfold P fn s t Ht) in H. fold sm in H. fold l in H.
  destruct (createMUCHI_entries_spec fn l sm)
    as (s'' & E & Hc & Hs & He & Hr & Ho & Hl & Hu & Hb & Hk & Hdf & Hdt & H1 & H2 & H3 & H4 & H5 & H6).
  rewrite E in H. injection H as <-.
  destruct (createMUCHI_bbs_frame P (fun_reachableBBs fn) s)
    as (Fc & Fs & Fl & Fe & Fr & Fp & Fdf & Fdt & Fw).
  fold sm in Fc, Fs, Fl, Fe, Fr, Fp, Fdf, Fdt, Fw.
  repeat split; try congruence.
  - intros mr. rewrite Hc, Hu, Fc. subst l.
    destruct (decide (mr ∈ usedRegs sm)) as [Hin|Hin].
    + rewrite decide_True; [done|]. by apply elem_of_elements.
    + rewrite decide_False; [done|]. by rewrite elem_of_elements.
  - intros mr. rewrite Hs, Hu, Fs. subst l.
    destruct (decide (mr ∈ usedRegs sm)) as [Hin|Hin].
    + rewrite decide_True; [done|]. by apply elem_of_elements.
    + rewrite decide_False; [done|]. by rewrite elem_of_elements.
Qed.

Lemma createMUCHI_versions_fresh fn s s' mr :
  createMUCHI P fn s = Ok s' -> mr ∈ usedRegs s' -> versions_fresh mr s'.
Proof.
  intros H Hmr c. destruct (createMUCHI_Ok fn s s' H) as (Hu & _ & _ & _ & _ & Hc & _ & _ & _ & Hl).
  rewrite Hc, decide_True by done. intros [= <-]. rewrite Hl, minted_app.
  rewrite Hu in Hmr. apply elem_of_elements in Hmr.
  pose proof (NoDup_elements (usedRegs (forEach (createMUCHI_bb P) (fun_reachableBBs fn) s))) as Hnd.
  revert Hmr Hnd. generalize (minted mr (stackLog s)).
  generalize (elements (usedRegs (forEach (createMUCHI_bb P) (fun_reachableBBs fn) s))).
  intros l. induction l as [|r l IH]; intros acc Hin Hnd; [by apply elem_of_nil in Hin|].
  apply NoDup_cons in Hnd as [Hr Hnd]. simpl.
  destruct (decide (r = mr)) as [->|Hne].
  - clear IH Hin. simpl.
    assert (forall acc', foldl (mintStep mr) acc'
              (l ≫= fun mr0 => StClear mr0 :: (StPush mr0 <$> entryVers fn mr0)) = acc') as Hrest.
    { clear -Hr. induction l as [|r l IH]; intros acc'; [done|].
      simpl. rewrite !decide_False by (intros ->; apply Hr; by left).
      apply IH. intros ?. apply Hr. by right. }
    by rewrite Hrest.
  - apply IH; [|done]. apply elem_of_cons in Hin as [?|?]; [by subst|done].
Qed.

End Build.

Lemma count_entryChi fn mr l :
  NoDup l ->
  length (filter (fun c => chi_mr c = mr) (entryChiOf fn <$> l)) =
  if decide (mr ∈ l) then 1%nat else 0%nat.
Proof.
  induction l as [|r l IH]; intros Hnd; [done|].
  apply NoDup_cons in Hnd as [Hr Hnd]. rewrite fmap_cons, filter_cons. simpl.
  destruct (decide (r = mr)) as [->|Hne].
  - rewrite decide_True by (by left). simpl. rewrite IH by done. by rewrite decide_False.
  - rewrite IH by done. destruct (decide (mr ∈ l)).
    + rewrite decide_True; [done|by right].
    + rewrite decide_False; [done|]. rewrite elem_of_cons. naive_solver.
Qed.

Lemma count_retMu fn mr l :
  NoDup l ->
  length (filter (fun m => mu_mr m = mr) (retMuOf fn <$> l)) =
  if decide (mr ∈ l) then 1%nat else 0%nat.
Proof.
  induction l as [|r l IH]; intros Hnd; [done|].
  apply NoDup_cons in Hnd as [Hr Hnd]. rewrite fmap_cons, filter_cons. simpl.
  destruct (decide (r = mr)) as [->|Hne].
  - rewrite decide_True by (by left). simpl. rewrite IH by done. by rewrite decide_False.
  - rewrite IH by done. destruct (decide (mr ∈ l)).
    + rewrite decide_True; [done|by right].
    + rewrite decide_False; [done|]. rewrite elem_of_cons. naive_solver.
Qed.

Section Claims.
Variable P : Program.


(** C6. [buildMemSSA] on an external function fails its first assertion,
    whatever the other arguments are: nothing is built. *)
Theorem buildMemSSA_external fuel fn f t s :
  fun_isExtCall fn = true ->
  buildMemSSA P fuel fn f t s = Fatal "we do not build memory ssa for external functions".
Proof. intros H. unfold buildMemSSA. by rewrite H. Qed.

(** C10, as amended.  [newSSAName] fails its assertions exactly for a
    region without a counter or without a version stack.  After
    [createMUCHI] every used region of the function has both, so that
    the failure cannot happen for it; a region that is neither used by
    the function nor was given a counter earlier in the session fails. *)
Theorem newSSAName_guard fn s s' mr def :
  createMUCHI P fn s = Ok s' ->
  (isFatal (newSSAName mr def s') <->
     mr ∉ dom (mr2CounterMap s') \/ mr ∉ dom (mr2VerStackMap s')) /\
  (mr ∈ usedRegs s' -> isOk (newSSAName mr def s')) /\
  (mr ∉ usedRegs s' -> mr ∉ dom (mr2CounterMap s) -> isFatal (newSSAName mr def s')).
Proof.
  intros H. destruct (createMUCHI_Ok P fn s s' H) as (_ & _ & _ & _ & _ & Hc & Hs & _).
  split; [apply newSSAName_Fatal_iff|]. split.
  - intros Hin. specialize (Hc mr). specialize (Hs mr).
    rewrite decide_True in Hc by done. rewrite decide_True in Hs by done.
    rewrite (newSSAName_initialised _ _ _ _ _ Hc Hs). by eexists.
  - intros Hnin Hdom. apply newSSAName_Fatal_iff. left.
    specialize (Hc mr). rewrite decide_False in Hc by done.
    apply not_elem_of_dom. rewrite Hc. by apply not_elem_of_dom.
Qed.

(** C1, as amended.  In a build, the renaming pushes as many versions as
    it pops for every region and leaves every version stack as it found
    it: the stack of a used region holds the two versions that
    [createMUCHI] pushed for its entry chi. *)
Theorem SSARename_stack_balance fuel fn f t s0 s1 s2 s' :
  createMUCHI P fn (setCurrentDFDT f t s0) = Ok s1 ->
  insertPHI fuel fn s1 = Ok s2 ->
  SSARename P fuel fn s2 = Ok s' ->
  mr2VerStackMap s' = mr2VerStackMap s2 /\
  (exists new, stackLog s' = stackLog s2 ++ new /\
     forall mr, pushCount mr new = popCount mr new) /\
  forall mr, mr ∈ usedRegs s' -> mr2VerStackMap s' !! mr = Some (entryVers fn mr).
Proof.
  intros H1 H2 H3. destruct (SSARenameBB_balanced P _ _ _ _ H3) as (Hs & Hl & Hf).
  split; [done|]. split; [done|]. intros mr Hmr.
  destruct (insertPHI_Ok_df _ _ _ _ H2) as [dfm Hdf].
  destruct (insertPHI_Ok_spec _ _ _ _ _ H2 Hdf) as [Hpf _].
  destruct Hpf as (_ & Hs2 & _ & _ & _ & _ & _ & _ & _ & Hu2 & _).
  destruct Hf as (Hu3 & _).
  destruct (createMUCHI_Ok P fn _ s1 H1) as (_ & _ & _ & _ & _ & _ & Hs1 & _).
  rewrite Hs, Hs2, Hs1. rewrite decide_True; [done|]. by rewrite <- Hu2, <- Hu3.
Qed.

(** C3. In a build, the entry chi of every used region has version 0 as
    its operand and version 1 as its result, [newSSAName] hands out the
    value of the counter and increments it by one, and the versions
    minted for a used region since [createMUCHI] reset its counter to 0
    are 0, 1, ..., counter - 1 in this order: none is used twice. *)
Theorem version_numbering fuel fn f t s0 s' :
  buildMemSSA P fuel fn f t s0 = Ok s' ->
  (forall mr, mr ∈ usedRegs s' ->
     entryChiOf fn mr ∈ at_key [] (funToEntryChiSetMap s') (fun_id fn) /\
     [StClear mr; StPush mr (mkMRVer mr 0 (DefCHI (EntryCHISite (fun_id fn)) mr));
      StPush mr (mkMRVer mr 1 (DefCHI (EntryCHISite (fun_id fn)) mr))]
       `sublist_of` stackLog s' /\
     exists c, mr2CounterMap s' !! mr = Some c /\
               minted mr (stackLog s') = versionsBelow c) /\
  (forall mr def s v s1, newSSAName mr def s = Ok (v, s1) ->
     ver_mr v = mr /\ mr2CounterMap s !! mr = Some (ver_version v) /\
     mr2CounterMap s1 !! mr = Some (ver_version v + 1) /\
     forall mr', mr' <> mr -> mr2CounterMap s1 !! mr' = mr2CounterMap s !! mr').
Proof.
  intros H. split.
  2:{ intros mr def s v s1 (c & stk & Hc & Hs & -> & ->)%newSSAName_Ok. simpl.
      rewrite lookup_insert_eq. repeat split; [done|].
      intros mr' Hne. by rewrite lookup_insert_ne. }
  intros mr Hmr.
  destruct (buildMemSSA_Ok P _ _ _ _ _ _ H) as (_ & s1 & s2 & H1 & H2 & H3).
  destruct (insertPHI_Ok_df _ _ _ _ H2) as [dfm Hdf].
  destruct (insertPHI_Ok_spec _ _ _ _ _ H2 Hdf) as [Hpf _].
  destruct Hpf as (Hc2 & _ & Hl2 & He2 & _ & _ & _ & _ & _ & Hu2 & _).
  destruct (SSARenameBB_balanced P _ _ _ _ H3) as (_ & (new & Hl3 & _) & Hf).
  destruct Hf as (Hu3 & _ & _ & _ & _ & He3 & _ & Hd3).
  assert (mr ∈ usedRegs s1) as Hmr1 by (by rewrite <- Hu2, <- Hu3).
  destruct (createMUCHI_Ok P fn _ s1 H1) as (Hu1 & _ & _ & _ & _ & Hc1 & _ & He1 & _ & Hl1).
  split; [|split].
  - rewrite He3, He2, He1. apply elem_of_app. right. apply list_elem_of_fmap.
    exists mr. split; [done|]. apply elem_of_elements. by rewrite <- Hu1.
  - rewrite Hl3, Hl2, Hl1. apply sublist_inserts_r, sublist_inserts_l.
    assert (mr ∈ elements (usedRegs (forEach (createMUCHI_bb P) (fun_reachableBBs fn)
                                       (setCurrentDFDT f t s0)))) as Hin.
    { apply elem_of_elements. by rewrite <- Hu1. }
    revert Hin. generalize (elements (usedRegs (forEach (createMUCHI_bb P)
      (fun_reachableBBs fn) (setCurrentDFDT f t s0)))). intros l Hin.
    induction l as [|r l IH]; [by apply elem_of_nil in Hin|]. simpl.
    apply elem_of_cons in Hin as [<-|Hin].
    + do 3 apply sublist_skip. apply sublist_nil_l.
    + do 3 apply sublist_cons. by apply IH.
  - assert (versions_fresh mr s') as Hfresh.
    { eapply (rsteps_inv (versions_fresh mr)); [intros; by eapply versions_fresh_step| |].
      - by eapply SSARenameBB_steps.
      - intros c. rewrite Hc2, Hl2. by eapply createMUCHI_versions_fresh. }
    assert (mr ∈ dom (mr2CounterMap s')) as [c Hc]%elem_of_dom.
    { rewrite Hd3, Hc2. apply elem_of_dom. rewrite Hc1, decide_True by done. by eexists. }
    exists c. split; [done|]. by apply Hfresh.
Qed.

End Claims.

Import Examples.

Lemma diamond1_eq : createMUCHI prog diamond diamond0 = Ok diamond1.
Proof. vm_compute. reflexivity. Qed.
Lemma diamond2_eq : insertPHI 10 diamond diamond1 = Ok diamond2.
Proof. vm_compute. reflexivity. Qed.
Lemma diamond3_eq : SSARename prog 10 diamond diamond2 = Ok diamond3.
Proof. vm_compute. reflexivity. Qed.
Lemma single1_eq : createMUCHI prog single single0 = Ok single1.
Proof. vm_compute. reflexivity. Qed.


Lemma buildMemSSA_external_witness :
  fun_isExtCall external = true /\
  buildMemSSA prog 10 external None None initMemSSA =
    Fatal "we do not build memory ssa for external functions".
Proof.
  split; [reflexivity|]. apply (buildMemSSA_external prog 10 external None None initMemSSA).
  reflexivity.
Defined.

(** C10 as stated fails: region 7 is not used by [single], yet after the
    build of [diamond] in the same session [newSSAName] mints a version
    for it. *)
Lemma newSSAName_stale_region :
  createMUCHI prog single single0 = Ok single1 /\
  7 ∉ usedRegs single1 /\
  isOk (newSSAName 7 (DefPHI 10 7) single1) /\
  ~ isFatal (newSSAName 7 (DefPHI 10 7) single1).
Proof.
  split; [vm_compute; reflexivity|]. split; [vm_compute; by intros [=]|].
  assert (exists r, newSSAName 7 (DefPHI 10 7) single1 = Ok r) as [r Hr].
  { vm_compute. eexists. reflexivity. }
  split; [by exists r|]. rewrite Hr. by intros [m [=]].
Qed.

Lemma IDF_defs_nonempty dfm defs b : IDF dfm defs b -> defs <> [].
Proof. induction 1 as [d b Hd _|]; [|done]. intros ->. by apply elem_of_nil in Hd. Qed.

Lemma insertPHI_while_not_fatal dfm mr fuel : forall bbs m s,
  match insertPHI_while fuel dfm mr bbs m s with
  | Ok _ | OutOfFuel => True
  | Fatal _ | Undefined _ => False
  end.
Proof.
  induction fuel as [|fuel IH]; intros bbs m s; simpl; [done|].
  destruct (pop_back bbs) as [[bbs0 bb]|]; [|done].
  destruct (dfm !! bb) as [domSet|]; [|apply IH].
  destruct (forEach _ _ _) as [[bbs1 m1] s1]. apply IH.
Qed.

Lemma sum_list_with_bound {A} (f : A -> nat) (k : nat) l :
  (forall x, x ∈ l -> (f x <= k)%nat) -> (sum_list_with f l <= length l * k)%nat.
Proof.
  induction l as [|x l IH]; intros H; simpl; [lia|].
  pose proof (H x ltac:(by left)). pose proof (IH ltac:(intros; apply H; by right)). lia.
Qed.

Section PhiClaims.
Variable P : Program.

(** C5, as amended.  After [createMUCHI] and [insertPHI], at a block
    that had no phi of the region before the build (every block of a
    function that is built for the first time), there is at most one phi
    per region, and
    there is one iff the block is in the iterated dominance frontier of
    the blocks that define the region locally.  The frontier of a block
    that the frontier map lacks counts as empty. *)
Theorem insertPHI_minimal fuel fn dfm t s0 s1 s' :
  createMUCHI P fn (setCurrentDFDT (Some dfm) t s0) = Ok s1 ->
  insertPHI fuel fn s1 = Ok s' ->
  forall mr b, phiCountAt b mr s0 = 0%nat ->
    (phiCountAt b mr s' <= 1)%nat /\
    (phiCountAt b mr s' = 1%nat <-> IDF dfm (at_key [] (reg2BBMap s1) mr) b).
Proof.
  intros H1 H2 mr b Hfresh.
  destruct (createMUCHI_Ok P fn _ s1 H1) as (Hu & Hb & Hdf & _ & Hp & _).
  simpl in Hdf.
  destruct (insertPHI_Ok_spec _ _ _ _ dfm H2 Hdf) as [_ Hcount].
  assert (phiCountAt b mr s1 = 0%nat) as Hz.
  { unfold phiCountAt in *. by rewrite Hp. }
  assert (defs_have_uses s1) as Hdu.
  { intros r Hr. rewrite Hu. rewrite Hb in Hr.
    by apply (createMUCHI_bbs_defs_used P _ _ (setCurrentDFDT_defs_used _ _ _)). }
  destruct (Hcount mr b) as [(Hused & Hidf & ->)|[Hno ->]]; rewrite Hz.
  - split; [lia|]. done.
  - split; [lia|]. split; [done|]. intros Hidf. exfalso. apply Hno. split; [|done].
    apply Hdu. by eapply IDF_defs_nonempty.
Qed.


(** C8. [insertPHI] terminates: with the fuel [insertPHI_fuel] or more it
    never runs out of fuel.  A block is pushed on the worklist of a
    region exactly when a phi for the pair is created and recorded in
    [bb2MRSetMap], which happens at most once per pair and only for a
    used region and a block of some frontier set, so that the pushes
    number at most blocks times used regions. *)
Theorem insertPHI_terminates fuel fn s :
  (insertPHI_fuel s <= fuel)%nat ->
  insertPHI fuel fn s <> OutOfFuel /\
  (forall dfm, df s = Some dfm ->
     exists s', insertPHI fuel fn s = Ok s' /\
       (forall mr b,
          (phiCountAt b mr s' <= phiCountAt b mr s + 1)%nat /\
          (phiCountAt b mr s' <> phiCountAt b mr s ->
             mr ∈ usedRegs s /\ b ∈ frontierBlocks dfm)) /\
       (sum_list_with (fun b =>
          sum_list_with (fun mr => phiCountAt b mr s' - phiCountAt b mr s)%nat
            (elements (usedRegs s))) (elements (frontierBlocks dfm))
        <= size (frontierBlocks dfm) * size (usedRegs s))%nat) /\
  (forall mr pbb bbs m s0,
     let st := insertPHI_frontier mr pbb (bbs, m, s0) in
     (st.1.1 = bbs ++ [pbb] /\ ~ recorded mr m pbb /\ recorded mr st.1.2 pbb /\
        phiCountAt pbb mr st.2 = S (phiCountAt pbb mr s0)) \/
     (st.1.1 = bbs /\ recorded mr m pbb /\ st.2 = s0)).
Proof.
  intros Hfuel.
  assert (forall dfm, df s = Some dfm ->
     exists s', insertPHI fuel fn s = Ok s' /\
       (forall mr b,
          (phiCountAt b mr s' <= phiCountAt b mr s + 1)%nat /\
          (phiCountAt b mr s' <> phiCountAt b mr s ->
             mr ∈ usedRegs s /\ b ∈ frontierBlocks dfm))) as Hmain.
  { intros dfm Hdf. destruct (insertPHI_spec fuel fn s dfm Hdf Hfuel) as (s' & E & _ & Hc).
    exists s'. split; [done|]. intros mr b.
    destruct (Hc mr b) as [(Hu & Hidf & ->)|[_ ->]].
    - split; [lia|]. intros _. split; [done|]. by eapply IDF_blocks.
    - split; [lia|]. done. }
  split; [|split].
  - destruct (df s) as [dfm|] eqn:Hdf.
    + destruct (Hmain dfm eq_refl) as (s' & -> & _). done.
    + unfold insertPHI, getDF. by rewrite Hdf.
  - intros dfm Hdf. destruct (Hmain dfm Hdf) as (s' & E & Hc).
    exists s'. split; [done|]. split; [done|].
    unfold size, set_size. simpl.
    apply sum_list_with_bound. intros b _.
    etrans; [apply (sum_list_with_bound _ 1%nat)|lia].
    intros mr _. destruct (Hc mr b) as [? _]. lia.
  - intros mr pbb bbs m s0. unfold insertPHI_frontier.
    destruct (decide (mr ∈ at_key ∅ m pbb)) as [Hin|Hnin]; simpl.
    + right. done.
    + left. split; [done|]. split; [done|]. split.
      * apply recorded_insert_new. by right.
      * rewrite phiCountAt_AddMSSAPHI. rewrite decide_True by done. lia.
Qed.

End PhiClaims.

(** ** Phi results and phi operands *)


Lemma RenamePhiRes_spec phiSet : forall memRegs s phis' memRegs' s',
  RenamePhiRes phiSet memRegs s = Ok (phis', memRegs', s') ->
  exists new, stackLog s' = stackLog s ++ new /\
    Forall2 (phiResRenamed new) phiSet phis' /\
    bb2PhiSetMap s' = bb2PhiSetMap s /\
    memRegs' = memRegs ++ (phi_mr <$> phiSet).
Proof.
  induction phiSet as [|phi rest IH]; intros memRegs s phis' memRegs' s'; simpl.
  - intros [= <- <- <-]. exists []. rewrite !app_nil_r. repeat split. constructor.
  - intros ([resv s1] & Hnew & H)%bind_Ok.
    apply bind_Ok in H as ([[rest' memRegs1] s2] & Hrest & H). injection H as <- <- <-.
    destruct (IH _ _ _ _ _ Hrest) as (new & Hl & Hf & Hp & Hm).
    apply newSSAName_Ok in Hnew as (c & stk & Hc & Hs & -> & ->). simpl in *.
    exists (StPush (phi_mr phi) (mkMRVer (phi_mr phi) c (DefPHI (phi_bb phi) (phi_mr phi))) :: new).
    split; [by rewrite Hl, <- app_assoc|]. split; [|split; [done|]].
    + constructor.
      * repeat split; simpl. eexists. repeat split; simpl. by left.
      * eapply Forall2_impl; [exact Hf|]. intros p p' (?&?&?&v&?&?&?&?).
        repeat split; try done. exists v. repeat split; try done. by right.
    + by rewrite Hm, <- app_assoc.
Qed.

Lemma RenamePhiOps_spec phiSet pos s : forall phis',
  RenamePhiOps phiSet pos s = Ok phis' -> Forall2 (phiOpRenamed pos s) phiSet phis'.
Proof.
  induction phiSet as [|phi rest IH]; intros phis'; simpl.
  - intros [= <-]. constructor.
  - intros (v & Hv & H)%bind_Ok. apply bind_Ok in H as (rest' & Hrest & [= <-]).
    constructor; [|by apply IH]. repeat split; simpl. by exists v.
Qed.

Lemma topVer_ext mr s s' : mr2VerStackMap s' = mr2VerStackMap s -> topVer mr s' = topVer mr s.
Proof. intros H. unfold topVer. by rewrite H. Qed.

Lemma hasPHISet_false bb s : hasPHISet bb s = false -> at_key [] (bb2PhiSetMap s) bb = [].
Proof.
  unfold hasPHISet, at_key. intros H%bool_decide_eq_false.
  destruct (bb2PhiSetMap s !! bb) eqn:E; [|done]. exfalso. apply H. by eexists.
Qed.

Section PhiOrder.
Variable P : Program.

Lemma SSARenameBB_phiRes_spec bb s memRegs1 s1 :
  SSARenameBB_phiRes bb s = Ok (memRegs1, s1) ->
  exists new, stackLog s1 = stackLog s ++ new /\
    Forall2 (phiResRenamed new) (at_key [] (bb2PhiSetMap s) bb) (at_key [] (bb2PhiSetMap s1) bb) /\
    (forall b, phi_opVers <$> at_key [] (bb2PhiSetMap s1) b =
               phi_opVers <$> at_key [] (bb2PhiSetMap s) b).
Proof.
  unfold SSARenameBB_phiRes. destruct (hasPHISet bb s) eqn:Hhas.
  - intros ([[phis memRegs] s'] & H & [= <- <-])%bind_Ok.
    destruct (RenamePhiRes_spec _ _ _ _ _ _ H) as (new & Hl & Hf & Hp & _).
    exists new. split; [done|]. simpl. rewrite Hp. split.
    + by rewrite at_key_insert, decide_True.
    + intros b. rewrite at_key_insert. case_decide; [|done]. subst b.
      clear -Hf. induction Hf as [|p p' l l' (_&_&Ho&_) _ IH]; [done|].
      rewrite !fmap_cons. by f_equal.
  - intros [= <- <-]. exists []. rewrite app_nil_r. split; [done|]. split; [|done].
    rewrite (hasPHISet_false _ _ Hhas). constructor.
Qed.


Lemma SSARenameBB_succ_spec bb s2 succ s s' :
  SSARenameBB_succ P bb succ s = Ok s' ->
  mr2VerStackMap s = mr2VerStackMap s2 ->
  succOpsFilled P bb s2 s' succ /\
  (forall x, succOpsFilled P bb s2 s x -> succOpsFilled P bb s2 s' x) /\
  mr2VerStackMap s' = mr2VerStackMap s2.
Proof.
  unfold SSARenameBB_succ, getBBPredecessorPos. intros (pos & Hpos & H)%bind_Ok Hst.
  destruct (list_pos bb (bb_preds (getBB P succ))) as [pos'|] eqn:Epos; [|done].
  injection Hpos as ->. destruct (hasPHISet succ s) eqn:Hhas.
  - apply bind_Ok in H as (phis & H & [= <-]). simpl.
    apply RenamePhiOps_spec in H.
    assert (succOpsFilled P bb s2 (upd_bb2PhiSetMap <[succ:=phis]> s) succ) as Hsucc.
    { exists pos. split; [done|]. simpl. rewrite at_key_insert, decide_True by done.
      intros phi' Hin. apply list_elem_of_lookup in Hin as [i Hi].
      destruct (Forall2_lookup_r _ _ _ _ _ H Hi) as (phi & _ & (_ & Hmr & _ & v & Hv & Ho)).
      exists v. rewrite Hmr, Ho, lookup_insert_eq. split; [|done].
      by rewrite <- (topVer_ext _ s2 s Hst). }
    split; [done|]. split; [|done].
    intros x Hx. destruct (decide (x = succ)) as [->|Hne]; [done|].
    destruct Hx as (p & Hp & Hx). exists p. split; [done|]. simpl.
    by rewrite at_key_insert, decide_False.
  - injection H as <-. split; [|done].
    exists pos. split; [done|]. rewrite (hasPHISet_false _ _ Hhas).
    intros phi Hphi. by apply elem_of_nil in Hphi.
Qed.

Lemma SSARenameBB_succs_spec bb s2 l : forall s s3,
  forEachM (SSARenameBB_succ P bb) l s = Ok s3 ->
  mr2VerStackMap s = mr2VerStackMap s2 ->
  (forall x, x ∈ l -> succOpsFilled P bb s2 s3 x) /\
  (forall x, succOpsFilled P bb s2 s x -> succOpsFilled P bb s2 s3 x) /\
  mr2VerStackMap s3 = mr2VerStackMap s2.
Proof.
  induction l as [|succ l IH]; intros s s3; simpl.
  - intros [= <-] Hst. split; [|done]. intros x Hx. by apply elem_of_nil in Hx.
  - intros (s1 & H1 & H2)%bind_Ok Hst.
    destruct (SSARenameBB_succ_spec _ _ _ _ _ H1 Hst) as (Hs & Hk & Hst1).
    destruct (IH _ _ H2 Hst1) as (Hl & Hk' & Hst3).
    split; [|split; [|done]].
    + intros x [->|Hx]%elem_of_cons; [by apply Hk'|by apply Hl].
    + intros x Hx. by apply Hk', Hk.
Qed.


(** C2, as amended.  Without a dominator tree or without a dominance
    frontier the build of a function fails an assertion.  A block without
    a node in the dominator tree is tolerated: when the renaming of the
    block itself succeeds, [SSARenameBB] pops what the block pushed and
    returns, without visiting any block below it. *)
Theorem SSARenameBB_missing_dt_node fuel bb s tree st1 memRegs s2 s3 :
  dt s = Some tree ->
  tree !! bb = None ->
  SSARenameBB_phiRes bb s = Ok st1 ->
  forEachM (SSARenameBB_inst P bb) (bb_insts (getBB P bb)) st1 = Ok (memRegs, s2) ->
  forEachM (SSARenameBB_succ P bb) (bb_succs (getBB P bb)) s2 = Ok s3 ->
  (exists s', SSARenameBB P (S fuel) bb s = Ok s' /\
     forEachM SSARenameBB_pop (rev memRegs) s3 = Ok s' /\
     mr2VerStackMap s' = mr2VerStackMap s) /\
  (forall fn f t s0, fun_isExtCall fn = false -> f = None \/ t = None ->
     isFatal (buildMemSSA P fuel fn f t s0)).
Proof.
  intros Hdt Hnode H1 H2 H3. split.
  - assert (ren_inv s (memRegs, s2)) as I2.
    { eapply (forEachM_inv (ren_inv s)); [|by eapply SSARenameBB_phiRes_inv|exact H2].
      intros inst sa sb _ Hi He. by eapply SSARenameBB_inst_inv. }
    assert (ren_inv s (memRegs, s3)) as I3.
    { eapply (forEachM_inv (fun x => ren_inv s (memRegs, x))); [|exact I2|exact H3].
      intros succ sa sb _ Hi He. by eapply SSARenameBB_succ_inv. }
    destruct I3 as [U _ F]. simpl in *.
    destruct (SSARenameBB_pops_spec _ _ _ U) as (s' & E & Hs & _).
    exists s'. split; [|done]. rewrite H1. simpl. rewrite H2. simpl. rewrite H3. simpl.
    destruct F as (_ & _ & _ & _ & Hdt3 & _). unfold getDT. rewrite Hdt3, Hdt. simpl.
    by rewrite Hnode.
  - intros fn f t s0 Hext Hmiss. unfold buildMemSSA. rewrite Hext.
    destruct t as [t|].
    + destruct Hmiss as [->|?]; [|done].
      rewrite (createMUCHI_unfold P fn (setCurrentDFDT None (Some t) s0) t eq_refl).
      destruct (createMUCHI_entries_spec fn
        (elements (usedRegs (forEach (createMUCHI_bb P) (fun_reachableBBs fn)
                               (setCurrentDFDT None (Some t) s0))))
        (forEach (createMUCHI_bb P) (fun_reachableBBs fn) (setCurrentDFDT None (Some t) s0)))
        as (s1 & -> & _ & _ & _ & _ & _ & _ & _ & _ & _ & Hdf & _).
      simpl. unfold insertPHI, getDF. rewrite Hdf.
      destruct (createMUCHI_bbs_frame P (fun_reachableBBs fn) (setCurrentDFDT None (Some t) s0))
        as (_ & _ & _ & _ & _ & _ & -> & _). simpl. by eexists.
    + rewrite createMUCHI_no_dt by done. simpl. by eexists.
Qed.

End PhiOrder.

Lemma newSSAName_guard_witness :
  createMUCHI prog diamond diamond0 = Ok diamond1 /\
  (isFatal (newSSAName 7 (DefPHI 3 7) diamond1) <->
     7 ∉ dom (mr2CounterMap diamond1) \/ 7 ∉ dom (mr2VerStackMap diamond1)) /\
  (7 ∈ usedRegs diamond1 -> isOk (newSSAName 7 (DefPHI 3 7) diamond1)) /\
  (7 ∉ usedRegs diamond1 -> 7 ∉ dom (mr2CounterMap diamond0) ->
     isFatal (newSSAName 7 (DefPHI 3 7) diamond1)) /\
  isOk (newSSAName 7 (DefPHI 3 7) diamond1).
Proof.
  assert (createMUCHI prog diamond diamond0 = Ok diamond1) as H by (vm_compute; reflexivity).
  pose proof (newSSAName_guard prog diamond diamond0 diamond1 7 (DefPHI 3 7) H) as (H1 & H2 & H3).
  split; [exact H|]. split; [exact H1|]. split; [exact H2|]. split; [exact H3|].
  apply H2. vm_compute. reflexivity.
Defined.

Lemma SSARename_stack_balance_witness :
  createMUCHI prog diamond (setCurrentDFDT (Some diamondDF) (Some diamondDT) initMemSSA) = Ok diamond1 /\
  insertPHI 10 diamond diamond1 = Ok diamond2 /\
  SSARename prog 10 diamond diamond2 = Ok diamond3 /\
  mr2VerStackMap diamond3 = mr2VerStackMap diamond2 /\
  (exists new, stackLog diamond3 = stackLog diamond2 ++ new /\
     forall mr, pushCount mr new = popCount mr new) /\
  forall mr, mr ∈ usedRegs diamond3 -> mr2VerStackMap diamond3 !! mr = Some (entryVers diamond mr).
Proof.
  split; [vm_compute; reflexivity|]. split; [vm_compute; reflexivity|].
  split; [vm_compute; reflexivity|].
  apply (SSARename_stack_balance prog 10 diamond (Some diamondDF) (Some diamondDT)
           initMemSSA diamond1 diamond2 diamond3); vm_compute; reflexivity.
Defined.

(** C1 as stated fails: after the renaming of [diamond] the version
    stack of region 7 holds the two versions of its entry chi, and over
    the build four versions were pushed for it and two were popped. *)
Lemma SSARename_stacks_not_empty :
  createMUCHI prog diamond diamond0 = Ok diamond1 /\
  insertPHI 10 diamond diamond1 = Ok diamond2 /\
  SSARename prog 10 diamond diamond2 = Ok diamond3 /\
  mr2VerStackMap diamond3 !! 7 = Some (entryVers diamond 7) /\
  at_key [] (mr2VerStackMap diamond3) 7 <> [] /\
  pushCount 7 (stackLog diamond3) = 4%nat /\
  popCount 7 (stackLog diamond3) = 2%nat.
Proof.
  split; [vm_compute; reflexivity|]. split; [vm_compute; reflexivity|].
  split; [vm_compute; reflexivity|]. split; [vm_compute; reflexivity|].
  split; [vm_compute; discriminate|]. split; vm_compute; reflexivity.
Qed.

Lemma version_numbering_witness :
  buildMemSSA prog 10 diamond (Some diamondDF) (Some diamondDT) initMemSSA = Ok diamond3 /\
  (forall mr, mr ∈ usedRegs diamond3 ->
     entryChiOf diamond mr ∈ at_key [] (funToEntryChiSetMap diamond3) (fun_id diamond) /\
     [StClear mr; StPush mr (mkMRVer mr 0 (DefCHI (EntryCHISite (fun_id diamond)) mr));
      StPush mr (mkMRVer mr 1 (DefCHI (EntryCHISite (fun_id diamond)) mr))]
       `sublist_of` stackLog diamond3 /\
     exists c, mr2CounterMap diamond3 !! mr = Some c /\
               minted mr (stackLog diamond3) = versionsBelow c) /\
  (forall mr def s v s1, newSSAName mr def s = Ok (v, s1) ->
     ver_mr v = mr /\ mr2CounterMap s !! mr = Some (ver_version v) /\
     mr2CounterMap s1 !! mr = Some (ver_version v + 1) /\
     forall mr', mr' <> mr -> mr2CounterMap s1 !! mr' = mr2CounterMap s !! mr') /\
  minted 7 (stackLog diamond3) = [0; 1; 2; 3].
Proof.
  assert (buildMemSSA prog 10 diamond (Some diamondDF) (Some diamondDT) initMemSSA = Ok diamond3)
    as H by (vm_compute; reflexivity).
  destruct (version_numbering prog 10 diamond (Some diamondDF) (Some diamondDT) initMemSSA
              diamond3 H) as [H1 H2].
  split; [exact H|]. split; [exact H1|]. split; [exact H2|].
  destruct (H1 7) as (_ & _ & c & Hc & ->).
  - vm_compute. reflexivity.
  - vm_compute in Hc. injection Hc as <-. reflexivity.
Defined.

Lemma insertPHI_minimal_witness :
  createMUCHI prog diamond (setCurrentDFDT (Some diamondDF) (Some diamondDT) initMemSSA) = Ok diamond1 /\
  insertPHI 10 diamond diamond1 = Ok diamond2 /\
  (forall mr b, phiCountAt b mr initMemSSA = 0%nat ->
    (phiCountAt b mr diamond2 <= 1)%nat /\
    (phiCountAt b mr diamond2 = 1%nat <-> IDF diamondDF (at_key [] (reg2BBMap diamond1) mr) b)) /\
  IDF diamondDF (at_key [] (reg2BBMap diamond1) 7) 3 /\
  ~ IDF diamondDF (at_key [] (reg2BBMap diamond1) 7) 1.
Proof.
  split; [vm_compute; reflexivity|]. split; [vm_compute; reflexivity|].
  pose proof (insertPHI_minimal prog 10 diamond diamondDF (Some diamondDT) initMemSSA
                diamond1 diamond2) as H.
  assert (forall mr b, phiCountAt b mr initMemSSA = 0%nat ->
    (phiCountAt b mr diamond2 <= 1)%nat /\
    (phiCountAt b mr diamond2 = 1%nat <->
       IDF diamondDF (at_key [] (reg2BBMap diamond1) mr) b)) as H'.
  { apply H; vm_compute; reflexivity. }
  split; [exact H'|]. split.
  - apply (H' 7 3); vm_compute; reflexivity.
  - intros Hidf. apply (H' 7 1) in Hidf; [|vm_compute; reflexivity].
    vm_compute in Hidf. discriminate.
Defined.


Lemma insertPHI_terminates_witness :
  (insertPHI_fuel diamond1 <= 10)%nat /\
  insertPHI 10 diamond diamond1 <> OutOfFuel /\
  (forall dfm, df diamond1 = Some dfm ->
     exists s', insertPHI 10 diamond diamond1 = Ok s' /\
       (forall mr b,
          (phiCountAt b mr s' <= phiCountAt b mr diamond1 + 1)%nat /\
          (phiCountAt b mr s' <> phiCountAt b mr diamond1 ->
             mr ∈ usedRegs diamond1 /\ b ∈ frontierBlocks dfm)) /\
       (sum_list_with (fun b =>
          sum_list_with (fun mr => phiCountAt b mr s' - phiCountAt b mr diamond1)%nat
            (elements (usedRegs diamond1))) (elements (frontierBlocks dfm))
        <= size (frontierBlocks dfm) * size (usedRegs diamond1))%nat) /\
  (forall mr pbb bbs m s0,
     let st := insertPHI_frontier mr pbb (bbs, m, s0) in
     (st.1.1 = bbs ++ [pbb] /\ ~ recorded mr m pbb /\ recorded mr st.1.2 pbb /\
        phiCountAt pbb mr st.2 = S (phiCountAt pbb mr s0)) \/
     (st.1.1 = bbs /\ recorded mr m pbb /\ st.2 = s0)).
Proof.
  assert (insertPHI_fuel diamond1 <= 10)%nat as H by (vm_compute; lia).
  split; [exact H|]. apply (insertPHI_terminates 10 diamond diamond1 H).
Defined.


Lemma SSARenameBB_missing_dt_node_witness :
  dt noNode2 = Some ∅ /\
  (∅ : gmap N (list N)) !! 10 = None /\
  SSARenameBB_phiRes 10 noNode2 = Ok ([], noNode2) /\
  forEachM (SSARenameBB_inst prog 10) (bb_insts (getBB prog 10)) ([], noNode2) =
    Ok (noNode3.1, noNode3.2) /\
  forEachM (SSARenameBB_succ prog 10) (bb_succs (getBB prog 10)) noNode3.2 = Ok noNode3.2 /\
  (exists s', SSARenameBB prog (S 9) 10 noNode2 = Ok s' /\
     forEachM SSARenameBB_pop (rev noNode3.1) noNode3.2 = Ok s' /\
     mr2VerStackMap s' = mr2VerStackMap noNode2) /\
  (forall fn f t s0, fun_isExtCall fn = false -> f = None \/ t = None ->
     isFatal (buildMemSSA prog 9 fn f t s0)) /\
  isFatal (buildMemSSA prog 9 single (Some singleDF) None initMemSSA) /\
  isFatal (buildMemSSA prog 9 single None (Some singleDT) initMemSSA).
Proof.
  assert (dt noNode2 = Some ∅) as A1 by (vm_compute; reflexivity).
  assert ((∅ : gmap N (list N)) !! 10 = None) as A2 by (vm_compute; reflexivity).
  assert (SSARenameBB_phiRes 10 noNode2 = Ok ([], noNode2)) as A3 by (vm_compute; reflexivity).
  assert (forEachM (SSARenameBB_inst prog 10) (bb_insts (getBB prog 10)) ([], noNode2) =
            Ok (noNode3.1, noNode3.2)) as A4 by (vm_compute; reflexivity).
  assert (forEachM (SSARenameBB_succ prog 10) (bb_succs (getBB prog 10)) noNode3.2 =
            Ok noNode3.2) as A5 by (vm_compute; reflexivity).
  destruct (SSARenameBB_missing_dt_node prog 9 10 noNode2 ∅ ([], noNode2)
              noNode3.1 noNode3.2 noNode3.2 A1 A2 A3 A4 A5) as [H1 H2].
  split; [exact A1|]. split; [exact A2|]. split; [exact A3|]. split; [exact A4|].
  split; [exact A5|]. split; [exact H1|]. split; [exact H2|].
  split; apply H2; try reflexivity; [by right|by left].
Defined.

(** C2 as stated fails: with a dominator tree that has no node, the
    entry block of [single] has no node in it; the block is renamed all
    the same, its store chi gets its versions, and the build succeeds. *)
Lemma SSARename_tolerates_missing_dt_node :
  (∅ : gmap N (list N)) !! fun_entryBlock single = None /\
  isOk (buildMemSSA prog 10 single (Some singleDF) (Some ∅) initMemSSA) /\
  ~ isFatal (buildMemSSA prog 10 single (Some singleDF) (Some ∅) initMemSSA) /\
  exists r, buildMemSSA prog 10 single (Some singleDF) (Some ∅) initMemSSA = Ok r /\
    at_key [] (store2ChiSetMap r) 30 =
      [mkCHI (StoreCHISite 10 30) 8 (Some (mkMRVer 8 1 (DefCHI (EntryCHISite 2) 8)))
         (Some (mkMRVer 8 2 (DefCHI (StoreCHISite 10 30) 8)))].
Proof.
  split; [vm_compute; reflexivity|].
  assert (exists r, buildMemSSA prog 10 single (Some singleDF) (Some ∅) initMemSSA = Ok r /\
            at_key [] (store2ChiSetMap r) 30 =
              [mkCHI (StoreCHISite 10 30) 8 (Some (mkMRVer 8 1 (DefCHI (EntryCHISite 2) 8)))
                 (Some (mkMRVer 8 2 (DefCHI (StoreCHISite 10 30) 8)))]) as (r & Hr & Hc).
  { vm_compute. eexists. split; reflexivity. }
  split; [by exists r|]. split; [rewrite Hr; by intros [m [=]]|]. by exists r.
Qed.

(** ** The build completes *)

Lemma regionsIn_insert {A} (mrOf : A -> N) D (m : gmap N (list A)) k l :
  regionsIn mrOf D m -> (forall a, a ∈ l -> mrOf a ∈ D) -> regionsIn mrOf D (<[k := l]> m).
Proof.
  intros Hm Hl k' a. rewrite at_key_insert. case_decide; [apply Hl|apply Hm].
Qed.

Lemma regionsIn_mono {A} (mrOf : A -> N) D D' (m : gmap N (list A)) :
  D ⊆ D' -> regionsIn mrOf D m -> regionsIn mrOf D' m.
Proof. intros HD Hm k a Ha. apply HD. by eapply Hm. Qed.

Lemma nodes_in_mono D D' s : D ⊆ D' -> nodes_in D s -> nodes_in D' s.
Proof.
  intros HD (H1 & H2 & H3 & H4 & H5 & H6). repeat split; by eapply regionsIn_mono.
Qed.

Lemma popAll_nonempty mrs : forall stacks stacks0 mr stack0,
  popAll mrs stacks = Some stacks0 ->
  stacks0 !! mr = Some stack0 -> stack0 <> [] ->
  exists stack, stacks !! mr = Some stack /\ stack <> [].
Proof.
  induction mrs as [|r mrs IH]; intros stacks stacks0 mr stack0; simpl.
  - intros [= <-]. eauto.
  - destruct (pop_back (at_key [] stacks r)) as [[stk v]|] eqn:Ep; [|done].
    intros Hpop H0 Hne. destruct (IH _ _ _ _ Hpop H0 Hne) as (stack & Hs & Hn).
    apply pop_back_Some in Ep. destruct (decide (r = mr)) as [->|Hr].
    + unfold at_key in Ep. destruct (stacks !! mr) as [l|]; simpl in Ep.
      * exists l. split; [done|]. rewrite Ep. by destruct stk.
      * by destruct stk.
    + rewrite lookup_insert_ne in Hs by done. eauto.
Qed.

Lemma ren_inv_stacks_ready s0 st :
  stacks_ready s0 -> ren_inv s0 st -> stacks_ready st.2.
Proof.
  intros H0 [U _ F] mr Hmr. destruct F as (_&_&_&_&_&_&_&Hd). rewrite Hd in Hmr.
  destruct (H0 mr Hmr) as (stk0 & Hs0 & Hn0). by eapply popAll_nonempty.
Qed.

Lemma topVer_ready mr s :
  stacks_ready s -> mr ∈ dom (mr2CounterMap s) -> exists v, topVer mr s = Ok v.
Proof.
  intros Hs Hmr. destruct (Hs mr Hmr) as (stk & Hl & Hne). unfold topVer, at_key.
  rewrite Hl. simpl. destruct (back_Some_ne stk Hne) as [v ->]. by eexists.
Qed.

Lemma newSSAName_ready mr def s :
  stacks_ready s -> mr ∈ dom (mr2CounterMap s) ->
  exists v s', newSSAName mr def s = Ok (v, s').
Proof.
  intros Hs Hmr. destruct (Hs mr Hmr) as (stk & Hl & _).
  apply elem_of_dom in Hmr as [c Hc]. rewrite (newSSAName_initialised _ _ _ _ _ Hc Hl). eauto.
Qed.

Lemma RenameMuSet_ready muSet s :
  stacks_ready s -> (forall mu, mu ∈ muSet -> mu_mr mu ∈ dom (mr2CounterMap s)) ->
  exists mus, RenameMuSet muSet s = Ok mus /\
    forall mu, mu ∈ mus -> mu_mr mu ∈ dom (mr2CounterMap s).
Proof.
  intros Hs. induction muSet as [|mu rest IH]; intros Hin; simpl.
  - exists []. split; [done|]. intros mu Hmu. by apply elem_of_nil in Hmu.
  - destruct (topVer_ready (mu_mr mu) s Hs) as [v ->]; [apply Hin; by left|]. simpl.
    destruct IH as (rest' & -> & Hr); [intros; apply Hin; by right|]. simpl.
    eexists. split; [done|]. intros mu' [->|?]%elem_of_cons; [|by apply Hr].
    simpl. apply Hin. by left.
Qed.

Lemma RenamePhiOps_ready phiSet pos s :
  stacks_ready s -> (forall phi, phi ∈ phiSet -> phi_mr phi ∈ dom (mr2CounterMap s)) ->
  exists phis, RenamePhiOps phiSet pos s = Ok phis /\
    forall phi, phi ∈ phis -> phi_mr phi ∈ dom (mr2CounterMap s).
Proof.
  intros Hs. induction phiSet as [|phi rest IH]; intros Hin; simpl.
  - exists []. split; [done|]. intros phi Hphi. by apply elem_of_nil in Hphi.
  - destruct (topVer_ready (phi_mr phi) s Hs) as [v ->]; [apply Hin; by left|]. simpl.
    destruct IH as (rest' & -> & Hr); [intros; apply Hin; by right|]. simpl.
    eexists. split; [done|]. intros phi' [->|?]%elem_of_cons; [|by apply Hr].
    simpl. apply Hin. by left.
Qed.

Lemma RenameChiSet_ready s0 chiSet : forall memRegs s,
  stacks_ready s0 -> ren_inv s0 (memRegs, s) ->
  (forall chi, chi ∈ chiSet -> chi_mr chi ∈ dom (mr2CounterMap s)) ->
  exists chis memRegs' s', RenameChiSet chiSet memRegs s = Ok (chis, memRegs', s') /\
    forall chi, chi ∈ chis -> chi_mr chi ∈ dom (mr2CounterMap s).
Proof.
  intros memRegs s H0. revert memRegs s.
  induction chiSet as [|chi rest IH]; intros memRegs s Hinv Hin; simpl.
  - exists [], memRegs, s. split; [done|]. intros chi Hchi. by apply elem_of_nil in Hchi.
  - pose proof (ren_inv_stacks_ready _ _ H0 Hinv) as Hs. simpl in Hs.
    assert (chi_mr chi ∈ dom (mr2CounterMap s)) as Hc by (apply Hin; by left).
    destruct (topVer_ready _ s Hs Hc) as [v ->]. simpl.
    destruct (newSSAName_ready (chi_mr chi) (DefCHI (chi_site chi) (chi_mr chi)) s Hs Hc)
      as (resv & s1 & Hnew).
    rewrite Hnew. simpl.
    pose proof (ren_inv_newSSAName _ _ _ _ _ _ _ Hnew Hinv) as Hinv1.
    assert (dom (mr2CounterMap s1) = dom (mr2CounterMap s)) as Hd.
    { apply newSSAName_Ok in Hnew as (c & stk & Hcc & _ & _ & ->). simpl.
      rewrite dom_insert_L. apply elem_of_dom_2 in Hcc. set_solver. }
    destruct (IH _ _ Hinv1) as (rest' & memRegs' & s' & -> & Hr).
    { intros chi' Hchi'. rewrite Hd. apply Hin. by right. }
    simpl. eexists _, _, _. split; [done|].
    intros chi' [->|?]%elem_of_cons; [done|]. rewrite <- Hd. by apply Hr.
Qed.

Lemma RenamePhiRes_ready s0 phiSet : forall memRegs s,
  stacks_ready s0 -> ren_inv s0 (memRegs, s) ->
  (forall phi, phi ∈ phiSet -> phi_mr phi ∈ dom (mr2CounterMap s)) ->
  exists phis memRegs' s', RenamePhiRes phiSet memRegs s = Ok (phis, memRegs', s') /\
    forall phi, phi ∈ phis -> phi_mr phi ∈ dom (mr2CounterMap s).
Proof.
  intros memRegs s H0. revert memRegs s.
  induction phiSet as [|phi rest IH]; intros memRegs s Hinv Hin; simpl.
  - exists [], memRegs, s. split; [done|]. intros phi Hphi. by apply elem_of_nil in Hphi.
  - pose proof (ren_inv_stacks_ready _ _ H0 Hinv) as Hs. simpl in Hs.
    assert (phi_mr phi ∈ dom (mr2CounterMap s)) as Hc by (apply Hin; by left).
    destruct (newSSAName_ready (phi_mr phi) (DefPHI (phi_bb phi) (phi_mr phi)) s Hs Hc)
      as (resv & s1 & Hnew).
    rewrite Hnew. simpl.
    pose proof (ren_inv_newSSAName _ _ _ _ _ _ _ Hnew Hinv) as Hinv1.
    assert (dom (mr2CounterMap s1) = dom (mr2CounterMap s)) as Hd.
    { apply newSSAName_Ok in Hnew as (c & stk & Hcc & _ & _ & ->). simpl.
      rewrite dom_insert_L. apply elem_of_dom_2 in Hcc. set_solver. }
    destruct (IH _ _ Hinv1) as (rest' & memRegs' & s' & -> & Hr).
    { intros phi' Hphi'. rewrite Hd. apply Hin. by right. }
    simpl. eexists _, _, _. split; [done|].
    intros phi' [->|?]%elem_of_cons; [done|]. rewrite <- Hd. by apply Hr.
Qed.

Lemma same_nodes_refl s : same_nodes s s.
Proof. by repeat split. Qed.

Lemma same_nodes_trans s1 s2 s3 : same_nodes s1 s2 -> same_nodes s2 s3 -> same_nodes s1 s3.
Proof. unfold same_nodes. intuition congruence. Qed.

Lemma same_nodes_in D s s' : same_nodes s s' -> nodes_in D s -> nodes_in D s'.
Proof.
  intros (E1&E2&E3&E4&E5&E6) (H1&H2&H3&H4&H5&H6).
  unfold nodes_in. by rewrite E1, E2, E3, E4, E5, E6.
Qed.

Lemma newSSAName_same_nodes mr def s v s' : newSSAName mr def s = Ok (v, s') -> same_nodes s s'.
Proof. intros (c & stk & _ & _ & _ & ->)%newSSAName_Ok. by repeat split. Qed.

Lemma RenameChiSet_same_nodes chiSet : forall memRegs s chis memRegs' s',
  RenameChiSet chiSet memRegs s = Ok (chis, memRegs', s') -> same_nodes s s'.
Proof.
  induction chiSet as [|chi rest IH]; intros memRegs s chis' memRegs' s'; simpl.
  - intros [= <- <- <-]. apply same_nodes_refl.
  - intros (opv & Hop & H)%bind_Ok. apply bind_Ok in H as ([resv s1] & Hnew & H).
    apply bind_Ok in H as ([[rest' memRegs1] s2] & Hrest & H). injection H as <- <- <-.
    eapply same_nodes_trans; [by eapply newSSAName_same_nodes|by eapply IH].
Qed.

Lemma RenamePhiRes_same_nodes phiSet : forall memRegs s phis memRegs' s',
  RenamePhiRes phiSet memRegs s = Ok (phis, memRegs', s') -> same_nodes s s'.
Proof.
  induction phiSet as [|phi rest IH]; intros memRegs s phis' memRegs' s'; simpl.
  - intros [= <- <- <-]. apply same_nodes_refl.
  - intros ([resv s1] & Hnew & H)%bind_Ok.
    apply bind_Ok in H as ([[rest' memRegs1] s2] & Hrest & H). injection H as <- <- <-.
    eapply same_nodes_trans; [by eapply newSSAName_same_nodes|by eapply IH].
Qed.

Lemma list_pos_elem bb l : bb ∈ l -> exists pos, list_pos bb l = Some pos.
Proof.
  induction l as [|x l IH]; [by intros ?%elem_of_nil|]. simpl.
  destruct (decide (x = bb)) as [->|Hne]; [by eexists|].
  intros [?|Hin]%elem_of_cons; [by subst|]. destruct (IH Hin) as [pos ->]. by eexists.
Qed.

Lemma SSARenameBB_pop_nodes D mrs : forall s s',
  forEachM SSARenameBB_pop mrs s = Ok s' -> nodes_in D s -> nodes_in D s'.
Proof.
  intros s s' H Hn0. eapply (forEachM_inv (nodes_in D)); [|exact Hn0|exact H].
  intros mr sa sb _ Hn Hp. unfold SSARenameBB_pop in Hp.
  destruct (pop_back _) as [[stk v]|]; [|done]. by injection Hp as <-.
Qed.

Lemma nodes_in_load D s k mus :
  nodes_in D s -> (forall mu, mu ∈ mus -> mu_mr mu ∈ D) ->
  nodes_in D (upd_load2MuSetMap (<[k := mus]>) s).
Proof. intros (?&?&?&?&?&?) Hin. repeat split; simpl; try done. by apply regionsIn_insert. Qed.
Lemma nodes_in_store D s k chis :
  nodes_in D s -> (forall chi, chi ∈ chis -> chi_mr chi ∈ D) ->
  nodes_in D (upd_store2ChiSetMap (<[k := chis]>) s).
Proof. intros (?&?&?&?&?&?) Hin. repeat split; simpl; try done. by apply regionsIn_insert. Qed.
Lemma nodes_in_callMu D s k mus :
  nodes_in D s -> (forall mu, mu ∈ mus -> mu_mr mu ∈ D) ->
  nodes_in D (upd_callsiteToMuSetMap (<[k := mus]>) s).
Proof. intros (?&?&?&?&?&?) Hin. repeat split; simpl; try done. by apply regionsIn_insert. Qed.
Lemma nodes_in_callChi D s k chis :
  nodes_in D s -> (forall chi, chi ∈ chis -> chi_mr chi ∈ D) ->
  nodes_in D (upd_callsiteToChiSetMap (<[k := chis]>) s).
Proof. intros (?&?&?&?&?&?) Hin. repeat split; simpl; try done. by apply regionsIn_insert. Qed.
Lemma nodes_in_retMu D s k mus :
  nodes_in D s -> (forall mu, mu ∈ mus -> mu_mr mu ∈ D) ->
  nodes_in D (upd_funToReturnMuSetMap (<[k := mus]>) s).
Proof. intros (?&?&?&?&?&?) Hin. repeat split; simpl; try done. by apply regionsIn_insert. Qed.
Lemma nodes_in_phi D s k phis :
  nodes_in D s -> (forall phi, phi ∈ phis -> phi_mr phi ∈ D) ->
  nodes_in D (upd_bb2PhiSetMap (<[k := phis]>) s).
Proof. intros (?&?&?&?&?&?) Hin. repeat split; simpl; try done. by apply regionsIn_insert. Qed.

Section Total.
Variable P : Program.
Hypothesis Hcfg : cfg_ok P.

Lemma blk_inv_dom s0 st : blk_inv s0 st -> dom (mr2CounterMap st.2) = dom (mr2CounterMap s0).
Proof. intros [[_ _ F] _]. by destruct F as (_&_&_&_&_&_&_&?). Qed.

Lemma SSARenameBB_phiRes_ready bb s :
  ready s -> exists st1, SSARenameBB_phiRes bb s = Ok st1 /\ blk_inv s st1.
Proof.
  intros [Hs Hn]. unfold SSARenameBB_phiRes. destruct (hasPHISet bb s).
  - destruct (RenamePhiRes_ready s (at_key [] (bb2PhiSetMap s) bb) [] s Hs (ren_inv_start s))
      as (phis & memRegs & s1 & E & Hr).
    { intros phi Hphi. destruct Hn as (_&_&_&_&_&Hp). by eapply Hp. }
    rewrite E. simpl. eexists. split; [done|].
    assert (ren_inv s (memRegs, s1)) as Hinv.
    { eapply RenamePhiRes_inv; [exact E|apply ren_inv_start]. }
    split.
    + apply (ren_inv_nodes s memRegs s1); [done|done|by repeat split|done].
    + simpl. apply nodes_in_phi; [|done].
      eapply same_nodes_in; [by eapply RenamePhiRes_same_nodes|done].
  - eexists. split; [done|]. split; [apply ren_inv_start|done].
Qed.

Lemma SSARenameBB_edge_ready s0 e st :
  stacks_ready s0 -> blk_inv s0 st ->
  exists st', SSARenameBB_edge e st = Ok st' /\ blk_inv s0 st'.
Proof.
  intros H0 Hb. pose proof (blk_inv_dom _ _ Hb) as Hd. destruct Hb as [Hinv Hn].
  pose proof (ren_inv_stacks_ready _ _ H0 Hinv) as Hs.
  destruct st as [memRegs s]. simpl in *. destruct e as [load|store|]; simpl.
  - destruct (RenameMuSet_ready (at_key [] (load2MuSetMap s) load) s Hs) as (mus & -> & Hr).
    { intros mu Hmu. rewrite Hd. destruct Hn as (Hl&_). by eapply Hl. }
    simpl. eexists. split; [done|]. split.
    + by apply (ren_inv_nodes s0 memRegs s); [..|by repeat split|].
    + simpl. apply nodes_in_load; [done|]. intros mu Hmu. rewrite <- Hd. by apply Hr.
  - destruct (RenameChiSet_ready s0 (at_key [] (store2ChiSetMap s) store) memRegs s H0 Hinv)
      as (chis & memRegs' & s' & E & Hr).
    { intros chi Hchi. rewrite Hd. destruct Hn as (_&Hc&_). by eapply Hc. }
    rewrite E. simpl. eexists. split; [done|]. split.
    + apply (ren_inv_nodes s0 memRegs' s'); [done|done|by repeat split|].
      by eapply RenameChiSet_inv.
    + simpl. apply nodes_in_store.
      * eapply same_nodes_in; [by eapply RenameChiSet_same_nodes|done].
      * intros chi Hchi. rewrite <- Hd. by apply Hr.
  - eexists. split; [done|]. by split.
Qed.

Lemma SSARenameBB_inst_ready s0 bb inst st :
  stacks_ready s0 -> blk_inv s0 st ->
  exists st', SSARenameBB_inst P bb inst st = Ok st' /\ blk_inv s0 st'.
Proof.
  intros H0 Hb. unfold SSARenameBB_inst.
  assert (exists st1, (if inst_hasPAGEdgeList inst
                       then forEachM SSARenameBB_edge (inst_pagEdges inst) st
                       else Ok st) = Ok st1 /\ blk_inv s0 st1) as (st1 & -> & Hb1).
  { destruct (inst_hasPAGEdgeList inst); [|by exists st].
    apply (forEachM_isOk (blk_inv s0)); [|done].
    intros e sa _ Ha. by apply SSARenameBB_edge_ready. }
  simpl. clear st Hb. destruct st1 as [memRegs s].
  pose proof (blk_inv_dom _ _ Hb1) as Hd. destruct Hb1 as [Hinv Hn].
  pose proof (ren_inv_stacks_ready _ _ H0 Hinv) as Hs. simpl in *.
  destruct (inst_callSite inst) as [cs|].
  - assert (exists s1, (if hasRefMRSet (mrGen P) cs
              then mus ← RenameMuSet (at_key [] (callsiteToMuSetMap s) cs) s;
                   Ok (upd_callsiteToMuSetMap (<[cs := mus]>) s)
              else Ok s) = Ok s1 /\ blk_inv s0 (memRegs, s1)) as (s1 & -> & Hb1).
    { destruct (hasRefMRSet (mrGen P) cs); [|exists s; by split].
      destruct (RenameMuSet_ready (at_key [] (callsiteToMuSetMap s) cs) s Hs) as (mus & -> & Hr).
      { intros mu Hmu. rewrite Hd. destruct Hn as (_&_&Hl&_). by eapply Hl. }
      simpl. eexists. split; [done|]. split.
      + by apply (ren_inv_nodes s0 memRegs s); [..|by repeat split|].
      + simpl. apply nodes_in_callMu; [done|]. intros mu Hmu. rewrite <- Hd. by apply Hr. }
    simpl. clear s Hd Hinv Hn Hs.
    pose proof (blk_inv_dom _ _ Hb1) as Hd. destruct Hb1 as [Hinv Hn]. simpl in *.
    destruct (hasModMRSet (mrGen P) cs); [|eexists; split; [done|by split]].
    destruct (RenameChiSet_ready s0 (at_key [] (callsiteToChiSetMap s1) cs) memRegs s1 H0 Hinv)
      as (chis & memRegs' & s' & E & Hr).
    { intros chi Hchi. rewrite Hd. destruct Hn as (_&_&_&Hc&_). by eapply Hc. }
    rewrite E. simpl. eexists. split; [done|]. split.
    + apply (ren_inv_nodes s0 memRegs' s'); [done|done|by repeat split|].
      by eapply RenameChiSet_inv.
    + simpl. apply nodes_in_callChi.
      * eapply same_nodes_in; [by eapply RenameChiSet_same_nodes|done].
      * intros chi Hchi. rewrite <- Hd. by apply Hr.
  - destruct (inst_isReturn inst); [|eexists; split; [done|by split]].
    destruct (RenameMuSet_ready (at_key [] (funToReturnMuSetMap s) (bb_parent (getBB P bb))) s Hs)
      as (mus & -> & Hr).
    { intros mu Hmu. rewrite Hd. destruct Hn as (_&_&_&_&Hl&_). by eapply Hl. }
    simpl. eexists. split; [done|]. split.
    + by apply (ren_inv_nodes s0 memRegs s); [..|by repeat split|].
    + simpl. apply nodes_in_retMu; [done|]. intros mu Hmu. rewrite <- Hd. by apply Hr.
Qed.

Lemma SSARenameBB_succ_ready s0 memRegs bb succ s :
  succ ∈ bb_succs (getBB P bb) ->
  stacks_ready s0 -> blk_inv s0 (memRegs, s) ->
  exists s', SSARenameBB_succ P bb succ s = Ok s' /\ blk_inv s0 (memRegs, s').
Proof.
  intros Hsucc H0 Hb. pose proof (blk_inv_dom _ _ Hb) as Hd. destruct Hb as [Hinv Hn].
  pose proof (ren_inv_stacks_ready _ _ H0 Hinv) as Hs. simpl in *.
  unfold SSARenameBB_succ, getBBPredecessorPos.
  destruct (list_pos_elem bb _ (Hcfg bb succ Hsucc)) as [pos ->]. simpl.
  destruct (hasPHISet succ s); [|eexists; split; [done|by split]].
  destruct (RenamePhiOps_ready (at_key [] (bb2PhiSetMap s) succ) pos s Hs) as (phis & -> & Hr).
  { intros phi Hphi. rewrite Hd. destruct Hn as (_&_&_&_&_&Hp). by eapply Hp. }
  simpl. eexists. split; [done|]. split.
  - by apply (ren_inv_nodes s0 memRegs s); [..|by repeat split|].
  - simpl. apply nodes_in_phi; [done|]. intros phi Hphi. rewrite <- Hd. by apply Hr.
Qed.

Lemma blk_inv_ready s0 memRegs s : stacks_ready s0 -> blk_inv s0 (memRegs, s) -> ready s.
Proof.
  intros H0 Hb. pose proof (blk_inv_dom _ _ Hb) as Hd. destruct Hb as [Hinv Hn].
  split; [by apply (ren_inv_stacks_ready s0 (memRegs, s))|]. simpl in Hd. by rewrite Hd.
Qed.

(** With fuel beyond the depth of the dominator subtree, renaming a
    block in a ready state succeeds and leaves a ready state. *)
Lemma SSARenameBB_total tree rank fuel : forall bb s,
  tree_ranked tree rank ->
  ready s -> dt s = Some tree -> (rank bb < fuel)%nat ->
  exists s', SSARenameBB P fuel bb s = Ok s' /\ ready s'.
Proof.
  induction fuel as [|fuel IH]; intros bb s Htree Hready Hdt Hfuel; [lia|]. simpl.
  pose proof Hready as [H0 Hn0].
  destruct (SSARenameBB_phiRes_ready bb s Hready) as (st1 & -> & Hb1). simpl.
  destruct (forEachM_isOk (blk_inv s) (SSARenameBB_inst P bb) (bb_insts (getBB P bb)))
    with (s := st1) as ([memRegs s2] & -> & Hb2); [|done|].
  { intros inst sa _ Ha. by apply SSARenameBB_inst_ready. }
  simpl.
  destruct (forEachM_isOk (fun x => blk_inv s (memRegs, x)) (SSARenameBB_succ P bb)
              (bb_succs (getBB P bb))) with (s := s2) as (s3 & -> & Hb3); [|done|].
  { intros succ sa Hsucc Ha. by apply SSARenameBB_succ_ready. }
  simpl.
  assert (dt s3 = Some tree) as Hdt3.
  { destruct Hb3 as [[_ _ F] _]. destruct F as (_&_&_&_&Hx&_). simpl in Hx. by rewrite Hx. }
  unfold getDT. rewrite Hdt3. simpl.
  assert (exists s4, match tree !! bb with
                     | Some children => forEachM (SSARenameBB P fuel) children s3
                     | None => Ok s3
                     end = Ok s4 /\ blk_inv s (memRegs, s4)) as (s4 & -> & Hb4).
  { destruct (tree !! bb) as [children|] eqn:Echildren; [|by exists s3].
    destruct (forEachM_isOk (fun x => blk_inv s (memRegs, x) /\ dt x = Some tree)
             (SSARenameBB P fuel) children) with (s := s3) as (s4 & E & Hb4 & _);
      [|by split|by exists s4].
    intros c sa Hc [Ha Hdta].
    destruct (IH c sa Htree (blk_inv_ready _ _ _ H0 Ha) Hdta) as (sb & E & Hrb).
    { pose proof (Htree bb children c Echildren Hc). lia. }
    exists sb. split; [done|].
    pose proof (SSARenameBB_balanced P _ _ _ _ E) as Hbal.
    destruct Ha as [Hinv Hn]. split; [split|].
    - by eapply ren_inv_balanced.
    - simpl. destruct Hrb as [_ Hnb]. destruct Hbal as (_ & _ & F).
      destruct F as (_&_&_&_&_&_&_&Hdb).
      pose proof (blk_inv_dom s (memRegs, sa) (conj Hinv Hn)) as Hda. simpl in Hda.
      by rewrite <- Hda, <- Hdb.
    - destruct Hbal as (_ & _ & F). destruct F as (_&_&_&_&Hx&_). by rewrite Hx. }
  simpl. destruct Hb4 as [[U L F] Hn4]. simpl in *.
  destruct (SSARenameBB_pops_spec _ _ _ U) as (s' & E & Hs' & Hl' & Hf').
  exists s'. split; [done|]. split.
  - intros mr Hmr. rewrite Hs'. apply H0.
    destruct F as (_&_&_&_&_&_&_&Hd4). destruct Hf' as (_&_&_&_&_&_&_&Hd'). by rewrite <- Hd4, <- Hd'.
  - destruct F as (_&_&_&_&_&_&_&Hd4). destruct Hf' as (_&_&_&_&_&_&_&Hd').
    rewrite Hd', Hd4. by eapply SSARenameBB_pop_nodes.
Qed.

End Total.

Lemma ready_init : ready initMemSSA.
Proof.
  split.
  - intros mr Hmr. simpl in Hmr. by rewrite dom_empty_L in Hmr.
  - repeat split; intros k a Ha; simpl in Ha; unfold at_key in Ha;
      rewrite lookup_empty in Ha; by apply elem_of_nil in Ha.
Qed.

Lemma regionsIn_snoc {A} (mrOf : A -> N) D (m : gmap N (list A)) k a :
  regionsIn mrOf D m -> mrOf a ∈ D -> regionsIn mrOf D (<[k := at_key [] m k ++ [a]]> m).
Proof.
  intros Hm Ha. apply regionsIn_insert; [done|].
  intros a' [?|Hx]%elem_of_app; [by eapply Hm|].
  apply list_elem_of_singleton in Hx. by subst.
Qed.

Lemma phiCountAt_pos b mr s :
  (1 <= phiCountAt b mr s)%nat <->
  exists phi, phi ∈ at_key [] (bb2PhiSetMap s) b /\ phi_mr phi = mr.
Proof.
  unfold phiCountAt. split.
  - intros H. destruct (filter _ _) as [|phi l] eqn:E; [simpl in H; lia|].
    exists phi.
    assert (phi ∈ filter (fun p => phi_mr p = mr) (at_key [] (bb2PhiSetMap s) b)) as Hf.
    { rewrite E. by left. }
    apply list_elem_of_filter in Hf as [? ?]. by split.
  - intros (phi & Hin & Hmr).
    assert (phi ∈ filter (fun p => phi_mr p = mr) (at_key [] (bb2PhiSetMap s) b)) as Hf.
    { by apply list_elem_of_filter. }
    destruct (filter _ _); [by apply elem_of_nil in Hf|simpl; lia].
Qed.

Section BuildTotal.
Variable P : Program.
Variable D0 : gset N.

Lemma collectRegUses_nodes mr s :
  nodes_in (D0 ∪ usedRegs s) s -> nodes_in (D0 ∪ usedRegs (collectRegUses mr s)) (collectRegUses mr s).
Proof.
  unfold collectRegUses. case_decide; [done|]. intros Hn.
  eapply nodes_in_mono; [|exact Hn]. simpl. set_solver.
Qed.

Lemma collectRegUses_mono mr s : usedRegs s ⊆ usedRegs (collectRegUses mr s).
Proof. unfold collectRegUses. case_decide; simpl; set_solver. Qed.

Lemma AddLoadMU_muchi_inv bb load mr s : muchi_inv D0 s -> muchi_inv D0 (AddLoadMU bb load mr s).
Proof.
  intros [Hd Hn]. split; [by apply AddLoadMU_defs_used|].
  unfold AddLoadMU. set (s1 := upd_load2MuSetMap _ s).
  assert (defs_used s1) as Hd1 by done.
  pose proof (collectRegUses_used mr s1 Hd1) as Hu.
  destruct Hn as (H1&H2&H3&H4&H5&H6).
  unfold collectRegUses in *. case_decide; simpl in *.
  - repeat split; simpl; try done. apply regionsIn_snoc; [done|]. set_solver.
  - repeat split; simpl; try (eapply regionsIn_mono; [|eassumption]; set_solver).
    apply regionsIn_snoc; [|set_solver]. eapply regionsIn_mono; [|eassumption]. set_solver.
Qed.

Lemma AddCallSiteMU_muchi_inv cs mr s : muchi_inv D0 s -> muchi_inv D0 (AddCallSiteMU cs mr s).
Proof.
  intros [Hd Hn]. split; [by apply AddCallSiteMU_defs_used|].
  unfold AddCallSiteMU. set (s1 := upd_callsiteToMuSetMap _ s).
  assert (defs_used s1) as Hd1 by done.
  pose proof (collectRegUses_used mr s1 Hd1) as Hu.
  destruct Hn as (H1&H2&H3&H4&H5&H6).
  unfold collectRegUses in *. case_decide; simpl in *.
  - repeat split; simpl; try done. apply regionsIn_snoc; [done|]. set_solver.
  - repeat split; simpl; try (eapply regionsIn_mono; [|eassumption]; set_solver).
    apply regionsIn_snoc; [|set_solver]. eapply regionsIn_mono; [|eassumption]. set_solver.
Qed.

Lemma collectRegDefs_nodes bb mr s :
  nodes_in (D0 ∪ usedRegs s) s -> nodes_in (D0 ∪ usedRegs (collectRegDefs bb mr s)) (collectRegDefs bb mr s).
Proof. done. Qed.

Lemma AddStoreCHI_muchi_inv bb store mr s : muchi_inv D0 s -> muchi_inv D0 (AddStoreCHI bb store mr s).
Proof.
  intros [Hd Hn]. split; [by apply AddStoreCHI_defs_used|].
  unfold AddStoreCHI. apply collectRegDefs_nodes.
  set (s1 := upd_store2ChiSetMap _ s).
  assert (defs_used s1) as Hd1 by done.
  pose proof (collectRegUses_used mr s1 Hd1) as Hu.
  destruct Hn as (H1&H2&H3&H4&H5&H6).
  unfold collectRegUses in *. case_decide; simpl in *.
  - repeat split; simpl; try done. apply regionsIn_snoc; [done|]. set_solver.
  - repeat split; simpl; try (eapply regionsIn_mono; [|eassumption]; set_solver).
    apply regionsIn_snoc; [|set_solver]. eapply regionsIn_mono; [|eassumption]. set_solver.
Qed.

Lemma AddCallSiteCHI_muchi_inv cs mr s : muchi_inv D0 s -> muchi_inv D0 (AddCallSiteCHI P cs mr s).
Proof.
  intros [Hd Hn]. split; [by apply AddCallSiteCHI_defs_used|].
  unfold AddCallSiteCHI. apply collectRegDefs_nodes.
  set (s1 := upd_callsiteToChiSetMap _ s).
  assert (defs_used s1) as Hd1 by done.
  pose proof (collectRegUses_used mr s1 Hd1) as Hu.
  destruct Hn as (H1&H2&H3&H4&H5&H6).
  unfold collectRegUses in *. case_decide; simpl in *.
  - repeat split; simpl; try done. apply regionsIn_snoc; [done|]. set_solver.
  - repeat split; simpl; try (eapply regionsIn_mono; [|eassumption]; set_solver).
    apply regionsIn_snoc; [|set_solver]. eapply regionsIn_mono; [|eassumption]. set_solver.
Qed.

Lemma createMUCHI_edge_inv bb e s : muchi_inv D0 s -> muchi_inv D0 (createMUCHI_edge P bb e s).
Proof.
  intros H. destruct e; simpl; [| |done];
    unfold AddLoadMUs, AddStoreCHIs; apply forEach_inv; try done; intros.
  - by apply AddLoadMU_muchi_inv.
  - by apply AddStoreCHI_muchi_inv.
Qed.

Lemma createMUCHI_inst_inv bb inst s : muchi_inv D0 s -> muchi_inv D0 (createMUCHI_inst P bb inst s).
Proof.
  intros H. unfold createMUCHI_inst.
  set (s1 := if inst_hasPAGEdgeList inst then _ else _).
  assert (muchi_inv D0 s1) as H1.
  { subst s1. destruct (inst_hasPAGEdgeList inst); [|done].
    apply forEach_inv; [|done]. intros. by apply createMUCHI_edge_inv. }
  clearbody s1.
  destruct (inst_callSite inst) as [cs|]; [|done].
  set (s2 := if hasRefMRSet (mrGen P) cs then _ else _).
  assert (muchi_inv D0 s2) as H2.
  { subst s2. destruct (hasRefMRSet (mrGen P) cs); [|done].
    unfold AddCallSiteMUs. apply forEach_inv; [|done]. intros. by apply AddCallSiteMU_muchi_inv. }
  clearbody s2.
  destruct (hasModMRSet (mrGen P) cs); [|done].
  unfold AddCallSiteCHIs. apply forEach_inv; [|done]. intros. by apply AddCallSiteCHI_muchi_inv.
Qed.

(** Between blocks [varKills] is stale, and only the second part and
    [defs_have_uses] are invariant. *)
Lemma createMUCHI_bb_inv bb s :
  defs_have_uses s /\ nodes_in (D0 ∪ usedRegs s) s ->
  defs_have_uses (createMUCHI_bb P bb s) /\
  nodes_in (D0 ∪ usedRegs (createMUCHI_bb P bb s)) (createMUCHI_bb P bb s).
Proof.
  intros [Hd Hn]. unfold createMUCHI_bb.
  set (s1 := upd_varKills _ s).
  assert (muchi_inv D0 s1) as H1.
  { split; [|done]. intros mr [Hx|Hx]; simpl in *; [by apply not_elem_of_empty in Hx|].
    by apply Hd. }
  pose proof (forEach_inv (muchi_inv D0) (createMUCHI_inst P bb) (bb_insts (getBB P bb))
                (fun a s _ => createMUCHI_inst_inv bb a s) s1 H1) as [Hd' Hn'].
  split; [by apply defs_used_weaken|done].
Qed.

Lemma createMUCHI_bbs_inv l s :
  defs_have_uses s /\ nodes_in (D0 ∪ usedRegs s) s ->
  defs_have_uses (forEach (createMUCHI_bb P) l s) /\
  nodes_in (D0 ∪ usedRegs (forEach (createMUCHI_bb P) l s)) (forEach (createMUCHI_bb P) l s).
Proof.
  intros H.
  apply (forEach_inv (fun x => defs_have_uses x /\ nodes_in (D0 ∪ usedRegs x) x)); [|done].
  intros bb sa _ Ha. by apply createMUCHI_bb_inv.
Qed.

End BuildTotal.

Section BuildTotal2.
Variable P : Program.

(** [createMUCHI] succeeds in a ready state and leaves a ready state. *)
Lemma createMUCHI_ready fn f tree s0 :
  ready s0 ->
  exists s1, createMUCHI P fn (setCurrentDFDT f (Some tree) s0) = Ok s1 /\ ready s1 /\
    df s1 = f /\ dt s1 = Some tree.
Proof.
  intros [Hs0 Hn0].
  set (sa := setCurrentDFDT f (Some tree) s0).
  rewrite (createMUCHI_unfold P fn sa tree eq_refl).
  set (sm := forEach (createMUCHI_bb P) (fun_reachableBBs fn) sa).
  destruct (createMUCHI_entries_spec fn (elements (usedRegs sm)) sm)
    as (s1 & E & Hc & Hs & He & Hr & Ho & Hl & Hu & Hb & Hk & Hdf & Hdt & H1 & H2 & H3 & H4 & H5 & H6).
  destruct (createMUCHI_bbs_frame P (fun_reachableBBs fn) sa)
    as (Fc & Fs & Fl & Fe & Fr & Fp & Fdf & Fdt & Fw). fold sm in Fc, Fs, Fl, Fe, Fr, Fp, Fdf, Fdt, Fw.
  destruct (createMUCHI_bbs_inv P (dom (mr2CounterMap s0)) (fun_reachableBBs fn) sa) as [_ Hnm].
  { split; [apply setCurrentDFDT_defs_used|].
    eapply nodes_in_mono; [|exact Hn0]. set_solver. }
  fold sm in Hnm.
  assert (dom (mr2CounterMap s1) = dom (mr2CounterMap s0) ∪ usedRegs sm) as Hdom.
  { apply set_eq. intros mr. rewrite elem_of_union, !elem_of_dom, Hc, Fc.
    destruct (decide (mr ∈ elements (usedRegs sm))) as [Hin|Hin].
    - split; [intros _; right; by apply elem_of_elements|by eexists].
    - rewrite elem_of_elements in Hin. simpl. tauto. }
  exists s1. split; [done|]. split; [|split; [by rewrite Hdf, Fdf|by rewrite Hdt, Fdt]].
  split.
  - intros mr Hmr. rewrite Hs. destruct (decide (mr ∈ elements (usedRegs sm))) as [Hin|Hin].
    + eexists. split; [done|]. done.
    + rewrite Fs. simpl. apply Hs0. rewrite Hdom in Hmr. rewrite elem_of_elements in Hin.
      apply elem_of_union in Hmr as [?|?]; done.
  - rewrite Hdom. destruct Hnm as (N1&N2&N3&N4&N5&N6).
    repeat split; try (by rewrite ?H1, ?H2, ?H3, ?H4, ?H5).
    intros k mu Hmu. destruct (decide (k = fun_id fn)) as [->|Hne].
    + rewrite Hr in Hmu. apply elem_of_app in Hmu as [Hmu|Hmu]; [by eapply N5|].
      destruct (fun_doesNotRet fn); [by apply elem_of_nil in Hmu|].
      apply list_elem_of_fmap in Hmu as (mr & -> & Hmr). simpl.
      apply elem_of_union. right. by apply elem_of_elements.
    + destruct (Ho k Hne) as [_ Hk']. unfold at_key in Hmu. rewrite Hk' in Hmu. by eapply N5.
Qed.

(** [insertPHI] succeeds in a ready state, given enough fuel, and leaves
    a ready state. *)
Lemma insertPHI_ready fuel fn s1 dfm :
  ready s1 -> df s1 = Some dfm -> usedRegs s1 ⊆ dom (mr2CounterMap s1) ->
  (insertPHI_fuel s1 <= fuel)%nat ->
  exists s2, insertPHI fuel fn s1 = Ok s2 /\ ready s2 /\ dt s2 = dt s1.
Proof.
  intros [Hs Hn] Hdf Hused Hfuel.
  destruct (insertPHI_spec fuel fn s1 dfm Hdf Hfuel) as (s2 & E & F & Hc).
  exists s2. split; [done|].
  destruct F as (Fc & Fs & _ & _ & Fr & Fl & Fst & Fcm & Fcc & _ & _ & _ & _ & Fdt).
  split; [|done]. split.
  - intros mr. rewrite Fc, Fs. apply Hs.
  - rewrite Fc. destruct Hn as (N1&N2&N3&N4&N5&N6).
    repeat split; try (by rewrite ?Fr, ?Fl, ?Fst, ?Fcm, ?Fcc).
    intros b phi Hphi.
    assert (1 <= phiCountAt b (phi_mr phi) s2)%nat as Hpos.
    { apply phiCountAt_pos. by exists phi. }
    destruct (Hc (phi_mr phi) b) as [(Hu & _)|[_ Heq]]; [by apply Hused|].
    rewrite Heq in Hpos. apply phiCountAt_pos in Hpos as (phi' & Hin & <-). by eapply N6.
Qed.

(** The build of a function that is not external succeeds from every
    ready state, such as [initMemSSA], when the control-flow graph and
    the dominator tree are well formed and the fuel suffices; it leaves
    a ready state, from which the next function can be built. *)
Lemma buildMemSSA_total fn dfm tree rank s0 :
  cfg_ok P -> tree_ranked tree rank -> ready s0 -> fun_isExtCall fn = false ->
  exists n, forall fuel, (n <= fuel)%nat ->
    exists s', buildMemSSA P fuel fn (Some dfm) (Some tree) s0 = Ok s' /\ ready s'.
Proof.
  intros Hcfg Htree Hready Hext.
  destruct (createMUCHI_ready fn (Some dfm) tree s0 Hready) as (s1 & E1 & Hr1 & Hdf1 & Hdt1).
  exists (Nat.max (insertPHI_fuel s1) (S (rank (fun_entryBlock fn)))). intros fuel Hfuel.
  unfold buildMemSSA. rewrite Hext, E1. simpl.
  destruct (insertPHI_ready fuel fn s1 dfm Hr1 Hdf1) as (s2 & -> & Hr2 & Hdt2); [|lia|].
  { destruct (createMUCHI_Ok P fn _ s1 E1) as (_ & _ & _ & _ & _ & Hc & _).
    intros mr Hmr. apply elem_of_dom. rewrite Hc, decide_True by done. by eexists. }
  simpl. unfold SSARename.
  apply (SSARenameBB_total P Hcfg tree rank); [done|done|by rewrite Hdt2|lia].
Qed.

End BuildTotal2.

(** ** The facts recorded by [createMUCHI] *)

Lemma forEach_adds {A} (I : MemSSA -> Prop) (body : A -> MemSSA -> MemSSA)
    (G : A -> Fact -> Prop) l :
  (forall a s, a ∈ l -> I s ->
     I (body a s) /\ forall f, holds (body a s) f <-> holds s f \/ G a f) ->
  forall s, I s ->
    I (forEach body l s) /\
    forall f, holds (forEach body l s) f <-> holds s f \/ exists a, a ∈ l /\ G a f.
Proof.
  unfold forEach. induction l as [|a l IH]; intros Hbody s HI; simpl.
  - split; [done|]. intros f. split; [by left|]. intros [?|(a & Ha & _)]; [done|].
    by apply elem_of_nil in Ha.
  - destruct (Hbody a s) as [HI' Hf]; [left|done|].
    destruct (IH (fun a' s' Ha' => Hbody a' s' (list_elem_of_further _ _ _ Ha')) _ HI')
      as [HI'' Hf'].
    split; [done|]. intros f. rewrite Hf', Hf. split.
    + intros [[?|?]|(a' & Ha' & ?)]; [by left|right; exists a; split; [left|done]|].
      right. exists a'. split; [by right|done].
    + intros [?|(a' & Ha' & ?)]; [by left; left|].
      apply elem_of_cons in Ha' as [->|Ha']; [by left; right|].
      right. by exists a'.
Qed.

Section Facts.
Variable P : Program.

Lemma collectRegUses_usedRegs mr s :
  kills_used s ->
  usedRegs (collectRegUses mr s) = usedRegs s ∪ {[mr]} /\ kills_used (collectRegUses mr s).
Proof.
  unfold kills_used, collectRegUses. intros HI. case_decide; simpl; set_solver.
Qed.

Lemma AddLoadMU_adds_spec bb load mr s :
  kills_used s ->
  kills_used (AddLoadMU bb load mr s) /\
  forall f, holds (AddLoadMU bb load mr s) f <-> holds s f \/ AddLoadMU_adds bb load mr f.
Proof.
  intros HI. unfold AddLoadMU, AddLoadMU_adds.
  set (s1 := upd_load2MuSetMap _ s).
  destruct (collectRegUses_usedRegs mr s1 HI) as [Hu HI'].
  split; [done|]. intros [mr'|mr' b|l mu|st chi|cs mu|cs chi]; unfold holds.
  - rewrite Hu. set_solver.
  - unfold collectRegUses. case_decide; simpl; naive_solver.
  - assert (load2MuSetMap (collectRegUses mr s1) = load2MuSetMap s1) as ->
      by (unfold collectRegUses; by case_decide).
    simpl. rewrite at_key_insert. case_decide as E.
    + subst l. rewrite elem_of_app, list_elem_of_singleton. naive_solver.
    + naive_solver.
  - unfold collectRegUses. case_decide; simpl; naive_solver.
  - unfold collectRegUses. case_decide; simpl; naive_solver.
  - unfold collectRegUses. case_decide; simpl; naive_solver.
Qed.

Lemma AddCallSiteMU_adds_spec cs mr s :
  kills_used s ->
  kills_used (AddCallSiteMU cs mr s) /\
  forall f, holds (AddCallSiteMU cs mr s) f <-> holds s f \/ AddCallSiteMU_adds cs mr f.
Proof.
  intros HI. unfold AddCallSiteMU, AddCallSiteMU_adds.
  set (s1 := upd_callsiteToMuSetMap _ s).
  destruct (collectRegUses_usedRegs mr s1 HI) as [Hu HI'].
  split; [done|]. intros [mr'|mr' b|l mu|st chi|cs' mu|cs' chi]; unfold holds.
  - rewrite Hu. set_solver.
  - unfold collectRegUses. case_decide; simpl; naive_solver.
  - unfold collectRegUses. case_decide; simpl; naive_solver.
  - unfold collectRegUses. case_decide; simpl; naive_solver.
  - assert (callsiteToMuSetMap (collectRegUses mr s1) = callsiteToMuSetMap s1) as ->
      by (unfold collectRegUses; by case_decide).
    simpl. rewrite at_key_insert. case_decide as E.
    + subst cs'. rewrite elem_of_app, list_elem_of_singleton. naive_solver.
    + naive_solver.
  - unfold collectRegUses. case_decide; simpl; naive_solver.
Qed.

Lemma collectRegDefs_spec bb mr s :
  mr ∈ usedRegs s -> kills_used s ->
  kills_used (collectRegDefs bb mr s) /\
  usedRegs (collectRegDefs bb mr s) = usedRegs s /\
  (forall mr' b, b ∈ at_key [] (reg2BBMap (collectRegDefs bb mr s)) mr' <->
     b ∈ at_key [] (reg2BBMap s) mr' \/ (mr' = mr /\ b = bb)).
Proof.
  unfold kills_used, collectRegDefs. simpl. intros Hmr HI.
  split; [set_solver|]. split; [done|].
  intros mr' b. rewrite at_key_insert. case_decide as E.
  - subst mr'. case_decide as E'.
    + naive_solver.
    + rewrite elem_of_app, list_elem_of_singleton. naive_solver.
  - naive_solver.
Qed.

Lemma AddStoreCHI_adds_spec bb store mr s :
  kills_used s ->
  kills_used (AddStoreCHI bb store mr s) /\
  forall f, holds (AddStoreCHI bb store mr s) f <-> holds s f \/ AddStoreCHI_adds bb store mr f.
Proof.
  intros HI. unfold AddStoreCHI, AddStoreCHI_adds.
  set (s1 := upd_store2ChiSetMap _ s).
  destruct (collectRegUses_usedRegs mr s1 HI) as [Hu HI'].
  set (s2 := collectRegUses mr s1) in *.
  destruct (collectRegDefs_spec bb mr s2) as (HI'' & Hu' & Hd); [rewrite Hu; set_solver|done|].
  assert (reg2BBMap s2 = reg2BBMap s) as Hr
    by (unfold s2, collectRegUses; by case_decide).
  assert (store2ChiSetMap s2 = store2ChiSetMap s1) as Hs
    by (unfold s2, collectRegUses; by case_decide).
  assert (load2MuSetMap s2 = load2MuSetMap s /\ callsiteToMuSetMap s2 = callsiteToMuSetMap s /\
          callsiteToChiSetMap s2 = callsiteToChiSetMap s) as (Hl & Hcm & Hcc)
    by (unfold s2, collectRegUses; by case_decide).
  split; [done|]. intros [mr'|mr' b|l mu|st chi|cs' mu|cs' chi]; unfold holds.
  - rewrite Hu', Hu. set_solver.
  - rewrite Hd, Hr. naive_solver.
  - change (load2MuSetMap (collectRegDefs bb mr s2)) with (load2MuSetMap s2).
    rewrite Hl. naive_solver.
  - change (store2ChiSetMap (collectRegDefs bb mr s2)) with (store2ChiSetMap s2).
    rewrite Hs. simpl. rewrite at_key_insert. case_decide as E.
    + subst st. rewrite elem_of_app, list_elem_of_singleton. naive_solver.
    + naive_solver.
  - change (callsiteToMuSetMap (collectRegDefs bb mr s2)) with (callsiteToMuSetMap s2).
    rewrite Hcm. naive_solver.
  - change (callsiteToChiSetMap (collectRegDefs bb mr s2)) with (callsiteToChiSetMap s2).
    rewrite Hcc. naive_solver.
Qed.

Lemma AddCallSiteCHI_adds_spec cs mr s :
  kills_used s ->
  kills_used (AddCallSiteCHI P cs mr s) /\
  forall f, holds (AddCallSiteCHI P cs mr s) f <-> holds s f \/ AddCallSiteCHI_adds P cs mr f.
Proof.
  intros HI. unfold AddCallSiteCHI, AddCallSiteCHI_adds.
  set (s1 := upd_callsiteToChiSetMap _ s).
  destruct (collectRegUses_usedRegs mr s1 HI) as [Hu HI'].
  set (s2 := collectRegUses mr s1) in *.
  destruct (collectRegDefs_spec (callSiteBB P cs) mr s2) as (HI'' & Hu' & Hd);
    [rewrite Hu; set_solver|done|].
  assert (reg2BBMap s2 = reg2BBMap s) as Hr
    by (unfold s2, collectRegUses; by case_decide).
  assert (callsiteToChiSetMap s2 = callsiteToChiSetMap s1) as Hs
    by (unfold s2, collectRegUses; by case_decide).
  assert (load2MuSetMap s2 = load2MuSetMap s /\ callsiteToMuSetMap s2 = callsiteToMuSetMap s /\
          store2ChiSetMap s2 = store2ChiSetMap s) as (Hl & Hcm & Hcc)
    by (unfold s2, collectRegUses; by case_decide).
  split; [done|]. intros [mr'|mr' b|l mu|st chi|cs' mu|cs' chi]; unfold holds.
  - rewrite Hu', Hu. set_solver.
  - rewrite Hd, Hr. naive_solver.
  - change (load2MuSetMap (collectRegDefs (callSiteBB P cs) mr s2)) with (load2MuSetMap s2).
    rewrite Hl. naive_solver.
  - change (store2ChiSetMap (collectRegDefs (callSiteBB P cs) mr s2)) with (store2ChiSetMap s2).
    rewrite Hcc. naive_solver.
  - change (callsiteToMuSetMap (collectRegDefs (callSiteBB P cs) mr s2))
      with (callsiteToMuSetMap s2).
    rewrite Hcm. naive_solver.
  - change (callsiteToChiSetMap (collectRegDefs (callSiteBB P cs) mr s2))
      with (callsiteToChiSetMap s2).
    rewrite Hs. simpl. rewrite at_key_insert. case_decide as E.
    + subst cs'. rewrite elem_of_app, list_elem_of_singleton. naive_solver.
    + naive_solver.
Qed.

Lemma createMUCHI_edge_adds bb e s :
  kills_used s ->
  kills_used (createMUCHI_edge P bb e s) /\
  forall f, holds (createMUCHI_edge P bb e s) f <-> holds s f \/ edge_adds P bb e f.
Proof.
  intros HI. destruct e as [load|store|]; simpl.
  - unfold AddLoadMUs.
    destruct (forEach_adds kills_used (AddLoadMU bb load) (AddLoadMU_adds bb load)
                (elements (getLoadMRSet (mrGen P) load))
                (fun a s' _ => AddLoadMU_adds_spec bb load a s') s HI) as [HI' Hf].
    split; [done|]. intros f. rewrite Hf. setoid_rewrite elem_of_elements. done.
  - unfold AddStoreCHIs.
    destruct (forEach_adds kills_used (AddStoreCHI bb store) (AddStoreCHI_adds bb store)
                (elements (getStoreMRSet (mrGen P) store))
                (fun a s' _ => AddStoreCHI_adds_spec bb store a s') s HI) as [HI' Hf].
    split; [done|]. intros f. rewrite Hf. setoid_rewrite elem_of_elements. done.
  - split; [done|]. naive_solver.
Qed.

Lemma createMUCHI_inst_adds bb inst s :
  kills_used s ->
  kills_used (createMUCHI_inst P bb inst s) /\
  forall f, holds (createMUCHI_inst P bb inst s) f <-> holds s f \/ inst_adds P bb inst f.
Proof.
  intros HI. unfold createMUCHI_inst, inst_adds.
  set (s1 := if inst_hasPAGEdgeList inst then _ else s).
  assert (kills_used s1 /\
          forall f, holds s1 f <-> holds s f \/
            (inst_hasPAGEdgeList inst = true /\
               exists e, e ∈ inst_pagEdges inst /\ edge_adds P bb e f)) as [HI1 Hf1].
  { unfold s1. destruct (inst_hasPAGEdgeList inst).
    - destruct (forEach_adds kills_used (createMUCHI_edge P bb) (edge_adds P bb)
                  (inst_pagEdges inst)
                  (fun a s' _ => createMUCHI_edge_adds bb a s') s HI) as [HI' Hf].
      split; [done|]. intros f. rewrite Hf. naive_solver.
    - split; [done|]. naive_solver. }
  clearbody s1. destruct (inst_callSite inst) as [cs|].
  - set (s2 := if hasRefMRSet (mrGen P) cs then _ else s1).
    assert (kills_used s2 /\
            forall f, holds s2 f <-> holds s1 f \/
              (hasRefMRSet (mrGen P) cs = true /\
                 exists mr, mr ∈ getCallSiteRefMRSet (mrGen P) cs /\
                   AddCallSiteMU_adds cs mr f)) as [HI2 Hf2].
    { unfold s2. destruct (hasRefMRSet (mrGen P) cs).
      - unfold AddCallSiteMUs.
        destruct (forEach_adds kills_used (AddCallSiteMU cs) (AddCallSiteMU_adds cs)
                    (elements (getCallSiteRefMRSet (mrGen P) cs))
                    (fun a s' _ => AddCallSiteMU_adds_spec cs a s') s1 HI1) as [HI' Hf].
        split; [done|]. intros f. rewrite Hf. setoid_rewrite elem_of_elements. naive_solver.
      - split; [done|]. naive_solver. }
    clearbody s2.
    assert (kills_used (if hasModMRSet (mrGen P) cs
                        then AddCallSiteCHIs P cs (getCallSiteModMRSet (mrGen P) cs) s2
                        else s2) /\
            forall f, holds (if hasModMRSet (mrGen P) cs
                             then AddCallSiteCHIs P cs (getCallSiteModMRSet (mrGen P) cs) s2
                             else s2) f <-> holds s2 f \/
              (hasModMRSet (mrGen P) cs = true /\
                 exists mr, mr ∈ getCallSiteModMRSet (mrGen P) cs /\
                   AddCallSiteCHI_adds P cs mr f)) as [HI3 Hf3].
    { destruct (hasModMRSet (mrGen P) cs).
      - unfold AddCallSiteCHIs.
        destruct (forEach_adds kills_used (AddCallSiteCHI P cs) (AddCallSiteCHI_adds P cs)
                    (elements (getCallSiteModMRSet (mrGen P) cs))
                    (fun a s' _ => AddCallSiteCHI_adds_spec cs a s') s2 HI2) as [HI' Hf].
        split; [done|]. intros f. rewrite Hf. setoid_rewrite elem_of_elements. naive_solver.
      - split; [done|]. naive_solver. }
    split; [done|]. intros f. rewrite Hf3, Hf2, Hf1. unfold call_adds. naive_solver.
  - split; [done|]. intros f. rewrite Hf1. naive_solver.
Qed.

Lemma createMUCHI_bb_adds bb s :
  forall f, holds (createMUCHI_bb P bb s) f <->
    holds s f \/ exists inst, inst ∈ bb_insts (getBB P bb) /\ inst_adds P bb inst f.
Proof.
  unfold createMUCHI_bb.
  set (s1 := upd_varKills _ s).
  assert (kills_used s1) as HI by (unfold kills_used, s1; simpl; set_solver).
  destruct (forEach_adds kills_used (createMUCHI_inst P bb) (inst_adds P bb)
              (bb_insts (getBB P bb))
              (fun a s' _ => createMUCHI_inst_adds bb a s') s1 HI) as [_ Hf].
  intros f. rewrite Hf. by destruct f.
Qed.

Lemma createMUCHI_bbs_adds fn s :
  forall f, holds (forEach (createMUCHI_bb P) (fun_reachableBBs fn) s) f <->
    holds s f \/ fun_adds P fn f.
Proof.
  destruct (forEach_adds (fun _ => True) (createMUCHI_bb P)
              (fun bb f => exists inst, inst ∈ bb_insts (getBB P bb) /\ inst_adds P bb inst f)
              (fun_reachableBBs fn)
              (fun a s' _ _ => conj I (createMUCHI_bb_adds a s')) s I) as [_ Hf].
  intros f. rewrite Hf. unfold fun_adds. naive_solver.
Qed.

(** [createMUCHI] succeeds when the dominator tree is set, and records
    the facts of the reachable instructions on top of those it finds. *)
Lemma createMUCHI_adds fn s t :
  dt s = Some t ->
  exists s', createMUCHI P fn s = Ok s' /\
    forall f, holds s' f <-> holds s f \/ fun_adds P fn f.
Proof.
  intros Hdt. rewrite (createMUCHI_unfold P fn s t Hdt).
  set (sm := forEach (createMUCHI_bb P) (fun_reachableBBs fn) s).
  destruct (createMUCHI_entries_spec fn (elements (usedRegs sm)) sm)
    as (s' & E & _ & _ & _ & _ & _ & _ & Hu & Hr & _ & _ & _ & Hl & Hs & Hcm & Hcc & _).
  exists s'. split; [done|]. intros f.
  rewrite <- (createMUCHI_bbs_adds fn s f). fold sm.
  destruct f; unfold holds; by rewrite ?Hu, ?Hr, ?Hl, ?Hs, ?Hcm, ?Hcc.
Qed.

Lemma funRegs_adds fn mr : mr ∈ funRegs P fn <-> fun_adds P fn (FUsed mr).
Proof.
  unfold funRegs, fun_adds. rewrite elem_of_union_list. split.
  - intros (X & HX & Hmr). apply list_elem_of_fmap in HX as (bb & -> & Hbb).
    apply elem_of_union_list in Hmr as (Y & HY & Hmr).
    apply list_elem_of_fmap in HY as (inst & -> & Hinst).
    exists bb, inst. split; [done|]. split; [done|].
    unfold instRegs in Hmr. apply elem_of_union in Hmr as [Hmr|Hmr].
    + left. destruct (inst_hasPAGEdgeList inst); [|by apply elem_of_empty in Hmr].
      split; [done|]. apply elem_of_union_list in Hmr as (Z & HZ & Hmr).
      apply list_elem_of_fmap in HZ as (e & -> & He). exists e. split; [done|].
      destruct e as [load|store|]; simpl in *.
      * exists mr. split; [done|]. by left.
      * exists mr. split; [done|]. by left.
      * by apply elem_of_empty in Hmr.
    + right. destruct (inst_callSite inst) as [cs|]; [|by apply elem_of_empty in Hmr].
      exists cs. split; [done|]. unfold callRegs in Hmr. unfold call_adds.
      apply elem_of_union in Hmr as [Hmr|Hmr].
      * left. destruct (hasRefMRSet (mrGen P) cs); [|by apply elem_of_empty in Hmr].
        split; [done|]. exists mr. split; [done|]. by left.
      * right. destruct (hasModMRSet (mrGen P) cs); [|by apply elem_of_empty in Hmr].
        split; [done|]. exists mr. split; [done|]. by left.
  - intros (bb & inst & Hbb & Hinst & Hadd).
    exists (⋃ (instRegs P <$> bb_insts (getBB P bb))). split.
    { apply list_elem_of_fmap. by exists bb. }
    apply elem_of_union_list. exists (instRegs P inst). split.
    { apply list_elem_of_fmap. by exists inst. }
    unfold instRegs. apply elem_of_union.
    destruct Hadd as [(Hp & e & He & Hadd)|(cs & Hcs & Hadd)].
    + left. rewrite Hp. apply elem_of_union_list. exists (edgeRegs P e). split.
      { apply list_elem_of_fmap. by exists e. }
      destruct e as [load|store|]; simpl in *.
      * destruct Hadd as (mr' & Hmr' & [[= ->]|[=]]). done.
      * destruct Hadd as (mr' & Hmr' & [[= ->]|[[=]|[=]]]). done.
      * done.
    + right. rewrite Hcs. unfold callRegs. apply elem_of_union.
      destruct Hadd as [(Hh & mr' & Hmr' & Hadd)|(Hh & mr' & Hmr' & Hadd)]; rewrite Hh.
      * left. destruct Hadd as [[= ->]|[=]]. done.
      * right. destruct Hadd as [[= ->]|[[=]|[=]]]. done.
Qed.

End Facts.

(** ** Warnings of [insertPHI] *)

Lemma insertPHI_while_Ok_post dfm mr fuel bbs m s m' s' :
  insertPHI_while fuel dfm mr bbs m s = Ok (m', s') -> while_post dfm mr bbs m s m' s'.
Proof.
  intros H.
  set (fuel' := Nat.max fuel (S (length bbs + size (unrecorded mr m (frontierBlocks dfm))))).
  destruct (insertPHI_while_spec dfm mr fuel' bbs m s) as (m2 & s2 & E & W);
    [unfold fuel'; lia|].
  rewrite (insertPHI_while_fuel_mono dfm mr fuel fuel' bbs m s (m', s')) in E;
    [|unfold fuel'; lia|done].
  by injection E as <- <-.
Qed.

Lemma insertPHI_frontiers_pushed mr l : forall st,
  let st' := forEach (insertPHI_frontier mr) l st in
  wrnMsgs st'.2 = wrnMsgs st.2 /\
  (forall b, recorded mr st.1.2 b -> recorded mr st'.1.2 b) /\
  (forall b, b ∈ st'.1.1 -> b ∈ st.1.1 \/ (recorded mr st'.1.2 b /\ ~ recorded mr st.1.2 b)).
Proof.
  unfold forEach. induction l as [|pbb l IH]; intros st; simpl.
  - split; [done|]. split; [done|]. auto.
  - destruct (IH (insertPHI_frontier mr pbb st)) as (W & M & Pu).
    destruct st as [[bbs m] s]. unfold insertPHI_frontier in *.
    destruct (decide (mr ∈ at_key ∅ m pbb)) as [Hin|Hnin]; simpl in *.
    + split; [done|]. split.
      * intros b Hb. apply M. by apply recorded_insert_same.
      * intros b Hb. destruct (Pu b Hb) as [?|[? Hn]]; [by left|]. right. split; [done|].
        intros Hr. apply Hn. by apply recorded_insert_same.
    + split; [done|]. split.
      * intros b Hb. apply M. apply recorded_insert_new. by left.
      * intros b Hb. destruct (Pu b Hb) as [Hx|[? Hn]].
        -- apply elem_of_app in Hx as [?|Hx]; [by left|].
           apply list_elem_of_singleton in Hx. subst b. right. split; [|done].
           apply M. apply recorded_insert_new. by right.
        -- right. split; [done|]. intros Hr. apply Hn. apply recorded_insert_new. by left.
Qed.

Lemma insertPHI_while_wrn dfm mr fuel : forall bbs m s m' s',
  insertPHI_while fuel dfm mr bbs m s = Ok (m', s') ->
  exists n, wrnMsgs s' = wrnMsgs s ++ replicate n frontierWarning /\
    (n = 0%nat <->
     forall b, b ∈ bbs \/ (recorded mr m' b /\ ~ recorded mr m b) -> b ∈ dom dfm).
Proof.
  induction fuel as [|fuel IH]; intros bbs m s m' s' H; [done|].
  simpl in H. destruct (pop_back bbs) as [[bbs0 bb]|] eqn:Epop.
  2:{ apply pop_back_None in Epop. subst bbs. injection H as <- <-.
      exists 0%nat. simpl. rewrite app_nil_r. split; [done|]. split; [|done].
      intros _ b [Hb|[? ?]]; [by apply elem_of_nil in Hb|done]. }
  apply pop_back_Some in Epop. subst bbs.
  destruct (dfm !! bb) as [domSet|] eqn:Edf.
  - pose proof (insertPHI_frontiers_pushed mr (elements domSet) (bbs0, m, s)) as (W1 & M1 & P1).
    pose proof (insertPHI_frontiers_spec mr domSet (elements domSet) (bbs0, m, s))
      as (_ & _ & _ & K1 & N1).
    { intros b. by rewrite elem_of_elements. }
    destruct (forEach (insertPHI_frontier mr) (elements domSet) (bbs0, m, s))
      as [[bbs1 m1] s1] eqn:Est. simpl in *.
    pose proof (insertPHI_while_Ok_post _ _ _ _ _ _ _ _ H) as [Rm _ _ _ _ _].
    destruct (IH _ _ _ _ _ H) as (n & Hw & Hn).
    exists n. split; [by rewrite Hw, W1|]. rewrite Hn. split.
    + intros Hall b [Hb|[Hb Hnb]].
      * apply elem_of_app in Hb as [Hb|Hb]; [apply Hall; left; by apply K1|].
        apply list_elem_of_singleton in Hb. subst b. by apply elem_of_dom.
      * destruct (decide (recorded mr m1 b)) as [Hb1|Hb1].
        -- destruct (N1 b Hb1) as [?|?]; [done|]. apply Hall. by left.
        -- apply Hall. right. done.
    + intros Hall b [Hb|[Hb Hnb]].
      * destruct (P1 b Hb) as [?|[Hr Hnr]].
        -- apply Hall. left. apply elem_of_app. by left.
        -- apply Hall. right. split; [by apply Rm|done].
      * apply Hall. right. split; [done|]. intros Hr. apply Hnb. by apply M1.
  - destruct (IH _ _ _ _ _ H) as (n & Hw & Hn).
    exists (S n). split.
    + rewrite Hw. simpl. rewrite <- app_assoc. done.
    + split; [done|]. intros Hall. exfalso.
      assert (bb ∈ dom dfm) as Hd by (apply Hall; left; apply elem_of_app; right; by left).
      apply elem_of_dom in Hd as [? Hd]. congruence.
Qed.

Lemma insertPHI_regions_wrn dfm fuel l : forall m s m' s',
  NoDup l -> (forall mr b, mr ∈ l -> ~ recorded mr m b) ->
  forEachM (insertPHI_region fuel dfm) l (m, s) = Ok (m', s') ->
  phi_frame s s' /\
  exists n, wrnMsgs s' = wrnMsgs s ++ replicate n frontierWarning /\
    (n = 0%nat <->
     forall mr b, mr ∈ l ->
       b ∈ at_key [] (reg2BBMap s) mr \/ IDF dfm (at_key [] (reg2BBMap s) mr) b ->
       b ∈ dom dfm).
Proof.
  induction l as [|mr l IH]; intros m s m' s' Hnd Hfresh H; simpl in H.
  - injection H as <- <-. split; [apply phi_frame_refl|]. exists 0%nat. simpl.
    rewrite app_nil_r. split; [done|]. split; [|done].
    intros _ mr b Hmr. by apply elem_of_nil in Hmr.
  - apply NoDup_cons in Hnd as [Hmr Hnd].
    apply bind_Ok in H as ([m1 s1] & H1 & H2).
    unfold insertPHI_region in H1.
    set (bbs := at_key [] (reg2BBMap s) mr) in *.
    set (s0 := upd_reg2BBMap _ s) in *.
    assert (phi_frame s s0) as F0.
    { subst s0 bbs. repeat split; simpl. intros mr'. apply at_key_insert_id. }
    pose proof (insertPHI_while_Ok_post _ _ _ _ _ _ _ _ H1) as W.
    assert (forall b, ~ recorded mr m b) as Hf by (intros b; apply Hfresh; by left).
    pose proof (while_post_fresh _ _ _ _ _ _ _ W Hf) as Hidf.
    destruct (insertPHI_while_wrn _ _ _ _ _ _ _ _ H1) as (n1 & Hw1 & Hn1).
    destruct W as [Rm Cw O Fw S Cl].
    destruct (IH m1 s1 m' s' Hnd) as (F2 & n2 & Hw2 & Hn2); [|done|].
    { intros mr' b Hin Hr. assert (mr' <> mr) as Hne by (intros ->; done).
      apply (O mr' b Hne) in Hr. eapply Hfresh; [right; exact Hin|exact Hr]. }
    assert (phi_frame s s1) as F1 by (eapply phi_frame_trans; [exact F0|exact Fw]).
    split; [by eapply phi_frame_trans|].
    exists (n1 + n2)%nat. split.
    { rewrite Hw2, Hw1. simpl. by rewrite replicate_add, app_assoc. }
    assert (forall mr', at_key [] (reg2BBMap s1) mr' = at_key [] (reg2BBMap s) mr') as Hr1.
    { destruct F1 as (_&_&_&_&_&_&_&_&_&_&_&Hr&_). exact Hr. }
    split.
    + intros Hz. assert (n1 = 0%nat /\ n2 = 0%nat) as [Hz1 Hz2] by lia.
      intros mr' b Hin Hb. apply elem_of_cons in Hin as [->|Hin].
      * apply (proj1 Hn1 Hz1). destruct Hb as [Hb|Hb]; [by left|].
        right. split; [by apply Hidf|apply Hf].
      * apply (proj1 Hn2 Hz2 mr' b Hin). by rewrite Hr1.
    + intros Hall. assert (n1 = 0%nat) as ->.
      { apply Hn1. intros b [Hb|[Hb _]].
        - apply (Hall mr b); [by left|by left].
        - apply (Hall mr b); [by left|]. right. by apply Hidf. }
      assert (n2 = 0%nat) as ->; [|done].
      apply Hn2. intros mr' b Hin Hb. apply (Hall mr' b); [by right|]. by rewrite <- Hr1.
Qed.

(** ** The phis that [insertPHI] adds *)

Lemma phis_appended_refl D s : phis_appended D s s.
Proof.
  intros b. exists []. rewrite app_nil_r. split; [done|]. intros phi H.
  by apply elem_of_nil in H.
Qed.

Lemma phis_appended_trans D s1 s2 s3 :
  phis_appended D s1 s2 -> phis_appended D s2 s3 -> phis_appended D s1 s3.
Proof.
  intros H1 H2 b. destruct (H1 b) as (n1 & E1 & N1). destruct (H2 b) as (n2 & E2 & N2).
  exists (n1 ++ n2). rewrite E2, E1, app_assoc. split; [done|].
  intros phi [?|?]%elem_of_app; auto.
Qed.

Lemma phis_appended_same D s s' :
  bb2PhiSetMap s' = bb2PhiSetMap s -> phis_appended D s s'.
Proof.
  intros E b. exists []. rewrite E, app_nil_r. split; [done|]. intros phi H.
  by apply elem_of_nil in H.
Qed.

Lemma AddMSSAPHI_appended D pbb mr s : mr ∈ D -> phis_appended D s (AddMSSAPHI pbb mr s).
Proof.
  intros HD b. unfold AddMSSAPHI. simpl. rewrite at_key_insert. case_decide as E.
  - subst b. eexists. split; [done|]. intros phi ->%list_elem_of_singleton. done.
  - exists []. rewrite app_nil_r. split; [done|]. intros phi H. by apply elem_of_nil in H.
Qed.

Lemma insertPHI_frontiers_appended D mr l st :
  mr ∈ D -> phis_appended D st.2 (forEach (insertPHI_frontier mr) l st).2.
Proof.
  intros HD.
  apply (forEach_inv (fun st' => phis_appended D st.2 st'.2) (insertPHI_frontier mr) l);
    [|apply phis_appended_refl].
  intros pbb [[bbs m] s] _ HI. unfold insertPHI_frontier.
  case_decide; simpl in *; [done|].
  eapply phis_appended_trans; [exact HI|]. by apply AddMSSAPHI_appended.
Qed.

Lemma insertPHI_while_appended D dfm mr fuel : forall bbs m s m' s',
  mr ∈ D -> insertPHI_while fuel dfm mr bbs m s = Ok (m', s') -> phis_appended D s s'.
Proof.
  induction fuel as [|fuel IH]; intros bbs m s m' s' HD H; [done|].
  simpl in H. destruct (pop_back bbs) as [[bbs0 bb]|].
  2:{ injection H as <- <-. apply phis_appended_refl. }
  destruct (dfm !! bb) as [domSet|].
  - pose proof (insertPHI_frontiers_appended D mr (elements domSet) (bbs0, m, s) HD) as H1.
    destruct (forEach (insertPHI_frontier mr) (elements domSet) (bbs0, m, s))
      as [[bbs1 m1] s1]. simpl in H1.
    eapply phis_appended_trans; [exact H1|]. by eapply IH.
  - eapply phis_appended_trans; [|by eapply IH]. by apply phis_appended_same.
Qed.

Lemma insertPHI_appended fuel fn s s' :
  insertPHI fuel fn s = Ok s' -> phis_appended (usedRegs s) s s'.
Proof.
  unfold insertPHI. destruct (getDF s) as [dfm| | |]; simpl; try done.
  intros ([m1 s1] & H1 & H2)%bind_Ok. injection H2 as <-.
  apply (forEachM_inv (fun st => phis_appended (usedRegs s) s st.2)
           (insertPHI_region fuel dfm) (elements (usedRegs s))) in H1;
    [done| |apply phis_appended_refl].
  intros mr [m0 s0] [m0' s0'] Hmr%elem_of_elements HI Hb. simpl in *.
  unfold insertPHI_region in Hb.
  eapply phis_appended_trans; [exact HI|].
  eapply phis_appended_trans; [|eapply insertPHI_while_appended; [exact Hmr|exact Hb]].
  by apply phis_appended_same.
Qed.

(** ** Renaming changes versions only *)

Lemma same_shape_refl s : same_shape s s.
Proof. by repeat split. Qed.

Lemma same_shape_trans s1 s2 s3 : same_shape s1 s2 -> same_shape s2 s3 -> same_shape s1 s3.
Proof.
  intros (A1&B1&C1&D1&E1&F1&G1) (A2&B2&C2&D2&E2&F2&G2).
  repeat split; intros; congruence.
Qed.

Lemma same_shape_nodes s s' :
  same_nodes s s' -> funToEntryChiSetMap s' = funToEntryChiSetMap s -> same_shape s s'.
Proof. intros (A&B&C&D&E&F) G. repeat split; intros; congruence. Qed.

Lemma shape_insert {A B} (f : A -> B) (m : gmap N (list A)) k l k' :
  f <$> l = f <$> at_key [] m k ->
  f <$> at_key [] (<[k := l]> m) k' = f <$> at_key [] m k'.
Proof. intros H. rewrite at_key_insert. case_decide; by subst. Qed.

Lemma same_shape_load s k mus :
  mu_node <$> mus = mu_node <$> at_key [] (load2MuSetMap s) k ->
  same_shape s (upd_load2MuSetMap (<[k := mus]>) s).
Proof. intros H. repeat split; simpl; try done. intros k'. by apply shape_insert. Qed.
Lemma same_shape_store s k chis :
  chi_node <$> chis = chi_node <$> at_key [] (store2ChiSetMap s) k ->
  same_shape s (upd_store2ChiSetMap (<[k := chis]>) s).
Proof. intros H. repeat split; simpl; try done. intros k'. by apply shape_insert. Qed.
Lemma same_shape_callMu s k mus :
  mu_node <$> mus = mu_node <$> at_key [] (callsiteToMuSetMap s) k ->
  same_shape s (upd_callsiteToMuSetMap (<[k := mus]>) s).
Proof. intros H. repeat split; simpl; try done. intros k'. by apply shape_insert. Qed.
Lemma same_shape_callChi s k chis :
  chi_node <$> chis = chi_node <$> at_key [] (callsiteToChiSetMap s) k ->
  same_shape s (upd_callsiteToChiSetMap (<[k := chis]>) s).
Proof. intros H. repeat split; simpl; try done. intros k'. by apply shape_insert. Qed.
Lemma same_shape_retMu s k mus :
  mu_node <$> mus = mu_node <$> at_key [] (funToReturnMuSetMap s) k ->
  same_shape s (upd_funToReturnMuSetMap (<[k := mus]>) s).
Proof. intros H. repeat split; simpl; try done. intros k'. by apply shape_insert. Qed.
Lemma same_shape_phi s k phis :
  phi_node <$> phis = phi_node <$> at_key [] (bb2PhiSetMap s) k ->
  same_shape s (upd_bb2PhiSetMap (<[k := phis]>) s).
Proof. intros H. repeat split; simpl; try done. intros k'. by apply shape_insert. Qed.

Lemma newSSAName_entry mr def s v s' :
  newSSAName mr def s = Ok (v, s') -> funToEntryChiSetMap s' = funToEntryChiSetMap s.
Proof. intros (version & stack & _ & _ & _ & ->)%newSSAName_Ok. done. Qed.

Lemma RenameMuSet_shape muSet s : forall mus,
  RenameMuSet muSet s = Ok mus -> mu_node <$> mus = mu_node <$> muSet.
Proof.
  induction muSet as [|mu rest IH]; intros mus; simpl.
  - by intros [= <-].
  - intros (v & _ & H)%bind_Ok. apply bind_Ok in H as (rest' & Hrest & [= <-]).
    simpl. f_equal. by apply IH.
Qed.

Lemma RenamePhiOps_shape phiSet pos s : forall phis,
  RenamePhiOps phiSet pos s = Ok phis -> phi_node <$> phis = phi_node <$> phiSet.
Proof.
  induction phiSet as [|phi rest IH]; intros phis; simpl.
  - by intros [= <-].
  - intros (v & _ & H)%bind_Ok. apply bind_Ok in H as (rest' & Hrest & [= <-]).
    simpl. f_equal. by apply IH.
Qed.

Lemma RenameChiSet_shape chiSet : forall memRegs s chis memRegs' s',
  RenameChiSet chiSet memRegs s = Ok (chis, memRegs', s') ->
  chi_node <$> chis = chi_node <$> chiSet /\
  funToEntryChiSetMap s' = funToEntryChiSetMap s.
Proof.
  induction chiSet as [|chi rest IH]; intros memRegs s chis' memRegs' s'; simpl.
  - by intros [= <- <- <-].
  - intros (opv & Hop & H)%bind_Ok. apply bind_Ok in H as ([resv s1] & Hnew & H).
    apply bind_Ok in H as ([[rest' memRegs1] s2] & Hrest & H). injection H as <- <- <-.
    destruct (IH _ _ _ _ _ Hrest) as [E1 E2]. split.
    + simpl. by f_equal.
    + rewrite E2. by eapply newSSAName_entry.
Qed.

Lemma RenamePhiRes_shape phiSet : forall memRegs s phis memRegs' s',
  RenamePhiRes phiSet memRegs s = Ok (phis, memRegs', s') ->
  phi_node <$> phis = phi_node <$> phiSet /\
  funToEntryChiSetMap s' = funToEntryChiSetMap s.
Proof.
  induction phiSet as [|phi rest IH]; intros memRegs s phis' memRegs' s'; simpl.
  - by intros [= <- <- <-].
  - intros ([resv s1] & Hnew & H)%bind_Ok.
    apply bind_Ok in H as ([[rest' memRegs1] s2] & Hrest & H). injection H as <- <- <-.
    destruct (IH _ _ _ _ _ Hrest) as [E1 E2]. split.
    + simpl. by f_equal.
    + rewrite E2. by eapply newSSAName_entry.
Qed.

Section RenameShape.
Variable P : Program.

Lemma SSARenameBB_phiRes_shape bb s st : SSARenameBB_phiRes bb s = Ok st -> same_shape s st.2.
Proof.
  unfold SSARenameBB_phiRes. destruct (hasPHISet bb s).
  - intros ([[phis memRegs] s1] & H & [= <-])%bind_Ok. simpl.
    destruct (RenamePhiRes_shape _ _ _ _ _ _ H) as [E1 E2].
    pose proof (RenamePhiRes_same_nodes _ _ _ _ _ _ H) as Hn.
    eapply same_shape_trans; [by apply same_shape_nodes|].
    apply same_shape_phi. destruct Hn as (_&_&_&_&_&->). done.
  - intros [= <-]. apply same_shape_refl.
Qed.

Lemma SSARenameBB_edge_shape e st st' :
  SSARenameBB_edge e st = Ok st' -> same_shape st.2 st'.2.
Proof.
  destruct st as [memRegs s]. destruct e as [load|store|]; simpl.
  - intros (mus & H & [= <-])%bind_Ok. simpl.
    apply same_shape_load. by eapply RenameMuSet_shape.
  - intros ([[chis memRegs1] s1] & H & [= <-])%bind_Ok. simpl.
    destruct (RenameChiSet_shape _ _ _ _ _ _ H) as [E1 E2].
    pose proof (RenameChiSet_same_nodes _ _ _ _ _ _ H) as Hn.
    eapply same_shape_trans; [by apply same_shape_nodes|].
    apply same_shape_store. destruct Hn as (_&->&_). done.
  - intros [= <-]. apply same_shape_refl.
Qed.

Lemma SSARenameBB_inst_shape bb inst st st' :
  SSARenameBB_inst P bb inst st = Ok st' -> same_shape st.2 st'.2.
Proof.
  unfold SSARenameBB_inst. intros ([memRegs s] & H1 & H2)%bind_Ok.
  assert (same_shape st.2 s) as S1.
  { destruct (inst_hasPAGEdgeList inst); [|injection H1 as ->; apply same_shape_refl].
    change s with (memRegs, s).2.
    eapply (forEachM_inv (fun x => same_shape st.2 x.2)); [|apply same_shape_refl|exact H1].
    intros e sa sb _ Hi He. eapply same_shape_trans; [exact Hi|].
    by eapply SSARenameBB_edge_shape. }
  eapply same_shape_trans; [exact S1|]. clear H1 S1.
  destruct (inst_callSite inst) as [cs|].
  - apply bind_Ok in H2 as (s1 & H2 & H3).
    assert (same_shape s s1) as S2.
    { destruct (hasRefMRSet (mrGen P) cs); [|injection H2 as <-; apply same_shape_refl].
      apply bind_Ok in H2 as (mus & H2 & [= <-]).
      apply same_shape_callMu. by eapply RenameMuSet_shape. }
    eapply same_shape_trans; [exact S2|].
    destruct (hasModMRSet (mrGen P) cs); [|injection H3 as <-; apply same_shape_refl].
    apply bind_Ok in H3 as ([[chis memRegs1] s2] & H3 & [= <-]). simpl.
    destruct (RenameChiSet_shape _ _ _ _ _ _ H3) as [E1 E2].
    pose proof (RenameChiSet_same_nodes _ _ _ _ _ _ H3) as Hn.
    eapply same_shape_trans; [by apply same_shape_nodes|].
    apply same_shape_callChi. destruct Hn as (_&_&_&->&_). done.
  - destruct (inst_isReturn inst); [|injection H2 as <-; apply same_shape_refl].
    apply bind_Ok in H2 as (mus & H2 & [= <-]). simpl.
    apply same_shape_retMu. by eapply RenameMuSet_shape.
Qed.

Lemma SSARenameBB_succ_shape bb succ s s' :
  SSARenameBB_succ P bb succ s = Ok s' -> same_shape s s'.
Proof.
  unfold SSARenameBB_succ. intros (pos & Hpos & H)%bind_Ok.
  destruct (hasPHISet succ s); [|injection H as <-; apply same_shape_refl].
  apply bind_Ok in H as (phis & H & [= <-]).
  apply same_shape_phi. by eapply RenamePhiOps_shape.
Qed.

Lemma SSARenameBB_pop_shape mr s s' : SSARenameBB_pop mr s = Ok s' -> same_shape s s'.
Proof.
  unfold SSARenameBB_pop. destruct (pop_back _) as [[stk v]|]; [|done].
  intros [= <-]. by repeat split.
Qed.

Lemma SSARenameBB_shape fuel : forall bb s s',
  SSARenameBB P fuel bb s = Ok s' -> same_shape s s'.
Proof.
  induction fuel as [|fuel IH]; intros bb s s'; [done|]. simpl.
  intros (st1 & H1 & H)%bind_Ok.
  apply bind_Ok in H as ([memRegs s2] & H2 & H).
  apply bind_Ok in H as (s3 & H3 & H).
  apply bind_Ok in H as (t & Ht & H).
  apply bind_Ok in H as (s4 & H4 & H5).
  assert (same_shape s s2) as S2.
  { change s2 with (memRegs, s2).2.
    eapply (forEachM_inv (fun x => same_shape s x.2));
      [|by eapply SSARenameBB_phiRes_shape|exact H2].
    intros inst sa sb _ Hi He. eapply same_shape_trans; [exact Hi|].
    by eapply SSARenameBB_inst_shape. }
  assert (same_shape s s3) as S3.
  { eapply (forEachM_inv (same_shape s)); [|exact S2|exact H3].
    intros succ sa sb _ Hi He. eapply same_shape_trans; [exact Hi|].
    by eapply SSARenameBB_succ_shape. }
  assert (same_shape s s4) as S4.
  { destruct (t !! bb) as [children|]; [|by injection H4 as <-].
    eapply (forEachM_inv (same_shape s)); [|exact S3|exact H4].
    intros c sa sb _ Hi He. eapply same_shape_trans; [exact Hi|]. by eapply IH. }
  eapply (forEachM_inv (same_shape s)); [|exact S4|exact H5].
  intros mr sa sb _ Hi He. eapply same_shape_trans; [exact Hi|].
  by eapply SSARenameBB_pop_shape.
Qed.

End RenameShape.

(** ** Statistics *)

Lemma u32_add_l a b : u32 (u32 a + b) = u32 (a + b).
Proof. unfold u32. by rewrite N.Div0.add_mod_idemp_l. Qed.

Lemma sumSetSizes_insert {A} (m : gmap N (list A)) i x :
  m !! i = None ->
  sumSetSizes (<[i := x]> m) = u32 (sumSetSizes m + N.of_nat (length x)).
Proof.
  intros Hi. unfold sumSetSizes.
  rewrite (map_fold_insert_L (fun _ set num => u32 (num + N.of_nat (length set)))); [done| |done].
  intros j1 j2 z1 z2 y _ _ _. rewrite !u32_add_l. f_equal. lia.
Qed.

Lemma nodeTotal_insert {A} (m : gmap N (list A)) i x :
  m !! i = None -> nodeTotal (<[i := x]> m) = (nodeTotal m + length x)%nat.
Proof.
  intros Hi. unfold nodeTotal.
  rewrite (map_fold_insert_L (fun _ set n => (n + length set)%nat)); [done| |done].
  intros j1 j2 z1 z2 y _ _ _. lia.
Qed.

Lemma sumSetSizes_total {A} (m : gmap N (list A)) :
  sumSetSizes m = u32 (N.of_nat (nodeTotal m)).
Proof.
  induction m as [|i x m Hi IH] using map_ind.
  - done.
  - rewrite sumSetSizes_insert, nodeTotal_insert, IH by done.
    rewrite u32_add_l. f_equal. lia.
Qed.

Lemma sum_list_with_bump (g : N -> nat) k0 n l :
  NoDup l ->
  sum_list_with (fun k => g k + if decide (k = k0) then n else 0)%nat l =
  (sum_list_with g l + if decide (k0 ∈ l) then n else 0)%nat.
Proof.
  induction 1 as [|k l Hk Hnd IH].
  - cbn [sum_list_with]. case_decide as Hin; [by apply elem_of_nil in Hin|done].
  - cbn [sum_list_with]. rewrite IH.
    destruct (decide (k0 ∈ k :: l)) as [Hin|Hin]; rewrite elem_of_cons in Hin;
      repeat case_decide; try lia; exfalso; naive_solver.
Qed.

Lemma nodeTotal_dom {A} (m : gmap N (list A)) : forall X : gset N,
  dom m ⊆ X ->
  nodeTotal m = sum_list_with (fun k => length (at_key [] m k)) (elements X).
Proof.
  induction m as [|i x m Hi IH] using map_ind; intros X HX.
  - unfold nodeTotal. rewrite map_fold_empty.
    induction (elements X) as [|k l IHl]; [done|]. simpl. by rewrite <- IHl.
  - rewrite nodeTotal_insert by done.
    assert (i ∈ X) as HiX by (apply HX; rewrite dom_insert_L; set_solver).
    assert (dom m ⊆ X ∖ {[i]}) as Hsub.
    { intros k Hk. apply elem_of_difference. split.
      - apply HX. rewrite dom_insert_L. set_solver.
      - intros ->%elem_of_singleton. by apply not_elem_of_dom in Hi. }
    rewrite (IH _ Hsub).
    assert (elements X ≡ₚ i :: elements (X ∖ {[i]})) as HP.
    { rewrite <- elements_union_singleton by set_solver.
      rewrite <- union_difference_singleton_L by done. done. }
    assert (forall f, sum_list_with f (elements X) =
                      sum_list_with f (i :: elements (X ∖ {[i]}))) as Hperm.
    { intros f. by rewrite HP. }
    rewrite Hperm. simpl. rewrite at_key_insert, decide_True by done.
    rewrite Nat.add_comm. f_equal.
    assert (forall l, i ∉ l ->
              sum_list_with (fun k => length (at_key [] m k)) l =
              sum_list_with (fun k => length (at_key [] (<[i := x]> m) k)) l) as Hext.
    { induction l as [|k l IHl]; [done|]. intros Hn. apply not_elem_of_cons in Hn as [Hne Hn].
      simpl. rewrite at_key_insert, decide_False by done. by rewrite IHl. }
    apply Hext. rewrite elem_of_elements. set_solver.
Qed.

(** The number of nodes depends on the sets under the keys only. *)
Lemma nodeTotal_bump {A B} (m : gmap N (list A)) (m' : gmap N (list B)) k0 n :
  (forall k, length (at_key [] m' k) =
     (length (at_key [] m k) + if decide (k = k0) then n else 0)%nat) ->
  nodeTotal m' = (nodeTotal m + n)%nat.
Proof.
  intros H. set (X := dom m ∪ dom m' ∪ {[k0]}).
  rewrite (nodeTotal_dom m' X), (nodeTotal_dom m X) by set_solver.
  pose proof (sum_list_with_bump (fun k => length (at_key [] m k)) k0 n (elements X)
                (NoDup_elements X)) as Hb.
  rewrite decide_True in Hb by (rewrite elem_of_elements; set_solver).
  rewrite <- Hb. clear Hb.
  induction (elements X) as [|k l IH]; [done|]. simpl. by rewrite IH, H.
Qed.

Lemma nodeTotal_ext {A B} (m : gmap N (list A)) (m' : gmap N (list B)) :
  (forall k, length (at_key [] m' k) = length (at_key [] m k)) ->
  nodeTotal m' = nodeTotal m.
Proof.
  intros H. rewrite (nodeTotal_bump m m' 0 0%nat); [lia|].
  intros k. rewrite H. case_decide; lia.
Qed.

Lemma sumSetSizes_bump {A} (m m' : gmap N (list A)) k0 n :
  (forall k, length (at_key [] m' k) =
     (length (at_key [] m k) + if decide (k = k0) then n else 0)%nat) ->
  sumSetSizes m' = u32 (sumSetSizes m + N.of_nat n).
Proof.
  intros H. rewrite !sumSetSizes_total, (nodeTotal_bump m m' k0 n H), u32_add_l.
  f_equal. lia.
Qed.

Lemma sumSetSizes_shape {A B} (f : A -> B) (m m' : gmap N (list A)) :
  (forall k, f <$> at_key [] m' k = f <$> at_key [] m k) ->
  sumSetSizes m' = sumSetSizes m.
Proof.
  intros H. rewrite !sumSetSizes_total. f_equal. f_equal. apply nodeTotal_ext.
  intros k. rewrite <- (length_fmap f (at_key [] m' k)), H. apply length_fmap.
Qed.

(** ** Substrings *)

Lemma substring_prefix (p s : string) :
  substring 0 (String.length p) s = p -> exists post, s = String.append p post.
Proof.
  revert s. induction p as [|c p IH]; intros s; simpl.
  - intros _. by exists s.
  - destruct s as [|c' s]; [done|]. intros [= -> H]. destruct (IH s H) as [post ->].
    by exists post.
Qed.

Lemma substring_occurs (p : string) m : forall s,
  substring m (String.length p) s = p ->
  exists pre post, s = String.append pre (String.append p post).
Proof.
  induction m as [|m IH]; intros s H.
  - destruct (substring_prefix p s H) as [post ->]. by exists ""%string, post.
  - destruct s as [|c s].
    + exists ""%string, ""%string. simpl in *. destruct (String.length p); simpl in H; by subst.
    + simpl in H. destruct (IH s H) as (pre & post & ->). by exists (String c pre), post.
Qed.

Lemma substring_append_0 (p post : string) :
  substring 0 (String.length p) (String.append p post) = p.
Proof.
  induction p as [|c p IHp]; simpl.
  - by destruct post.
  - by rewrite IHp.
Qed.

Lemma substring_append (pre p post : string) :
  substring (String.length pre) (String.length p)
    (String.append pre (String.append p post)) = p.
Proof.
  induction pre as [|c pre IH].
  - apply (substring_append_0 p post).
  - exact IH.
Qed.

(** [find] succeeds exactly on the names in which the pattern occurs. *)
Lemma string_find_occurs (funcName pat : string) :
  pat <> ""%string ->
  (is_Some (string_find funcName pat) <->
   exists pre post, funcName = String.append pre (String.append pat post)).
Proof.
  intros Hne. unfold string_find. split.
  - intros [m Hm]. apply index_correct1 in Hm. by eapply substring_occurs.
  - intros (pre & post & ->).
    destruct (index 0 pat (String.append pre (String.append pat post))) as [m|] eqn:E;
      [by eexists|].
    exfalso. eapply (index_correct3 0 (String.length pre)); [exact E|done|lia|].
    apply substring_append.
Qed.

Lemma isMemAccessFunction_from_spec names funcName :
  (forall pat, pat ∈ names -> pat <> ""%string) ->
  (isMemAccessFunction_from names funcName = true <->
   exists pat pre post,
     pat ∈ names /\ funcName = String.append pre (String.append pat post)).
Proof.
  induction names as [|pat names IH]; intros Hne; simpl.
  - split; [done|]. intros (pat & _ & _ & H & _). by apply elem_of_nil in H.
  - pose proof (string_find_occurs funcName pat (Hne pat ltac:(by left))) as Hf.
    destruct (string_find funcName pat) as [m|].
    + split; [|done]. intros _. destruct (proj1 Hf ltac:(by eexists)) as (pre & post & ->).
      exists pat, pre, post. split; [by left|done].
    + rewrite IH by (intros; apply Hne; by right). split.
      * intros (p & pre & post & Hin & ->). exists p, pre, post. split; [by right|done].
      * intros (p & pre & post & Hin & ->). apply elem_of_cons in Hin as [->|Hin].
        -- destruct (proj2 Hf) as [? ?]; [by exists pre, post|done].
        -- by exists p, pre, post.
Qed.

(** ** Used regions of a build *)

Section UsedRegs.
Variable P : Program.

Lemma usedRegs_after_createMUCHI fn f t s0 s1 :
  createMUCHI P fn (setCurrentDFDT f t s0) = Ok s1 -> usedRegs s1 = funRegs P fn.
Proof.
  intros H. destruct (createMUCHI_Ok_dt _ _ _ _ H) as [tree Hdt].
  destruct (createMUCHI_adds P fn _ tree Hdt) as (s1' & E & Hf).
  rewrite E in H. injection H as ->.
  apply set_eq. intros mr. specialize (Hf (FUsed mr)). simpl in Hf.
  rewrite Hf, funRegs_adds. split; [|by right]. intros [Hin|?]; [|done].
  by apply elem_of_empty in Hin.
Qed.

End UsedRegs.

(** ** Every node that the walk visits gets its versions *)

Lemma Forall2_keep_refl {A} (done : A -> Prop) l :
  Forall2 (fun a a' => done a -> done a') l l.
Proof. induction l; constructor; auto. Qed.

Lemma Forall2_keep_trans {A} (done : A -> Prop) l1 : forall l2 l3,
  Forall2 (fun a a' => done a -> done a') l1 l2 ->
  Forall2 (fun a a' => done a -> done a') l2 l3 ->
  Forall2 (fun a a' => done a -> done a') l1 l3.
Proof.
  induction l1 as [|a l1 IH]; intros l2 l3 H1 H2.
  - apply Forall2_nil_inv_l in H1 as ->. apply Forall2_nil_inv_l in H2 as ->. constructor.
  - apply Forall2_cons_inv_l in H1 as (b & l2' & Hab & H1 & ->).
    apply Forall2_cons_inv_l in H2 as (c & l3' & Hbc & H2 & ->).
    constructor; [auto|]. by eapply IH.
Qed.

Lemma Forall2_keep_all {A} (done : A -> Prop) l : forall l',
  length l' = length l -> Forall done l' ->
  Forall2 (fun a a' => done a -> done a') l l'.
Proof.
  induction l as [|a l IH]; intros [|a' l'] Hlen Hall; simpl in Hlen; try lia.
  - constructor.
  - apply Forall_cons in Hall as [? ?]. constructor; [auto|]. apply IH; [lia|done].
Qed.

Lemma Forall2_keep_done {A} (done : A -> Prop) l l' :
  Forall2 (fun a a' => done a -> done a') l l' -> Forall done l -> Forall done l'.
Proof.
  induction 1 as [|a a' l l' Haa _ IH]; [done|].
  intros [? ?]%Forall_cons. constructor; auto.
Qed.

Lemma keeps_refl {A} (done : A -> Prop) m : keeps done m m.
Proof. intros k. apply Forall2_keep_refl. Qed.

Lemma keeps_trans {A} (done : A -> Prop) m1 m2 m3 :
  keeps done m1 m2 -> keeps done m2 m3 -> keeps done m1 m3.
Proof. intros H1 H2 k. eapply Forall2_keep_trans; [apply H1|apply H2]. Qed.

Lemma keeps_insert {A} (done : A -> Prop) (m : gmap N (list A)) k l' :
  Forall2 (fun a a' => done a -> done a') (at_key [] m k) l' ->
  keeps done m (<[k := l']> m).
Proof.
  intros H k'. rewrite at_key_insert. case_decide; [by subst|apply Forall2_keep_refl].
Qed.

Lemma keeps_done {A} (done : A -> Prop) (m m' : gmap N (list A)) k :
  keeps done m m' -> Forall done (at_key [] m k) -> Forall done (at_key [] m' k).
Proof. intros H. apply Forall2_keep_done, H. Qed.

Lemma versions_kept_refl s : versions_kept s s.
Proof. repeat split; apply keeps_refl. Qed.

Lemma versions_kept_trans s1 s2 s3 :
  versions_kept s1 s2 -> versions_kept s2 s3 -> versions_kept s1 s3.
Proof.
  intros (A1&B1&C1&D1&E1&F1) (A2&B2&C2&D2&E2&F2).
  repeat split; by eapply keeps_trans.
Qed.

Lemma versions_kept_nodes s s' : same_nodes s s' -> versions_kept s s'.
Proof.
  intros (A&B&C&D&E&F). unfold versions_kept. rewrite A, B, C, D, E, F.
  repeat split; apply keeps_refl.
Qed.

Lemma versions_kept_load s k mus :
  Forall2 (fun a a' => mu_done a -> mu_done a') (at_key [] (load2MuSetMap s) k) mus ->
  versions_kept s (upd_load2MuSetMap (<[k := mus]>) s).
Proof. intros H. repeat split; simpl; try apply keeps_refl. by apply keeps_insert. Qed.
Lemma versions_kept_store s k chis :
  Forall2 (fun a a' => chi_done a -> chi_done a') (at_key [] (store2ChiSetMap s) k) chis ->
  versions_kept s (upd_store2ChiSetMap (<[k := chis]>) s).
Proof. intros H. repeat split; simpl; try apply keeps_refl. by apply keeps_insert. Qed.
Lemma versions_kept_callMu s k mus :
  Forall2 (fun a a' => mu_done a -> mu_done a') (at_key [] (callsiteToMuSetMap s) k) mus ->
  versions_kept s (upd_callsiteToMuSetMap (<[k := mus]>) s).
Proof. intros H. repeat split; simpl; try apply keeps_refl. by apply keeps_insert. Qed.
Lemma versions_kept_callChi s k chis :
  Forall2 (fun a a' => chi_done a -> chi_done a') (at_key [] (callsiteToChiSetMap s) k) chis ->
  versions_kept s (upd_callsiteToChiSetMap (<[k := chis]>) s).
Proof. intros H. repeat split; simpl; try apply keeps_refl. by apply keeps_insert. Qed.
Lemma versions_kept_retMu s k mus :
  Forall2 (fun a a' => mu_done a -> mu_done a') (at_key [] (funToReturnMuSetMap s) k) mus ->
  versions_kept s (upd_funToReturnMuSetMap (<[k := mus]>) s).
Proof. intros H. repeat split; simpl; try apply keeps_refl. by apply keeps_insert. Qed.
Lemma versions_kept_phi s k phis :
  Forall2 (fun a a' => phi_done a -> phi_done a') (at_key [] (bb2PhiSetMap s) k) phis ->
  versions_kept s (upd_bb2PhiSetMap (<[k := phis]>) s).
Proof. intros H. repeat split; simpl; try apply keeps_refl. by apply keeps_insert. Qed.

Lemma RenameMuSet_done muSet s : forall mus,
  RenameMuSet muSet s = Ok mus -> length mus = length muSet /\ Forall mu_done mus.
Proof.
  induction muSet as [|mu rest IH]; intros mus; simpl.
  - by intros [= <-].
  - intros (v & _ & H)%bind_Ok. apply bind_Ok in H as (rest' & Hrest & [= <-]).
    destruct (IH _ Hrest) as [Hl Hd]. split; [simpl; by rewrite Hl|].
    constructor; [by eexists|done].
Qed.

Lemma RenameChiSet_done chiSet : forall memRegs s chis memRegs' s',
  RenameChiSet chiSet memRegs s = Ok (chis, memRegs', s') ->
  length chis = length chiSet /\ Forall chi_done chis.
Proof.
  induction chiSet as [|chi rest IH]; intros memRegs s chis' memRegs' s'; simpl.
  - by intros [= <- <- <-].
  - intros (opv & Hop & H)%bind_Ok. apply bind_Ok in H as ([resv s1] & Hnew & H).
    apply bind_Ok in H as ([[rest' memRegs1] s2] & Hrest & H). injection H as <- <- <-.
    destruct (IH _ _ _ _ _ Hrest) as [Hl Hd]. split; [simpl; by rewrite Hl|].
    constructor; [|done]. split; by eexists.
Qed.

Lemma RenamePhiRes_done phiSet : forall memRegs s phis memRegs' s',
  RenamePhiRes phiSet memRegs s = Ok (phis, memRegs', s') ->
  length phis = length phiSet /\ Forall phi_done phis.
Proof.
  induction phiSet as [|phi rest IH]; intros memRegs s phis' memRegs' s'; simpl.
  - by intros [= <- <- <-].
  - intros ([resv s1] & Hnew & H)%bind_Ok.
    apply bind_Ok in H as ([[rest' memRegs1] s2] & Hrest & H). injection H as <- <- <-.
    destruct (IH _ _ _ _ _ Hrest) as [Hl Hd]. split; [simpl; by rewrite Hl|].
    constructor; [by eexists|done].
Qed.

Lemma RenamePhiOps_keep phiSet pos s : forall phis,
  RenamePhiOps phiSet pos s = Ok phis ->
  Forall2 (fun a a' => phi_done a -> phi_done a') phiSet phis.
Proof.
  intros phis H. apply RenamePhiOps_spec in H.
  eapply Forall2_impl; [exact H|]. intros phi phi' (_ & _ & Hr & _).
  unfold phi_done. by rewrite Hr.
Qed.

Lemma forEachM_split {A S} (body : A -> S -> Result S) l1 a l2 s s' :
  forEachM body (l1 ++ a :: l2) s = Ok s' ->
  exists sa sb, forEachM body l1 s = Ok sa /\ body a sa = Ok sb /\
    forEachM body l2 sb = Ok s'.
Proof.
  rewrite forEachM_app. intros (sa & H1 & H2)%bind_Ok. simpl in H2.
  apply bind_Ok in H2 as (sb & H2 & H3). eauto.
Qed.

Section RenameDone.
Variable P : Program.

Lemma SSARenameBB_phiRes_kept bb s st :
  SSARenameBB_phiRes bb s = Ok st ->
  versions_kept s st.2 /\ Forall phi_done (at_key [] (bb2PhiSetMap st.2) bb).
Proof.
  unfold SSARenameBB_phiRes. destruct (hasPHISet bb s) eqn:Eh.
  - intros ([[phis memRegs] s1] & H & [= <-])%bind_Ok. simpl.
    destruct (RenamePhiRes_done _ _ _ _ _ _ H) as [Hl Hd].
    pose proof (RenamePhiRes_same_nodes _ _ _ _ _ _ H) as Hn.
    split.
    + eapply versions_kept_trans; [by apply versions_kept_nodes|].
      apply versions_kept_phi. apply Forall2_keep_all; [|done].
      destruct Hn as (_&_&_&_&_&->). done.
    + by rewrite at_key_insert, decide_True.
  - intros [= <-]. split; [apply versions_kept_refl|].
    simpl. by rewrite (hasPHISet_false _ _ Eh).
Qed.

Lemma SSARenameBB_edge_kept e st st' :
  SSARenameBB_edge e st = Ok st' ->
  versions_kept st.2 st'.2 /\
  match e with
  | LoadEdge load => Forall mu_done (at_key [] (load2MuSetMap st'.2) load)
  | StoreEdge store => Forall chi_done (at_key [] (store2ChiSetMap st'.2) store)
  | OtherEdge => True
  end.
Proof.
  destruct st as [memRegs s]. destruct e as [load|store|]; simpl.
  - intros (mus & H & [= <-])%bind_Ok. simpl.
    destruct (RenameMuSet_done _ _ _ H) as [Hl Hd]. split.
    + apply versions_kept_load. by apply Forall2_keep_all.
    + by rewrite at_key_insert, decide_True.
  - intros ([[chis memRegs1] s1] & H & [= <-])%bind_Ok. simpl.
    destruct (RenameChiSet_done _ _ _ _ _ _ H) as [Hl Hd].
    pose proof (RenameChiSet_same_nodes _ _ _ _ _ _ H) as Hn. split.
    + eapply versions_kept_trans; [by apply versions_kept_nodes|].
      apply versions_kept_store. apply Forall2_keep_all; [|done].
      destruct Hn as (_&->&_). done.
    + by rewrite at_key_insert, decide_True.
  - intros [= <-]. split; [apply versions_kept_refl|done].
Qed.

Lemma SSARenameBB_edges_kept l : forall st st',
  forEachM SSARenameBB_edge l st = Ok st' -> versions_kept st.2 st'.2.
Proof.
  intros st st' H.
  eapply (forEachM_inv (fun x => versions_kept st.2 x.2));
    [|apply versions_kept_refl|exact H].
  intros e sa sb _ Hi He. eapply versions_kept_trans; [exact Hi|].
  by eapply SSARenameBB_edge_kept.
Qed.

Lemma SSARenameBB_inst_kept bb inst st st' :
  SSARenameBB_inst P bb inst st = Ok st' ->
  versions_kept st.2 st'.2 /\ inst_done P bb inst st'.2.
Proof.
  unfold SSARenameBB_inst. intros ([memRegs s] & H1 & H2)%bind_Ok.
  assert (versions_kept st.2 s /\
          (inst_hasPAGEdgeList inst = true ->
             (forall load, LoadEdge load ∈ inst_pagEdges inst ->
                Forall mu_done (at_key [] (load2MuSetMap s) load)) /\
             (forall store, StoreEdge store ∈ inst_pagEdges inst ->
                Forall chi_done (at_key [] (store2ChiSetMap s) store)))) as [K1 D1].
  { destruct (inst_hasPAGEdgeList inst); [|injection H1 as ->; split;
      [apply versions_kept_refl|done]].
    split; [by apply SSARenameBB_edges_kept in H1|]. intros _. split.
    - intros load Hin. apply list_elem_of_split in Hin as (l1 & l2 & Hl).
      rewrite Hl in H1. apply forEachM_split in H1 as (sa & sb & _ & Hb & Hrest).
      destruct (SSARenameBB_edge_kept _ _ _ Hb) as [_ Hd].
      apply SSARenameBB_edges_kept in Hrest as (Hk&_). by eapply keeps_done.
    - intros store Hin. apply list_elem_of_split in Hin as (l1 & l2 & Hl).
      rewrite Hl in H1. apply forEachM_split in H1 as (sa & sb & _ & Hb & Hrest).
      destruct (SSARenameBB_edge_kept _ _ _ Hb) as [_ Hd].
      apply SSARenameBB_edges_kept in Hrest as (_&Hk&_). by eapply keeps_done. }
  clear H1. unfold inst_done. destruct (inst_callSite inst) as [cs|].
  - apply bind_Ok in H2 as (s1 & H2 & H3).
    assert (versions_kept s s1 /\
            (hasRefMRSet (mrGen P) cs = true ->
               Forall mu_done (at_key [] (callsiteToMuSetMap s1) cs))) as [K2 D2].
    { destruct (hasRefMRSet (mrGen P) cs); [|injection H2 as <-; split;
        [apply versions_kept_refl|done]].
      apply bind_Ok in H2 as (mus & H2 & [= <-]).
      destruct (RenameMuSet_done _ _ _ H2) as [Hl Hd]. split.
      - apply versions_kept_callMu. by apply Forall2_keep_all.
      - intros _. simpl. by rewrite at_key_insert, decide_True. }
    assert (versions_kept s1 st'.2 /\
            (hasModMRSet (mrGen P) cs = true ->
               Forall chi_done (at_key [] (callsiteToChiSetMap st'.2) cs))) as [K3 D3].
    { destruct (hasModMRSet (mrGen P) cs); [|injection H3 as <-; split;
        [apply versions_kept_refl|done]].
      apply bind_Ok in H3 as ([[chis memRegs1] s2] & H3 & [= <-]). simpl.
      destruct (RenameChiSet_done _ _ _ _ _ _ H3) as [Hl Hd].
      pose proof (RenameChiSet_same_nodes _ _ _ _ _ _ H3) as Hn. split.
      - eapply versions_kept_trans; [by apply versions_kept_nodes|].
        apply versions_kept_callChi. apply Forall2_keep_all; [|done].
        destruct Hn as (_&_&_&->&_). done.
      - intros _. by rewrite at_key_insert, decide_True. }
    assert (versions_kept s st'.2) as K23 by (by eapply versions_kept_trans).
    split; [by eapply versions_kept_trans|]. split; [|split; [|done]].
    + intros Hp. destruct (D1 Hp) as [Dl Ds]. split.
      * intros load Hin. destruct K23 as (Hk&_). eapply keeps_done; [exact Hk|by apply Dl].
      * intros store Hin. destruct K23 as (_&Hk&_). eapply keeps_done; [exact Hk|by apply Ds].
    + intros cs' [= <-]. split; [|done].
      intros Hr. destruct K3 as (_&_&Hk&_). eapply keeps_done; [exact Hk|by apply D2].
  - assert (versions_kept s st'.2 /\
            (inst_isReturn inst = true ->
               Forall mu_done (at_key [] (funToReturnMuSetMap st'.2)
                                 (bb_parent (getBB P bb))))) as [K2 D2].
    { destruct (inst_isReturn inst); [|injection H2 as <-; split;
        [apply versions_kept_refl|done]].
      apply bind_Ok in H2 as (mus & H2 & [= <-]). simpl.
      destruct (RenameMuSet_done _ _ _ H2) as [Hl Hd]. split.
      - apply versions_kept_retMu. by apply Forall2_keep_all.
      - intros _. by rewrite at_key_insert, decide_True. }
    split; [by eapply versions_kept_trans|]. split; [|split; [done|]].
    + intros Hp. destruct (D1 Hp) as [Dl Ds]. split.
      * intros load Hin. destruct K2 as (Hk&_). eapply keeps_done; [exact Hk|by apply Dl].
      * intros store Hin. destruct K2 as (_&Hk&_). eapply keeps_done; [exact Hk|by apply Ds].
    + intros _. done.
Qed.

Lemma inst_done_kept bb inst s s' :
  versions_kept s s' -> inst_done P bb inst s -> inst_done P bb inst s'.
Proof.
  intros (Kl&Ks&Kcm&Kcc&Kr&_) (D1 & D2 & D3). split; [|split].
  - intros Hp. destruct (D1 Hp) as [Dl Ds]. split.
    + intros load Hin. eapply keeps_done; [exact Kl|by apply Dl].
    + intros store Hin. eapply keeps_done; [exact Ks|by apply Ds].
  - intros cs Hcs. destruct (D2 cs Hcs) as [Dm Dc]. split.
    + intros Hr. eapply keeps_done; [exact Kcm|by apply Dm].
    + intros Hm. eapply keeps_done; [exact Kcc|by apply Dc].
  - intros Hn Hr. eapply keeps_done; [exact Kr|by apply D3].
Qed.

Lemma SSARenameBB_insts_kept bb l : forall st st',
  forEachM (SSARenameBB_inst P bb) l st = Ok st' -> versions_kept st.2 st'.2.
Proof.
  intros st st' H.
  eapply (forEachM_inv (fun x => versions_kept st.2 x.2));
    [|apply versions_kept_refl|exact H].
  intros e sa sb _ Hi He. eapply versions_kept_trans; [exact Hi|].
  by eapply SSARenameBB_inst_kept.
Qed.

Lemma SSARenameBB_succ_kept bb succ s s' :
  SSARenameBB_succ P bb succ s = Ok s' -> versions_kept s s'.
Proof.
  unfold SSARenameBB_succ. intros (pos & Hpos & H)%bind_Ok.
  destruct (hasPHISet succ s); [|injection H as <-; apply versions_kept_refl].
  apply bind_Ok in H as (phis & H & [= <-]).
  apply versions_kept_phi. by eapply RenamePhiOps_keep.
Qed.

Lemma SSARenameBB_pop_kept mr s s' : SSARenameBB_pop mr s = Ok s' -> versions_kept s s'.
Proof.
  unfold SSARenameBB_pop. destruct (pop_back _) as [[stk v]|]; [|done].
  intros [= <-]. repeat split; apply keeps_refl.
Qed.

(** A block that has been renamed has its versions, and keeps them. *)
Lemma SSARenameBB_kept fuel : forall bb s s',
  SSARenameBB P fuel bb s = Ok s' -> versions_kept s s' /\ block_done P bb s'.
Proof.
  induction fuel as [|fuel IH]; intros bb s s'; [done|]. simpl.
  intros (st1 & H1 & H)%bind_Ok.
  apply bind_Ok in H as ([memRegs s2] & H2 & H).
  apply bind_Ok in H as (s3 & H3 & H).
  apply bind_Ok in H as (t & Ht & H).
  apply bind_Ok in H as (s4 & H4 & H5).
  destruct (SSARenameBB_phiRes_kept _ _ _ H1) as [K1 D1].
  pose proof (SSARenameBB_insts_kept _ _ _ _ H2) as K2. simpl in K2.
  assert (versions_kept s2 s3) as K3.
  { eapply (forEachM_inv (versions_kept s2)); [|apply versions_kept_refl|exact H3].
    intros succ sa sb _ Hi He. eapply versions_kept_trans; [exact Hi|].
    by eapply SSARenameBB_succ_kept. }
  assert (versions_kept s3 s4) as K4.
  { destruct (t !! bb) as [children|]; [|injection H4 as <-; apply versions_kept_refl].
    eapply (forEachM_inv (versions_kept s3)); [|apply versions_kept_refl|exact H4].
    intros c sa sb _ Hi He. eapply versions_kept_trans; [exact Hi|]. by eapply IH. }
  assert (versions_kept s4 s') as K5.
  { eapply (forEachM_inv (versions_kept s4)); [|apply versions_kept_refl|exact H5].
    intros mr sa sb _ Hi He. eapply versions_kept_trans; [exact Hi|].
    by eapply SSARenameBB_pop_kept. }
  assert (versions_kept s2 s') as K25.
  { eapply versions_kept_trans; [exact K3|]. by eapply versions_kept_trans. }
  split.
  { eapply versions_kept_trans; [exact K1|]. by eapply versions_kept_trans. }
  split.
  - assert (versions_kept st1.2 s') as (_&_&_&_&_&Hk) by (by eapply versions_kept_trans).
    by eapply keeps_done.
  - intros inst Hin. apply list_elem_of_split in Hin as (l1 & l2 & Hl).
    rewrite Hl in H2. apply forEachM_split in H2 as (sa & sb & _ & Hb & Hrest).
    destruct (SSARenameBB_inst_kept _ _ _ _ Hb) as [_ Hd].
    apply SSARenameBB_insts_kept in Hrest. simpl in Hrest.
    eapply inst_done_kept; [|exact Hd]. by eapply versions_kept_trans.
Qed.

Lemma block_done_kept bb s s' :
  versions_kept s s' -> block_done P bb s -> block_done P bb s'.
Proof.
  intros K [Dp Di]. split.
  - destruct K as (_&_&_&_&_&Hk). by eapply keeps_done.
  - intros inst Hin. eapply inst_done_kept; [exact K|by apply Di].
Qed.

(** Every block that the walk visits is renamed. *)
Lemma SSARenameBB_visits tree b0 b :
  visits tree b0 b ->
  forall fuel s s', SSARenameBB P fuel b0 s = Ok s' -> dt s = Some tree ->
    block_done P b s'.
Proof.
  induction 1 as [b|b0 children c d Hch Hc Hv IH]; intros fuel s s' H Hdt.
  - by apply SSARenameBB_kept in H as [_ ?].
  - destruct fuel as [|fuel]; [done|]. simpl in H.
    apply bind_Ok in H as (st1 & H1 & H).
    apply bind_Ok in H as ([memRegs s2] & H2 & H).
    apply bind_Ok in H as (s3 & H3 & H).
    apply bind_Ok in H as (t & Ht & H).
    apply bind_Ok in H as (s4 & H4 & H5).
    assert (ren_inv s (memRegs, s3)) as I3.
    { eapply (forEachM_inv (fun x => ren_inv s (memRegs, x))); [| |exact H3].
      - intros succ sa sb _ Hi He. by eapply SSARenameBB_succ_inv.
      - eapply (forEachM_inv (ren_inv s)); [|by eapply SSARenameBB_phiRes_inv|exact H2].
        intros inst sa sb _ Hi He. by eapply SSARenameBB_inst_inv. }
    assert (dt s3 = Some tree) as Hdt3.
    { destruct I3 as [_ _ (_&_&_&_&E&_)]. simpl in E. by rewrite E. }
    unfold getDT in Ht. rewrite Hdt3 in Ht. injection Ht as <-. rewrite Hch in H4.
    apply list_elem_of_split in Hc as (l1 & l2 & ->).
    apply forEachM_split in H4 as (sa & sb & Ha & Hb & Hrest).
    assert (dt sa = Some tree) as Hdta.
    { eapply (forEachM_inv (fun x => dt x = Some tree)); [|exact Hdt3|exact Ha].
      intros c' sx sy _ Hi He. apply SSARenameBB_balanced in He as (_&_&(_&_&_&_&->&_)).
      done. }
    pose proof (IH _ _ _ Hb Hdta) as Hd.
    eapply block_done_kept; [|exact Hd].
    eapply versions_kept_trans.
    + eapply (forEachM_inv (versions_kept sb)); [|apply versions_kept_refl|exact Hrest].
      intros c' sx sy _ Hi He. eapply versions_kept_trans; [exact Hi|].
      by apply SSARenameBB_kept in He as [? _].
    + eapply (forEachM_inv (versions_kept s4)); [|apply versions_kept_refl|exact H5].
      intros mr sx sy _ Hi He. eapply versions_kept_trans; [exact Hi|].
      by eapply SSARenameBB_pop_kept.
Qed.

End RenameDone.

(** ** A build leaves the nodes of other code alone *)

Section Untouched.
Variable P : Program.
Variables load store cs g : N.

Local Abbreviation untouched := (nodes_untouched load store cs g).

Lemma untouched_refl s : untouched s s.
Proof. by repeat split. Qed.

Lemma untouched_trans s1 s2 s3 : untouched s1 s2 -> untouched s2 s3 -> untouched s1 s3.
Proof.
  intros (A1&B1&C1&D1&E1) (A2&B2&C2&D2&E2). repeat split; congruence.
Qed.

Lemma untouched_nodes s s' : same_nodes s s' -> untouched s s'.
Proof. intros (A&B&C&D&E&_). repeat split; congruence. Qed.

Lemma collectRegUses_untouched mr s : untouched s (collectRegUses mr s).
Proof. unfold collectRegUses. case_decide; by repeat split. Qed.

Lemma AddLoadMU_untouched bb load' mr s :
  load' <> load -> untouched s (AddLoadMU bb load' mr s).
Proof.
  intros Hne. unfold AddLoadMU.
  eapply untouched_trans; [|apply collectRegUses_untouched].
  repeat split; simpl. by rewrite lookup_insert_ne.
Qed.

Lemma AddStoreCHI_untouched bb store' mr s :
  store' <> store -> untouched s (AddStoreCHI bb store' mr s).
Proof.
  intros Hne. unfold AddStoreCHI.
  eapply untouched_trans; [|by repeat split].
  eapply untouched_trans; [|apply collectRegUses_untouched].
  repeat split; simpl. by rewrite lookup_insert_ne.
Qed.

Lemma AddCallSiteMU_untouched cs' mr s :
  cs' <> cs -> untouched s (AddCallSiteMU cs' mr s).
Proof.
  intros Hne. unfold AddCallSiteMU.
  eapply untouched_trans; [|apply collectRegUses_untouched].
  repeat split; simpl. by rewrite lookup_insert_ne.
Qed.

Lemma AddCallSiteCHI_untouched cs' mr s :
  cs' <> cs -> untouched s (AddCallSiteCHI P cs' mr s).
Proof.
  intros Hne. unfold AddCallSiteCHI.
  eapply untouched_trans; [|by repeat split].
  eapply untouched_trans; [|apply collectRegUses_untouched].
  repeat split; simpl. by rewrite lookup_insert_ne.
Qed.

Lemma forEach_untouched {A} (body : A -> MemSSA -> MemSSA) l s :
  (forall a s, a ∈ l -> untouched s (body a s)) -> untouched s (forEach body l s).
Proof.
  intros Hb. apply (forEach_inv (untouched s) body l); [|apply untouched_refl].
  intros a s' Ha Hi. eapply untouched_trans; [exact Hi|by apply Hb].
Qed.

Lemma createMUCHI_inst_untouched bb inst s :
  ((inst_hasPAGEdgeList inst = true ->
      (LoadEdge load ∉ inst_pagEdges inst) /\
      (StoreEdge store ∉ inst_pagEdges inst)) /\
   inst_callSite inst <> Some cs) ->
  untouched s (createMUCHI_inst P bb inst s).
Proof.
  intros [Hp Hc]. unfold createMUCHI_inst.
  set (s1 := if inst_hasPAGEdgeList inst then _ else s).
  assert (untouched s s1) as U1.
  { unfold s1. destruct (inst_hasPAGEdgeList inst); [|apply untouched_refl].
    destruct (Hp eq_refl) as [Hl Hs]. apply forEach_untouched.
    intros e s' He. destruct e as [load'|store'|]; simpl.
    - apply forEach_untouched. intros mr s'' _. apply AddLoadMU_untouched.
      intros ->. done.
    - apply forEach_untouched. intros mr s'' _. apply AddStoreCHI_untouched.
      intros ->. done.
    - apply untouched_refl. }
  eapply untouched_trans; [exact U1|]. clearbody s1.
  destruct (inst_callSite inst) as [cs'|]; [|apply untouched_refl].
  assert (cs' <> cs) as Hne by (intros ->; done).
  set (s2 := if hasRefMRSet (mrGen P) cs' then _ else s1).
  assert (untouched s1 s2) as U2.
  { unfold s2. destruct (hasRefMRSet (mrGen P) cs'); [|apply untouched_refl].
    apply forEach_untouched. intros mr s'' _. by apply AddCallSiteMU_untouched. }
  eapply untouched_trans; [exact U2|]. clearbody s2.
  destruct (hasModMRSet (mrGen P) cs'); [|apply untouched_refl].
  apply forEach_untouched. intros mr s'' _. by apply AddCallSiteCHI_untouched.
Qed.

Lemma createMUCHI_untouched fn s s' :
  fun_id fn <> g ->
  (forall b, b ∈ fun_reachableBBs fn -> block_avoids P load store cs g b) ->
  createMUCHI P fn s = Ok s' -> untouched s s'.
Proof.
  intros Hg Hav H. destruct (createMUCHI_Ok_dt _ _ _ _ H) as [tree Hdt].
  rewrite (createMUCHI_unfold P fn s tree Hdt) in H.
  set (sm := forEach (createMUCHI_bb P) (fun_reachableBBs fn) s) in *.
  assert (untouched s sm) as U1.
  { apply forEach_untouched. intros bb s1 Hbb. unfold createMUCHI_bb.
    eapply untouched_trans; [|apply forEach_untouched].
    - by repeat split.
    - intros inst s2 Hinst. apply createMUCHI_inst_untouched.
      destruct (Hav bb Hbb) as [_ Hi]. by apply Hi. }
  eapply untouched_trans; [exact U1|].
  destruct (createMUCHI_entries_spec fn (elements (usedRegs sm)) sm)
    as (s1' & E' & _ & _ & _ & _ & Hother & _ & _ & _ & _ & _ & _ & Hl & Hs & Hcm & Hcc & _).
  rewrite E' in H. injection H as ->.
  destruct (Hother g ltac:(done)) as [_ Hr].
  repeat split; congruence.
Qed.

Lemma SSARenameBB_edge_untouched e st st' :
  e <> LoadEdge load -> e <> StoreEdge store ->
  SSARenameBB_edge e st = Ok st' -> untouched st.2 st'.2.
Proof.
  intros Hl Hs. destruct st as [memRegs s]. destruct e as [load'|store'|]; simpl.
  - intros (mus & H & [= <-])%bind_Ok. repeat split; simpl.
    rewrite lookup_insert_ne; [done|]. intros ->. done.
  - intros ([[chis memRegs1] s1] & H & [= <-])%bind_Ok. simpl.
    pose proof (RenameChiSet_same_nodes _ _ _ _ _ _ H) as Hn.
    eapply untouched_trans; [by apply untouched_nodes|].
    repeat split; simpl. rewrite lookup_insert_ne; [done|]. intros ->. done.
  - intros [= <-]. apply untouched_refl.
Qed.

Lemma SSARenameBB_inst_untouched bb inst st st' :
  bb_parent (getBB P bb) <> g ->
  ((inst_hasPAGEdgeList inst = true ->
      (LoadEdge load ∉ inst_pagEdges inst) /\
      (StoreEdge store ∉ inst_pagEdges inst)) /\
   inst_callSite inst <> Some cs) ->
  SSARenameBB_inst P bb inst st = Ok st' -> untouched st.2 st'.2.
Proof.
  intros Hg [Hp Hc]. unfold SSARenameBB_inst. intros ([memRegs s] & H1 & H2)%bind_Ok.
  assert (untouched st.2 s) as U1.
  { destruct (inst_hasPAGEdgeList inst); [|injection H1 as ->; apply untouched_refl].
    destruct (Hp eq_refl) as [Hl Hs].
    change s with (memRegs, s).2.
    eapply (forEachM_inv (fun x => untouched st.2 x.2)); [|apply untouched_refl|exact H1].
    intros e sa sb He Hi Hb. eapply untouched_trans; [exact Hi|].
    eapply SSARenameBB_edge_untouched; [| |exact Hb]; intros ->; done. }
  eapply untouched_trans; [exact U1|]. clear H1 U1.
  destruct (inst_callSite inst) as [cs'|].
  - assert (cs' <> cs) as Hne by (intros ->; done).
    apply bind_Ok in H2 as (s1 & H2 & H3).
    assert (untouched s s1) as U2.
    { destruct (hasRefMRSet (mrGen P) cs'); [|injection H2 as <-; apply untouched_refl].
      apply bind_Ok in H2 as (mus & H2 & [= <-]).
      repeat split; simpl. by rewrite lookup_insert_ne. }
    eapply untouched_trans; [exact U2|].
    destruct (hasModMRSet (mrGen P) cs'); [|injection H3 as <-; apply untouched_refl].
    apply bind_Ok in H3 as ([[chis memRegs1] s2] & H3 & [= <-]). simpl.
    pose proof (RenameChiSet_same_nodes _ _ _ _ _ _ H3) as Hn.
    eapply untouched_trans; [by apply untouched_nodes|].
    repeat split; simpl. by rewrite lookup_insert_ne.
  - destruct (inst_isReturn inst); [|injection H2 as <-; apply untouched_refl].
    apply bind_Ok in H2 as (mus & H2 & [= <-]). simpl.
    repeat split; simpl. by rewrite lookup_insert_ne.
Qed.

Lemma SSARenameBB_untouched tree fuel : forall bb s s',
  SSARenameBB P fuel bb s = Ok s' -> dt s = Some tree ->
  (forall b, visits tree bb b -> block_avoids P load store cs g b) ->
  untouched s s'.
Proof.
  induction fuel as [|fuel IH]; intros bb s s'; [done|]. simpl.
  intros H Hdt Hav.
  apply bind_Ok in H as (st1 & H1 & H).
  apply bind_Ok in H as ([memRegs s2] & H2 & H).
  apply bind_Ok in H as (s3 & H3 & H).
  apply bind_Ok in H as (t & Ht & H).
  apply bind_Ok in H as (s4 & H4 & H5).
  destruct (Hav bb (visits_here tree bb)) as [Hg Hinsts].
  assert (untouched s st1.2) as U1.
  { unfold SSARenameBB_phiRes in H1. destruct (hasPHISet bb s).
    - apply bind_Ok in H1 as ([[phis memRegs0] s1] & H1 & [= <-]). simpl.
      pose proof (RenamePhiRes_same_nodes _ _ _ _ _ _ H1) as Hn.
      eapply untouched_trans; [by apply untouched_nodes|]. by repeat split.
    - injection H1 as <-. apply untouched_refl. }
  assert (untouched st1.2 s2) as U2.
  { change s2 with (memRegs, s2).2.
    eapply (forEachM_inv (fun x => untouched st1.2 x.2)); [|apply untouched_refl|exact H2].
    intros inst sa sb Hin Hi Hb. eapply untouched_trans; [exact Hi|].
    eapply SSARenameBB_inst_untouched; [exact Hg|by apply Hinsts|exact Hb]. }
  assert (untouched s2 s3) as U3.
  { eapply (forEachM_inv (untouched s2)); [|apply untouched_refl|exact H3].
    intros succ sa sb _ Hi Hb. eapply untouched_trans; [exact Hi|].
    unfold SSARenameBB_succ in Hb. apply bind_Ok in Hb as (pos & _ & Hb).
    destruct (hasPHISet succ sa); [|injection Hb as <-; apply untouched_refl].
    apply bind_Ok in Hb as (phis & _ & [= <-]). by repeat split. }
  assert (ren_inv s (memRegs, s3)) as I3.
  { eapply (forEachM_inv (fun x => ren_inv s (memRegs, x))); [| |exact H3].
    - intros succ sa sb _ Hi He. by eapply SSARenameBB_succ_inv.
    - eapply (forEachM_inv (ren_inv s)); [|by eapply SSARenameBB_phiRes_inv|exact H2].
      intros inst sa sb _ Hi He. by eapply SSARenameBB_inst_inv. }
  assert (dt s3 = Some tree) as Hdt3.
  { destruct I3 as [_ _ (_&_&_&_&E&_)]. simpl in E. by rewrite E. }
  unfold getDT in Ht. rewrite Hdt3 in Ht. injection Ht as <-.
  assert (untouched s3 s4) as U4.
  { destruct (tree !! bb) as [children|] eqn:Ech; [|injection H4 as <-; apply untouched_refl].
    assert (untouched s3 s4 /\ dt s4 = Some tree) as [? _]; [|done].
    eapply (forEachM_inv (fun x => untouched s3 x /\ dt x = Some tree));
      [|split; [apply untouched_refl|exact Hdt3]|exact H4].
    intros c sa sb Hc [Hi Hd] Hb. split.
    - eapply untouched_trans; [exact Hi|]. eapply IH; [exact Hb|exact Hd|].
      intros b Hv. apply Hav. by eapply visits_child.
    - apply SSARenameBB_balanced in Hb as (_&_&(_&_&_&_&E&_)). by rewrite E. }
  assert (untouched s4 s') as U5.
  { eapply (forEachM_inv (untouched s4)); [|apply untouched_refl|exact H5].
    intros mr sa sb _ Hi Hb. eapply untouched_trans; [exact Hi|].
    unfold SSARenameBB_pop in Hb. destruct (pop_back _) as [[stk v]|]; [|done].
    injection Hb as <-. by repeat split. }
  eapply untouched_trans; [exact U1|]. eapply untouched_trans; [exact U2|].
  eapply untouched_trans; [exact U3|]. by eapply untouched_trans.
Qed.

Lemma buildMemSSA_untouched fuel fn f tree s0 s' :
  fun_id fn <> g ->
  (forall b, b ∈ fun_reachableBBs fn \/ visits tree (fun_entryBlock fn) b ->
     block_avoids P load store cs g b) ->
  buildMemSSA P fuel fn f (Some tree) s0 = Ok s' -> untouched s0 s'.
Proof.
  intros Hg Hav E.
  destruct (buildMemSSA_Ok P _ _ _ _ _ _ E) as (_ & s1 & s2 & E1 & E2 & E3).
  assert (untouched s0 s1) as U1.
  { eapply (untouched_trans _ (setCurrentDFDT f (Some tree) s0)); [by repeat split|].
    eapply createMUCHI_untouched; [exact Hg| |exact E1]. intros b Hb. apply Hav. by left. }
  destruct (insertPHI_Ok_df _ _ _ _ E2) as [dfm' Hdf].
  destruct (insertPHI_Ok_spec _ _ _ _ dfm' E2 Hdf) as [F2 _].
  assert (untouched s1 s2) as U2.
  { destruct F2 as (_&_&_&_&Hr&Hl&Hs&Hcm&Hcc&_). repeat split; congruence. }
  assert (dt s2 = Some tree) as Hdt2.
  { destruct F2 as (_&_&_&_&_&_&_&_&_&_&_&_&_&->).
    pose proof (createMUCHI_Ok P fn _ s1 E1) as (_ & _ & _ & -> & _). done. }
  eapply untouched_trans; [exact U1|]. eapply untouched_trans; [exact U2|].
  eapply SSARenameBB_untouched; [exact E3|exact Hdt2|]. intros b Hb. apply Hav. by right.
Qed.

End Untouched.

(** ** The nodes that [createMUCHI] appends *)

Lemma forEach_appends {A B} (mu : MemSSA -> list B) (body : A -> MemSSA -> MemSSA)
    (g : A -> list B) l :
  (forall a s, mu (body a s) = mu s ++ g a) ->
  forall s, mu (forEach body l s) = mu s ++ (l ≫= g).
Proof.
  intros Hb. unfold forEach. induction l as [|a l IH]; intros s.
  - simpl. by rewrite app_nil_r.
  - rewrite bind_cons. simpl. by rewrite IH, Hb, app_assoc.
Qed.

Lemma forEach_keeps {A B} (mu : MemSSA -> B) (body : A -> MemSSA -> MemSSA) l :
  (forall a s, mu (body a s) = mu s) -> forall s, mu (forEach body l s) = mu s.
Proof.
  intros Hb s. apply (forEach_inv (fun s' => mu s' = mu s) body l); [|done].
  intros a s' _ Hi. by rewrite Hb.
Qed.

Lemma bind_if_singleton {A B} (c : Prop) `{Decision c} (f : A -> B) (l : list A) :
  (l ≫= fun a => if decide c then [f a] else []) = if decide c then f <$> l else [].
Proof.
  induction l as [|a l IH]; [by case_decide|].
  rewrite bind_cons, IH. case_decide; done.
Qed.

Section Appends.
Variable P : Program.

Lemma AddLoadMU_maps bb load mr s :
  load2MuSetMap (AddLoadMU bb load mr s) =
    <[load := at_key [] (load2MuSetMap s) load ++ [mkMU (LoadMUSite bb load) mr None]]>
      (load2MuSetMap s) /\
  store2ChiSetMap (AddLoadMU bb load mr s) = store2ChiSetMap s /\
  callsiteToMuSetMap (AddLoadMU bb load mr s) = callsiteToMuSetMap s /\
  callsiteToChiSetMap (AddLoadMU bb load mr s) = callsiteToChiSetMap s.
Proof. unfold AddLoadMU, collectRegUses. by case_decide. Qed.

Lemma AddStoreCHI_maps bb store mr s :
  store2ChiSetMap (AddStoreCHI bb store mr s) =
    <[store := at_key [] (store2ChiSetMap s) store ++
                 [mkCHI (StoreCHISite bb store) mr None None]]> (store2ChiSetMap s) /\
  load2MuSetMap (AddStoreCHI bb store mr s) = load2MuSetMap s /\
  callsiteToMuSetMap (AddStoreCHI bb store mr s) = callsiteToMuSetMap s /\
  callsiteToChiSetMap (AddStoreCHI bb store mr s) = callsiteToChiSetMap s.
Proof. unfold AddStoreCHI, collectRegDefs, collectRegUses. by case_decide. Qed.

Lemma AddCallSiteMU_maps cs mr s :
  callsiteToMuSetMap (AddCallSiteMU cs mr s) =
    <[cs := at_key [] (callsiteToMuSetMap s) cs ++ [mkMU (CallMUSite cs) mr None]]>
      (callsiteToMuSetMap s) /\
  load2MuSetMap (AddCallSiteMU cs mr s) = load2MuSetMap s /\
  store2ChiSetMap (AddCallSiteMU cs mr s) = store2ChiSetMap s /\
  callsiteToChiSetMap (AddCallSiteMU cs mr s) = callsiteToChiSetMap s.
Proof. unfold AddCallSiteMU, collectRegUses. by case_decide. Qed.

Lemma AddCallSiteCHI_maps cs mr s :
  callsiteToChiSetMap (AddCallSiteCHI P cs mr s) =
    <[cs := at_key [] (callsiteToChiSetMap s) cs ++ [mkCHI (CallCHISite cs) mr None None]]>
      (callsiteToChiSetMap s) /\
  load2MuSetMap (AddCallSiteCHI P cs mr s) = load2MuSetMap s /\
  store2ChiSetMap (AddCallSiteCHI P cs mr s) = store2ChiSetMap s /\
  callsiteToMuSetMap (AddCallSiteCHI P cs mr s) = callsiteToMuSetMap s.
Proof. unfold AddCallSiteCHI, collectRegDefs, collectRegUses. by case_decide. Qed.

(** The loops over a region set. *)
Lemma AddLoadMUs_maps bb load mrs s :
  (forall k, at_key [] (load2MuSetMap (AddLoadMUs bb load mrs s)) k =
     at_key [] (load2MuSetMap s) k ++
     if decide (load = k)
     then (fun mr => mkMU (LoadMUSite bb load) mr None) <$> elements mrs else []) /\
  store2ChiSetMap (AddLoadMUs bb load mrs s) = store2ChiSetMap s /\
  callsiteToMuSetMap (AddLoadMUs bb load mrs s) = callsiteToMuSetMap s /\
  callsiteToChiSetMap (AddLoadMUs bb load mrs s) = callsiteToChiSetMap s.
Proof.
  unfold AddLoadMUs. split; [|split; [|split]].
  - intros k. rewrite <- bind_if_singleton.
    apply (forEach_appends (fun s => at_key [] (load2MuSetMap s) k)).
    intros mr s'. destruct (AddLoadMU_maps bb load mr s') as (-> & _).
    rewrite at_key_insert. case_decide; [by subst|by rewrite app_nil_r].
  - apply forEach_keeps. intros mr s'. by destruct (AddLoadMU_maps bb load mr s') as (_&->&_).
  - apply forEach_keeps. intros mr s'. by destruct (AddLoadMU_maps bb load mr s') as (_&_&->&_).
  - apply forEach_keeps. intros mr s'. by destruct (AddLoadMU_maps bb load mr s') as (_&_&_&->).
Qed.

Lemma AddStoreCHIs_maps bb store mrs s :
  (forall k, at_key [] (store2ChiSetMap (AddStoreCHIs bb store mrs s)) k =
     at_key [] (store2ChiSetMap s) k ++
     if decide (store = k)
     then (fun mr => mkCHI (StoreCHISite bb store) mr None None) <$> elements mrs else []) /\
  load2MuSetMap (AddStoreCHIs bb store mrs s) = load2MuSetMap s /\
  callsiteToMuSetMap (AddStoreCHIs bb store mrs s) = callsiteToMuSetMap s /\
  callsiteToChiSetMap (AddStoreCHIs bb store mrs s) = callsiteToChiSetMap s.
Proof.
  unfold AddStoreCHIs. split; [|split; [|split]].
  - intros k. rewrite <- bind_if_singleton.
    apply (forEach_appends (fun s => at_key [] (store2ChiSetMap s) k)).
    intros mr s'. destruct (AddStoreCHI_maps bb store mr s') as (-> & _).
    rewrite at_key_insert. case_decide; [by subst|by rewrite app_nil_r].
  - apply forEach_keeps. intros mr s'. by destruct (AddStoreCHI_maps bb store mr s') as (_&->&_).
  - apply forEach_keeps. intros mr s'. by destruct (AddStoreCHI_maps bb store mr s') as (_&_&->&_).
  - apply forEach_keeps. intros mr s'. by destruct (AddStoreCHI_maps bb store mr s') as (_&_&_&->).
Qed.

Lemma AddCallSiteMUs_maps cs mrs s :
  (forall k, at_key [] (callsiteToMuSetMap (AddCallSiteMUs cs mrs s)) k =
     at_key [] (callsiteToMuSetMap s) k ++
     if decide (cs = k)
     then (fun mr => mkMU (CallMUSite cs) mr None) <$> elements mrs else []) /\
  load2MuSetMap (AddCallSiteMUs cs mrs s) = load2MuSetMap s /\
  store2ChiSetMap (AddCallSiteMUs cs mrs s) = store2ChiSetMap s /\
  callsiteToChiSetMap (AddCallSiteMUs cs mrs s) = callsiteToChiSetMap s.
Proof.
  unfold AddCallSiteMUs. split; [|split; [|split]].
  - intros k. rewrite <- bind_if_singleton.
    apply (forEach_appends (fun s => at_key [] (callsiteToMuSetMap s) k)).
    intros mr s'. destruct (AddCallSiteMU_maps cs mr s') as (-> & _).
    rewrite at_key_insert. case_decide; [by subst|by rewrite app_nil_r].
  - apply forEach_keeps. intros mr s'. by destruct (AddCallSiteMU_maps cs mr s') as (_&->&_).
  - apply forEach_keeps. intros mr s'. by destruct (AddCallSiteMU_maps cs mr s') as (_&_&->&_).
  - apply forEach_keeps. intros mr s'. by destruct (AddCallSiteMU_maps cs mr s') as (_&_&_&->).
Qed.

Lemma AddCallSiteCHIs_maps cs mrs s :
  (forall k, at_key [] (callsiteToChiSetMap (AddCallSiteCHIs P cs mrs s)) k =
     at_key [] (callsiteToChiSetMap s) k ++
     if decide (cs = k)
     then (fun mr => mkCHI (CallCHISite cs) mr None None) <$> elements mrs else []) /\
  load2MuSetMap (AddCallSiteCHIs P cs mrs s) = load2MuSetMap s /\
  store2ChiSetMap (AddCallSiteCHIs P cs mrs s) = store2ChiSetMap s /\
  callsiteToMuSetMap (AddCallSiteCHIs P cs mrs s) = callsiteToMuSetMap s.
Proof.
  unfold AddCallSiteCHIs. split; [|split; [|split]].
  - intros k. rewrite <- bind_if_singleton.
    apply (forEach_appends (fun s => at_key [] (callsiteToChiSetMap s) k)).
    intros mr s'. destruct (AddCallSiteCHI_maps cs mr s') as (-> & _).
    rewrite at_key_insert. case_decide; [by subst|by rewrite app_nil_r].
  - apply forEach_keeps. intros mr s'. by destruct (AddCallSiteCHI_maps cs mr s') as (_&->&_).
  - apply forEach_keeps. intros mr s'. by destruct (AddCallSiteCHI_maps cs mr s') as (_&_&->&_).
  - apply forEach_keeps. intros mr s'. by destruct (AddCallSiteCHI_maps cs mr s') as (_&_&_&->).
Qed.

(** The loop over the PAG edges of an instruction. *)
Lemma createMUCHI_edges_maps bb l s :
  let s' := forEach (createMUCHI_edge P bb) l s in
  (forall load, at_key [] (load2MuSetMap s') load =
     at_key [] (load2MuSetMap s) load ++
     (l ≫= fun e => match e with
                    | LoadEdge l0 => if decide (l0 = load) then loadMus P bb load else []
                    | _ => []
                    end)) /\
  (forall store, at_key [] (store2ChiSetMap s') store =
     at_key [] (store2ChiSetMap s) store ++
     (l ≫= fun e => match e with
                    | StoreEdge st => if decide (st = store) then storeChis P bb store else []
                    | _ => []
                    end)) /\
  callsiteToMuSetMap s' = callsiteToMuSetMap s /\
  callsiteToChiSetMap s' = callsiteToChiSetMap s.
Proof.
  simpl. split; [|split; [|split]].
  - intros load. apply (forEach_appends (fun s => at_key [] (load2MuSetMap s) load)).
    intros e s0. destruct e as [l0|st|]; simpl.
    + destruct (AddLoadMUs_maps bb l0 (getLoadMRSet (mrGen P) l0) s0) as (-> & _).
      unfold loadMus. case_decide; by subst.
    + destruct (AddStoreCHIs_maps bb st (getStoreMRSet (mrGen P) st) s0) as (_ & -> & _).
      by rewrite app_nil_r.
    + by rewrite app_nil_r.
  - intros store. apply (forEach_appends (fun s => at_key [] (store2ChiSetMap s) store)).
    intros e s0. destruct e as [l0|st|]; simpl.
    + destruct (AddLoadMUs_maps bb l0 (getLoadMRSet (mrGen P) l0) s0) as (_ & -> & _).
      by rewrite app_nil_r.
    + destruct (AddStoreCHIs_maps bb st (getStoreMRSet (mrGen P) st) s0) as (-> & _).
      unfold storeChis. case_decide; by subst.
    + by rewrite app_nil_r.
  - apply forEach_keeps. intros e s0. destruct e as [l0|st|]; simpl; [| |done].
    + by destruct (AddLoadMUs_maps bb l0 (getLoadMRSet (mrGen P) l0) s0) as (_&_&->&_).
    + by destruct (AddStoreCHIs_maps bb st (getStoreMRSet (mrGen P) st) s0) as (_&_&->&_).
  - apply forEach_keeps. intros e s0. destruct e as [l0|st|]; simpl; [| |done].
    + by destruct (AddLoadMUs_maps bb l0 (getLoadMRSet (mrGen P) l0) s0) as (_&_&_&->).
    + by destruct (AddStoreCHIs_maps bb st (getStoreMRSet (mrGen P) st) s0) as (_&_&_&->).
Qed.

(** One instruction. *)
Lemma createMUCHI_inst_maps bb inst s :
  let s' := createMUCHI_inst P bb inst s in
  (forall load, at_key [] (load2MuSetMap s') load =
     at_key [] (load2MuSetMap s) load ++ instLoadMus P load bb inst) /\
  (forall store, at_key [] (store2ChiSetMap s') store =
     at_key [] (store2ChiSetMap s) store ++ instStoreChis P store bb inst) /\
  (forall cs, at_key [] (callsiteToMuSetMap s') cs =
     at_key [] (callsiteToMuSetMap s) cs ++ instCallMus P cs inst) /\
  (forall cs, at_key [] (callsiteToChiSetMap s') cs =
     at_key [] (callsiteToChiSetMap s) cs ++ instCallChis P cs inst).
Proof.
  simpl. unfold createMUCHI_inst, instLoadMus, instStoreChis, instCallMus, instCallChis.
  set (s1 := if inst_hasPAGEdgeList inst then _ else s).
  assert ((forall load, at_key [] (load2MuSetMap s1) load =
             at_key [] (load2MuSetMap s) load ++ instLoadMus P load bb inst) /\
          (forall store, at_key [] (store2ChiSetMap s1) store =
             at_key [] (store2ChiSetMap s) store ++ instStoreChis P store bb inst) /\
          callsiteToMuSetMap s1 = callsiteToMuSetMap s /\
          callsiteToChiSetMap s1 = callsiteToChiSetMap s) as (L1 & S1 & M1 & C1).
  { unfold s1, instLoadMus, instStoreChis. destruct (inst_hasPAGEdgeList inst).
    - apply createMUCHI_edges_maps.
    - repeat split; intros; by rewrite app_nil_r. }
  unfold instLoadMus, instStoreChis in L1, S1. clearbody s1.
  destruct (inst_callSite inst) as [cs'|].
  2:{ rewrite M1, C1. repeat split; try done; intros; by rewrite app_nil_r. }
  set (s2 := if hasRefMRSet (mrGen P) cs' then _ else s1).
  assert ((forall cs, at_key [] (callsiteToMuSetMap s2) cs =
             at_key [] (callsiteToMuSetMap s1) cs ++
             if decide (cs' = cs) then callMus P cs else []) /\
          load2MuSetMap s2 = load2MuSetMap s1 /\ store2ChiSetMap s2 = store2ChiSetMap s1 /\
          callsiteToChiSetMap s2 = callsiteToChiSetMap s1) as (M2 & L2 & S2 & C2).
  { unfold s2, callMus. destruct (hasRefMRSet (mrGen P) cs') eqn:Eh.
    - destruct (AddCallSiteMUs_maps cs' (getCallSiteRefMRSet (mrGen P) cs') s1)
        as (Hm & ? & ? & ?).
      split; [|done]. intros cs. rewrite Hm. case_decide; [subst; by rewrite Eh|done].
    - split; [|done]. intros cs. case_decide; [subst; rewrite Eh|]; by rewrite app_nil_r. }
  clearbody s2.
  set (s3 := if hasModMRSet (mrGen P) cs' then _ else s2).
  assert ((forall cs, at_key [] (callsiteToChiSetMap s3) cs =
             at_key [] (callsiteToChiSetMap s2) cs ++
             if decide (cs' = cs) then callChis P cs else []) /\
          load2MuSetMap s3 = load2MuSetMap s2 /\ store2ChiSetMap s3 = store2ChiSetMap s2 /\
          callsiteToMuSetMap s3 = callsiteToMuSetMap s2) as (C3 & L3 & S3 & M3).
  { unfold s3, callChis. destruct (hasModMRSet (mrGen P) cs') eqn:Eh.
    - destruct (AddCallSiteCHIs_maps cs' (getCallSiteModMRSet (mrGen P) cs') s2)
        as (Hm & ? & ? & ?).
      split; [|done]. intros cs. rewrite Hm. case_decide; [subst; by rewrite Eh|done].
    - split; [|done]. intros cs. case_decide; [subst; rewrite Eh|]; by rewrite app_nil_r. }
  clearbody s3. rewrite L3, L2, S3, S2, M3. split; [done|]. split; [done|]. split.
  - intros cs. rewrite M2, M1. done.
  - intros cs. rewrite C3, C2, C1. done.
Qed.

(** One block. *)
Lemma createMUCHI_bb_maps bb s :
  let s' := createMUCHI_bb P bb s in
  (forall load, at_key [] (load2MuSetMap s') load =
     at_key [] (load2MuSetMap s) load ++ (bb_insts (getBB P bb) ≫= instLoadMus P load bb)) /\
  (forall store, at_key [] (store2ChiSetMap s') store =
     at_key [] (store2ChiSetMap s) store ++
     (bb_insts (getBB P bb) ≫= instStoreChis P store bb)) /\
  (forall cs, at_key [] (callsiteToMuSetMap s') cs =
     at_key [] (callsiteToMuSetMap s) cs ++ (bb_insts (getBB P bb) ≫= instCallMus P cs)) /\
  (forall cs, at_key [] (callsiteToChiSetMap s') cs =
     at_key [] (callsiteToChiSetMap s) cs ++ (bb_insts (getBB P bb) ≫= instCallChis P cs)).
Proof.
  simpl. unfold createMUCHI_bb. set (s0 := upd_varKills _ s).
  split; [|split; [|split]]; intros k.
  - change (load2MuSetMap s) with (load2MuSetMap s0).
    apply (forEach_appends (fun s => at_key [] (load2MuSetMap s) k)).
    intros inst s1. by destruct (createMUCHI_inst_maps bb inst s1) as (-> & _).
  - change (store2ChiSetMap s) with (store2ChiSetMap s0).
    apply (forEach_appends (fun s => at_key [] (store2ChiSetMap s) k)).
    intros inst s1. by destruct (createMUCHI_inst_maps bb inst s1) as (_ & -> & _).
  - change (callsiteToMuSetMap s) with (callsiteToMuSetMap s0).
    apply (forEach_appends (fun s => at_key [] (callsiteToMuSetMap s) k)).
    intros inst s1. by destruct (createMUCHI_inst_maps bb inst s1) as (_ & _ & -> & _).
  - change (callsiteToChiSetMap s) with (callsiteToChiSetMap s0).
    apply (forEach_appends (fun s => at_key [] (callsiteToChiSetMap s) k)).
    intros inst s1. by destruct (createMUCHI_inst_maps bb inst s1) as (_ & _ & _ & ->).
Qed.

(** The walk over the reachable blocks. *)
Lemma createMUCHI_bbs_maps fn s :
  let s' := forEach (createMUCHI_bb P) (fun_reachableBBs fn) s in
  (forall load, at_key [] (load2MuSetMap s') load =
     at_key [] (load2MuSetMap s) load ++ funLoadMus P fn load) /\
  (forall store, at_key [] (store2ChiSetMap s') store =
     at_key [] (store2ChiSetMap s) store ++ funStoreChis P fn store) /\
  (forall cs, at_key [] (callsiteToMuSetMap s') cs =
     at_key [] (callsiteToMuSetMap s) cs ++ funCallMus P fn cs) /\
  (forall cs, at_key [] (callsiteToChiSetMap s') cs =
     at_key [] (callsiteToChiSetMap s) cs ++ funCallChis P fn cs).
Proof.
  simpl. unfold funLoadMus, funStoreChis, funCallMus, funCallChis, funNodes.
  split; [|split; [|split]]; intros k.
  - apply (forEach_appends (fun s => at_key [] (load2MuSetMap s) k)).
    intros bb s0. by destruct (createMUCHI_bb_maps bb s0) as (-> & _).
  - apply (forEach_appends (fun s => at_key [] (store2ChiSetMap s) k)).
    intros bb s0. by destruct (createMUCHI_bb_maps bb s0) as (_ & -> & _).
  - apply (forEach_appends (fun s => at_key [] (callsiteToMuSetMap s) k)).
    intros bb s0. by destruct (createMUCHI_bb_maps bb s0) as (_ & _ & -> & _).
  - apply (forEach_appends (fun s => at_key [] (callsiteToChiSetMap s) k)).
    intros bb s0. by destruct (createMUCHI_bb_maps bb s0) as (_ & _ & _ & ->).
Qed.

(** [createMUCHI] appends the nodes of the function. *)
Lemma createMUCHI_appends fn s t :
  dt s = Some t ->
  exists s', createMUCHI P fn s = Ok s' /\
    (forall load, at_key [] (load2MuSetMap s') load =
       at_key [] (load2MuSetMap s) load ++ funLoadMus P fn load) /\
    (forall store, at_key [] (store2ChiSetMap s') store =
       at_key [] (store2ChiSetMap s) store ++ funStoreChis P fn store) /\
    (forall cs, at_key [] (callsiteToMuSetMap s') cs =
       at_key [] (callsiteToMuSetMap s) cs ++ funCallMus P fn cs) /\
    (forall cs, at_key [] (callsiteToChiSetMap s') cs =
       at_key [] (callsiteToChiSetMap s) cs ++ funCallChis P fn cs).
Proof.
  intros Hdt. rewrite (createMUCHI_unfold P fn s t Hdt).
  set (sm := forEach (createMUCHI_bb P) (fun_reachableBBs fn) s).
  destruct (createMUCHI_entries_spec fn (elements (usedRegs sm)) sm)
    as (s' & E & _ & _ & _ & _ & _ & _ & _ & _ & _ & _ & _ & Hl & Hs & Hcm & Hcc & _).
  exists s'. split; [done|]. rewrite Hl, Hs, Hcm, Hcc. apply createMUCHI_bbs_maps.
Qed.

(** The nodes of an edge or a call site: one for every region of its
    set. *)
Lemma loadMus_spec bb load :
  NoDup (loadMus P bb load) /\
  forall mu, mu ∈ loadMus P bb load <->
    exists mr, mr ∈ getLoadMRSet (mrGen P) load /\ mu = mkMU (LoadMUSite bb load) mr None.
Proof.
  unfold loadMus. split.
  - apply NoDup_fmap_2; [by intros ?? [=]|apply NoDup_elements].
  - intros mu. rewrite list_elem_of_fmap. setoid_rewrite elem_of_elements. naive_solver.
Qed.

Lemma storeChis_spec bb store :
  NoDup (storeChis P bb store) /\
  forall chi, chi ∈ storeChis P bb store <->
    exists mr, mr ∈ getStoreMRSet (mrGen P) store /\
      chi = mkCHI (StoreCHISite bb store) mr None None.
Proof.
  unfold storeChis. split.
  - apply NoDup_fmap_2; [by intros ?? [=]|apply NoDup_elements].
  - intros mu. rewrite list_elem_of_fmap. setoid_rewrite elem_of_elements. naive_solver.
Qed.

Lemma callMus_spec cs :
  NoDup (callMus P cs) /\
  forall mu, mu ∈ callMus P cs <->
    hasRefMRSet (mrGen P) cs = true /\
    exists mr, mr ∈ getCallSiteRefMRSet (mrGen P) cs /\ mu = mkMU (CallMUSite cs) mr None.
Proof.
  unfold callMus. destruct (hasRefMRSet (mrGen P) cs).
  - split.
    + apply NoDup_fmap_2; [by intros ?? [=]|apply NoDup_elements].
    + intros mu. rewrite list_elem_of_fmap. setoid_rewrite elem_of_elements. naive_solver.
  - split; [constructor|]. intros mu. rewrite elem_of_nil. naive_solver.
Qed.

Lemma callChis_spec cs :
  NoDup (callChis P cs) /\
  forall chi, chi ∈ callChis P cs <->
    hasModMRSet (mrGen P) cs = true /\
    exists mr, mr ∈ getCallSiteModMRSet (mrGen P) cs /\
      chi = mkCHI (CallCHISite cs) mr None None.
Proof.
  unfold callChis. destruct (hasModMRSet (mrGen P) cs).
  - split.
    + apply NoDup_fmap_2; [by intros ?? [=]|apply NoDup_elements].
    + intros mu. rewrite list_elem_of_fmap. setoid_rewrite elem_of_elements. naive_solver.
  - split; [constructor|]. intros mu. rewrite elem_of_nil. naive_solver.
Qed.

End Appends.

(** The nodes of one occurrence have pairwise different regions. *)
Section Regions.
Variable P : Program.

Lemma loadMus_regions bb load : NoDup (mu_mr <$> loadMus P bb load).
Proof.
  unfold loadMus. rewrite <- list_fmap_compose.
  apply NoDup_fmap_2; [by intros ?? [=]|apply NoDup_elements].
Qed.

Lemma storeChis_regions bb store : NoDup (chi_mr <$> storeChis P bb store).
Proof.
  unfold storeChis. rewrite <- list_fmap_compose.
  apply NoDup_fmap_2; [by intros ?? [=]|apply NoDup_elements].
Qed.

Lemma callMus_regions cs : NoDup (mu_mr <$> callMus P cs).
Proof.
  unfold callMus. destruct (hasRefMRSet (mrGen P) cs); [|constructor].
  rewrite <- list_fmap_compose. apply NoDup_fmap_2; [by intros ?? [=]|apply NoDup_elements].
Qed.

Lemma callChis_regions cs : NoDup (chi_mr <$> callChis P cs).
Proof.
  unfold callChis. destruct (hasModMRSet (mrGen P) cs); [|constructor].
  rewrite <- list_fmap_compose. apply NoDup_fmap_2; [by intros ?? [=]|apply NoDup_elements].
Qed.

End Regions.

(** ** Phi results and phi operands at the end of a walk *)

Lemma list_pos_lookup bb l : forall pos, list_pos bb l = Some pos -> l !! pos = Some bb.
Proof.
  induction l as [|x l IH]; intros pos; simpl; [done|].
  destruct (decide (x = bb)) as [->|Hne].
  - by intros [= <-].
  - destruct (list_pos bb l) as [p|]; [|done]. simpl. intros [= <-]. by apply IH.
Qed.

Lemma list_pos_inj bb bb' l pos :
  list_pos bb l = Some pos -> list_pos bb' l = Some pos -> bb = bb'.
Proof. intros H1%list_pos_lookup H2%list_pos_lookup. congruence. Qed.

Lemma Forall2_elem_r {A B} (R : A -> B -> Prop) l l' y :
  Forall2 R l l' -> y ∈ l' -> exists x, x ∈ l /\ R x y.
Proof.
  induction 1 as [|a b l l' Hab _ IH]; [by intros ?%elem_of_nil|].
  intros [->|Hy]%elem_of_cons.
  - exists a. split; [by left|done].
  - destruct (IH Hy) as (x & ? & ?). exists x. split; [by right|done].
Qed.

Lemma Forall2_compose {A B C} (R : A -> B -> Prop) (S : B -> C -> Prop) (T : A -> C -> Prop)
    l1 l2 l3 :
  (forall x y z, R x y -> S y z -> T x z) ->
  Forall2 R l1 l2 -> Forall2 S l2 l3 -> Forall2 T l1 l3.
Proof.
  intros H H1. revert l3. induction H1 as [|a b l l' Hab _ IH]; intros l3 H2.
  - apply Forall2_nil_inv_l in H2 as ->. constructor.
  - apply Forall2_cons_inv_l in H2 as (c & l3' & Hbc & H2 & ->).
    constructor; [by eapply H|by apply IH].
Qed.

Lemma Forall2_fmap_eq {A B} (f : A -> B) l l' :
  Forall2 (fun x y => f y = f x) l l' -> f <$> l' = f <$> l.
Proof. induction 1 as [|a b l l' Hab _ IH]; [done|]. rewrite !fmap_cons. by rewrite Hab, IH. Qed.

Lemma rstep_log s s' : rstep s s' -> exists rest, stackLog s' = stackLog s ++ rest.
Proof.
  intros [mr def s0 v s1 H|mr s0 s1 H|s0 s1 H].
  - apply newSSAName_Ok in H as (? & ? & _ & _ & _ & ->). by eexists.
  - unfold SSARenameBB_pop in H. destruct (pop_back _) as [[stk v]|]; [|done].
    injection H as <-. by eexists.
  - destruct H as (_&_&_&_&_&_&_&_&_&->). exists []. by rewrite app_nil_r.
Qed.

Lemma rsteps_log s s' : rtc rstep s s' -> exists rest, stackLog s' = stackLog s ++ rest.
Proof.
  intros H. apply (rsteps_inv (fun x => exists rest, stackLog x = stackLog s ++ rest))
    with (s := s); [|done|exists []; by rewrite app_nil_r].
  intros sa sb Hstep [rest Hr]. destruct (rstep_log _ _ Hstep) as [rest' Hr'].
  exists (rest ++ rest'). by rewrite Hr', Hr, app_assoc.
Qed.

Lemma visits_trans tree a b c : visits tree a b -> visits tree b c -> visits tree a c.
Proof.
  induction 1 as [b|a children x b Hl Hx _ IH]; [done|].
  intros Hbc. eapply visits_child; [exact Hl|exact Hx|by apply IH].
Qed.

Section KeptFor.
Variable P : Program.
Variable bb : N.

Lemma phi_kept_for_refl k phi : phi_kept_for P bb k phi phi.
Proof. by repeat split. Qed.

Lemma phis_kept_for_refl s : phis_kept_for P bb s s.
Proof.
  intros k. induction (at_key [] (bb2PhiSetMap s) k); constructor;
    [apply phi_kept_for_refl|done].
Qed.

Lemma phis_kept_for_trans s1 s2 s3 :
  phis_kept_for P bb s1 s2 -> phis_kept_for P bb s2 s3 -> phis_kept_for P bb s1 s3.
Proof.
  intros H1 H2 k. specialize (H1 k). specialize (H2 k).
  revert H2. generalize (at_key [] (bb2PhiSetMap s3) k).
  induction H1 as [|a b l l' (A1 & B1 & C1) _ IH]; intros l3 H2.
  - apply Forall2_nil_inv_l in H2 as ->. constructor.
  - apply Forall2_cons_inv_l in H2 as (c & l3' & (A2 & B2 & C2) & H2 & ->).
    constructor; [|by apply IH]. split; [congruence|]. split.
    + intros Hk. rewrite B2, B1; done.
    + intros pos Hpos. rewrite C2, C1; done.
Qed.

Lemma phis_kept_for_same s s' :
  bb2PhiSetMap s' = bb2PhiSetMap s -> phis_kept_for P bb s s'.
Proof. intros E k. rewrite E. apply phis_kept_for_refl. Qed.

Lemma phis_kept_for_insert s k phis :
  Forall2 (phi_kept_for P bb k) (at_key [] (bb2PhiSetMap s) k) phis ->
  phis_kept_for P bb s (upd_bb2PhiSetMap (<[k := phis]>) s).
Proof.
  intros H k'. simpl. rewrite at_key_insert. case_decide; [by subst|].
  apply phis_kept_for_refl.
Qed.

Lemma SSARenameBB_edge_phis e st st' :
  SSARenameBB_edge e st = Ok st' -> bb2PhiSetMap st'.2 = bb2PhiSetMap st.2.
Proof.
  destruct st as [memRegs s]. destruct e as [load|store|]; simpl.
  - by intros (mus & H & [= <-])%bind_Ok.
  - intros ([[chis memRegs1] s1] & H & [= <-])%bind_Ok. simpl.
    by apply RenameChiSet_same_nodes in H as (_&_&_&_&_&->).
  - by intros [= <-].
Qed.

Lemma SSARenameBB_inst_phis b inst st st' :
  SSARenameBB_inst P b inst st = Ok st' -> bb2PhiSetMap st'.2 = bb2PhiSetMap st.2.
Proof.
  unfold SSARenameBB_inst. intros ([memRegs s] & H1 & H2)%bind_Ok.
  assert (bb2PhiSetMap s = bb2PhiSetMap st.2) as E1.
  { destruct (inst_hasPAGEdgeList inst); [|by injection H1 as ->].
    change s with (memRegs, s).2.
    eapply (forEachM_inv (fun x => bb2PhiSetMap x.2 = bb2PhiSetMap st.2)); [|done|exact H1].
    intros e sa sb _ Hi He. by rewrite (SSARenameBB_edge_phis _ _ _ He). }
  rewrite <- E1. clear H1 E1. destruct (inst_callSite inst) as [cs|].
  - apply bind_Ok in H2 as (s1 & H2 & H3).
    assert (bb2PhiSetMap s1 = bb2PhiSetMap s) as E2.
    { destruct (hasRefMRSet (mrGen P) cs); [|by injection H2 as <-].
      by apply bind_Ok in H2 as (mus & H2 & [= <-]). }
    rewrite <- E2. destruct (hasModMRSet (mrGen P) cs); [|by injection H3 as <-].
    apply bind_Ok in H3 as ([[chis memRegs1] s2] & H3 & [= <-]). simpl.
    by apply RenameChiSet_same_nodes in H3 as (_&_&_&_&_&->).
  - destruct (inst_isReturn inst); [|by injection H2 as <-].
    by apply bind_Ok in H2 as (mus & H2 & [= <-]).
Qed.

Lemma SSARenameBB_insts_phis b l st st' :
  forEachM (SSARenameBB_inst P b) l st = Ok st' -> bb2PhiSetMap st'.2 = bb2PhiSetMap st.2.
Proof.
  intros H.
  eapply (forEachM_inv (fun x => bb2PhiSetMap x.2 = bb2PhiSetMap st.2)); [|done|exact H].
  intros e sa sb _ Hi He. by rewrite (SSARenameBB_inst_phis _ _ _ _ He).
Qed.

Lemma SSARenameBB_pops_phis l s s' :
  forEachM SSARenameBB_pop l s = Ok s' -> bb2PhiSetMap s' = bb2PhiSetMap s.
Proof.
  intros H. eapply (forEachM_inv (fun x => bb2PhiSetMap x = bb2PhiSetMap s)); [|done|exact H].
  intros mr sa sb _ Hi He. unfold SSARenameBB_pop in He.
  destruct (pop_back _) as [[stk v]|]; [|done]. by injection He as <-.
Qed.

(** The successor loop of any block keeps regions and result versions. *)
Lemma SSARenameBB_succs_res b l s s' :
  forEachM (SSARenameBB_succ P b) l s = Ok s' ->
  forall k, Forall2 (fun phi phi' => phi_mr phi' = phi_mr phi /\
                                     phi_resVer phi' = phi_resVer phi)
              (at_key [] (bb2PhiSetMap s) k) (at_key [] (bb2PhiSetMap s') k).
Proof.
  intros H.
  eapply (forEachM_inv (fun x => forall k,
            Forall2 (fun phi phi' => phi_mr phi' = phi_mr phi /\
                                     phi_resVer phi' = phi_resVer phi)
              (at_key [] (bb2PhiSetMap s) k) (at_key [] (bb2PhiSetMap x) k)));
    [| |exact H].
  2:{ intros k. induction (at_key [] (bb2PhiSetMap s) k); by constructor. }
  intros succ sa sb _ Hi He k. specialize (Hi k).
  unfold SSARenameBB_succ in He. apply bind_Ok in He as (pos & _ & He).
  destruct (hasPHISet succ sa); [|by injection He as <-].
  apply bind_Ok in He as (phis & He & [= <-]). simpl.
  rewrite at_key_insert. case_decide; [subst k|done].
  apply RenamePhiOps_spec in He.
  eapply Forall2_compose; [|exact Hi|exact He].
  intros x y z [A B] (_ & Hm & Hr & _). split; congruence.
Qed.

(** Renaming another block leaves the result versions at [bb] and the
    operands in the slots of [bb] alone. *)
Lemma SSARenameBB_phiRes_kept_for c s st :
  c <> bb -> SSARenameBB_phiRes c s = Ok st -> phis_kept_for P bb s st.2.
Proof.
  intros Hne. unfold SSARenameBB_phiRes. destruct (hasPHISet c s).
  - intros ([[phis memRegs] s1] & H & [= <-])%bind_Ok. simpl.
    destruct (RenamePhiRes_spec _ _ _ _ _ _ H) as (new & _ & Hf & Hp & _).
    eapply phis_kept_for_trans; [by apply phis_kept_for_same|].
    apply phis_kept_for_insert. rewrite Hp.
    eapply Forall2_impl; [exact Hf|]. intros phi phi' (_ & Hm & Ho & _).
    split; [done|]. split; [done|]. intros pos _. by rewrite Ho.
  - intros [= <-]. apply phis_kept_for_refl.
Qed.

Lemma SSARenameBB_succ_kept_for c succ s s' :
  c <> bb -> SSARenameBB_succ P c succ s = Ok s' -> phis_kept_for P bb s s'.
Proof.
  intros Hne. unfold SSARenameBB_succ. intros (pos & Hpos & H)%bind_Ok.
  destruct (hasPHISet succ s); [|injection H as <-; apply phis_kept_for_refl].
  apply bind_Ok in H as (phis & H & [= <-]).
  apply phis_kept_for_insert. apply RenamePhiOps_spec in H.
  eapply Forall2_impl; [exact H|]. intros phi phi' (_ & Hm & Hr & v & _ & Ho).
  split; [done|]. split; [done|]. intros pos' Hpos'. rewrite Ho.
  apply lookup_insert_ne. intros ->. apply Hne.
  unfold getBBPredecessorPos in Hpos.
  destruct (list_pos c (bb_preds (getBB P succ))) as [p|] eqn:Ec; [|done].
  injection Hpos as ->. by eapply list_pos_inj.
Qed.

Lemma SSARenameBB_kept_for tree fuel : forall c s s',
  SSARenameBB P fuel c s = Ok s' -> dt s = Some tree -> ~ visits tree c bb ->
  phis_kept_for P bb s s'.
Proof.
  induction fuel as [|fuel IH]; intros c s s'; [done|]. simpl.
  intros H Hdt Hnv.
  assert (c <> bb) as Hne by (intros ->; apply Hnv, visits_here).
  apply bind_Ok in H as (st1 & H1 & H).
  apply bind_Ok in H as ([memRegs s2] & H2 & H).
  apply bind_Ok in H as (s3 & H3 & H).
  apply bind_Ok in H as (t & Ht & H).
  apply bind_Ok in H as (s4 & H4 & H5).
  pose proof (SSARenameBB_phiRes_kept_for _ _ _ Hne H1) as K1.
  pose proof (SSARenameBB_insts_phis _ _ _ _ H2) as E2. simpl in E2.
  assert (phis_kept_for P bb s2 s3) as K3.
  { eapply (forEachM_inv (phis_kept_for P bb s2)); [|apply phis_kept_for_refl|exact H3].
    intros succ sa sb _ Hi Hb. eapply phis_kept_for_trans; [exact Hi|].
    by eapply SSARenameBB_succ_kept_for. }
  assert (ren_inv s (memRegs, s3)) as I3.
  { eapply (forEachM_inv (fun x => ren_inv s (memRegs, x))); [| |exact H3].
    - intros succ sa sb _ Hi He. by eapply SSARenameBB_succ_inv.
    - eapply (forEachM_inv (ren_inv s)); [|by eapply SSARenameBB_phiRes_inv|exact H2].
      intros inst sa sb _ Hi He. by eapply SSARenameBB_inst_inv. }
  assert (dt s3 = Some tree) as Hdt3.
  { destruct I3 as [_ _ (_&_&_&_&E&_)]. simpl in E. by rewrite E. }
  unfold getDT in Ht. rewrite Hdt3 in Ht. injection Ht as <-.
  assert (phis_kept_for P bb s3 s4) as K4.
  { destruct (tree !! c) as [children|] eqn:Ech;
      [|injection H4 as <-; apply phis_kept_for_refl].
    assert (phis_kept_for P bb s3 s4 /\ dt s4 = Some tree) as [? _]; [|done].
    eapply (forEachM_inv (fun x => phis_kept_for P bb s3 x /\ dt x = Some tree));
      [|split; [apply phis_kept_for_refl|exact Hdt3]|exact H4].
    intros c' sa sb Hc [Hi Hd] Hb. split.
    - eapply phis_kept_for_trans; [exact Hi|]. eapply IH; [exact Hb|exact Hd|].
      intros Hv. apply Hnv. by eapply visits_child.
    - apply SSARenameBB_balanced in Hb as (_&_&(_&_&_&_&E&_)). by rewrite E. }
  pose proof (SSARenameBB_pops_phis _ _ _ H5) as E5.
  eapply phis_kept_for_trans; [exact K1|].
  eapply phis_kept_for_trans; [apply phis_kept_for_same; exact E2|].
  eapply phis_kept_for_trans; [exact K3|].
  eapply phis_kept_for_trans; [exact K4|]. by apply phis_kept_for_same.
Qed.

(** A call that returns has called itself on every child of the block. *)
Lemma SSARenameBB_child_call tree fuel b s s' children c :
  SSARenameBB P (S fuel) b s = Ok s' -> dt s = Some tree ->
  tree !! b = Some children -> c ∈ children ->
  exists sa sb, SSARenameBB P fuel c sa = Ok sb /\ dt sa = Some tree.
Proof.
  intros H Hdt Hch Hc. simpl in H.
  apply bind_Ok in H as (st1 & H1 & H).
  apply bind_Ok in H as ([memRegs s2] & H2 & H).
  apply bind_Ok in H as (s3 & H3 & H).
  apply bind_Ok in H as (t & Ht & H).
  apply bind_Ok in H as (s4 & H4 & H5).
  assert (ren_inv s (memRegs, s3)) as I3.
  { eapply (forEachM_inv (fun x => ren_inv s (memRegs, x))); [| |exact H3].
    - intros succ sa sb _ Hi He. by eapply SSARenameBB_succ_inv.
    - eapply (forEachM_inv (ren_inv s)); [|by eapply SSARenameBB_phiRes_inv|exact H2].
      intros inst sa sb _ Hi He. by eapply SSARenameBB_inst_inv. }
  assert (dt s3 = Some tree) as Hdt3.
  { destruct I3 as [_ _ (_&_&_&_&E&_)]. simpl in E. by rewrite E. }
  unfold getDT in Ht. rewrite Hdt3 in Ht. injection Ht as <-. rewrite Hch in H4.
  apply list_elem_of_split in Hc as (l1 & l2 & ->).
  apply forEachM_split in H4 as (sa & sb & Ha & Hb & _).
  exists sa, sb. split; [done|].
  eapply (forEachM_inv (fun x => dt x = Some tree)); [|exact Hdt3|exact Ha].
  intros c' sx sy _ Hi He. apply SSARenameBB_balanced in He as (_&_&(_&_&_&_&->&_)).
  done.
Qed.

(** A call that returns does not come back to its block: the part of the
    tree that it walks has no cycle. *)
Lemma SSARenameBB_no_cycle tree fuel : forall b s s' children c,
  SSARenameBB P fuel b s = Ok s' -> dt s = Some tree ->
  tree !! b = Some children -> c ∈ children -> ~ visits tree c b.
Proof.
  induction fuel as [|fuel IH]; intros b s s' children c H Hdt Hch Hc Hv; [done|].
  destruct (SSARenameBB_child_call _ _ _ _ _ _ _ H Hdt Hch Hc) as (sa & sb & Hb & Hdta).
  destruct Hv as [b|c children' c' b Hch' Hc' Hv].
  - by apply (IH b sa sb children b Hb Hdta Hch Hc), visits_here.
  - apply (IH c sa sb children' c' Hb Hdta Hch' Hc').
    eapply visits_trans; [exact Hv|]. eapply visits_child; [exact Hch|exact Hc|apply visits_here].
Qed.

(** The walk from [bb] down the tree leaves them alone once [bb] itself
    is done. *)
Lemma SSARenameBB_children_kept_for tree fuel children s3 s4 :
  (forall c, c ∈ children -> ~ visits tree c bb) -> dt s3 = Some tree ->
  forEachM (SSARenameBB P fuel) children s3 = Ok s4 ->
  phis_kept_for P bb s3 s4.
Proof.
  intros Hno Hdt3 H4.
  assert (phis_kept_for P bb s3 s4 /\ dt s4 = Some tree) as [? _]; [|done].
  eapply (forEachM_inv (fun x => phis_kept_for P bb s3 x /\ dt x = Some tree));
    [|split; [apply phis_kept_for_refl|exact Hdt3]|exact H4].
  intros c' sa sb Hc [Hi Hd] Hb. split.
  - eapply phis_kept_for_trans; [exact Hi|].
    eapply SSARenameBB_kept_for; [exact Hb|exact Hd|by apply Hno].
  - apply SSARenameBB_balanced in Hb as (_&_&(_&_&_&_&E&_)). by rewrite E.
Qed.

End KeptFor.

Import MoreExamples.

(** * Entry and return nodes, frontier misses and the order of renaming *)

Lemma forEachM_not_fatal {A S} (body : A -> S -> Result S) l :
  (forall a s, ~ isFatal (body a s)) -> forall s, ~ isFatal (forEachM body l s).
Proof.
  intros Hb. induction l as [|a l IH]; intros s [msg H]; simpl in H; [done|].
  destruct (body a s) as [s1| | |] eqn:E; simpl in H; try done.
  - by apply (IH s1); exists msg.
  - apply (Hb a s). rewrite E. by eexists.
Qed.

Lemma insertPHI_not_fatal fuel fn s dfm : df s = Some dfm -> ~ isFatal (insertPHI fuel fn s).
Proof.
  intros Hdf [msg H]. unfold insertPHI, getDF in H. rewrite Hdf in H. simpl in H.
  destruct (forEachM _ _ _) as [[m1 s1]| | |] eqn:E; simpl in H; try done.
  apply (forEachM_not_fatal (insertPHI_region fuel dfm) (elements (usedRegs s))) with (s := (∅, s)).
  - intros mr [m0 s0] [msg' H']. unfold insertPHI_region in H'.
    pose proof (insertPHI_while_not_fatal dfm mr fuel (at_key [] (reg2BBMap s0) mr) m0
                  (upd_reg2BBMap <[mr := at_key [] (reg2BBMap s0) mr]> s0)) as Hn.
    by rewrite H' in Hn.
  - rewrite E. by eexists.
Qed.

Section BuildSteps.
Variable P : Program.

(** C4. [createMUCHI] appends to the entry chis of the function exactly
    one entry chi for every region of the function (the regions of the
    loads, stores and call sites of its reachable blocks, [funRegs]) and
    for every region that [usedRegs] held at the call, and none for any
    other region; it appends to the return mus exactly one return mu for
    each of these regions iff the function may reach a return
    ([functionDoesNotRet] is false), and none if the function does not
    return.  In a build [setCurrentDFDT] has emptied [usedRegs], so that
    the regions are those of the function. *)
Theorem createMUCHI_entry_return_nodes fn s s' :
  createMUCHI P fn s = Ok s' ->
  exists chis mus,
    at_key [] (funToEntryChiSetMap s') (fun_id fn) =
      at_key [] (funToEntryChiSetMap s) (fun_id fn) ++ chis /\
    at_key [] (funToReturnMuSetMap s') (fun_id fn) =
      at_key [] (funToReturnMuSetMap s) (fun_id fn) ++ mus /\
    (forall chi, chi ∈ chis -> chi_site chi = EntryCHISite (fun_id fn)) /\
    (forall mu, mu ∈ mus -> mu_site mu = RetMUSite (fun_id fn)) /\
    forall mr,
      length (filter (fun c => chi_mr c = mr) chis) =
        (if decide (mr ∈ funRegs P fn ∪ usedRegs s) then 1 else 0)%nat /\
      length (filter (fun m => mu_mr m = mr) mus) =
        (if decide (mr ∈ funRegs P fn ∪ usedRegs s /\ fun_doesNotRet fn = false)
         then 1 else 0)%nat.
Proof.
  intros H.
  assert (forall mr, mr ∈ usedRegs s' <-> mr ∈ funRegs P fn ∪ usedRegs s) as Hregs.
  { destruct (createMUCHI_Ok_dt _ _ _ _ H) as [tree Hdt].
    destruct (createMUCHI_adds P fn s tree Hdt) as (s1 & E & Hf).
    rewrite E in H. injection H as ->.
    intros mr. specialize (Hf (FUsed mr)). simpl in Hf.
    rewrite Hf, elem_of_union, funRegs_adds. tauto. }
  destruct (createMUCHI_Ok P fn _ s' H) as (Hu & _ & _ & _ & _ & _ & _ & He & Hr & _).
  set (l := elements (usedRegs (forEach (createMUCHI_bb P) (fun_reachableBBs fn) s))) in *.
  assert (NoDup l) as Hnd by apply NoDup_elements.
  assert (forall mr, mr ∈ l <-> mr ∈ funRegs P fn ∪ usedRegs s) as Hl.
  { intros mr. subst l. by rewrite elem_of_elements, <- Hu, Hregs. }
  exists (entryChiOf fn <$> l), (if fun_doesNotRet fn then [] else retMuOf fn <$> l).
  split; [exact He|]. split; [exact Hr|]. split; [|split].
  - intros chi (mr & -> & _)%list_elem_of_fmap. done.
  - intros mu Hmu. destruct (fun_doesNotRet fn); [by apply elem_of_nil in Hmu|].
    by apply list_elem_of_fmap in Hmu as (mr & -> & _).
  - intros mr. split.
    + rewrite count_entryChi by done. destruct (decide (mr ∈ l)) as [Hin|Hin].
      * rewrite decide_True; [done|by apply Hl].
      * rewrite decide_False; [done|by rewrite <- Hl].
    + destruct (fun_doesNotRet fn).
      * rewrite decide_False; [done|]. by intros [_ ?].
      * rewrite count_retMu by done. destruct (decide (mr ∈ l)) as [Hin|Hin].
        -- rewrite decide_True; [done|]. split; [by apply Hl|done].
        -- rewrite decide_False; [done|]. intros [? _]. by apply Hin, Hl.
Qed.

(** C7. When a block that the worklist of a used region holds (a
    defining block of the region or a block of its iterated frontier)
    has no entry in the dominance frontier map, [insertPHI] fails with
    no amount of fuel and, with enough fuel, returns a state whose
    warnings are those before followed by one or more copies of the
    frontier warning.  The block contributes nothing and the loop goes
    on: for every region and block the phis are those before and one
    more iff the region is used and the block is in the iterated
    frontier, in which the frontier of a block without an entry is
    empty; nothing else changes. *)
Theorem insertPHI_frontier_miss fuel fn s dfm mr bb :
  df s = Some dfm ->
  (insertPHI_fuel s <= fuel)%nat ->
  mr ∈ usedRegs s ->
  bb ∈ at_key [] (reg2BBMap s) mr \/ IDF dfm (at_key [] (reg2BBMap s) mr) bb ->
  dfm !! bb = None ->
  (forall fuel', ~ isFatal (insertPHI fuel' fn s)) /\
  exists s' n,
    insertPHI fuel fn s = Ok s' /\
    wrnMsgs s' =
      wrnMsgs s ++ replicate (S n) "bb not in the dominance frontier map??"%string /\
    phi_frame s s' /\
    forall r b,
      (r ∈ usedRegs s /\ IDF dfm (at_key [] (reg2BBMap s) r) b /\
         phiCountAt b r s' = S (phiCountAt b r s)) \/
      (~ (r ∈ usedRegs s /\ IDF dfm (at_key [] (reg2BBMap s) r) b) /\
         phiCountAt b r s' = phiCountAt b r s).
Proof.
  intros Hdf Hfuel Hmr Hbb Hmiss. split.
  { intros fuel'. by eapply insertPHI_not_fatal. }
  destruct (insertPHI_spec fuel fn s dfm Hdf Hfuel) as (s' & E & Hframe & Hcount).
  pose proof E as E'. unfold insertPHI, getDF in E'. rewrite Hdf in E'. simpl in E'.
  apply bind_Ok in E' as ([m1 s1] & H1 & [= <-]).
  destruct (insertPHI_regions_wrn dfm fuel (elements (usedRegs s)) ∅ s m1 s1)
    as (_ & n & Hw & Hn); [apply NoDup_elements| |done|].
  { intros r b _. unfold recorded, at_key. rewrite lookup_empty. apply not_elem_of_empty. }
  destruct n as [|n].
  - exfalso. destruct Hn as [Hn _]. specialize (Hn eq_refl mr bb).
    assert (bb ∈ dom dfm) as Hd by (apply Hn; [by apply elem_of_elements|done]).
    apply elem_of_dom in Hd as [? Hd]. congruence.
  - exists s1, n. split; [done|]. split; [exact Hw|]. split; [done|]. exact Hcount.
Qed.

(** C9. The renaming of a block first gives every phi of the block a
    result version that is defined by the phi, minted and pushed then,
    before any operand of any phi changes: these pushes are the first
    operations of the call.  When the call returns, the phis of the
    block have these result versions, and every phi of every successor
    holds, in the slot of the block among the predecessors of the
    successor, the version that was on top of the stack of its region
    after the mus and chis of the block. *)
Theorem SSARenameBB_phi_order fuel bb s s' :
  SSARenameBB P (S fuel) bb s = Ok s' ->
  exists memRegs1 s1 memRegs2 s2 new rest,
    SSARenameBB_phiRes bb s = Ok (memRegs1, s1) /\
    forEachM (SSARenameBB_inst P bb) (bb_insts (getBB P bb)) (memRegs1, s1) =
      Ok (memRegs2, s2) /\
    stackLog s1 = stackLog s ++ new /\
    stackLog s' = stackLog s ++ new ++ rest /\
    Forall2 (phiResRenamed new) (at_key [] (bb2PhiSetMap s) bb) (at_key [] (bb2PhiSetMap s1) bb) /\
    (forall b, phi_opVers <$> at_key [] (bb2PhiSetMap s1) b =
               phi_opVers <$> at_key [] (bb2PhiSetMap s) b) /\
    Forall2 (phiResDone new) (at_key [] (bb2PhiSetMap s) bb) (at_key [] (bb2PhiSetMap s') bb) /\
    forall succ, succ ∈ bb_succs (getBB P bb) ->
      exists pos, list_pos bb (bb_preds (getBB P succ)) = Some pos /\
        forall phi, phi ∈ at_key [] (bb2PhiSetMap s') succ ->
          exists v, topVer (phi_mr phi) s2 = Ok v /\ phi_opVers phi !! pos = Some v.
Proof.
  intros H0. pose proof H0 as H. simpl in H.
  apply bind_Ok in H as ([memRegs1 s1] & H1 & H).
  apply bind_Ok in H as ([memRegs2 s2] & H2 & H).
  apply bind_Ok in H as (s3 & H3 & H).
  apply bind_Ok in H as (t & Ht & H).
  apply bind_Ok in H as (s4 & H4 & H5).
  destruct (SSARenameBB_phiRes_spec _ _ _ _ H1) as (new & Hl & Hf & Ho).
  assert (ren_inv s (memRegs2, s3)) as I3.
  { eapply (forEachM_inv (fun x => ren_inv s (memRegs2, x))); [| |exact H3].
    - intros succ sa sb _ Hi He. by eapply SSARenameBB_succ_inv.
    - eapply (forEachM_inv (ren_inv s)); [|by eapply SSARenameBB_phiRes_inv|exact H2].
      intros inst sa sb _ Hi He. by eapply SSARenameBB_inst_inv. }
  assert (dt s3 = Some t /\ dt s = Some t) as [Hdt3 Hdt].
  { destruct I3 as [_ _ (_&_&_&_&E&_)]. simpl in E. rewrite <- E.
    unfold getDT in Ht. destruct (dt s3) as [t'|]; [|done]. by injection Ht as ->. }
  rename t into tree. clear Ht.
  pose proof (SSARenameBB_insts_phis P _ _ _ _ H2) as E2. simpl in E2.
  pose proof (SSARenameBB_succs_res P _ _ _ _ H3) as R3.
  assert (phis_kept_for P bb s3 s4) as K4.
  { destruct (tree !! bb) as [children|] eqn:Ech;
      [|injection H4 as <-; apply phis_kept_for_refl].
    eapply SSARenameBB_children_kept_for; [|exact Hdt3|exact H4].
    intros c Hc. by eapply SSARenameBB_no_cycle. }
  pose proof (SSARenameBB_pops_phis _ _ _ H5) as E5.
  assert (phis_kept_for P bb s3 s') as K5.
  { eapply phis_kept_for_trans; [exact K4|]. by apply phis_kept_for_same. }
  assert (rtc rstep s1 s') as Hsteps.
  { etrans; [apply (forEachM_steps2 _ _ (SSARenameBB_inst_steps P bb) _ _ H2)|]. simpl.
    etrans; [apply (forEachM_steps _ _ (SSARenameBB_succ_steps P bb) _ _ H3)|].
    etrans; [|apply (forEachM_steps SSARenameBB_pop (rev memRegs2)); [|exact H5]].
    - destruct (tree !! bb) as [children|]; [|by injection H4 as <-].
      apply (forEachM_steps _ _ (SSARenameBB_steps P fuel) _ _ H4).
    - intros mr sa sb Hp. apply rtc_once. by eapply rstep_pop. }
  destruct (rsteps_log _ _ Hsteps) as [rest Hrest].
  exists memRegs1, s1, memRegs2, s2, new, rest.
  split; [done|]. split; [done|]. split; [done|].
  split; [by rewrite Hrest, Hl, app_assoc|]. split; [done|]. split; [done|]. split.
  - specialize (R3 bb). rewrite E2 in R3. specialize (K5 bb).
    eapply Forall2_compose; [|exact Hf|].
    2:{ eapply Forall2_compose; [|exact R3|exact K5].
        intros x y z [A B] (A' & B' & _).
        exact (conj (eq_trans A' A) (eq_trans (B' eq_refl) B)). }
    intros x y z (_ & Hm & _ & v & Hv & Hvm & Hvd & Hin) [A B]. simpl in *.
    split; [congruence|]. exists v. split; [congruence|]. done.
  - intros succ Hsucc.
    destruct (SSARenameBB_succs_spec P bb s2 _ _ _ H3 eq_refl) as (Hall & _).
    destruct (Hall succ Hsucc) as (pos & Hpos & Hphi).
    exists pos. split; [done|]. intros phi Hin.
    destruct (Forall2_elem_r _ _ _ _ (K5 succ) Hin) as (phi3 & Hin3 & Hm & _ & Hop).
    destruct (Hphi phi3 Hin3) as (v & Hv & Hs).
    exists v. rewrite Hm, (Hop pos Hpos). done.
Qed.

End BuildSteps.

(** C5 as stated fails when the function was built before in the
    session: the phis of the first build are still there, [insertPHI]
    inserts the phi of region 7 at the join block of [diamond] again,
    and the block holds two phis of the region. *)
Lemma insertPHI_second_build_two_phis :
  buildMemSSA prog 10 diamond (Some diamondDF) (Some diamondDT) initMemSSA = Ok diamond3 /\
  createMUCHI prog diamond (setCurrentDFDT (Some diamondDF) (Some diamondDT) diamond3) =
    Ok rebuilt1 /\
  insertPHI 10 diamond rebuilt1 = Ok rebuilt2 /\
  at_key [] (reg2BBMap rebuilt1) 7 = [1] /\
  IDF diamondDF [1] 3 /\
  phiCountAt 3 7 rebuilt2 = 2%nat /\
  ~ (phiCountAt 3 7 rebuilt2 <= 1)%nat.
Proof.
  split; [vm_compute; reflexivity|]. split; [vm_compute; reflexivity|].
  split; [vm_compute; reflexivity|]. split; [vm_compute; reflexivity|].
  split; [|split; [vm_compute; reflexivity|vm_compute; lia]].
  apply (IDF_def diamondDF [1] 1 3); [by left|]. vm_compute. set_solver.
Qed.

Lemma createMUCHI_entry_return_nodes_witness :
  createMUCHI prog diamond diamond0 = Ok diamond1 /\
  exists chis mus,
    at_key [] (funToEntryChiSetMap diamond1) 1 =
      at_key [] (funToEntryChiSetMap diamond0) 1 ++ chis /\
    at_key [] (funToReturnMuSetMap diamond1) 1 =
      at_key [] (funToReturnMuSetMap diamond0) 1 ++ mus /\
    (forall chi, chi ∈ chis -> chi_site chi = EntryCHISite 1) /\
    (forall mu, mu ∈ mus -> mu_site mu = RetMUSite 1) /\
    forall mr,
      length (filter (fun c => chi_mr c = mr) chis) =
        (if decide (mr ∈ funRegs prog diamond ∪ usedRegs diamond0) then 1 else 0)%nat /\
      length (filter (fun m => mu_mr m = mr) mus) =
        (if decide (mr ∈ funRegs prog diamond ∪ usedRegs diamond0 /\ false = false)
         then 1 else 0)%nat.
Proof.
  assert (createMUCHI prog diamond diamond0 = Ok diamond1) as H by (vm_compute; reflexivity).
  split; [exact H|].
  exact (createMUCHI_entry_return_nodes prog diamond diamond0 diamond1 H).
Defined.

(** The build of [diamond] starts without used regions; the one region
    of the function is region 7: the build gives it one entry chi and,
    as the function returns, one return mu. *)
Lemma diamond_entry_return_nodes :
  usedRegs diamond0 = ∅ /\
  funRegs prog diamond = {[7]} /\
  at_key [] (funToEntryChiSetMap diamond1) 1 =
    [mkCHI (EntryCHISite 1) 7 (Some (mkMRVer 7 0 (DefCHI (EntryCHISite 1) 7)))
       (Some (mkMRVer 7 1 (DefCHI (EntryCHISite 1) 7)))] /\
  at_key [] (funToReturnMuSetMap diamond1) 1 = [mkMU (RetMUSite 1) 7 None].
Proof. repeat split; vm_compute; reflexivity. Qed.

Lemma insertPHI_frontier_miss_witness :
  df diamondMiss1 = Some (delete 3 diamondDF) /\
  (insertPHI_fuel diamondMiss1 <= 10)%nat /\
  7 ∈ usedRegs diamondMiss1 /\
  (3 ∈ at_key [] (reg2BBMap diamondMiss1) 7 \/
   IDF (delete 3 diamondDF) (at_key [] (reg2BBMap diamondMiss1) 7) 3) /\
  delete 3 diamondDF !! 3 = None /\
  (forall fuel', ~ isFatal (insertPHI fuel' diamond diamondMiss1)) /\
  exists s' n,
    insertPHI 10 diamond diamondMiss1 = Ok s' /\
    wrnMsgs s' =
      wrnMsgs diamondMiss1 ++ replicate (S n) "bb not in the dominance frontier map??"%string /\
    phi_frame diamondMiss1 s' /\
    forall r b,
      (r ∈ usedRegs diamondMiss1 /\
       IDF (delete 3 diamondDF) (at_key [] (reg2BBMap diamondMiss1) r) b /\
         phiCountAt b r s' = S (phiCountAt b r diamondMiss1)) \/
      (~ (r ∈ usedRegs diamondMiss1 /\
          IDF (delete 3 diamondDF) (at_key [] (reg2BBMap diamondMiss1) r) b) /\
         phiCountAt b r s' = phiCountAt b r diamondMiss1).
Proof.
  assert (df diamondMiss1 = Some (delete 3 diamondDF)) as Hdf by (vm_compute; reflexivity).
  assert (insertPHI_fuel diamondMiss1 <= 10)%nat as Hfuel by (vm_compute; lia).
  assert (7 ∈ usedRegs diamondMiss1) as Hmr by (vm_compute; set_solver).
  assert (3 ∈ at_key [] (reg2BBMap diamondMiss1) 7 \/
          IDF (delete 3 diamondDF) (at_key [] (reg2BBMap diamondMiss1) 7) 3) as Hbb.
  { right. apply (IDF_def _ _ 1 3); [vm_compute; set_solver|vm_compute; set_solver]. }
  assert (delete 3 diamondDF !! 3 = None) as Hmiss by (vm_compute; reflexivity).
  split; [exact Hdf|]. split; [exact Hfuel|]. split; [exact Hmr|]. split; [exact Hbb|].
  split; [exact Hmiss|].
  exact (insertPHI_frontier_miss 10 diamond diamondMiss1 (delete 3 diamondDF) 7 3
           Hdf Hfuel Hmr Hbb Hmiss).
Defined.

Lemma SSARenameBB_phi_order_witness :
  SSARenameBB loopProg (S 8) 1 loopAt1 = Ok loopAfter1 /\
  exists memRegs1 s1 memRegs2 s2 new rest,
    SSARenameBB_phiRes 1 loopAt1 = Ok (memRegs1, s1) /\
    forEachM (SSARenameBB_inst loopProg 1) (bb_insts (getBB loopProg 1)) (memRegs1, s1) =
      Ok (memRegs2, s2) /\
    stackLog s1 = stackLog loopAt1 ++ new /\
    stackLog loopAfter1 = stackLog loopAt1 ++ new ++ rest /\
    Forall2 (phiResRenamed new) (at_key [] (bb2PhiSetMap loopAt1) 1)
      (at_key [] (bb2PhiSetMap s1) 1) /\
    (forall b, phi_opVers <$> at_key [] (bb2PhiSetMap s1) b =
               phi_opVers <$> at_key [] (bb2PhiSetMap loopAt1) b) /\
    Forall2 (phiResDone new) (at_key [] (bb2PhiSetMap loopAt1) 1)
      (at_key [] (bb2PhiSetMap loopAfter1) 1) /\
    forall succ, succ ∈ bb_succs (getBB loopProg 1) ->
      exists pos, list_pos 1 (bb_preds (getBB loopProg succ)) = Some pos /\
        forall phi, phi ∈ at_key [] (bb2PhiSetMap loopAfter1) succ ->
          exists v, topVer (phi_mr phi) s2 = Ok v /\ phi_opVers phi !! pos = Some v.
Proof.
  assert (SSARenameBB loopProg (S 8) 1 loopAt1 = Ok loopAfter1) as H
    by (vm_compute; reflexivity).
  split; [exact H|].
  exact (SSARenameBB_phi_order loopProg 8 1 loopAt1 loopAfter1 H).
Defined.

(** The block of the loop has a phi for region 7; the walk enters it
    with the operand of block 0 filled, and leaves it with the result
    version 2 and, in the slot of the block itself, the version 3 of the
    store. *)
Lemma loop_phi_renamed :
  at_key [] (bb2PhiSetMap loopAt1) 1 =
    [mkPHI 1 7 None {[0%nat := mkMRVer 7 1 (DefCHI (EntryCHISite 4) 7)]}] /\
  list_pos 1 (bb_preds (getBB loopProg 1)) = Some 1%nat /\
  at_key [] (bb2PhiSetMap loopAfter1) 1 =
    [mkPHI 1 7 (Some (mkMRVer 7 2 (DefPHI 1 7)))
       {[0%nat := mkMRVer 7 1 (DefCHI (EntryCHISite 4) 7);
         1%nat := mkMRVer 7 3 (DefCHI (StoreCHISite 1 40) 7)]}].
Proof. repeat split; vm_compute; reflexivity. Qed.

(** * Further properties of the builder *)

(** X1. A version that [newSSAName] pushes and the final loop of
    [SSARenameBB] pops again leaves the version stacks as they were, but
    not the counter of the region: the next version minted for the
    region has the next number, so the number of a popped version is
    not given out a second time. *)
Theorem newSSAName_pop_round_trip mr def s v s1 :
  newSSAName mr def s = Ok (v, s1) ->
  exists s2, SSARenameBB_pop mr s1 = Ok s2 /\
    mr2VerStackMap s2 = mr2VerStackMap s /\
    mr2CounterMap s2 !! mr = Some (ver_version v + 1) /\
    forall def' v' s3, newSSAName mr def' s2 = Ok (v', s3) ->
      ver_version v' = ver_version v + 1.
Proof.
  intros (version & stack & Hc & Hs & -> & ->)%newSSAName_Ok.
  eexists. split.
  { apply (SSARenameBB_pop_eq _ _ stack (mkMRVer mr version def)). simpl.
    rewrite at_key_insert, decide_True by done. apply pop_back_snoc. }
  simpl. split; [by rewrite insert_insert_eq, insert_id|].
  split; [by rewrite lookup_insert_eq|].
  intros def' v' s3 (version' & stack' & Hc' & _ & -> & _)%newSSAName_Ok.
  simpl in *. rewrite lookup_insert_eq in Hc'. by injection Hc' as <-.
Qed.

Lemma newSSAName_pop_round_trip_witness :
  newSSAName 7 (DefPHI 3 7) diamond1 = Ok (mkMRVer 7 2 (DefPHI 3 7), diamond1minted) /\
  exists s2, SSARenameBB_pop 7 diamond1minted = Ok s2 /\
    mr2VerStackMap s2 = mr2VerStackMap diamond1 /\
    mr2CounterMap s2 !! 7 = Some (2 + 1) /\
    forall def' v' s3, newSSAName 7 def' s2 = Ok (v', s3) -> ver_version v' = 2 + 1.
Proof.
  assert (newSSAName 7 (DefPHI 3 7) diamond1 = Ok (mkMRVer 7 2 (DefPHI 3 7), diamond1minted))
    as H by (vm_compute; reflexivity).
  split; [exact H|].
  exact (newSSAName_pop_round_trip 7 (DefPHI 3 7) diamond1 _ diamond1minted H).
Defined.

Section Extra.
Variable P : Program.

(** X2. Whatever the state before, once [setCurrentDFDT] has set a
    dominator tree [createMUCHI] succeeds, and the used regions it
    leaves are exactly the regions of the loads, stores and call sites
    in the reachable blocks: a region that a block writes before it
    reads it counts as used all the same, because a chi is a use. *)
Theorem createMUCHI_usedRegs fn f t s0 :
  exists s1, createMUCHI P fn (setCurrentDFDT f (Some t) s0) = Ok s1 /\
    usedRegs s1 = funRegs P fn.
Proof.
  destruct (createMUCHI_adds P fn (setCurrentDFDT f (Some t) s0) t eq_refl) as (s1 & E & _).
  exists s1. split; [done|]. by eapply usedRegs_after_createMUCHI.
Qed.

(** X3. After [setCurrentDFDT] and [createMUCHI] the blocks recorded as
    defining a region are exactly the reachable blocks with a store to
    the region and the blocks of the call sites in reachable blocks that
    modify it; nothing of an earlier function is left in the record. *)
Theorem createMUCHI_def_blocks fn f t s0 :
  exists s1, createMUCHI P fn (setCurrentDFDT f (Some t) s0) = Ok s1 /\
    forall mr b,
      b ∈ at_key [] (reg2BBMap s1) mr <->
      exists bb inst,
        bb ∈ fun_reachableBBs fn /\ inst ∈ bb_insts (getBB P bb) /\
        ((inst_hasPAGEdgeList inst = true /\
          exists store, StoreEdge store ∈ inst_pagEdges inst /\
            mr ∈ getStoreMRSet (mrGen P) store /\ b = bb) \/
         (exists cs, inst_callSite inst = Some cs /\
            hasModMRSet (mrGen P) cs = true /\
            mr ∈ getCallSiteModMRSet (mrGen P) cs /\ b = callSiteBB P cs)).
Proof.
  destruct (createMUCHI_adds P fn (setCurrentDFDT f (Some t) s0) t eq_refl) as (s1 & E & Hf).
  exists s1. split; [done|]. intros mr b. specialize (Hf (FDef mr b)). simpl in Hf.
  rewrite Hf. unfold fun_adds. split.
  - intros [Hin|(bb & inst & Hbb & Hinst & Hadd)]; [by apply elem_of_nil in Hin|].
    exists bb, inst. split; [done|]. split; [done|].
    destruct Hadd as [(Hp & e & He & Hadd)|(cs & Hcs & Hadd)].
    + left. split; [done|]. destruct e as [load|store|]; simpl in Hadd.
      * destruct Hadd as (mr' & _ & [[=]|[=]]).
      * destruct Hadd as (mr' & Hmr' & [[=]|[[= -> ->]|[=]]]). by exists store.
      * done.
    + right. exists cs. split; [done|].
      destruct Hadd as [(_ & mr' & _ & [[=]|[=]])|(Hm & mr' & Hmr' & [[=]|[[= -> ->]|[=]]])].
      done.
  - intros (bb & inst & Hbb & Hinst & Hd). right. exists bb, inst.
    split; [done|]. split; [done|].
    destruct Hd as [(Hp & store & He & Hmr & ->)|(cs & Hcs & Hm & Hmr & ->)].
    + left. split; [done|]. exists (StoreEdge store). split; [done|]. simpl.
      exists mr. split; [done|]. right. by left.
    + right. exists cs. split; [done|]. right. split; [done|].
      exists mr. split; [done|]. right. by left.
Qed.

(** X4. [createMUCHI] appends to the mus of every load and to the chis
    of every store, and what it appends is, in the order of its walk
    over the reachable blocks, their instructions and their edges
    ([funLoadMus], [funStoreChis]), one list per occurrence of the edge
    in an instruction with an edge list: the list that holds exactly one
    node without versions per region of the region set of the edge.  An
    edge that occurs in no reachable block gets nothing. *)
Theorem createMUCHI_load_store_nodes fn f t s0 :
  exists s1, createMUCHI P fn (setCurrentDFDT f (Some t) s0) = Ok s1 /\
    (forall load, at_key [] (load2MuSetMap s1) load =
       at_key [] (load2MuSetMap s0) load ++
       funLoadMus P fn load) /\
    (forall store, at_key [] (store2ChiSetMap s1) store =
       at_key [] (store2ChiSetMap s0) store ++
       funStoreChis P fn store) /\
    (forall bb load,
       NoDup (mu_mr <$> loadMus P bb load) /\
       forall mu, mu ∈ loadMus P bb load <->
         exists mr, mr ∈ getLoadMRSet (mrGen P) load /\
                    mu = mkMU (LoadMUSite bb load) mr None) /\
    (forall bb store,
       NoDup (chi_mr <$> storeChis P bb store) /\
       forall chi, chi ∈ storeChis P bb store <->
         exists mr, mr ∈ getStoreMRSet (mrGen P) store /\
                    chi = mkCHI (StoreCHISite bb store) mr None None).
Proof.
  destruct (createMUCHI_appends P fn (setCurrentDFDT f (Some t) s0) t eq_refl)
    as (s1 & E & Hl & Hs & _).
  exists s1. split; [done|]. split; [|split; [|split]].
  - intros load. by rewrite Hl.
  - intros store. by rewrite Hs.
  - intros bb load. split; [apply loadMus_regions|apply loadMus_spec].
  - intros bb store. split; [apply storeChis_regions|apply storeChis_spec].
Qed.

(** X5. [createMUCHI] appends to the mus and to the chis of every call
    site, and what it appends is, in the order of its walk over the
    reachable blocks and their instructions ([funCallMus],
    [funCallChis]), one list per instruction with that call site: for the mus the list that holds exactly one mu
    without a version per region of the ref set if [hasRefMRSet] holds
    and nothing otherwise, for the chis the same with the mod set and
    [hasModMRSet].  A call site of no reachable block gets nothing. *)
Theorem createMUCHI_callsite_nodes fn f t s0 :
  exists s1, createMUCHI P fn (setCurrentDFDT f (Some t) s0) = Ok s1 /\
    (forall cs, at_key [] (callsiteToMuSetMap s1) cs =
       at_key [] (callsiteToMuSetMap s0) cs ++
       funCallMus P fn cs) /\
    (forall cs, at_key [] (callsiteToChiSetMap s1) cs =
       at_key [] (callsiteToChiSetMap s0) cs ++
       funCallChis P fn cs) /\
    (forall cs,
       NoDup (mu_mr <$> callMus P cs) /\
       forall mu, mu ∈ callMus P cs <->
         hasRefMRSet (mrGen P) cs = true /\
         exists mr, mr ∈ getCallSiteRefMRSet (mrGen P) cs /\
                    mu = mkMU (CallMUSite cs) mr None) /\
    (forall cs,
       NoDup (chi_mr <$> callChis P cs) /\
       forall chi, chi ∈ callChis P cs <->
         hasModMRSet (mrGen P) cs = true /\
         exists mr, mr ∈ getCallSiteModMRSet (mrGen P) cs /\
                    chi = mkCHI (CallCHISite cs) mr None None).
Proof.
  destruct (createMUCHI_appends P fn (setCurrentDFDT f (Some t) s0) t eq_refl)
    as (s1 & E & _ & _ & Hm & Hc).
  exists s1. split; [done|]. split; [|split; [|split]].
  - intros cs. by rewrite Hm.
  - intros cs. by rewrite Hc.
  - intros cs. split; [apply callMus_regions|apply callMus_spec].
  - intros cs. split; [apply callChis_regions|apply callChis_spec].
Qed.

End Extra.

(** X6. The warnings of [insertPHI] are copies of one message, appended
    to the log, and there is none exactly when the frontier map has an
    entry for every block that the worklists hold: the defining blocks
    of the used regions and the blocks of their iterated frontiers. *)
Theorem insertPHI_warnings fuel fn s s' dfm :
  insertPHI fuel fn s = Ok s' -> df s = Some dfm ->
  exists n, wrnMsgs s' = wrnMsgs s ++ replicate n frontierWarning /\
    (n = 0%nat <->
     forall mr b, mr ∈ usedRegs s ->
       b ∈ at_key [] (reg2BBMap s) mr \/ IDF dfm (at_key [] (reg2BBMap s) mr) b ->
       b ∈ dom dfm).
Proof.
  intros H Hdf. unfold insertPHI, getDF in H. rewrite Hdf in H. simpl in H.
  apply bind_Ok in H as ([m1 s1] & H1 & [= <-]).
  destruct (insertPHI_regions_wrn dfm fuel (elements (usedRegs s)) ∅ s m1 s1)
    as (_ & n & Hw & Hn); [apply NoDup_elements| |done|].
  { intros mr b _. unfold recorded, at_key. rewrite lookup_empty. apply not_elem_of_empty. }
  exists n. split; [done|]. rewrite Hn. by setoid_rewrite elem_of_elements.
Qed.

Lemma insertPHI_warnings_witness :
  insertPHI 10 diamond diamond1 = Ok diamond2 /\
  df diamond1 = Some diamondDF /\
  exists n, wrnMsgs diamond2 = wrnMsgs diamond1 ++ replicate n frontierWarning /\
    (n = 0%nat <->
     forall mr b, mr ∈ usedRegs diamond1 ->
       b ∈ at_key [] (reg2BBMap diamond1) mr \/
       IDF diamondDF (at_key [] (reg2BBMap diamond1) mr) b ->
       b ∈ dom diamondDF).
Proof.
  assert (insertPHI 10 diamond diamond1 = Ok diamond2) as H by (vm_compute; reflexivity).
  assert (df diamond1 = Some diamondDF) as Hdf by (vm_compute; reflexivity).
  split; [exact H|]. split; [exact Hdf|].
  exact (insertPHI_warnings 10 diamond diamond1 diamond2 diamondDF H Hdf).
Defined.

(** X7. [insertPHI] keeps no record between calls of the phis it has
    inserted: a second call on its own result inserts, at every block
    and for every region, as many phis again as the first call did. *)
Theorem insertPHI_twice fuel fuel' fn s s1 s2 :
  insertPHI fuel fn s = Ok s1 -> insertPHI fuel' fn s1 = Ok s2 ->
  forall b mr,
    (phiCountAt b mr s2 + phiCountAt b mr s = 2 * phiCountAt b mr s1)%nat.
Proof.
  intros H1 H2 b mr.
  destruct (insertPHI_Ok_df _ _ _ _ H1) as [dfm Hdf].
  destruct (insertPHI_Ok_spec _ _ _ _ dfm H1 Hdf) as [F1 C1].
  assert (df s1 = Some dfm) as Hdf1.
  { destruct F1 as (_&_&_&_&_&_&_&_&_&_&_&_&->&_). done. }
  destruct (insertPHI_Ok_spec _ _ _ _ dfm H2 Hdf1) as [_ C2].
  destruct F1 as (_&_&_&_&_&_&_&_&_&Hu&_&Hr&_).
  specialize (C1 mr b). specialize (C2 mr b). rewrite Hu, Hr in C2.
  destruct C1 as [(? & ? & ?)|[Hn ?]], C2 as [(? & ? & ?)|[Hn' ?]]; try lia.
  - exfalso. apply Hn'. done.
  - exfalso. apply Hn. done.
Qed.

Lemma insertPHI_twice_witness :
  insertPHI 10 diamond diamond1 = Ok diamond2 /\
  insertPHI 10 diamond diamond2 = Ok diamond2again /\
  forall b mr,
    (phiCountAt b mr diamond2again + phiCountAt b mr diamond1 =
     2 * phiCountAt b mr diamond2)%nat.
Proof.
  assert (insertPHI 10 diamond diamond1 = Ok diamond2) as H1 by (vm_compute; reflexivity).
  assert (insertPHI 10 diamond diamond2 = Ok diamond2again) as H2 by (vm_compute; reflexivity).
  split; [exact H1|]. split; [exact H2|].
  exact (insertPHI_twice 10 10 diamond diamond1 diamond2 diamond2again H1 H2).
Defined.

(** X8. [insertPHI] changes no phi that is there: at every block the
    phis after the call are the phis before it followed by new ones, and
    a new phi is a phi of that block for a used region, without a result
    version and without operands. *)
Theorem insertPHI_appends_blank_phis fuel fn s s' :
  insertPHI fuel fn s = Ok s' ->
  forall b, exists new,
    at_key [] (bb2PhiSetMap s') b = at_key [] (bb2PhiSetMap s) b ++ new /\
    forall phi, phi ∈ new ->
      phi = mkPHI b (phi_mr phi) None ∅ /\ phi_mr phi ∈ usedRegs s.
Proof. intros H. by apply insertPHI_appended in H. Qed.

Lemma insertPHI_appends_blank_phis_witness :
  insertPHI 10 diamond diamond1 = Ok diamond2 /\
  forall b, exists new,
    at_key [] (bb2PhiSetMap diamond2) b = at_key [] (bb2PhiSetMap diamond1) b ++ new /\
    forall phi, phi ∈ new ->
      phi = mkPHI b (phi_mr phi) None ∅ /\ phi_mr phi ∈ usedRegs diamond1.
Proof.
  assert (insertPHI 10 diamond diamond1 = Ok diamond2) as H by (vm_compute; reflexivity).
  split; [exact H|].
  exact (insertPHI_appends_blank_phis 10 diamond diamond1 diamond2 H).
Defined.

Section Extra2.
Variable P : Program.

(** X9. [createMUCHI] raises the statistic [getFunEntryChiNum] by the
    number of regions of the function, and [getFunRetMuNum] by the same
    number unless the function does not return, both in [u32_t]
    arithmetic; [getBBPhiNum] stays as it is. *)
Theorem createMUCHI_statistics fn f t s0 :
  exists s1, createMUCHI P fn (setCurrentDFDT f (Some t) s0) = Ok s1 /\
    getFunEntryChiNum s1 = u32 (getFunEntryChiNum s0 + N.of_nat (size (funRegs P fn))) /\
    getFunRetMuNum s1 =
      u32 (getFunRetMuNum s0 +
           if fun_doesNotRet fn then 0 else N.of_nat (size (funRegs P fn))) /\
    getBBPhiNum s1 = getBBPhiNum s0.
Proof.
  set (s := setCurrentDFDT f (Some t) s0).
  destruct (createMUCHI_adds P fn s t eq_refl) as (s1 & E & _).
  exists s1. split; [done|].
  pose proof (usedRegs_after_createMUCHI P fn f (Some t) s0 s1 E) as Hu.
  pose proof (createMUCHI_Ok P fn s s1 E) as (Hu1 & _ & _ & _ & Hphi & _).
  rewrite (createMUCHI_unfold P fn s t eq_refl) in E.
  set (sm := forEach (createMUCHI_bb P) (fun_reachableBBs fn) s) in *.
  destruct (createMUCHI_entries_spec fn (elements (usedRegs sm)) sm)
    as (s1' & E' & _ & _ & Hchi & Hmu & Hother & _).
  rewrite E' in E. injection E as ->.
  destruct (createMUCHI_bbs_frame P (fun_reachableBBs fn) s) as (_&_&_&Hec&Hrm&_).
  fold sm in Hec, Hrm.
  assert (length (elements (usedRegs sm)) = size (funRegs P fn)) as Hlen.
  { rewrite <- Hu, Hu1. done. }
  split; [|split].
  - unfold getFunEntryChiNum. change (funToEntryChiSetMap s0) with (funToEntryChiSetMap s).
    rewrite <- Hec. rewrite <- Hlen.
    apply (sumSetSizes_bump _ _ (fun_id fn)). intros k. case_decide as Ek.
    + subst k. by rewrite Hchi, length_app, length_fmap.
    + unfold at_key. destruct (Hother k Ek) as [-> _]. lia.
  - unfold getFunRetMuNum. change (funToReturnMuSetMap s0) with (funToReturnMuSetMap s).
    rewrite <- Hrm.
    replace (if fun_doesNotRet fn then 0 else N.of_nat (size (funRegs P fn)))
      with (N.of_nat (if fun_doesNotRet fn then 0 else length (elements (usedRegs sm))))
      by (rewrite Hlen; by destruct (fun_doesNotRet fn)).
    apply (sumSetSizes_bump _ _ (fun_id fn)). intros k. case_decide as Ek.
    + subst k. rewrite Hmu, length_app. by destruct (fun_doesNotRet fn); rewrite ?length_fmap.
    + unfold at_key. destruct (Hother k Ek) as [_ ->]. lia.
  - unfold getBBPhiNum. by rewrite Hphi.
Qed.

(** X10. Renaming changes versions only: under every load, store, call
    site, function and block, [SSARename] leaves the same mus, chis and
    phis, with their sites and regions and in their order, and it does
    not touch the entry chis. *)
Theorem SSARename_keeps_nodes fuel fn s s' :
  SSARename P fuel fn s = Ok s' -> same_shape s s'.
Proof. unfold SSARename. apply SSARenameBB_shape. Qed.

(** X11. The seven statistics of the builder are the same before and
    after [SSARename]. *)
Theorem SSARename_statistics fuel fn s s' :
  SSARename P fuel fn s = Ok s' ->
  getLoadMuNum s' = getLoadMuNum s /\ getStoreChiNum s' = getStoreChiNum s /\
  getFunEntryChiNum s' = getFunEntryChiNum s /\ getFunRetMuNum s' = getFunRetMuNum s /\
  getCallSiteMuNum s' = getCallSiteMuNum s /\ getCallSiteChiNum s' = getCallSiteChiNum s /\
  getBBPhiNum s' = getBBPhiNum s.
Proof.
  intros H. apply SSARenameBB_shape in H as (A&B&C&D&E&F&G).
  unfold getLoadMuNum, getStoreChiNum, getFunEntryChiNum, getFunRetMuNum,
    getCallSiteMuNum, getCallSiteChiNum, getBBPhiNum.
  rewrite G. repeat split; try done; by eapply sumSetSizes_shape.
Qed.

(** X12. On a control-flow graph in which every block is among the
    predecessors of its successors, and with a dominator tree that is a
    tree, [buildMemSSA] of a function that is not external completes
    without a failed assertion, from a fresh builder and from the state
    that an earlier such build has left; the used regions it leaves are
    those of the function, and the state it leaves admits the next
    build. *)
Theorem buildMemSSA_completes fn dfm tree rank s0 :
  cfg_ok P -> tree_ranked tree rank -> ready s0 -> fun_isExtCall fn = false ->
  exists n, forall fuel, (n <= fuel)%nat ->
    exists s', buildMemSSA P fuel fn (Some dfm) (Some tree) s0 = Ok s' /\
      ready s' /\ usedRegs s' = funRegs P fn.
Proof.
  intros Hcfg Htree Hready Hext.
  destruct (buildMemSSA_total P fn dfm tree rank s0 Hcfg Htree Hready Hext) as (n & Hn).
  exists n. intros fuel Hfuel. destruct (Hn fuel Hfuel) as (s' & E & Hr).
  exists s'. split; [done|]. split; [done|].
  destruct (buildMemSSA_Ok P _ _ _ _ _ _ E) as (_ & s1 & s2 & E1 & E2 & E3).
  destruct (insertPHI_Ok_df _ _ _ _ E2) as [dfm' Hdf].
  destruct (insertPHI_Ok_spec _ _ _ _ dfm' E2 Hdf) as [F2 _].
  destruct (SSARenameBB_balanced P _ _ _ _ E3) as (_ & _ & F3).
  destruct F3 as (-> & _). destruct F2 as (_&_&_&_&_&_&_&_&_&->&_).
  by eapply usedRegs_after_createMUCHI.
Qed.

(** X13. A build leaves the entry chis of every other function as they
    are, and adds to those of its own function one entry chi per region
    of the function, with the versions 0 and 1; renaming does not give
    them other versions. *)
Theorem buildMemSSA_entry_chis fuel fn f t s0 s' :
  buildMemSSA P fuel fn f t s0 = Ok s' ->
  (forall g, g <> fun_id fn ->
     funToEntryChiSetMap s' !! g = funToEntryChiSetMap s0 !! g) /\
  at_key [] (funToEntryChiSetMap s') (fun_id fn) =
    at_key [] (funToEntryChiSetMap s0) (fun_id fn) ++
    (entryChiOf fn <$> elements (funRegs P fn)).
Proof.
  intros E.
  destruct (buildMemSSA_Ok P _ _ _ _ _ _ E) as (_ & s1 & s2 & E1 & E2 & E3).
  destruct (insertPHI_Ok_df _ _ _ _ E2) as [dfm' Hdf].
  destruct (insertPHI_Ok_spec _ _ _ _ dfm' E2 Hdf) as [F2 _].
  destruct (SSARenameBB_balanced P _ _ _ _ E3) as (_ & _ & F3).
  destruct F3 as (_&_&_&_&_&->&_). destruct F2 as (_&_&_&->&_).
  pose proof (usedRegs_after_createMUCHI P fn f t s0 s1 E1) as Hu.
  pose proof (createMUCHI_Ok P fn _ s1 E1) as (Hu1 & _).
  destruct (createMUCHI_Ok_dt _ _ _ _ E1) as [tree Hdt].
  rewrite (createMUCHI_unfold P fn _ tree Hdt) in E1.
  set (sm := forEach (createMUCHI_bb P) (fun_reachableBBs fn) (setCurrentDFDT f t s0)) in *.
  destruct (createMUCHI_entries_spec fn (elements (usedRegs sm)) sm)
    as (s1' & E' & _ & _ & Hchi & _ & Hother & _).
  rewrite E' in E1. injection E1 as ->.
  destruct (createMUCHI_bbs_frame P (fun_reachableBBs fn) (setCurrentDFDT f t s0))
    as (_&_&_&Hec&_). fold sm in Hec. simpl in Hec.
  split.
  - intros g Hg. destruct (Hother g Hg) as [-> _]. by rewrite Hec.
  - by rewrite Hchi, Hec, <- Hu1, Hu.
Qed.

End Extra2.

(** X14. [isMemAccessFunction] holds exactly of the names in which
    [memcpy], [memmove] or [strcpy] occurs, at any place. *)
Theorem isMemAccessFunction_occurs funcName :
  isMemAccessFunction funcName = true <->
  exists pat pre post,
    pat ∈ memfunction /\ funcName = String.append pre (String.append pat post).
Proof.
  apply isMemAccessFunction_from_spec. intros pat Hpat. unfold memfunction in Hpat.
  repeat (apply elem_of_cons in Hpat as [->|Hpat]; [done|]). by apply elem_of_nil in Hpat.
Qed.

Lemma SSARename_keeps_nodes_witness :
  SSARename prog 10 diamond diamond2 = Ok diamond3 /\ same_shape diamond2 diamond3.
Proof.
  assert (SSARename prog 10 diamond diamond2 = Ok diamond3) as H by (vm_compute; reflexivity).
  split; [exact H|]. exact (SSARename_keeps_nodes prog 10 diamond diamond2 diamond3 H).
Defined.

Lemma SSARename_statistics_witness :
  SSARename prog 10 diamond diamond2 = Ok diamond3 /\
  getLoadMuNum diamond3 = getLoadMuNum diamond2 /\
  getStoreChiNum diamond3 = getStoreChiNum diamond2 /\
  getFunEntryChiNum diamond3 = getFunEntryChiNum diamond2 /\
  getFunRetMuNum diamond3 = getFunRetMuNum diamond2 /\
  getCallSiteMuNum diamond3 = getCallSiteMuNum diamond2 /\
  getCallSiteChiNum diamond3 = getCallSiteChiNum diamond2 /\
  getBBPhiNum diamond3 = getBBPhiNum diamond2.
Proof.
  assert (SSARename prog 10 diamond diamond2 = Ok diamond3) as H by (vm_compute; reflexivity).
  split; [exact H|]. exact (SSARename_statistics prog 10 diamond diamond2 diamond3 H).
Defined.

Lemma buildMemSSA_completes_witness :
  cfg_ok prog /\ tree_ranked diamondDT diamondRank /\ ready initMemSSA /\
  fun_isExtCall diamond = false /\
  exists n, forall fuel, (n <= fuel)%nat ->
    exists s', buildMemSSA prog fuel diamond (Some diamondDF) (Some diamondDT) initMemSSA = Ok s' /\
      ready s' /\ usedRegs s' = funRegs prog diamond.
Proof.
  assert (cfg_ok prog) as Hcfg.
  { intros b succ Hs.
    destruct b as [|[[p|p|]|[p|p|]|]]; simpl in Hs;
      repeat (apply elem_of_cons in Hs as [->|Hs]; [simpl; set_solver|]);
      by apply elem_of_nil in Hs. }
  assert (tree_ranked diamondDT diamondRank) as Htree.
  { intros b children c Hl Hc. unfold diamondDT in Hl.
    repeat (apply lookup_insert_Some in Hl as [[<- <-]|[? Hl]]);
      try (by apply elem_of_nil in Hc).
    - repeat (apply elem_of_cons in Hc as [->|Hc]; [vm_compute; lia|]).
      by apply elem_of_nil in Hc.
    - apply lookup_singleton_Some in Hl as [<- <-]. by apply elem_of_nil in Hc. }
  assert (ready initMemSSA) as Hready by apply ready_init.
  assert (fun_isExtCall diamond = false) as Hext by reflexivity.
  split; [exact Hcfg|]. split; [exact Htree|]. split; [exact Hready|]. split; [exact Hext|].
  exact (buildMemSSA_completes prog diamond diamondDF diamondDT diamondRank initMemSSA
           Hcfg Htree Hready Hext).
Defined.

Lemma buildMemSSA_entry_chis_witness :
  buildMemSSA prog 10 diamond (Some diamondDF) (Some diamondDT) initMemSSA = Ok diamond3 /\
  (forall g, g <> fun_id diamond ->
     funToEntryChiSetMap diamond3 !! g = funToEntryChiSetMap initMemSSA !! g) /\
  at_key [] (funToEntryChiSetMap diamond3) (fun_id diamond) =
    at_key [] (funToEntryChiSetMap initMemSSA) (fun_id diamond) ++
    (entryChiOf diamond <$> elements (funRegs prog diamond)).
Proof.
  assert (buildMemSSA prog 10 diamond (Some diamondDF) (Some diamondDT) initMemSSA =
          Ok diamond3) as H by (vm_compute; reflexivity).
  split; [exact H|].
  exact (buildMemSSA_entry_chis prog 10 diamond (Some diamondDF) (Some diamondDT)
           initMemSSA diamond3 H).
Defined.

Section Extra3.
Variable P : Program.

(** X15. After a build, no node of a block that the walk over the
    dominator tree visits is left without its versions: every phi of the
    block has a result version, every mu of its loads and call sites a
    version, every chi of its stores and call sites both versions, and
    at a return every return mu of the block's function a version. *)
Theorem buildMemSSA_assigns_versions fuel fn f tree s0 s' b :
  buildMemSSA P fuel fn f (Some tree) s0 = Ok s' ->
  visits tree (fun_entryBlock fn) b ->
  block_done P b s'.
Proof.
  intros E Hv.
  destruct (buildMemSSA_Ok P _ _ _ _ _ _ E) as (_ & s1 & s2 & E1 & E2 & E3).
  destruct (insertPHI_Ok_df _ _ _ _ E2) as [dfm' Hdf].
  destruct (insertPHI_Ok_spec _ _ _ _ dfm' E2 Hdf) as [F2 _].
  assert (dt s2 = Some tree) as Hdt2.
  { destruct F2 as (_&_&_&_&_&_&_&_&_&_&_&_&_&->).
    pose proof (createMUCHI_Ok P fn _ s1 E1) as (_ & _ & _ & -> & _). done. }
  eapply SSARenameBB_visits; [exact Hv|exact E3|exact Hdt2].
Qed.

(** X16. A build leaves alone the nodes of code it does not walk over:
    the mus of a load, the chis of a store, the mus and chis of a call
    site and the return mus of another function are the same before and
    after, when no reachable block and no block that the renaming
    visits belongs to that function or holds that load, store or call
    site. *)
Theorem buildMemSSA_leaves_other_nodes load store cs g fuel fn f tree s0 s' :
  fun_id fn <> g ->
  (forall b, b ∈ fun_reachableBBs fn \/ visits tree (fun_entryBlock fn) b ->
     block_avoids P load store cs g b) ->
  buildMemSSA P fuel fn f (Some tree) s0 = Ok s' ->
  nodes_untouched load store cs g s0 s'.
Proof. apply buildMemSSA_untouched. Qed.

End Extra3.

Lemma buildMemSSA_assigns_versions_witness :
  buildMemSSA prog 10 diamond (Some diamondDF) (Some diamondDT) initMemSSA = Ok diamond3 /\
  visits diamondDT (fun_entryBlock diamond) 3 /\
  block_done prog 3 diamond3.
Proof.
  assert (buildMemSSA prog 10 diamond (Some diamondDF) (Some diamondDT) initMemSSA =
          Ok diamond3) as H by (vm_compute; reflexivity).
  assert (visits diamondDT (fun_entryBlock diamond) 3) as Hv.
  { apply (visits_child diamondDT 0 [1; 2; 3] 3 3).
    - vm_compute. reflexivity.
    - right. right. left.
    - apply visits_here. }
  split; [exact H|]. split; [exact Hv|].
  exact (buildMemSSA_assigns_versions prog 10 diamond (Some diamondDF) diamondDT
           initMemSSA diamond3 3 H Hv).
Defined.

Lemma buildMemSSA_leaves_other_nodes_witness :
  fun_id single <> 1 /\
  (forall b, b ∈ fun_reachableBBs single \/ visits singleDT (fun_entryBlock single) b ->
     block_avoids prog 20 10 0 1 b) /\
  buildMemSSA prog 10 single (Some singleDF) (Some singleDT) diamond3 = Ok single3 /\
  nodes_untouched 20 10 0 1 diamond3 single3.
Proof.
  assert (fun_id single <> 1) as Hg by (simpl; lia).
  assert (forall b, b ∈ fun_reachableBBs single \/ visits singleDT (fun_entryBlock single) b ->
            block_avoids prog 20 10 0 1 b) as Hav.
  { intros b Hb. assert (b = 10) as ->.
    { destruct Hb as [Hb|Hb].
      - simpl in Hb. by apply list_elem_of_singleton in Hb.
      - simpl in Hb. inversion Hb as [|? children c ? Hl Hc Hv']; subst; [done|].
        unfold singleDT in Hl. apply lookup_singleton_Some in Hl as [_ <-].
        by apply elem_of_nil in Hc. }
    split; [simpl; lia|]. intros inst Hin. simpl in Hin.
    repeat (apply elem_of_cons in Hin as [->|Hin]); [| |by apply elem_of_nil in Hin].
    - split; [|done]. intros _. simpl. split; intros Hx.
      + apply list_elem_of_singleton in Hx. discriminate.
      + apply list_elem_of_singleton in Hx. injection Hx as Hx. lia.
    - split; [|done]. intros Hx. discriminate. }
  assert (buildMemSSA prog 10 single (Some singleDF) (Some singleDT) diamond3 = Ok single3)
    as H by (vm_compute; reflexivity).
  split; [exact Hg|]. split; [exact Hav|]. split; [exact H|].
  exact (buildMemSSA_leaves_other_nodes prog 20 10 0 1 10 single (Some singleDF) singleDT
           diamond3 single3 Hg Hav H).
Defined.
